(** * RECAR: bounded Delta-diagnosability of timed automata

    A shallow embedding of the Python sources
      - [automaton.py], [state.py], [transition.py]  (the automaton model),
      - [parsert.py], [generate_automaton.py]        (the two header parsers, and
                                                      the whole parser of
                                                      [parsert.py]),
      - [suggestion.py]                              (the encoder [Z3Model], its
                                                      search driver [run] and its
                                                      reports),
    followed by the properties of the specification that were checked
    against them.

    Conventions.
      - Python exceptions are values of [exn]; a function that may raise
        returns [result A].
      - Python lists are Rocq lists, indexed with stdpp's [!!]; a failed
        lookup is the [IndexError] Python raises.
      - Python dicts are [gmap]s.
      - z3 expressions are terms of the inductive types [iexp], [rexp] and
        [form]; the solver's assertion stack is a [list form]; a z3 model
        is a [model], and [eval] is the satisfaction relation.  z3's [Real]
        sort is interpreted in [Q]. *)

From Stdlib Require Import ZArith QArith String Ascii List Bool Lia.
From Stdlib Require Import DecimalString DecimalNat.
From stdpp Require Import base option list strings gmap.

Local Open Scope string_scope.
Local Open Scope list_scope.
Local Open Scope Z_scope.

(* ===================================================================== *)
(** ** Python primitives                                                  *)
(* ===================================================================== *)

Module Py.

(** The exceptions the modelled code can raise. *)
Inductive exn : Type :=
  | IndexError
  | KeyError
  | ValueError
  | AssertionError.

Inductive result (A : Type) : Type :=
  | Ok (a : A)
  | Raise (e : exn).
Arguments Ok {A} a.
Arguments Raise {A} e.

#[global] Instance result_ret : MRet result := fun _ a => Ok a.
#[global] Instance result_bind : MBind result := fun _ _ f r =>
  match r with
  | Ok a => f a
  | Raise e => Raise e
  end.

(** [o ?! e]: the value of a lookup, or the exception [e]. *)
Definition or_raise {A} (o : option A) (e : exn) : result A :=
  match o with
  | Some a => Ok a
  | None => Raise e
  end.
Notation "o ?! e" := (or_raise o e) (at level 45, left associativity).

(** [assert(b)]. *)
Definition assert (b : bool) : result unit :=
  if b then Ok tt else Raise AssertionError.

(** [for x in l: ...] in the exception monad, collecting what each
    iteration produces; the first exception aborts the loop. *)
Fixpoint for_each {A B} (f : A -> result (list B)) (l : list A)
  : result (list B) :=
  match l with
  | [] => Ok []
  | x :: l' => ys ← f x; zs ← for_each f l'; Ok (ys ++ zs)
  end.

(** [s.startswith(p)]. *)
Fixpoint startswith (p s : string) : bool :=
  match p, s with
  | EmptyString, _ => true
  | String a p', String b s' => if Ascii.eqb a b then startswith p' s' else false
  | String _ _, EmptyString => false
  end.

(** [s.split(sep)] for a non-empty separator: the pieces between the
    leftmost, non-overlapping occurrences of [sep].  [skip] counts the
    characters of an occurrence that are still to be dropped.  (Python
    raises [ValueError] on an empty separator; every call site below
    passes a non-empty one.) *)
Fixpoint split_go (sep : string) (skip : nat) (s : string) : list string :=
  match s with
  | EmptyString => [EmptyString]
  | String c s' =>
      match skip with
      | S k => split_go sep k s'
      | O =>
          if startswith sep s
          then EmptyString :: split_go sep (String.length sep - 1) s'
          else match split_go sep 0 s' with
               | piece :: pieces => String c piece :: pieces
               | [] => [String c EmptyString]
               end
      end
  end.

Definition split (sep s : string) : list string := split_go sep 0 s.

(** [str(n)] for a non-negative integer. *)
Definition str (n : nat) : string := NilZero.string_of_uint (Nat.to_uint n).

(** [s[0]]. *)
Definition head_char (s : string) : result ascii :=
  match s with
  | EmptyString => Raise IndexError
  | String c _ => Ok c
  end.

(** [l[i]] for a Python integer [i]: negative indices count from the end. *)
Definition index (len : nat) (i : Z) : option nat :=
  if (0 <=? i) && (i <? Z.of_nat len) then Some (Z.to_nat i)
  else if (- Z.of_nat len <=? i) && (i <? 0) then Some (Z.to_nat (Z.of_nat len + i))
  else None.

(** [range(n)]. *)
Definition range (n : nat) : list nat := seq 0 n.

End Py.
Export Py.

(* ===================================================================== *)
(** ** The automaton model ([state.py], [transition.py], [automaton.py])  *)
(* ===================================================================== *)

(** A state invariant is either a Python [int] (the parser's default [1],
    the trivial invariant) or the text read from the invariant section. *)
Inductive invariant_t : Type :=
  | InvInt (z : Z)
  | InvStr (s : string).

(** [class State]. *)
Record State : Type := mkState {
  id_state : Z;
  invariant : invariant_t
}.

(** [class Transition].  The class-wide counter [uniq_id] only feeds
    [__str__] and is left out. *)
Record Transition : Type := mkTransition {
  source : State;
  target : State;
  event : Z;
  guard : list string;
  reset : list Z
}.

Definition getFinalState (t : Transition) : State := target t.
Definition getSourceState (t : Transition) : State := source t.
Definition getResetList (t : Transition) : list Z := reset t.
Definition getGuard (t : Transition) : list string := guard t.
Definition getEventId (t : Transition) : Z := event t.
Definition getInvariant (q : State) : invariant_t := invariant q.
Definition getId (q : State) : Z := id_state q.

(** [==] on states.  [State] defines no [__eq__], so Python compares
    object identity; [addState] creates one object per id and every
    transition takes its states from [mapState], so identity is equality
    of ids. *)
Definition state_eq (p q : State) : bool := id_state p =? id_state q.

(** [class Automaton] (the fields the diagnosers cache are left out). *)
Record Automaton : Type := mkAutomaton {
  mapState : gmap Z State;
  transitionList : list Transition;
  initialStateId : Z;
  maxLabel : Z;
  clockNum : nat;
  unobserverNum : Z;
  observerNum : Z;
  invariantDict : gmap Z string
}.

Definition addState (a : Automaton) (stateId : Z) (inv : invariant_t)
  : Automaton :=
  let maxLabel' := if maxLabel a <? stateId then stateId else maxLabel a in
  let mapState' :=
    match mapState a !! stateId with
    | Some _ => mapState a
    | None => <[stateId := mkState stateId inv]> (mapState a)
    end in
  mkAutomaton mapState' (transitionList a) (initialStateId a) maxLabel'
    (clockNum a) (unobserverNum a) (observerNum a) (invariantDict a).

Definition appendTransition (a : Automaton) (sourceId finalId : Z)
    (ev : Z) (g : list string) (resetList : list Z) : result Automaton :=
  src ← mapState a !! sourceId ?! AssertionError;
  tgt ← mapState a !! finalId ?! AssertionError;
  Ok (mkAutomaton (mapState a)
        (transitionList a ++ [mkTransition src tgt ev g resetList])
        (initialStateId a) (maxLabel a) (clockNum a) (unobserverNum a)
        (observerNum a) (invariantDict a)).

(** [Automaton.__init__]: the constructor itself adds state [-1] and, at
    index 0 of the transition list, the self-loop [-1 -> -1] with event 0
    and guard [c_i >= 0] for every clock. *)
Definition Automaton_init (initialStateId0 : Z) (clockNum0 : nat)
    (unobserverNum0 observerNum0 : Z) (invariantDict0 : gmap Z string)
  : result Automaton :=
  let a := mkAutomaton ∅ [] initialStateId0 (-1) clockNum0
             unobserverNum0 observerNum0 invariantDict0 in
  let a := addState a (-1) (InvInt 1) in
  appendTransition a (-1) (-1) 0
    (map (fun i => "c" +:+ str (i + 1) +:+ ">=0") (range clockNum0)) [].

Definition getTransitionAt (a : Automaton) (idx : nat) : result Transition :=
  transitionList a !! idx ?! AssertionError.
Definition getNbTransition (a : Automaton) : nat := length (transitionList a).
Definition getTransitionList (a : Automaton) : list Transition :=
  transitionList a.
Definition getMaxStateLabel (a : Automaton) : Z := maxLabel a.
Definition getInitialState (a : Automaton) : result State :=
  mapState a !! initialStateId a ?! KeyError.

(* ===================================================================== *)
(** ** The header parsers                                                 *)
(* ===================================================================== *)

(** The names between the braces of a header token:
    [tok.split("{")[1].split("}")[0].split(",")]. *)
Definition brace_list (tok : string) : result (list string) :=
  inner ← split "{" tok !! 1%nat ?! IndexError;
  body ← split "}" inner !! 0%nat ?! IndexError;
  Ok (split "," body).

(** [for i, key in enumerate(keys): d[key] = i + base]. *)
Fixpoint assign_from (d : gmap string Z) (base : Z) (keys : list string)
  : gmap string Z :=
  match keys with
  | [] => d
  | key :: keys' => assign_from (<[key := base]> d) (base + 1) keys'
  end.

(** [for key in keys: d[key] = v]. *)
Fixpoint assign_all (d : gmap string Z) (v : Z) (keys : list string)
  : gmap string Z :=
  match keys with
  | [] => d
  | key :: keys' => assign_all (<[key := v]> d) v keys'
  end.

(** What [_parse_header] returns: [initState], [bound] and [delta] are
    still the header's tokens (Python applies [int] to them). *)
Record header : Type := mkHeader {
  h_initState : string;
  h_bound : string;
  h_delta : string;
  h_observable : list string;
  h_unobservable : list string;
  event_dict : gmap string Z;
  clockList : list string
}.

(** [parsert.py], the parser the encoder imports. *)
Module Parsert.

Definition _parse_header (header_line : string) : result header :=
  let parts := split " " header_line in
  i ← parts !! 1%nat ?! IndexError;
  b ← parts !! 3%nat ?! IndexError;
  d ← parts !! 5%nat ?! IndexError;
  p6 ← parts !! 6%nat ?! IndexError;
  observable ← brace_list p6;
  p7 ← parts !! 7%nat ?! IndexError;
  unobservable ← brace_list p7;
  let event_dict := assign_from ∅ 3 observable in
  let event_dict := assign_all event_dict 2 unobservable in
  clockString ← parts !! 9%nat ?! IndexError;
  clocks ← brace_list clockString;
  Ok (mkHeader i b d observable unobservable event_dict clocks).

(** The event of a transition line, [_parse_transition]:
    [1 if event == "f" else event_dict[event]], where [event_dict] is a
    [defaultdict(int)], so an unknown name reads as 0. *)
Definition transition_event (event_dict : gmap string Z) (ev : string) : Z :=
  if String.eqb ev "f" then 1 else default 0 (event_dict !! ev).

End Parsert.

(** [generate_automaton.py], the parser of the graph generator. *)
Module GenerateAutomaton.

Definition _parse_header (header_line : string) : result header :=
  let parts := split " " header_line in
  i ← parts !! 1%nat ?! IndexError;
  b ← parts !! 3%nat ?! IndexError;
  d ← parts !! 5%nat ?! IndexError;
  p6 ← parts !! 6%nat ?! IndexError;
  observable ← brace_list p6;
  p7 ← parts !! 7%nat ?! IndexError;
  unobservable ← brace_list p7;
  let event_dict := <["f" := 1]> (∅ : gmap string Z) in
  let event_dict := assign_from event_dict 2 unobservable in
  let event_dict :=
    assign_from event_dict (2 + Z.of_nat (length unobservable)) observable in
  clockString ← parts !! 9%nat ?! IndexError;
  clocks ← brace_list clockString;
  Ok (mkHeader i b d observable unobservable event_dict clocks).

End GenerateAutomaton.

(* ===================================================================== *)
(** ** z3 terms, models and satisfaction                                  *)
(* ===================================================================== *)

(** The two unrolled runs: [path_type] ['f'] and ['n']. *)
Inductive path_type : Type := Faulty | Normal.

(** The z3 constants of [Z3Model].  A constant stands for the list entry
    the code reads: [faultyPath[i]] is [Path Faulty i], whose z3 name is
    ["fp_" + str(i+1)], and so on; distinct constructors and indices are
    distinct z3 names. *)
Inductive ivar : Type :=
  | Path (p : path_type) (i : nat)          (* faultyPath / normalPath *)
  | LastlyActive (p : path_type) (i : nat)  (* lastlyActive*Path *)
  | IdTransition (p : path_type) (i : nat)  (* idTransition*Path *)
  | Length (p : path_type) (i : nat)        (* length*Path *)
  | LabelTransition (j : nat)               (* labelTransition *)
  | ResetInt (p : path_type) (k i : nat)    (* resetConstraint*Path[k][i], i >= 1 *)
  | BoundVar.                               (* bound *)

Inductive rvar : Type :=
  | CptFault (i : nat)                      (* cptFaultOccursByThePast *)
  | GlobalClock (p : path_type) (i : nat)   (* globalClock*Path *)
  | DelayClock (p : path_type) (i : nat)    (* delayClock*Path *)
  | ClockValue (p : path_type) (k i : nat)  (* clockValue*Path[k][i] *)
  | DeltaVar.                               (* delta *)

Inductive bvar : Type :=
  | Nop (p : path_type) (i : nat)           (* nop*Path *)
  | FaultOccurs (i : nat)                   (* faultOccursByThePast *)
  | CheckSynchro (i : nat)                  (* checkSynchro *)
  | ClockConstraint (p : path_type) (i : nat)
  | SourceInv (p : path_type) (k i : nat)
  | FinalInv (p : path_type) (k i : nat)
  | ResetBool (p : path_type) (k : nat)     (* resetConstraint*Path[k][0] *)
  | IsObservable (j : nat)                  (* isObservableTransition *)
  | AssumD (n : nat)                        (* "d" + str(n) *)
  | AssumB (n : nat)                        (* "b" + str(n) *)
  | AssumF (n : nat)                        (* "f" + str(n) *)
  | AssumFO (n : nat).                      (* "fo" + str(n) *)

Inductive iexp : Type :=
  | IVar (x : ivar)
  | IConst (z : Z)
  | IAdd (a b : iexp).

Inductive rexp : Type :=
  | RVar (x : rvar)
  | RConst (q : Q)
  | RAdd (a b : rexp).

Inductive cmp : Type := Ceq | Cne | Cle | Clt | Cge | Cgt.

#[warnings="-register-all"]
Inductive form : Type :=
  | BConst (b : bool)
  | BVar (x : bvar)
  | ICmp (c : cmp) (a b : iexp)
  | RCmp (c : cmp) (a b : rexp)
  | Not (f : form)
  | And (fs : list form)
  | Or (fs : list form)
  | Implies (f g : form)
  | BEq (f g : form)            (* [==] between two Booleans *)
  | If (c f g : form).

(** A z3 model: a value for every constant. *)
Record model : Type := mkModel {
  iv : ivar -> Z;
  rv : rvar -> Q;
  bv : bvar -> bool
}.

Fixpoint ieval (m : model) (e : iexp) : Z :=
  match e with
  | IVar x => iv m x
  | IConst z => z
  | IAdd a b => ieval m a + ieval m b
  end.

Fixpoint reval (m : model) (e : rexp) : Q :=
  match e with
  | RVar x => rv m x
  | RConst q => q
  | RAdd a b => (reval m a + reval m b)%Q
  end.

Definition icmp (c : cmp) (a b : Z) : bool :=
  match c with
  | Ceq => a =? b
  | Cne => negb (a =? b)
  | Cle => a <=? b
  | Clt => a <? b
  | Cge => b <=? a
  | Cgt => b <? a
  end.

Definition Qlt_bool (a b : Q) : bool := negb (Qle_bool b a).

Definition rcmp (c : cmp) (a b : Q) : bool :=
  match c with
  | Ceq => Qeq_bool a b
  | Cne => negb (Qeq_bool a b)
  | Cle => Qle_bool a b
  | Clt => Qlt_bool a b
  | Cge => Qle_bool b a
  | Cgt => Qlt_bool b a
  end.

(** Satisfaction of a formula in a model. *)
Fixpoint eval (m : model) (f : form) : bool :=
  match f with
  | BConst b => b
  | BVar x => bv m x
  | ICmp c a b => icmp c (ieval m a) (ieval m b)
  | RCmp c a b => rcmp c (reval m a) (reval m b)
  | Not f => negb (eval m f)
  | And fs => forallb (eval m) fs
  | Or fs => existsb (eval m) fs
  | Implies f g => implb (eval m f) (eval m g)
  | BEq f g => Bool.eqb (eval m f) (eval m g)
  | If c f g => if eval m c then eval m f else eval m g
  end.

(** [m] satisfies every formula of [fs]. *)
Definition models (m : model) (fs : list form) : Prop :=
  Forall (fun f => eval m f = true) fs.

Definition modelsb (m : model) (fs : list form) : bool := forallb (eval m) fs.

(** What [Solver.check] answers; on [sat] the model [Solver.model()]
    hands out. *)
Inductive check_result : Type :=
  | sat (m : model)
  | unsat
  | unknown.

(** The solver is an external collaborator: a function from the asserted
    formulas and the assumption literals of a query to an answer. *)
Definition solver : Type := list form -> list form -> check_result.

(** The one property of the solver the development relies on: a model it
    returns satisfies the assertions and the assumptions of the query. *)
Definition sound (check : solver) : Prop :=
  forall assertions assumptions m,
    check assertions assumptions = sat m ->
    models m assertions /\ models m assumptions.

(* ===================================================================== *)
(** ** The encoder: [class Z3Model] of [suggestion.py]                    *)
(* ===================================================================== *)

Definition NOP : Z := 0.
Definition FAULT : Z := 1.
Definition NO_OBS : Z := 2.
Definition NOP_TRANSITION : nat := 0.

(** The attributes of a [Z3Model].  [s] is the solver's assertion stack.
    The per-step lists of z3 constants are represented by their common
    length [nsteps] = [len(self.faultyPath)]: the lists of delays, fault
    counters and clock values hold one entry more, the others exactly
    [nsteps] (see [initialize_z3_variables] and [incVariableList]). *)
Record Z3Model : Type := mkZ3Model {
  s : list form;
  automaton : Automaton;
  BOUND : Z;
  DELTA : Z;
  initState : Z;
  nextTransition : list (list nat);
  idxAssum : nat;
  maxLabelTransition : Z;
  maxLabelState : Z;
  nsteps : nat;
  labelTransition : list ivar;
  resetTransition : list (list bool);
  clockTransition : list (list string);
  isObservableTransition : list bvar
}.

(** [self.s.add(...)], for several formulas in the order given. *)
Definition add (st : Z3Model) (fs : list form) : Z3Model :=
  mkZ3Model (s st ++ fs) (automaton st) (BOUND st) (DELTA st) (initState st)
    (nextTransition st) (idxAssum st) (maxLabelTransition st)
    (maxLabelState st) (nsteps st) (labelTransition st) (resetTransition st)
    (clockTransition st) (isObservableTransition st).

Definition fp (i : nat) : iexp := IVar (Path Faulty i).
Definition np (i : nat) : iexp := IVar (Path Normal i).
Definition int (n : nat) : iexp := IConst (Z.of_nat n).
Definition real (z : Z) : rexp := RConst (inject_Z z).

Section Encoder.

(** Python's [float] applied to a string: the number it denotes, or
    [ValueError].  It is a built-in, not code of the repository, and is a
    parameter of the encoder. *)
Variable float : string -> result Q.

(** *** Guards and invariants *)

(** One iteration of the [while] loop of [parseConstraints]. *)
Definition parseConstraint (constraint : string) : result (list string) :=
  after_c ← split "c" constraint !! 1%nat ?! IndexError;
  clock_num ← split ">" after_c !! 0%nat ?! IndexError;
  let clock := "c" +:+ clock_num in
  let parts := split clock constraint in
  Ok (flat_map (fun part =>
        match part with
        | EmptyString => []
        | String ch _ =>
            if Ascii.eqb ch ">" then [clock +:+ part] else [part +:+ clock]
        end) parts).

Definition parseConstraints (constraint_original : list string)
  : result (list string) :=
  for_each parseConstraint constraint_original.

(** The position of the first entry of [clocklist] equal to [clock]. *)
Fixpoint clock_position (clock : string) (clocklist : list string)
  : option nat :=
  match clocklist with
  | [] => None
  | clock_name :: rest =>
      if String.eqb clock clock_name then Some 0%nat
      else S <$> clock_position clock rest
  end.

Definition clockValue (p : path_type) (k idx : nat) : rexp :=
  RVar (ClockValue p k idx).

(** One iteration of the loop of [transConstraints]; the four values of
    [flag] are the comparisons [>], [>=], [<] and [<=]. *)
Definition transConstraint (nclocks idx : nat) (p : path_type)
    (constraint : string) : result (list form) :=
  let clocklist := map (fun i => "c" +:+ str (i + 1)) (range nclocks) in
  let parts := split "=" constraint in
  p0 ← parts !! 0%nat ?! IndexError;
  c0 ← head_char p0;
  '(flag, number, clock) ←
    (if Ascii.eqb c0 "c" then
       if (length parts =? 1)%nat then
         number ← split ">" p0 !! 1%nat ?! IndexError;
         clock ← split ">" p0 !! 0%nat ?! IndexError;
         Ok (Cgt, number, clock)
       else
         number ← parts !! 1%nat ?! IndexError;
         clock ← split ">" p0 !! 0%nat ?! IndexError;
         Ok (Cge, number, clock)
     else
       if (length parts =? 1)%nat then
         number ← split ">" p0 !! 0%nat ?! IndexError;
         clock ← split ">" p0 !! 1%nat ?! IndexError;
         Ok (Clt, number, clock)
       else
         number ← split ">" p0 !! 0%nat ?! IndexError;
         clock ← parts !! 1%nat ?! IndexError;
         Ok (Cle, number, clock));
  number ← float number;
  match clock_position clock clocklist with
  | Some j => Ok [RCmp flag (clockValue p j idx) (RConst number)]
  | None => Ok []
  end.

Definition transConstraints (nclocks : nat) (constraint_single : list string)
    (idx : nat) (p : path_type) : result (list form) :=
  for_each (transConstraint nclocks idx p) constraint_single.

(** The loop of [parseInv] over the atoms of a textual invariant: the
    first atom on clock [clock] decides. *)
Fixpoint parseInv_atoms (invariant_list : list string) (clock pos : nat)
    (p : path_type) : result form :=
  match invariant_list with
  | [] => Ok (BConst true)
  | inv :: rest =>
      clock_index ← split "c" inv !! 1%nat ?! IndexError;
      if String.eqb clock_index (str (clock + 1)) then
        bound_text ← split ">" inv !! 0%nat ?! IndexError;
        number ← float bound_text;
        Ok (RCmp Cle (clockValue p clock pos) (RConst number))
      else parseInv_atoms rest clock pos p
  end.

Definition parseInv (inv : invariant_t) (clock pos : nat) (p : path_type)
  : result form :=
  match inv with
  | InvInt z => Ok (BConst (z =? 1))
  | InvStr text => parseInv_atoms (split ";" text) clock pos p
  end.

(** *** Preprocessing: [setup_transitions] *)

(** [[j for j in range(n) if q == transitionList[j].getSourceState()]]. *)
Definition leaving (ts : list Transition) (q : State) (n : nat) : list nat :=
  List.filter (fun j =>
      match ts !! j with
      | Some t => state_eq q (getSourceState t)
      | None => false
      end) (range n).

(** Row [k] of [resetTransition]: entry [i] is [True] when some member
    [c] of the reset list of transition [i] denotes clock [k]. *)
Definition reset_row (nclocks : nat) (ts : list Transition) (k : nat)
  : list bool :=
  map (fun t =>
      existsb (fun c =>
          match index nclocks c with
          | Some k' => (k' =? k)%nat
          | None => false
          end) (getResetList t)) ts.

(** [self.resetTransition[c][i] = True] raises when [c] is no index of
    the [clockNum] rows. *)
Definition reset_indices_ok (nclocks : nat) (ts : list Transition)
  : result unit :=
  if forallb (fun t =>
        forallb (fun c => bool_decide (is_Some (index nclocks c)))
          (getResetList t)) ts
  then Ok tt else Raise IndexError.

Definition setup_transitions (st : Z3Model) : result Z3Model :=
  let a := automaton st in
  let nb := getNbTransition a in
  let transitionList0 := getTransitionList a in
  let next :=
    map (fun i =>
        match transitionList0 !! i with
        | Some ti =>
            NOP_TRANSITION :: leaving transitionList0 (getFinalState ti) nb
        | None => [NOP_TRANSITION]
        end) (range nb) in
  let maxLabelState' := getMaxStateLabel a + 1 in
  let a := addState a maxLabelState' (InvInt 1) in
  a ← appendTransition a maxLabelState' (initState st) 2
         (map (fun i => "c" +:+ str (i + 1) +:+ "=0") (range (clockNum a)))
         (map Z.of_nat (range (clockNum a)));
  let transitionList1 := getTransitionList a in
  init ← getInitialState a;
  let next :=
    next ++ [NOP_TRANSITION
             :: leaving transitionList1 init (getNbTransition a)] in
  let labels := map LabelTransition (range (getNbTransition a)) in
  _ ← reset_indices_ok (clockNum a) transitionList1;
  let resets :=
    map (reset_row (clockNum a) transitionList1) (range (clockNum a)) in
  let guards := map getGuard transitionList1 in
  let maxLabelTransition' :=
    fold_left (fun mx t => if mx <? getEventId t then getEventId t else mx)
      transitionList1 (maxLabelTransition st) in
  Ok (mkZ3Model (s st) a (BOUND st) (DELTA st) (initState st) next
        (idxAssum st) maxLabelTransition' maxLabelState' (nsteps st) labels
        resets guards (isObservableTransition st)).

(** *** The per-step constraints: [addConstraintOnIdTransition] *)

(** [resetConstraint*Path[k][pos] == b] for a Python Boolean [b].  The
    constant at position 0 is a z3 [Bool]; [incVariableList] appends z3
    [Int]s, against which z3 casts [True] to 1 and [False] to 0. *)
Definition reset_is (p : path_type) (k pos : nat) (b : bool) : form :=
  match pos with
  | O => BEq (BVar (ResetBool p k)) (BConst b)
  | S _ => ICmp Ceq (IVar (ResetInt p k pos)) (IConst (Z.b2z b))
  end.

(** [l[pos-1]] on a list of length [len]: at [pos = 0] the index is [-1],
    the last entry. *)
Definition before (len pos : nat) : nat :=
  match pos with
  | O => (len - 1)%nat
  | S i => i
  end.

(** The body of the loop over the clocks inside the loop over the
    transitions (source lines 173 to 191). *)
Definition bind_clock (st : Z3Model) (pos j k : nat) : result (list form) :=
  row ← resetTransition st !! k ?! IndexError;
  r ← row !! j ?! IndexError;
  transition ← getTransitionAt (automaton st) j;
  let sourceState := getSourceState transition in
  let finalState := getFinalState transition in
  srcF ← parseInv (getInvariant sourceState) k pos Faulty;
  finF ← parseInv (getInvariant finalState) k (pos + 1) Faulty;
  srcN ← parseInv (getInvariant sourceState) k pos Normal;
  finN ← parseInv (getInvariant finalState) k (pos + 1) Normal;
  Ok [ Implies (ICmp Ceq (fp pos) (int j)) (reset_is Faulty k pos r);
       Implies (ICmp Ceq (np pos) (int j)) (reset_is Normal k pos r);
       Implies (ICmp Ceq (fp pos) (int j))
         (BEq (BVar (SourceInv Faulty k pos)) (And [srcF]));
       Implies (ICmp Ceq (fp pos) (int j))
         (BEq (BVar (FinalInv Faulty k pos)) (And [finF]));
       Implies (ICmp Ceq (np pos) (int j))
         (BEq (BVar (SourceInv Normal k pos)) (And [srcN]));
       Implies (ICmp Ceq (np pos) (int j))
         (BEq (BVar (FinalInv Normal k pos)) (And [finN])) ].

(** The body of the loop over the transitions (source lines 163 to 191). *)
Definition bind_transition (st : Z3Model) (pos j : nat)
  : result (list form) :=
  let nclocks := clockNum (automaton st) in
  label ← labelTransition st !! j ?! IndexError;
  g ← clockTransition st !! j ?! IndexError;
  gF ← parseConstraints g ≫= fun cs => transConstraints nclocks cs pos Faulty;
  gN ← parseConstraints g ≫= fun cs => transConstraints nclocks cs pos Normal;
  per_clock ← for_each (bind_clock st pos j) (range nclocks);
  Ok ([ Implies (ICmp Ceq (fp pos) (int j))
          (ICmp Ceq (IVar (IdTransition Faulty pos)) (IVar label));
        Implies (ICmp Ceq (fp pos) (int j))
          (BEq (BVar (ClockConstraint Faulty pos)) (And gF));
        Implies (ICmp Ceq (np pos) (int j))
          (ICmp Ceq (IVar (IdTransition Normal pos)) (IVar label));
        Implies (ICmp Ceq (np pos) (int j))
          (BEq (BVar (ClockConstraint Normal pos)) (And gN)) ]
      ++ per_clock).

(** The clock updates and the discharge of the invariants, for clock
    [j] (source lines 196 to 208). *)
Definition update_clock (pos j : nat) : list form :=
  [ Implies (reset_is Faulty j pos true)
      (RCmp Ceq (clockValue Faulty j (pos + 1))
         (RAdd (real 0) (RVar (DelayClock Faulty (pos + 1)))));
    Implies (reset_is Faulty j pos false)
      (RCmp Ceq (clockValue Faulty j (pos + 1))
         (RAdd (clockValue Faulty j pos) (RVar (DelayClock Faulty (pos + 1)))));
    Implies (reset_is Normal j pos true)
      (RCmp Ceq (clockValue Normal j (pos + 1))
         (RAdd (real 0) (RVar (DelayClock Normal (pos + 1)))));
    Implies (reset_is Normal j pos false)
      (RCmp Ceq (clockValue Normal j (pos + 1))
         (RAdd (clockValue Normal j pos) (RVar (DelayClock Normal (pos + 1)))));
    And [ BEq (BVar (SourceInv Faulty j pos)) (BConst true);
          BEq (BVar (FinalInv Faulty j pos)) (BConst true) ];
    And [ BEq (BVar (SourceInv Normal j pos)) (BConst true);
          BEq (BVar (FinalInv Normal j pos)) (BConst true) ] ].

(** The length counters, emitted from step 1 on (source lines 225 to 231). *)
Definition length_rule (pos : nat) : list form :=
  match pos with
  | O => []
  | S prev =>
      [ If (ICmp Ceq (fp pos) (IConst 0))
          (ICmp Ceq (IVar (Length Faulty pos)) (IVar (Length Faulty prev)))
          (ICmp Ceq (IVar (Length Faulty pos))
             (IAdd (IVar (Length Faulty prev)) (IConst 1)));
        If (ICmp Ceq (np pos) (IConst 0))
          (ICmp Ceq (IVar (Length Normal pos)) (IVar (Length Normal prev)))
          (ICmp Ceq (IVar (Length Normal pos))
             (IAdd (IVar (Length Normal prev)) (IConst 1))) ]
  end.

(** The observable synchronisation (source lines 233 to 236). *)
Definition synchro_rule (pos : nat) (observable : bvar) : list form :=
  [ BEq (And [ Or [ ICmp Cgt (IVar (IdTransition Faulty pos)) (IConst NO_OBS);
                    ICmp Cgt (IVar (IdTransition Normal pos)) (IConst NO_OBS) ];
               BVar observable ])
        (BVar (CheckSynchro pos));
    Or [ Not (BVar (CheckSynchro pos));
         And [ ICmp Ceq (IVar (IdTransition Faulty pos))
                 (IVar (IdTransition Normal pos));
               RCmp Ceq (RVar (GlobalClock Faulty pos))
                 (RVar (GlobalClock Normal pos)) ] ] ].

(** The delays and the global clocks (source lines 210 to 223). *)
Definition delay_rule (len pos : nat) : list form :=
  [ RCmp Cge (RVar (DelayClock Faulty pos)) (real 0);
    RCmp Cge (RVar (DelayClock Normal pos)) (real 0);
    RCmp Cge (RVar (DelayClock Normal (pos + 1))) (real 0);
    RCmp Cge (RVar (DelayClock Faulty (pos + 1))) (real 0);
    RCmp Ceq (RVar (GlobalClock Faulty pos))
      (RAdd (RVar (GlobalClock Faulty (before len pos)))
            (RVar (DelayClock Faulty pos)));
    RCmp Ceq (RVar (GlobalClock Normal pos))
      (RAdd (RVar (GlobalClock Normal (before len pos)))
            (RVar (DelayClock Normal pos)));
    Implies (ICmp Ceq (fp pos) (IConst 0))
      (RCmp Ceq (RVar (DelayClock Faulty (pos + 1))) (real 0));
    Implies (ICmp Ceq (np pos) (IConst 0))
      (RCmp Ceq (RVar (DelayClock Normal (pos + 1))) (real 0)) ].

Definition addConstraintOnIdTransition (st : Z3Model) (pos : nat)
  : result Z3Model :=
  let nclocks := clockNum (automaton st) in
  bindings ←
    for_each (bind_transition st pos) (range (getNbTransition (automaton st)));
  let st := add st bindings in
  let st := add st
    [ BEq (BVar (ClockConstraint Faulty pos)) (BConst true);
      BEq (BVar (ClockConstraint Normal pos)) (BConst true) ] in
  let st := add st (flat_map (update_clock pos) (range nclocks)) in
  let st := add st (delay_rule (nsteps st) pos) in
  let st := add st (length_rule pos) in
  observable ← isObservableTransition st !! pos ?! IndexError;
  Ok (add st (synchro_rule pos observable)).

(** *** The initial step: [add_initial_constraints] *)

Definition set_isObservableTransition (st : Z3Model) (l : list bvar)
  : Z3Model :=
  mkZ3Model (s st) (automaton st) (BOUND st) (DELTA st) (initState st)
    (nextTransition st) (idxAssum st) (maxLabelTransition st)
    (maxLabelState st) (nsteps st) (labelTransition st) (resetTransition st)
    (clockTransition st) l.

(** The pinning of step 0 (source lines 128 to 134). *)
Definition initial_paths (st : Z3Model) (label0 : ivar) : list form :=
  let nb := getNbTransition (automaton st) in
  [ ICmp Ceq (IVar label0) (IConst 0);
    And (map (fun x => And [ ICmp Cge (IVar x) (IConst 0);
                             ICmp Cle (IVar x) (IConst (maxLabelTransition st)) ])
           (labelTransition st));
    ICmp Ceq (fp 0) (IConst (Z.of_nat nb - 1));
    ICmp Ceq (np 0) (IConst (Z.of_nat nb - 1));
    ICmp Ceq (fp 0) (IVar (LastlyActive Faulty 0));
    ICmp Ceq (np 0) (IVar (LastlyActive Normal 0)) ].

(** All clocks start at 0 (source lines 136 to 138). *)
Definition initial_clocks (nclocks : nat) : list form :=
  flat_map (fun i => [ RCmp Ceq (clockValue Faulty i 0) (real 0);
                       RCmp Ceq (clockValue Normal i 0) (real 0) ])
    (range nclocks).

(** The initial values of the counters and flags (source lines 140 to
    156). *)
Definition initial_counters : list form :=
  [ RCmp Ceq (RVar (GlobalClock Faulty 0)) (real 0);
    RCmp Ceq (RVar (GlobalClock Normal 0)) (real 0);
    ICmp Cne (IVar (IdTransition Normal 0)) (IConst FAULT);
    BEq (BVar (Nop Faulty 0)) (BConst false);
    BEq (BVar (Nop Normal 0)) (BConst false);
    BEq (BVar (FaultOccurs 0))
      (ICmp Ceq (IVar (IdTransition Faulty 0)) (IConst FAULT));
    RCmp Ceq (RVar (CptFault 0)) (real 0);
    ICmp Cge (IVar BoundVar) (IConst 0);
    RCmp Cge (RVar DeltaVar) (real 0);
    RCmp Ceq (RVar (DelayClock Faulty 0)) (real 0);
    RCmp Ceq (RVar (DelayClock Normal 0)) (real 0);
    ICmp Ceq (IVar (Length Normal 0)) (IConst 0);
    ICmp Ceq (IVar (Length Faulty 0)) (IConst 0) ].

Definition add_initial_constraints (st : Z3Model) : result Z3Model :=
  let nb := getNbTransition (automaton st) in
  let nclocks := clockNum (automaton st) in
  label0 ← labelTransition st !! 0%nat ?! IndexError;
  let st := add st (initial_paths st label0) in
  let st := add st (initial_clocks nclocks) in
  let st := add st initial_counters in
  let st := set_isObservableTransition st (map IsObservable (range nb)) in
  addConstraintOnIdTransition st 0.

(** [Z3Model.__init__], from what [Parser.parse] returned.
    [initialize_z3_variables] creates the step-0 constants ([nsteps] = 1);
    [create_observable_map] only fills a table for the printed report. *)
Definition Z3Model_init (a : Automaton) (bound delta : Z) : result Z3Model :=
  let st := mkZ3Model [] a bound delta 0 [] 0 0 0 1 [] [] [] [] in
  st ← setup_transitions st;
  add_initial_constraints st.

(** *** Extending the horizon: [incVariableList] and [incBound] *)

(** [incVariableList] appends one constant to every per-step list. *)
Definition incVariableList (st : Z3Model) : Z3Model :=
  mkZ3Model (s st) (automaton st) (BOUND st) (DELTA st) (initState st)
    (nextTransition st) (idxAssum st) (maxLabelTransition st)
    (maxLabelState st) (S (nsteps st)) (labelTransition st)
    (resetTransition st) (clockTransition st) (isObservableTransition st).

(** The last-active propagation of one run (source lines 301 to 308). *)
Definition lastlyActive_rule (p : path_type) (idx : nat) : list form :=
  [ Implies (ICmp Ceq (IVar (Path p idx)) (int NOP_TRANSITION))
      (ICmp Ceq (IVar (LastlyActive p idx))
         (IVar (LastlyActive p (idx - 1))));
    Implies (ICmp Cne (IVar (Path p idx)) (int NOP_TRANSITION))
      (ICmp Ceq (IVar (LastlyActive p idx)) (IVar (Path p idx))) ].

(** The legal-successor rule for transition [j] (source lines 310 to 314). *)
Definition successor_rule (st : Z3Model) (idx j : nat) : result (list form) :=
  next ← nextTransition st !! j ?! IndexError;
  Ok [ Implies (ICmp Ceq (IVar (LastlyActive Faulty (idx - 1))) (int j))
         (Or (map (fun n => ICmp Ceq (fp idx) (int n)) next));
       Implies (ICmp Ceq (IVar (LastlyActive Normal (idx - 1))) (int j))
         (Or (map (fun n => ICmp Ceq (np idx) (int n)) next)) ].

(** The stutter flags and the two stutter rules (source lines 323 to
    334). *)
Definition stutter_rule (idx : nat) : list form :=
  [ BEq (BVar (Nop Faulty idx)) (ICmp Ceq (fp idx) (int NOP_TRANSITION));
    BEq (BVar (Nop Normal idx)) (ICmp Ceq (np idx) (int NOP_TRANSITION));
    Or [ Not (BVar (Nop Faulty idx)); Not (BVar (Nop Normal idx)) ];
    Implies (BVar (Nop Faulty (idx - 1)))
      (Or [ BVar (Nop Faulty idx);
            ICmp Cgt (IVar (IdTransition Faulty idx)) (IConst NO_OBS) ]);
    Implies (BVar (Nop Normal (idx - 1)))
      (Or [ BVar (Nop Normal idx);
            ICmp Cgt (IVar (IdTransition Normal idx)) (IConst NO_OBS) ]) ].

(** The fault flag and the fault counter (source lines 336 to 345). *)
Definition fault_rule (idx : nat) : list form :=
  [ BEq (Or [ BVar (FaultOccurs (idx - 1));
              ICmp Ceq (IVar (IdTransition Faulty idx)) (IConst FAULT) ])
        (BVar (FaultOccurs idx));
    Implies (BEq (BVar (FaultOccurs (idx - 1))) (BConst false))
      (RCmp Ceq (RVar (CptFault idx)) (real 0));
    Implies (BEq (BVar (FaultOccurs idx)) (BConst false))
      (RCmp Ceq (RVar (CptFault (idx + 1))) (real 0));
    Implies (BEq (BVar (FaultOccurs idx)) (BConst true))
      (RCmp Ceq (RVar (CptFault (idx + 1)))
         (RAdd (RVar (CptFault idx)) (RVar (DelayClock Faulty (idx + 1))))) ].

Definition incBound (st : Z3Model) : result Z3Model :=
  let idx := nsteps st in
  _ ← assert (0 <? idx)%nat;
  let st := incVariableList st in
  let nb := getNbTransition (automaton st) in
  let st := add st
    [ ICmp Cle (fp idx) (int nb);
      ICmp Cle (np idx) (int nb);
      ICmp Cle (IVar (IdTransition Faulty idx)) (IConst (maxLabelTransition st));
      ICmp Cle (IVar (IdTransition Normal idx)) (IConst (maxLabelTransition st)) ] in
  let st := add st (lastlyActive_rule Faulty idx ++ lastlyActive_rule Normal idx) in
  successors ← for_each (successor_rule st idx) (range nb);
  let st := add st successors in
  let st := add st
    [ ICmp Cne (IVar (IdTransition Normal idx)) (IConst FAULT);
      RCmp Cge (RVar (DelayClock Faulty idx)) (real 0);
      RCmp Cge (RVar (DelayClock Normal idx)) (real 0) ] in
  st ← addConstraintOnIdTransition st idx;
  let st := add st (stutter_rule idx) in
  Ok (add st (fault_rule idx)).

(** *** The search driver: [run] *)

(** What a run does that can be seen from outside: the solver queries it
    makes and the lines it prints.  The timing lines, and the reading of
    the solver's statistics that feeds them, are left out. *)
Inductive action : Type :=
  | Checked (horizon : nat) (answer : check_result)
      (* [s.check(...)] with [len(self.faultyPath) = horizon] *)
  | Print_sat                       (* "sat" *)
  | Print_model (m : model) (cpt : Z)  (* [printModel(m, cpt)] *)
  | Print_increase (n : nat)        (* "Increase the bound: n" *)
  | Print_unsat                     (* "The problem is UNSAT" *)
  | Print_unsat_core.               (* [print_unsat_core()] *)

(** How a run ends: it returns, or an exception escapes. *)
Record run_result : Type := mkRun {
  trace : list action;
  final : result Z3Model
}.

Definition set_idxAssum (st : Z3Model) (n : nat) : Z3Model :=
  mkZ3Model (s st) (automaton st) (BOUND st) (DELTA st) (initState st)
    (nextTransition st) n (maxLabelTransition st) (maxLabelState st)
    (nsteps st) (labelTransition st) (resetTransition st)
    (clockTransition st) (isObservableTransition st).

(** The implications of the assumption literals of round [n] (source
    lines 559 to 562), at a horizon of [len] steps. *)
Definition assume_rule (n len : nat) (delta : Z) : list form :=
  [ Implies (BVar (AssumB n)) (ICmp Ceq (IVar BoundVar) (int len));
    Implies (BVar (AssumF n)) (RCmp Ceq (RVar (CptFault len)) (real delta));
    Implies (BVar (AssumFO n))
      (BEq (BVar (FaultOccurs (len - 1))) (BConst true)) ].

(** The assertions one round adds after [incBound] (source lines 555 to
    562): the implications of the three fresh assumption literals. *)
Definition assume_round (st : Z3Model) : Z3Model :=
  let st := set_idxAssum st (S (idxAssum st)) in
  let n := idxAssum st in
  add st (assume_rule n (nsteps st) (DELTA st)).

(** The assumptions of the query of a round (source lines 564 and 565):
    [assumD], then [assumB], [assumF] and the list [tmp]. *)
Definition assumptions (assumD : bvar) (st : Z3Model) (tmp : list bvar)
  : list form :=
  BVar assumD :: BVar (AssumB (idxAssum st)) :: BVar (AssumF (idxAssum st))
    :: map BVar tmp.

(** The [while cpt <= self.BOUND] loop.  [fuel] bounds the number of
    iterations; [None] means it ran out ([run] never does). *)
Fixpoint run_loop (check : solver) (fuel : nat) (cpt : Z)
    (assumD : bvar) (tmp : list bvar) (st : Z3Model) (tr : list action) : option run_result :=
  if cpt <=? BOUND st then
    match fuel with
    | O => None
    | S fuel' =>
        let cpt := cpt + 1 in
        match incBound st with
        | Raise e => Some (mkRun tr (Raise e))
        | Ok st =>
            let st := assume_round st in
            let res := check (s st) (assumptions assumD st tmp) in
            let tr := tr ++ [Checked (nsteps st) res] in
            match res with
            | sat m =>
                Some (mkRun (tr ++ [Print_sat; Print_model m cpt]) (Ok st))
            | _ =>
                run_loop check fuel' cpt assumD tmp st
                  (tr ++ [Print_increase (nsteps st)])
            end
        end
    end
  else Some (mkRun (tr ++ [Print_unsat; Print_unsat_core]) (Ok st)).

(** The assertions [run] makes before its loop: the implication of
    [assumD] and the pinning of every transition's label to its event. *)
Definition run_prelude (st : Z3Model) : result Z3Model :=
  let st := add st
    [ Implies (BVar (AssumD (idxAssum st)))
        (RCmp Ceq (RVar DeltaVar) (real (DELTA st))) ] in
  pins ← for_each (fun i =>
      label ← labelTransition st !! i ?! IndexError;
      t ← getTransitionAt (automaton st) i;
      Ok [ ICmp Ceq (IVar label) (IConst (getEventId t)) ])
    (range (getNbTransition (automaton st)));
  Ok (add st pins).

Definition run_fuel (check : solver) (fuel : nat) (st : Z3Model)
  : option run_result :=
  match run_prelude st with
  | Raise e => Some (mkRun [] (Raise e))
  | Ok st' =>
      run_loop check fuel 1 (AssumD (idxAssum st))
        (isObservableTransition st') st' []
  end.

(** [run], with the fuel that always suffices (see [run_fuel_enough]). *)
Definition run (check : solver) (st : Z3Model) : option run_result :=
  run_fuel check (Z.to_nat (BOUND st)) st.

End Encoder.

(* ===================================================================== *)
(** ** Concrete inputs used by the examples                               *)
(* ===================================================================== *)

(** A reading of [float] for the examples: it agrees with Python on the
    unsigned decimal integer numerals, the only numbers the example
    guards contain, and raises on every other text. *)
Definition float_of_numeral (text : string) : result Q :=
  match NilZero.uint_of_string text with
  | Some u => Ok (inject_Z (Z.of_nat (Nat.of_uint u)))
  | None => Raise ValueError
  end.

(* ===================================================================== *)
(** ** Auxiliary notions of the statements                                *)
(* ===================================================================== *)

(** [occurs c s]: the character [c] occurs in [s]. *)
Fixpoint occurs (c : ascii) (s : string) : bool :=
  match s with
  | EmptyString => false
  | String a s' => Ascii.eqb c a || occurs c s'
  end.

(** The characters of a decimal numeral. *)
Definition digit (c : ascii) : bool :=
  (Ascii.eqb c "0" || Ascii.eqb c "1" || Ascii.eqb c "2" || Ascii.eqb c "3"
   || Ascii.eqb c "4" || Ascii.eqb c "5" || Ascii.eqb c "6" || Ascii.eqb c "7"
   || Ascii.eqb c "8" || Ascii.eqb c "9")%char.

(** The guard [setup_transitions] gives the transition it appends. *)
Definition start_guard (nclocks : nat) : list string :=
  map (fun i => "c" +:+ str (i + 1) +:+ "=0") (range nclocks).

(** The steps of a run counted by the length counter: the steps [1..i]
    whose transition is not the stutter index [NOP_TRANSITION]. *)
Fixpoint nonNOP_count (m : model) (p : path_type) (i : nat) : Z :=
  match i with
  | O => 0
  | S i' =>
      nonNOP_count m p i'
      + (if iv m (Path p i) =? Z.of_nat NOP_TRANSITION then 0 else 1)
  end.

(** One iteration of the loop of [run] up to its query: [incBound], then
    the implications of the round's assumption literals. *)
Definition round (float : string -> result Q) (st : Z3Model)
  : result Z3Model :=
  st' ← incBound float st; Ok (assume_round st').

Fixpoint rounds (float : string -> result Q) (k : nat) (st : Z3Model)
  : result Z3Model :=
  match k with
  | O => Ok st
  | S k' => st' ← round float st; rounds float k' st'
  end.

(** A solver that only ever tries the model [m]: it answers [sat m] when
    [m] satisfies the query and [unsat] otherwise. *)
Definition solver_of_model (m : model) : solver :=
  fun assertions assumptions =>
    if modelsb m assertions && modelsb m assumptions then sat m else unsat.

(** A solver that never finds a model. *)
Definition solver_unsat : solver := fun _ _ => unsat.

(** The value of a computation known to succeed. *)
Definition from_ok {A} (d : A) (r : result A) : A :=
  match r with
  | Ok a => a
  | Raise _ => d
  end.

(** *** A small automaton

    The input file
<<
Initial_state 0 BOUND b DELTA d {a} {u} Clocks {c1}
0 u 1 c1>=0 0
>>
    has one clock and one silent transition [0 -> 1]; it has no fault
    transition.  [Parser.parse] of [parsert.py] builds its automaton by
    the calls below. *)
Definition empty_automaton : Automaton :=
  mkAutomaton ∅ [] 0 (-1) 0 0 0 ∅.

Definition silent_automaton : Automaton :=
  from_ok empty_automaton
    (a ← Automaton_init 0 1 (-1) 0 ∅;
     let a := addState a 0 (InvInt 1) in
     let a := addState a 1 (InvInt 1) in
     appendTransition a 0 1 2 ["c1>=0"] []).

(** The state [Z3Model.__init__] starts from, before [setup_transitions]. *)
Definition blank_model (a : Automaton) (bound delta : Z) : Z3Model :=
  mkZ3Model [] a bound delta 0 [] 0 0 0 1 [] [] [] [].

Definition empty_model : Z3Model := blank_model empty_automaton 0 0.

(** The encoder of the small automaton after [__init__]. *)
Definition silent_init (bound delta : Z) : Z3Model :=
  from_ok empty_model (Z3Model_init float_of_numeral silent_automaton bound delta).

(** A valuation of the constants of the small automaton for a horizon of
    two steps: the first run takes the silent transition (index 1) at
    step 1 while the second stutters (index 0); no time passes. *)
Definition silent_witness : model :=
  mkModel
    (fun x =>
       match x with
       | Path Faulty 0 => 2
       | Path Faulty _ => 1
       | Path Normal 0 => 2
       | Path Normal _ => 0
       | LastlyActive Faulty 0 => 2
       | LastlyActive Faulty _ => 1
       | LastlyActive Normal _ => 2
       | IdTransition Faulty _ => 2
       | IdTransition Normal 0 => 2
       | IdTransition Normal _ => 0
       | Length Faulty 0 => 0
       | Length Faulty _ => 1
       | Length Normal _ => 0
       | LabelTransition 0 => 0
       | LabelTransition _ => 2
       | ResetInt _ _ _ => 0
       | BoundVar => 2
       end)
    (fun _ => 0%Q)
    (fun x =>
       match x with
       | Nop Normal (S _) => true
       | Nop _ _ => false
       | FaultOccurs _ => false
       | CheckSynchro _ => false
       | AssumFO _ => false
       | _ => true
       end).

(** The numbering of the events of a header: the fault symbol [f] is 1,
    the unobservable names are numbered from 2 in the order of the
    header, and the observable names follow without a gap.  (Positions
    count from 0 here: position [i] is the [(i+1)]-th name.) *)
Definition numbered_consecutively (h : header) : Prop :=
  event_dict h !! "f" = Some 1
  /\ (forall (i : nat) (name : string),
        h_unobservable h !! i = Some name ->
        event_dict h !! name = Some (Z.of_nat i + 2))
  /\ (forall (j : nat) (name : string),
        h_observable h !! j = Some name ->
        event_dict h !! name
        = Some (Z.of_nat (length (h_unobservable h)) + 2 + Z.of_nat j)).

(** The numbering of [parsert.py]: the dictionary has no entry for [f]
    (a transition labelled [f] gets 1 when its line is parsed), every
    unobservable name is 2 and the observable names are numbered from 3. *)
Definition numbered_by_class (h : header) : Prop :=
  event_dict h !! "f" = None
  /\ Parsert.transition_event (event_dict h) "f" = 1
  /\ (forall name : string,
        name ∈ h_unobservable h -> event_dict h !! name = Some 2)
  /\ (forall (j : nat) (name : string),
        h_observable h !! j = Some name ->
        event_dict h !! name = Some (Z.of_nat j + 3)).

(** The event names of a header are pairwise distinct and none is [f]. *)
Definition distinct_events (h : header) : Prop :=
  NoDup ("f" :: h_unobservable h ++ h_observable h).

Definition example_header : string :=
  "Initial_state 0 BOUND 3 DELTA 0 {a} {u,v} Clocks {c1}".

(** [st'] carries the same automaton and the same tables as [st]: only
    the solver, the step count and the counter of assumption literals may
    differ. *)
Definition same_tables (st st' : Z3Model) : Prop :=
  automaton st' = automaton st
  /\ BOUND st' = BOUND st
  /\ DELTA st' = DELTA st
  /\ nextTransition st' = nextTransition st
  /\ maxLabelTransition st' = maxLabelTransition st
  /\ labelTransition st' = labelTransition st
  /\ resetTransition st' = resetTransition st
  /\ clockTransition st' = clockTransition st
  /\ isObservableTransition st' = isObservableTransition st.

(** [unrolled fs n nb]: the assertions [fs] contain what the encoder
    emits for a horizon of [n] steps over [nb] transitions, of which
    there are at least [n]: the initial
    values, the binding of step 0 to the label of the last transition,
    which is pinned to [NO_OBS], and, for every later step, the length,
    stutter and fault rules, and for every step the synchronisation
    rule. *)
Definition unrolled (fs : list form) (n nb : nat) : Prop :=
  (n <= nb)%nat
  /\ incl initial_counters fs
  /\ In (ICmp Ceq (fp 0) (IConst (Z.of_nat nb - 1))) fs
  /\ In (Implies (ICmp Ceq (fp 0) (int (nb - 1)))
           (ICmp Ceq (IVar (IdTransition Faulty 0))
              (IVar (LabelTransition (nb - 1))))) fs
  /\ In (ICmp Ceq (IVar (LabelTransition (nb - 1))) (IConst NO_OBS)) fs
  /\ (forall i : nat, (1 <= i < n)%nat ->
        incl (length_rule i) fs /\ incl (stutter_rule i) fs
        /\ incl (fault_rule i) fs)
  /\ (forall i : nat, (i < n)%nat ->
        incl (synchro_rule i (IsObservable i)) fs).

(** *** An automaton with a fault

    The input file
<<
Initial_state 0 BOUND 2 DELTA 3 {a} {u} Clocks {c1}
0 f 1 c1>=0 0
1 a 2 c1>=0 0
0 a 2 c1>=0 0
>>
    lets the fault [f] be followed by the observable event [a], which can
    also happen without the fault. *)
Definition fault_automaton : Automaton :=
  from_ok empty_automaton
    (a ← Automaton_init 0 1 (-1) 0 ∅;
     let a := addState a 0 (InvInt 1) in
     let a := addState a 1 (InvInt 1) in
     a ← appendTransition a 0 1 1 ["c1>=0"] [];
     let a := addState a 1 (InvInt 1) in
     let a := addState a 2 (InvInt 1) in
     a ← appendTransition a 1 2 3 ["c1>=0"] [];
     let a := addState a 0 (InvInt 1) in
     let a := addState a 2 (InvInt 1) in
     appendTransition a 0 2 3 ["c1>=0"] []).

Definition fault_init : Z3Model :=
  from_ok empty_model (Z3Model_init float_of_numeral fault_automaton 2 3).

(** A critical pair of the automaton with a fault, for a horizon of three
    steps.  The faulty run fires [f] (index 1) at time 0 and [a] (index
    2) at time 3; the normal run waits 3 time units, stutters (index 0),
    and fires [a] (index 3) at time 3. *)
Definition critical_pair : model :=
  mkModel
    (fun x =>
       match x with
       | Path Faulty 0 => 4
       | Path Faulty 1 => 1
       | Path Faulty _ => 2
       | Path Normal 0 => 4
       | Path Normal 1 => 0
       | Path Normal _ => 3
       | LastlyActive Faulty 0 => 4
       | LastlyActive Faulty 1 => 1
       | LastlyActive Faulty _ => 2
       | LastlyActive Normal 0 => 4
       | LastlyActive Normal 1 => 4
       | LastlyActive Normal _ => 3
       | IdTransition Faulty 0 => 2
       | IdTransition Faulty 1 => 1
       | IdTransition Faulty _ => 3
       | IdTransition Normal 0 => 2
       | IdTransition Normal 1 => 0
       | IdTransition Normal _ => 3
       | Length Faulty i => Z.of_nat i
       | Length Normal 0 => 0
       | Length Normal 1 => 0
       | Length Normal _ => 1
       | LabelTransition 0 => 0
       | LabelTransition 1 => 1
       | LabelTransition 2 => 3
       | LabelTransition 3 => 3
       | LabelTransition _ => 2
       | ResetInt _ _ _ => 0
       | BoundVar => 3
       end)
    (fun x =>
       match x with
       | CptFault 0 => 0
       | CptFault 1 => 0
       | CptFault _ => 3
       | GlobalClock Faulty 0 => 0
       | GlobalClock Faulty 1 => 0
       | GlobalClock Faulty _ => 3
       | GlobalClock Normal 0 => 0
       | GlobalClock Normal _ => 3
       | DelayClock Faulty 2 => 3
       | DelayClock Faulty _ => 0
       | DelayClock Normal 1 => 3
       | DelayClock Normal _ => 0
       | ClockValue Faulty _ 0 => 0
       | ClockValue Faulty _ 1 => 0
       | ClockValue Faulty _ _ => 3
       | ClockValue Normal _ 0 => 0
       | ClockValue Normal _ _ => 3
       | DeltaVar => 3
       end%Q)
    (fun x =>
       match x with
       | Nop Normal 1 => true
       | Nop _ _ => false
       | FaultOccurs 0 => false
       | FaultOccurs _ => true
       | CheckSynchro 2 => true
       | CheckSynchro _ => false
       | AssumB 2 => true
       | AssumB _ => false
       | AssumFO _ => false
       | _ => true
       end).

(** The value of an option known to be defined. *)
Definition from_some {A} (d : A) (o : option A) : A :=
  match o with
  | Some a => a
  | None => d
  end.

(** The run on the automaton with a fault, with the solver that tries
    the critical pair. *)
Definition fault_run : run_result :=
  from_some (mkRun [] (Raise AssertionError))
    (run float_of_numeral (solver_of_model critical_pair) fault_init).

(** Two computations end the same way: both succeed, or both raise the
    same exception. *)
Definition same_outcome {A B} (r : result A) (r' : result B) : Prop :=
  match r, r' with
  | Ok _, Ok _ => True
  | Raise e, Raise e' => e = e'
  | _, _ => False
  end.

(** [st'] has the automaton and the tables of labels, guards and resets
    of [st]. *)
Definition same_automaton (st st' : Z3Model) : Prop :=
  automaton st' = automaton st
  /\ labelTransition st' = labelTransition st
  /\ resetTransition st' = resetTransition st
  /\ clockTransition st' = clockTransition st.

(** [ready st nb]: [st] is a state of the encoder over [nb] transitions
    in which the next step can be encoded, as far as the tables go: the
    successor table and the list of observability flags have [nb]
    entries, and the guards and invariants of all transitions
    translate. *)
Definition ready (float : string -> result Q) (st : Z3Model) (nb : nat)
  : Prop :=
  (0 < nsteps st)%nat
  /\ getNbTransition (automaton st) = nb
  /\ length (nextTransition st) = nb
  /\ length (isObservableTransition st) = nb
  /\ exists bindings,
       for_each (bind_transition float st 0) (range nb) = Ok bindings.

(** The number of solver queries in a trace. *)
Fixpoint queries (tr : list action) : nat :=
  match tr with
  | [] => 0
  | Checked _ _ :: tr' => S (queries tr')
  | _ :: tr' => queries tr'
  end.

(** The binding of the label of run [p] at step [i] to the label of
    transition [j] (source lines 164, 165, 168 and 169). *)
Definition label_binding (p : path_type) (i j : nat) : form :=
  Implies (ICmp Ceq (IVar (Path p i)) (int j))
    (ICmp Ceq (IVar (IdTransition p i)) (IVar (LabelTransition j))).

(** The legal-successor rule of run [p] at step [i] for the last active
    transition [j], whose followers are [next] (source lines 311 to
    314). *)
Definition successor_of (p : path_type) (i j : nat) (next : list nat)
  : form :=
  Implies (ICmp Ceq (IVar (LastlyActive p (i - 1))) (int j))
    (Or (map (fun x => ICmp Ceq (IVar (Path p i)) (int x)) next)).

(** [chained fs n nb evs nexts]: the assertions [fs] contain, for a
    horizon of [n] steps over [nb] transitions with events [evs] and
    follower table [nexts], what ties the path of each run to the
    automaton: the pinning of step 0 to the last transition, the label
    bindings of every step, the pinning of every label to its event, the
    last-active propagation and the legal-successor rule of every later
    step. *)
Definition chained (fs : list form) (n nb : nat) (evs : list Z)
    (nexts : list (list nat)) : Prop :=
  (forall p, In (ICmp Ceq (IVar (Path p 0)) (IConst (Z.of_nat nb - 1))) fs)
  /\ (forall p, In (ICmp Ceq (IVar (Path p 0)) (IVar (LastlyActive p 0))) fs)
  /\ (forall p (i j : nat), (i < n)%nat -> (j < nb)%nat ->
        In (label_binding p i j) fs)
  /\ (forall (j : nat) (ev : Z), evs !! j = Some ev ->
        In (ICmp Ceq (IVar (LabelTransition j)) (IConst ev)) fs)
  /\ (forall p (i : nat), (1 <= i < n)%nat ->
        incl (lastlyActive_rule p i) fs)
  /\ (forall p (i j : nat) next, (1 <= i < n)%nat ->
        nexts !! j = Some next -> In (successor_of p i j next) fs).

(* ===================================================================== *)
(** ** Notions of the further properties                                  *)
(* ===================================================================== *)

(** The time a run has spent up to step [i]: the sum of its delays
    [delay[1] + ... + delay[i]]. *)
Fixpoint elapsed (m : model) (p : path_type) (i : nat) : Q :=
  match i with
  | O => 0
  | S i' => elapsed m p i' + rv m (DelayClock p i)
  end.

(** What [addConstraintOnIdTransition] asserts at step [pos] whatever the
    automaton's tables hold (source lines 193 to 223): the discharge of
    the guard flags, the clock updates and the discharge of the invariant
    flags of [nclocks] clocks, and the delay rules.  ([pos - 1] denotes
    the last entry at step 0, when the lists hold one entry.) *)
Definition step_core (nclocks pos : nat) : list form :=
  [ BEq (BVar (ClockConstraint Faulty pos)) (BConst true);
    BEq (BVar (ClockConstraint Normal pos)) (BConst true) ]
  ++ flat_map (update_clock pos) (range nclocks)
  ++ delay_rule (S pos) pos.

(** [encoded float st fs n]: the assertions [fs] contain, for every step
    below the horizon [n], the bindings of every transition of [st] and
    the table-independent rules of the step and the exclusion of the
    fault from the normal run, and the initial values of the clocks. *)
Definition encoded (float : string -> result Q) (st : Z3Model)
    (fs : list form) (n : nat) : Prop :=
  (forall i j : nat, (i < n)%nat ->
     (j < getNbTransition (automaton st))%nat ->
     exists zs, bind_transition float st i j = Ok zs /\ incl zs fs)
  /\ (forall i : nat, (i < n)%nat ->
        incl (step_core (clockNum (automaton st)) i) fs)
  /\ (forall i : nat, (i < n)%nat ->
        In (ICmp Cne (IVar (IdTransition Normal i)) (IConst FAULT)) fs)
  /\ incl (initial_clocks (clockNum (automaton st))) fs.

(** Whether taking transition [t] resets clock [k] of [nclocks]: the
    entry [resetTransition[k][j]] of a transition [t] at index [j]. *)
Definition resets_clock (nclocks : nat) (t : Transition) (k : nat) : bool :=
  existsb (fun c =>
      match index nclocks c with
      | Some k' => (k' =? k)%nat
      | None => false
      end) (getResetList t).


(** The faulty run carries the label [FAULT] at one of the steps
    [0..i]. *)
Definition fault_fired (m : model) (i : nat) : bool :=
  existsb (fun k => iv m (IdTransition Faulty k) =? FAULT) (range (S i)).

(** The text of the comparison of a guard atom: [>] or [>=]. *)
Definition gt_text (strict : bool) : string :=
  if strict then ">" else ">=".

(** A text in which none of the characters of the guard syntax occurs:
    no [c], [>], [=] or [;]. *)
Definition plain (text : string) : bool :=
  negb (occurs "c" text) && negb (occurs ">" text)
  && negb (occurs "=" text) && negb (occurs ";" text).

(** The translation of the guard of a transition at a step, as
    [addConstraintOnIdTransition] calls it (source lines 166 and 167):
    [transConstraints(parseConstraints(guard), pos, path_type)]. *)
Definition translate_guard (float : string -> result Q) (nclocks : nat)
    (g : list string) (idx : nat) (p : path_type) : result (list form) :=
  parseConstraints g ≫= fun cs => transConstraints float nclocks cs idx p.

(** What an observer sees of run [p] during the first [n] steps: the
    labels above [NO_OBS], each with the global time of its step. *)
Fixpoint observation (m : model) (p : path_type) (n : nat) : list (Z * Q) :=
  match n with
  | O => []
  | S i =>
      observation m p i
      ++ (if NO_OBS <? iv m (IdTransition p i)
          then [(iv m (IdTransition p i), rv m (GlobalClock p i))]
          else [])
  end.

(** Two observations agree: the same events at the same times. *)
Definition same_observation (o o' : list (Z * Q)) : Prop :=
  Forall2 (fun x y => fst x = fst y /\ (snd x == snd y)%Q) o o'.

(** The states of an automaton are filed in [mapState] under their ids,
    the states of its transitions are those of [mapState], and no id is
    above [maxLabel]. *)
Definition well_formed (a : Automaton) : Prop :=
  (forall k q, mapState a !! k = Some q -> id_state q = k)
  /\ (forall t, In t (transitionList a) ->
        mapState a !! id_state (source t) = Some (source t)
        /\ mapState a !! id_state (target t) = Some (target t))
  /\ (forall k q, mapState a !! k = Some q -> k <= maxLabel a).

(** [Automaton.getnextTransition]: row [i] lists, in increasing order,
    the transitions that leave the target state of transition [i]. *)
Definition getnextTransition (a : Automaton) : list (list nat) :=
  map (fun ti => leaving (transitionList a) (getFinalState ti)
                   (length (transitionList a)))
    (transitionList a).

(** *** The parser of [parsert.py], from the lines of the file

    The texts are sequences of ASCII characters. *)

(** The line that ends the transition section: a lone line feed. *)
Definition newline : string := String "010" EmptyString.

(** [c.isspace()] on an ASCII character. *)
Definition is_space (c : ascii) : bool :=
  let n := nat_of_ascii c in
  ((9 <=? n) && (n <=? 13) || (28 <=? n) && (n <=? 32))%nat.

(** [s.lstrip()], [s.rstrip()] and [s.strip()]. *)
Fixpoint lstrip (s : string) : string :=
  match s with
  | EmptyString => EmptyString
  | String c s' => if is_space c then lstrip s' else s
  end.

Fixpoint rstrip (s : string) : string :=
  match s with
  | EmptyString => EmptyString
  | String c s' =>
      match rstrip s' with
      | EmptyString => if is_space c then EmptyString
                       else String c EmptyString
      | r => String c r
      end
  end.

Definition strip (s : string) : string := lstrip (rstrip s).

(** [s[1:]]. *)
Definition tail_string (s : string) : string :=
  match s with
  | EmptyString => EmptyString
  | String _ s' => s'
  end.

(** What [_parse_transition] returns: the list
    [[sourceState, finalState, event, guard, resetList]]. *)
Record parsed_transition : Type := mkParsed {
  p_source : Z;
  p_target : Z;
  p_event : Z;
  p_guard : list string;
  p_reset : list Z
}.

(** [class Parser] of [parsert.py]. *)
Module Parser.

Section WithInt.

(** Python's [int] applied to a string: the integer it denotes, or
    [ValueError].  It is a built-in and a parameter of the parser. *)
Variable int_of_str : string -> result Z.

(** [_parse_header], with the conversions by [int] where the source
    makes them. *)
Definition _parse_header (header_line : string)
  : result (Z * Z * Z * gmap string Z * list string) :=
  let parts := split " " header_line in
  p1 ← parts !! 1%nat ?! IndexError;
  initState ← int_of_str p1;
  p3 ← parts !! 3%nat ?! IndexError;
  bound ← int_of_str p3;
  p5 ← parts !! 5%nat ?! IndexError;
  delta ← int_of_str p5;
  p6 ← parts !! 6%nat ?! IndexError;
  observable ← brace_list p6;
  p7 ← parts !! 7%nat ?! IndexError;
  unobservable ← brace_list p7;
  let event_dict := assign_from ∅ 3 observable in
  let event_dict := assign_all event_dict 2 unobservable in
  clockString ← parts !! 9%nat ?! IndexError;
  clocks ← brace_list clockString;
  Ok (initState, bound, delta, event_dict, clocks).

(** [event_dict[event]] on the [defaultdict(int)]: a name that is not a
    key reads as 0 and becomes a key. *)
Definition event_of (event_dict : gmap string Z) (ev : string)
  : Z * gmap string Z :=
  if String.eqb ev "f" then (1, event_dict)
  else match event_dict !! ev with
       | Some v => (v, event_dict)
       | None => (0, <[ev := 0]> event_dict)
       end.

(** [[int(elt[1:]) - 1 for elt in reset.split(';')] if reset != '0'
    else []]. *)
Definition reset_list (reset : string) : result (list Z) :=
  if String.eqb reset "0" then Ok []
  else for_each (fun elt => n ← int_of_str (tail_string elt); Ok [n - 1])
         (split ";" reset).

Definition _parse_transition (line : string) (initState : Z)
    (event_dict : gmap string Z)
  : result (parsed_transition * gmap string Z) :=
  let parts := split " " line in
  p0 ← parts !! 0%nat ?! IndexError;
  s0 ← split "," p0 !! 0%nat ?! IndexError;
  src ← int_of_str s0;
  p2 ← parts !! 2%nat ?! IndexError;
  t0 ← split "," p2 !! 0%nat ?! IndexError;
  tgt ← int_of_str t0;
  ev ← parts !! 1%nat ?! IndexError;
  let '(event, event_dict) := event_of event_dict ev in
  p3 ← parts !! 3%nat ?! IndexError;
  let guard := split ";" p3 in
  p4 ← parts !! 4%nat ?! IndexError;
  resetList ← reset_list (strip p4);
  Ok (mkParsed (src - initState) (tgt - initState) event guard resetList,
      event_dict).

(** [_parse_transitions], on the lines [context[1:]]: the loop stops at
    the first line that is a lone line feed. *)
Fixpoint _parse_transitions (lines : list string) (initState : Z)
    (event_dict : gmap string Z)
  : result (list parsed_transition * gmap string Z) :=
  match lines with
  | [] => Ok ([], event_dict)
  | line :: rest =>
      if String.eqb line newline then Ok ([], event_dict)
      else
        '(t, event_dict) ← _parse_transition line initState event_dict;
        '(ts, event_dict) ← _parse_transitions rest initState event_dict;
        Ok (t :: ts, event_dict)
  end.

(** [max(max(t[0], t[1]) for t in transitionList)]; [max] of an empty
    sequence raises [ValueError]. *)
Definition _get_max_state (transitionList : list parsed_transition)
  : result Z :=
  match map (fun t => Z.max (p_source t) (p_target t)) transitionList with
  | [] => Raise ValueError
  | x :: xs => Ok (fold_left Z.max xs x)
  end.

(** The loop of [_parse_invariants] over all lines of the file. *)
Fixpoint _parse_invariants_loop (lines : list string)
    (invariant_section : bool) (invariantsList : list invariant_t)
    (invariantDict : gmap Z string)
  : result (list invariant_t * gmap Z string) :=
  match lines with
  | [] => Ok (invariantsList, invariantDict)
  | line :: rest =>
      if String.eqb (strip line) "invariant:" then
        _parse_invariants_loop rest true invariantsList invariantDict
      else if invariant_section then
        let parts := split " " line in
        if (length parts <? 2)%nat then
          _parse_invariants_loop rest true invariantsList invariantDict
        else
          state_text ← parts !! 0%nat ?! IndexError;
          inv_text ← parts !! 1%nat ?! IndexError;
          state ← int_of_str (strip state_text);
          i ← index (length invariantsList) state ?! IndexError;
          _parse_invariants_loop rest true
            (<[i := InvStr (strip inv_text)]> invariantsList)
            (<[state := strip inv_text]> invariantDict)
      else
        _parse_invariants_loop rest false invariantsList invariantDict
  end.

Definition _parse_invariants (context : list string) (maxstate : Z)
  : result (list invariant_t * gmap Z string) :=
  _parse_invariants_loop context false
    (repeat (InvInt 1) (Z.to_nat (maxstate + 1))) ∅.

(** [invariantsList[state]] for a Python integer [state]. *)
Definition invariant_at (invariantsList : list invariant_t) (state : Z)
  : result invariant_t :=
  i ← index (length invariantsList) state ?! IndexError;
  invariantsList !! i ?! IndexError.

Fixpoint _add_transitions_to_automaton (a : Automaton)
    (transitionList : list parsed_transition)
    (invariantsList : list invariant_t) : result Automaton :=
  match transitionList with
  | [] => Ok a
  | t :: rest =>
      sourceState_inv ← invariant_at invariantsList (p_source t);
      finalState_inv ← invariant_at invariantsList (p_target t);
      let a := addState a (p_source t) sourceState_inv in
      let a := addState a (p_target t) finalState_inv in
      a ← appendTransition a (p_source t) (p_target t) (p_event t)
             (p_guard t) (p_reset t);
      _add_transitions_to_automaton a rest invariantsList
  end.

(** [parse], from [context = file.readlines()]. *)
Definition parse (context : list string) : result (Automaton * Z * Z) :=
  header_line ← context !! 0%nat ?! IndexError;
  '(initState, bound, delta, event_dict, clockList) ←
    _parse_header header_line;
  '(transitionList, event_dict) ←
    _parse_transitions (drop 1 context) initState event_dict;
  maxstate ← _get_max_state transitionList;
  '(invariantsList, invariantDict) ← _parse_invariants context maxstate;
  automaton ← Automaton_init initState (length clockList)
                 (Z.of_nat (size event_dict) - 3)
                 (Z.of_nat (size event_dict) - 2) invariantDict;
  automaton ← _add_transitions_to_automaton automaton transitionList
                 invariantsList;
  Ok (automaton, bound, delta).

End WithInt.

End Parser.

(** [Z3Model.__init__], from the lines of the input file. *)
Definition Z3Model_of_file (int_of_str : string -> result Z)
    (float : string -> result Q) (context : list string) : result Z3Model :=
  '(a, bound, delta) ← Parser.parse int_of_str context;
  Z3Model_init float a bound delta.

(** Transition [tr] of the automaton was built from the parsed line
    [t]. *)
Definition built_from (t : parsed_transition) (tr : Transition) : Prop :=
  id_state (source tr) = p_source t
  /\ id_state (target tr) = p_target t
  /\ event tr = p_event t
  /\ guard tr = p_guard t
  /\ reset tr = p_reset t.

(** The state ids the parsed lines mention. *)
Definition mentioned (ts : list parsed_transition) (k : Z) : Prop :=
  exists t, In t ts /\ (k = p_source t \/ k = p_target t).

(** A reading of [int] for the examples: it agrees with Python on the
    unsigned decimal numerals and raises on every other text. *)
Definition int_of_numeral (text : string) : result Z :=
  match NilZero.uint_of_string text with
  | Some u => Ok (Z.of_nat (Nat.of_uint u))
  | None => Raise ValueError
  end.

(** The lines of the input file of the automaton with a fault, as
    [readlines] returns them. *)
Definition fault_file : list string :=
  [ "Initial_state 0 BOUND 2 DELTA 3 {a} {u} Clocks {c1}" +:+ newline;
    "0 f 1 c1>=0 0" +:+ newline;
    "1 a 2 c1>=0 0" +:+ newline;
    "0 a 2 c1>=0 0" +:+ newline ].

(** An input file whose initial state is not 0: the states 1, 2 and 3 of
    the file become the states 0, 1 and 2 of the automaton. *)
Definition shifted_file : list string :=
  [ "Initial_state 1 BOUND 2 DELTA 3 {a} {u} Clocks {c1}" +:+ newline;
    "1 f 2 c1>=0 c1" +:+ newline;
    "2 a 3 c1>=0 0" +:+ newline;
    newline;
    "invariant:" +:+ newline;
    "1 5>=c1" +:+ newline ].

Definition shifted_init : Z3Model :=
  from_ok empty_model
    (Z3Model_of_file int_of_numeral float_of_numeral shifted_file).

(** The automaton [parse] builds from the lines of a file. *)
Definition automaton_of_file (context : list string) : Automaton :=
  match Parser.parse int_of_numeral context with
  | Ok (a, _, _) => a
  | Raise _ => empty_automaton
  end.

(** A file in which no transition mentions the initial state. *)
Definition file_without_state_0 : list string :=
  [ "Initial_state 0 BOUND 2 DELTA 3 {a} {u} Clocks {c1}" +:+ newline;
    "1 a 2 c1>=0 0" +:+ newline ].

(** A file whose initial state is 5: its states 5 and 6 become 0 and 1,
    and no state has the id 5. *)
Definition file_from_state_5 : list string :=
  [ "Initial_state 5 BOUND 2 DELTA 3 {a} {u} Clocks {c1}" +:+ newline;
    "5 a 6 c1>=0 0" +:+ newline ].

(** A file that resets a clock it does not declare. *)
Definition file_with_bad_reset : list string :=
  [ "Initial_state 0 BOUND 2 DELTA 3 {a} {u} Clocks {c1}" +:+ newline;
    "0 a 1 c1>=0 c3" +:+ newline ].

(** [sep.join(items)]. *)
Fixpoint join (sep : string) (items : list string) : string :=
  match items with
  | [] => EmptyString
  | [x] => x
  | x :: rest => x +:+ sep +:+ join sep rest
  end.

(** The reset field of a transition line that resets the clocks
    [c<n>] for [n] in [ns]: the text [0] when there is none. *)
Definition reset_text (ns : list nat) : string :=
  match ns with
  | [] => "0"
  | _ => join ";" (map (fun n => "c" +:+ str n) ns)
  end.

(** *** The report after UNSAT: [suggestions_based_on_unsat_core] *)

(** [sub in s]. *)
Fixpoint contains (sub s : string) : bool :=
  startswith sub s
  || match s with
     | EmptyString => false
     | String _ s' => contains sub s'
     end.

Definition path_tag (p : path_type) : string :=
  match p with Faulty => "fp" | Normal => "np" end.

(** [str(x)] for a Boolean constant [x]: the name it was created with
    ([initialize_z3_variables], [incVariableList],
    [add_initial_constraints] and [run]). *)
Definition z3_name (x : bvar) : string :=
  match x with
  | Nop p i => "nop_" +:+ path_tag p +:+ "_" +:+ str (i + 1)
  | FaultOccurs i => "faultOccurs_" +:+ str (i + 1)
  | CheckSynchro O => "check_synchro_1"
  | CheckSynchro i => "checkSynchro_" +:+ str (i + 1)
  | ClockConstraint p i => "constraint_" +:+ path_tag p +:+ "_" +:+ str (i + 1)
  | SourceInv p k i =>
      "sourceInv" +:+ str (k + 1) +:+ "_" +:+ path_tag p +:+ "_" +:+ str (i + 1)
  | FinalInv p k i =>
      "finalInv" +:+ str (k + 1) +:+ "_" +:+ path_tag p +:+ "_" +:+ str (i + 1)
  | ResetBool p k => "reset" +:+ str (k + 1) +:+ "_" +:+ path_tag p +:+ "_1"
  | IsObservable j => "isObservable_" +:+ str (j + 1)
  | AssumD n => "d" +:+ str n
  | AssumB n => "b" +:+ str n
  | AssumF n => "f" +:+ str n
  | AssumFO n => "fo" +:+ str n
  end.

(** The suggestion for one constraint of the core. *)
Definition suggestion_of (constraint_str : string) : string :=
  if contains "length_fp" constraint_str || contains "length_np" constraint_str
  then "Increase the bound."
  else if contains "delay_fp" constraint_str
          || contains "delay_np" constraint_str
  then "Adjust the delay constraints. Check if the delays are too restrictive."
  else if contains "constraint_fp" constraint_str
          || contains "constraint_np" constraint_str
  then "Review clock constraints. Ensure they are correctly defined."
  else if contains "cptFaultOccurs" constraint_str
  then "Review fault occurrence assumptions. Verify the fault occurrence timing."
  else if contains "bound" constraint_str
  then "Consider increasing the bound."
  else if contains "delta" constraint_str
  then "Adjust delta value. Ensure delta constraints are realistic."
  else "Review the constraint: " +:+ constraint_str.

(** The set [suggestions] that [suggestions_based_on_unsat_core] prints,
    for a core of Boolean constants. *)
Definition suggestions_based_on_unsat_core (unsat_core : list bvar)
  : gset string :=
  list_to_set (map (fun x => suggestion_of (z3_name x)) unsat_core).

(** *** The checker of a model: [checkModel] *)

(** [getTransitionAt(idx)] for a Python integer [idx]:
    [assert(0 <= idx < len(self.transitionList))]. *)
Definition getTransitionAt_int (a : Automaton) (idx : Z) : result Transition :=
  _ ← assert ((0 <=? idx) && (idx <? Z.of_nat (length (transitionList a))));
  transitionList a !! Z.to_nat idx ?! AssertionError.

(** One of the two loops of [checkModel], over the steps of run [p];
    [previous] is the last transition that was not a stutter step.  (The
    value [lv] is only read when [previous] is set, hence at a step
    [i > 0].) *)
Fixpoint checkModel_loop (a : Automaton) (m : model) (p : path_type)
    (steps : list nat) (previous : option Z) : result unit :=
  match steps with
  | [] => Ok tt
  | i :: rest =>
      let v := iv m (Path p i) in
      let lv := iv m (LastlyActive p (i - 1)) in
      let id := iv m (IdTransition p i) in
      let nop := bv m (Nop p i) in
      ok ← (if id =? 0 then Ok true
            else t ← getTransitionAt_int a v;
                 Ok (getId (getFinalState t) =? id));
      _ ← assert ok;
      _ ← assert (nop || negb (v =? 0));
      _ ← match previous with
          | None => Ok tt
          | Some prev =>
              ok ← (if nop then Ok true
                    else tp ← getTransitionAt_int a prev;
                         tv ← getTransitionAt_int a v;
                         Ok (state_eq (getFinalState tp) (getSourceState tv)));
              _ ← assert ok;
              assert (lv =? prev)
          end;
      checkModel_loop a m p rest (if nop then previous else Some v)
  end.

(** [checkModel(model)] at a horizon of [len(self.faultyPath)] steps. *)
Definition checkModel (st : Z3Model) (m : model) : result unit :=
  _ ← checkModel_loop (automaton st) m Faulty (range (nsteps st)) None;
  checkModel_loop (automaton st) m Normal (range (nsteps st)) None.

(** A line of the invariant section: the state, a space, the invariant
    and a line feed. *)
Definition invariant_line (entry : nat * string) : string :=
  str (fst entry) +:+ " " +:+ snd entry +:+ newline.

(** The list [invariantsList] after the lines of [entries] were read. *)
Definition with_invariants (entries : list (nat * string))
    (invariantsList : list invariant_t) : list invariant_t :=
  fold_left (fun il entry => <[fst entry := InvStr (snd entry)]> il)
    entries invariantsList.

Definition with_invariant_dict (entries : list (nat * string))
    (d : gmap Z string) : gmap Z string :=
  fold_left (fun d entry => <[Z.of_nat (fst entry) := snd entry]> d)
    entries d.

(** *** The diagnosers of [automaton.py]

    [getFaultDiagnoser] and [getNormalDiagnoser] read the table
    [self.nextTransition], which [getnextTransition] fills, and close a
    work list under it: the [for] loop runs over a list to which its
    body appends, so it also visits the items it appends. *)

(** The body of the inner loop on one row:
    [for x in row: if x not in seen: seen.add(x); work.append(x);
    new_level.append(x)].  Returns the set and the items appended. *)
Fixpoint visit (row : list nat) (seen : gset nat) : gset nat * list nat :=
  match row with
  | [] => (seen, [])
  | x :: row' =>
      if decide (x ∈ seen) then visit row' seen
      else let '(seen', added) := visit row' (seen ∪ {[x]}) in
           (seen', x :: added)
  end.

(** [for item in work: ...], where [succ item] is the row the body
    visits for [item]: [queue] holds the items of [work] still to come,
    the appended ones included, and [new_level] what was appended so
    far.  [None] means the fuel ran out. *)
Fixpoint scan (fuel : nat) (succ : nat -> result (list nat))
    (queue : list nat) (seen : gset nat) (new_level : list nat)
  : option (result (gset nat * list nat)) :=
  match queue with
  | [] => Some (Ok (seen, new_level))
  | item :: rest =>
      match fuel with
      | O => None
      | S fuel' =>
          match succ item with
          | Raise e => Some (Raise e)
          | Ok row =>
              let '(seen', added) := visit row seen in
              scan fuel' succ (rest ++ added) seen' (new_level ++ added)
          end
      end
  end.

(** [while work and new_level: new_level = []; for item in work: ...].
    [more] tells whether [new_level] is non-empty; [passes] bounds the
    number of iterations. *)
Fixpoint while_scan (passes fuel : nat) (succ : nat -> result (list nat))
    (work : list nat) (seen : gset nat) (more : bool)
  : option (result (gset nat * list nat)) :=
  match work, more with
  | _ :: _, true =>
      match passes with
      | O => None
      | S passes' =>
          match scan fuel succ work seen [] with
          | None => None
          | Some (Raise e) => Some (Raise e)
          | Some (Ok (seen', new_level)) =>
              while_scan passes' fuel succ (work ++ new_level) seen'
                (match new_level with [] => false | _ => true end)
          end
      end
  | _, _ => Some (Ok (seen, work))
  end.

(** The closure of a work list: two passes and this much fuel always
    suffice (see [closure_spec]). *)
Definition closure (bound : nat) (succ : nat -> result (list nat))
    (work : list nat) : option (result (gset nat * list nat)) :=
  while_scan 2 (S (length work + bound)) succ work ∅ true.

(** [[i for i in range(len(self.transitionList)) if
    self.transitionList[i].getEventId() == 1]]. *)
Definition faultTransitions (a : Automaton) : list nat :=
  List.filter (fun i =>
      match transitionList a !! i with
      | Some t => getEventId t =? 1
      | None => false
      end) (range (length (transitionList a))).

(** The rows the two loops of [getFaultDiagnoser] visit for an item:
    [self.nextTransition[item]], and the indices [i] of the rows that
    hold the item. *)
Definition next_row (nextTransition : list (list nat)) (item : nat)
  : result (list nat) :=
  nextTransition !! item ?! IndexError.

Definition previous_row (nextTransition : list (list nat)) (item : nat)
  : result (list nat) :=
  Ok (List.filter (fun i =>
        match nextTransition !! i with
        | Some row => bool_decide (item ∈ row)
        | None => false
        end) (range (length nextTransition))).

(** [getFaultDiagnoser], with the fields it reads as arguments:
    [nextTransition] is [self.nextTransition] and [faultDiagnoser] the
    value cached in [self.faultDiagnoser], which is returned when the
    automaton has no fault transition. *)
Definition getFaultDiagnoser (a : Automaton)
    (nextTransition : list (list nat)) (faultDiagnoser : gset nat)
  : option (result (gset nat)) :=
  let faults := faultTransitions a in
  match faults with
  | [] => Some (Ok faultDiagnoser)
  | _ =>
      match closure (length (concat nextTransition))
              (next_row nextTransition) faults with
      | None => None
      | Some (Raise e) => Some (Raise e)
      | Some (Ok (fd, _)) =>
          match closure (length nextTransition)
                  (previous_row nextTransition) faults with
          | None => None
          | Some (Raise e) => Some (Raise e)
          | Some (Ok (ffd, _)) => Some (Ok (fd ∪ ffd ∪ list_to_set faults))
          end
      end
  end.

(** The items [getNormalDiagnoser] starts from:
    [[i for i in range(len(self.transitionList)) if
    self.transitionList[i].getSourceState() == self.getInitialState()
    and self.transitionList[i].getEventId() != 1]]. *)
Definition mother (a : Automaton) : result (list nat) :=
  for_each (fun i =>
      t ← transitionList a !! i ?! IndexError;
      init ← getInitialState a;
      Ok (if state_eq (getSourceState t) init && negb (getEventId t =? 1)
          then [i] else []))
    (range (length (transitionList a))).

(** The row the loop of [getNormalDiagnoser] visits for an item: the
    nodes of [self.nextTransition[item]] whose event is not the
    fault. *)
Definition normal_row (a : Automaton) (nextTransition : list (list nat))
    (item : nat) : result (list nat) :=
  row ← nextTransition !! item ?! IndexError;
  for_each (fun node =>
      t ← transitionList a !! node ?! IndexError;
      Ok (if negb (getEventId t =? 1) then [node] else []))
    row.

Definition getNormalDiagnoser (a : Automaton)
    (nextTransition : list (list nat)) : option (result (gset nat)) :=
  match mother a with
  | Raise e => Some (Raise e)
  | Ok work =>
      match closure (length (concat nextTransition))
              (normal_row a nextTransition) work with
      | None => None
      | Some (Raise e) => Some (Raise e)
      | Some (Ok (nd, work')) => Some (Ok (nd ∪ list_to_set work'))
      end
  end.

(** The relation a row function induces, and its transitive closure. *)
Definition row_step (succ : nat -> result (list nat)) (x y : nat) : Prop :=
  exists row, succ x = Ok row /\ In y row.

Inductive reaches (succ : nat -> result (list nat)) : nat -> nat -> Prop :=
  | reaches_step x y : row_step succ x y -> reaches succ x y
  | reaches_more x y z :
      reaches succ x y -> row_step succ y z -> reaches succ x z.

(** An item the loop can meet: an item of the work list, or one reached
    from it. *)
Definition met (succ : nat -> result (list nat)) (work : list nat) (x : nat)
  : Prop :=
  In x work \/ exists w, In w work /\ reaches succ w x.

(** * Properties *)

(* ===================================================================== *)
(** ** Facts about the Python primitives                                  *)
(* ===================================================================== *)

Lemma bind_Ok {A B} (r : result A) (f : A -> result B) (b : B) :
  r ≫= f = Ok b -> exists a, r = Ok a /\ f a = Ok b.
Proof. destruct r as [a|e]; simpl; [eauto | discriminate]. Qed.

Lemma or_raise_Ok {A} (o : option A) (e : exn) (a : A) :
  o ?! e = Ok a -> o = Some a.
Proof. destruct o; simpl; congruence. Qed.

(** Inversion of a successful computation in the exception monad. *)
Ltac inv_ok H :=
  let a := fresh "x" in
  let H1 := fresh H "a" in
  let H2 := fresh H "b" in
  apply bind_Ok in H; destruct H as (a & H1 & H2).

(** The same, keeping the name of the hypothesis for the continuation. *)
Ltac inv_step H :=
  let a := fresh "x" in
  let E := fresh "E" in
  apply bind_Ok in H; destruct H as (a & E & H).


Lemma occurs_app c s t : occurs c (s +:+ t) = occurs c s || occurs c t.
Proof.
  induction s as [|a s IH]; simpl; [reflexivity|].
  rewrite IH. apply orb_assoc.
Qed.

Lemma split_char_absent c s :
  occurs c s = false -> split (String c EmptyString) s = [s].
Proof.
  unfold split. induction s as [|a s IH]; simpl; [reflexivity|].
  intros H. apply orb_false_iff in H as [Hc Hs].
  rewrite Hc, (IH Hs). reflexivity.
Qed.

Lemma split_char_first c s :
  occurs c s = false ->
  split (String c EmptyString) (String c s) = [EmptyString; s].
Proof.
  intros H. unfold split. simpl. rewrite Ascii.eqb_refl. simpl.
  f_equal. apply (split_char_absent c s H).
Qed.

Lemma startswith_refl s : startswith s s = true.
Proof. induction s as [|a s IH]; simpl; [|rewrite Ascii.eqb_refl]; auto. Qed.

Lemma split_go_skip_all sep s :
  split_go sep (String.length s) s = [EmptyString].
Proof. induction s as [|a s IH]; simpl; auto. Qed.

Lemma split_self a s :
  split (String a s) (String a s) = [EmptyString; EmptyString].
Proof.
  unfold split.
  change (split_go (String a s) 0 (String a s)) with
    (if startswith (String a s) (String a s)
     then EmptyString
          :: split_go (String a s) (String.length (String a s) - 1) s
     else match split_go (String a s) 0 s with
          | piece :: pieces => String a piece :: pieces
          | [] => [String a EmptyString]
          end).
  rewrite startswith_refl.
  replace (String.length (String a s) - 1)%nat with (String.length s)
    by (simpl; lia).
  rewrite split_go_skip_all. reflexivity.
Qed.


Lemma string_of_uint_digits c u :
  digit c = false -> occurs c (NilEmpty.string_of_uint u) = false.
Proof.
  unfold digit. intros H.
  repeat (apply orb_false_iff in H as [H ?]).
  induction u; simpl; auto;
    match goal with
    | |- (?b || _) = false => replace b with false by (symmetry; assumption)
    end; simpl; assumption.
Qed.

Lemma str_digits c n : digit c = false -> occurs c (str n) = false.
Proof.
  intros H. unfold str, NilZero.string_of_uint.
  destruct (Nat.to_uint n) eqn:E;
    try (rewrite <- E; apply string_of_uint_digits; exact H).
  simpl. unfold digit in H.
  repeat (apply orb_false_iff in H as [H ?]). rewrite H. reflexivity.
Qed.

(* ===================================================================== *)
(** ** Preprocessing                                                      *)
(* ===================================================================== *)


Lemma appendTransition_spec a sourceId finalId ev g resetList a' :
  appendTransition a sourceId finalId ev g resetList = Ok a' ->
  exists src tgt,
    transitionList a' = transitionList a ++ [mkTransition src tgt ev g resetList]
    /\ mapState a' = mapState a /\ clockNum a' = clockNum a
    /\ initialStateId a' = initialStateId a /\ maxLabel a' = maxLabel a.
Proof.
  unfold appendTransition. intros H.
  inv_ok H. inv_ok Hb. injection Hbb as <-.
  exists x, x0. simpl. auto.
Qed.

(** What [setup_transitions] leaves behind: one more transition, at the
    end of the list, with event [NO_OBS], the equality guards and all
    clocks reset; the tables of labels and guards follow the extended
    list; the solver and the step count are untouched. *)
Lemma setup_transitions_spec st st' :
  setup_transitions st = Ok st' ->
  exists src tgt,
    transitionList (automaton st')
      = transitionList (automaton st)
          ++ [mkTransition src tgt 2 (start_guard (clockNum (automaton st)))
                (map Z.of_nat (range (clockNum (automaton st))))]
    /\ clockNum (automaton st') = clockNum (automaton st)
    /\ clockTransition st' = map getGuard (transitionList (automaton st'))
    /\ labelTransition st'
       = map LabelTransition (range (getNbTransition (automaton st')))
    /\ s st' = s st /\ nsteps st' = nsteps st
    /\ BOUND st' = BOUND st /\ DELTA st' = DELTA st
    /\ idxAssum st' = idxAssum st
    /\ isObservableTransition st' = isObservableTransition st.
Proof.
  unfold setup_transitions. intros H.
  inv_ok H. inv_ok Hb. inv_ok Hbb. injection Hbbb as <-.
  apply appendTransition_spec in Ha as (src & tgt & Htl & _ & Hcn & _).
  simpl in Htl, Hcn. exists src, tgt. simpl.
  rewrite Hcn. unfold start_guard. auto 12.
Qed.

Lemma last_lookup_app {A} (l : list A) (x : A) :
  (l ++ [x]) !! (length (l ++ [x]) - 1)%nat = Some x.
Proof.
  rewrite length_app. simpl.
  replace (length l + 1 - 1)%nat with (length l + 0)%nat by lia.
  rewrite lookup_app_r by lia.
  replace (length l + 0 - length l)%nat with 0%nat by lia. reflexivity.
Qed.

Lemma map_lookup {A B} (f : A -> B) (l : list A) (i : nat) :
  map f l !! i = f <$> l !! i.
Proof.
  revert i. induction l as [|a l IH]; intros [|i]; simpl; auto.
Qed.

(* ===================================================================== *)
(** ** Equality guards                                                    *)
(* ===================================================================== *)

Section Guards.

Variable float : string -> result Q.

Lemma parseConstraint_equality (i : nat) :
  parseConstraint ("c" +:+ str i +:+ "=0") = Ok [].
Proof.
  unfold parseConstraint.
  assert (Hc : occurs "c" (str i +:+ "=0") = false)
    by (rewrite occurs_app, str_digits by reflexivity; reflexivity).
  assert (Hg : occurs ">" (str i +:+ "=0") = false)
    by (rewrite occurs_app, str_digits by reflexivity; reflexivity).
  change ("c" +:+ str i +:+ "=0") with (String "c" (str i +:+ "=0")).
  rewrite (split_char_first _ _ Hc). simpl.
  rewrite (split_char_absent _ _ Hg). simpl.
  change ("c" +:+ (str i +:+ "=0")) with (String "c" (str i +:+ "=0")).
  rewrite split_self. reflexivity.
Qed.

Lemma parseConstraints_start_guard (n : nat) :
  parseConstraints (start_guard n) = Ok [].
Proof.
  unfold parseConstraints, start_guard.
  induction (range n) as [|i l IH]; simpl; [reflexivity|].
  rewrite parseConstraint_equality. simpl.
  unfold start_guard in IH. rewrite IH. reflexivity.
Qed.

End Guards.

Section GuardEncoding.

Variable float : string -> result Q.

(** The first four formulas [bind_transition] emits for transition [j]. *)
Lemma bind_transition_head st pos j fs :
  bind_transition float st pos j = Ok fs ->
  exists label g gF gN rest,
    labelTransition st !! j = Some label
    /\ clockTransition st !! j = Some g
    /\ (parseConstraints g ≫= fun cs =>
          transConstraints float (clockNum (automaton st)) cs pos Faulty) = Ok gF
    /\ (parseConstraints g ≫= fun cs =>
          transConstraints float (clockNum (automaton st)) cs pos Normal) = Ok gN
    /\ fs = [ Implies (ICmp Ceq (fp pos) (int j))
                (ICmp Ceq (IVar (IdTransition Faulty pos)) (IVar label));
              Implies (ICmp Ceq (fp pos) (int j))
                (BEq (BVar (ClockConstraint Faulty pos)) (And gF));
              Implies (ICmp Ceq (np pos) (int j))
                (ICmp Ceq (IVar (IdTransition Normal pos)) (IVar label));
              Implies (ICmp Ceq (np pos) (int j))
                (BEq (BVar (ClockConstraint Normal pos)) (And gN)) ] ++ rest.
Proof.
  unfold bind_transition. intros H.
  inv_ok H. inv_ok Hb. inv_ok Hbb. inv_ok Hbbb. inv_ok Hbbbb.
  injection Hbbbbb as <-.
  apply or_raise_Ok in Ha, Hba.
  exists x, x0, x1, x2, x3. auto.
Qed.

(** C10.  [parseConstraints] drops equality atoms.  On a guard atom
    [c<i>=0] it returns the empty list, and so it does on the whole guard
    [c1=0, ..., cn=0] that [setup_transitions] attaches to the transition
    it appends.  The clock constraint the encoder binds to the choice of
    that transition is therefore the empty conjunction, which every
    valuation satisfies: the equality guard is not enforced at any step,
    on either run. *)
Theorem parseConstraints_drops_equality_guard st0 st pos fs :
  setup_transitions st0 = Ok st ->
  bind_transition float st pos (getNbTransition (automaton st) - 1) = Ok fs ->
  let j := (getNbTransition (automaton st) - 1)%nat in
  let nclocks := clockNum (automaton st) in
  (forall i : nat, parseConstraints ["c" +:+ str i +:+ "=0"] = Ok [])
  /\ clockTransition st !! j = Some (start_guard nclocks)
  /\ parseConstraints (start_guard nclocks) = Ok []
  /\ In (Implies (ICmp Ceq (fp pos) (int j))
           (BEq (BVar (ClockConstraint Faulty pos)) (And []))) fs
  /\ In (Implies (ICmp Ceq (np pos) (int j))
           (BEq (BVar (ClockConstraint Normal pos)) (And []))) fs
  /\ (forall m : model, eval m (And []) = true).
Proof.
  intros Hsetup Hbind j nclocks.
  apply setup_transitions_spec in Hsetup
    as (src & tgt & Htl & Hcn & Hct & _).
  assert (Hg : clockTransition st !! j = Some (start_guard nclocks)).
  { rewrite Hct, map_lookup. unfold j, getNbTransition.
    rewrite Htl, last_lookup_app. unfold nclocks. rewrite Hcn. reflexivity. }
  split; [|split; [exact Hg|split; [apply parseConstraints_start_guard|]]].
  { intros i. unfold parseConstraints. simpl.
    rewrite parseConstraint_equality. reflexivity. }
  apply bind_transition_head in Hbind
    as (label & g & gF & gN & rest & _ & Hg' & HF & HN & ->).
  fold j in Hg'. rewrite Hg in Hg'. injection Hg' as <-.
  fold nclocks in HF, HN.
  rewrite parseConstraints_start_guard in HF, HN. simpl in HF, HN.
  injection HF as <-. injection HN as <-.
  repeat split; simpl; auto.
Qed.

End GuardEncoding.

Lemma parseConstraints_drops_equality_guard_witness :
  parseConstraints (start_guard 1) = Ok [].
Proof.
  refine (proj1 (proj2 (proj2
    (parseConstraints_drops_equality_guard float_of_numeral
       (blank_model silent_automaton 1 0)
       (from_ok empty_model (setup_transitions (blank_model silent_automaton 1 0)))
       0%nat
       (from_ok [] (bind_transition float_of_numeral
          (from_ok empty_model
             (setup_transitions (blank_model silent_automaton 1 0))) 0 2))
       _ _)))); vm_compute; reflexivity.
Defined.

(* ===================================================================== *)
(** ** Event numbering                                                    *)
(* ===================================================================== *)

Lemma assign_from_absent (d : gmap string Z) base keys (k : string) :
  k ∉ keys -> assign_from d base keys !! k = d !! k.
Proof.
  revert d base. induction keys as [|key keys IH]; intros d base Hk; simpl.
  - reflexivity.
  - apply not_elem_of_cons in Hk as [Hne Hk].
    rewrite IH by exact Hk. apply lookup_insert_ne. congruence.
Qed.

Lemma assign_from_present (d : gmap string Z) base keys (i : nat) (k : string) :
  NoDup keys -> keys !! i = Some k ->
  assign_from d base keys !! k = Some (base + Z.of_nat i).
Proof.
  revert d base i. induction keys as [|key keys IH]; intros d base i Hnd Hi.
  - discriminate.
  - apply NoDup_cons in Hnd as [Hnotin Hnd]. destruct i as [|i]; simpl in *.
    + injection Hi as ->. rewrite assign_from_absent by exact Hnotin.
      rewrite lookup_insert_eq. f_equal. lia.
    + rewrite (IH _ _ i Hnd Hi). f_equal. lia.
Qed.

Lemma assign_all_absent (d : gmap string Z) v keys (k : string) :
  k ∉ keys -> assign_all d v keys !! k = d !! k.
Proof.
  revert d. induction keys as [|key keys IH]; intros d Hk; simpl.
  - reflexivity.
  - apply not_elem_of_cons in Hk as [Hne Hk].
    rewrite IH by exact Hk. apply lookup_insert_ne. congruence.
Qed.

Lemma assign_all_present (d : gmap string Z) v keys (k : string) :
  k ∈ keys -> assign_all d v keys !! k = Some v.
Proof.
  revert d. induction keys as [|key keys IH]; intros d Hk; simpl.
  - inversion Hk.
  - destruct (decide (k ∈ keys)) as [Hin|Hnotin].
    + apply IH, Hin.
    + apply elem_of_cons in Hk as [->|Hin]; [|contradiction].
      rewrite assign_all_absent by exact Hnotin. apply lookup_insert_eq.
Qed.

Lemma GenerateAutomaton_header_dict line h :
  GenerateAutomaton._parse_header line = Ok h ->
  event_dict h
  = assign_from (assign_from (<["f" := 1]> ∅) 2 (h_unobservable h))
      (2 + Z.of_nat (length (h_unobservable h))) (h_observable h).
Proof.
  unfold GenerateAutomaton._parse_header. intros H.
  repeat inv_step H. injection H as <-. reflexivity.
Qed.

Lemma Parsert_header_dict line h :
  Parsert._parse_header line = Ok h ->
  event_dict h = assign_all (assign_from ∅ 3 (h_observable h)) 2 (h_unobservable h).
Proof.
  unfold Parsert._parse_header. intros H.
  repeat inv_step H. injection H as <-. reflexivity.
Qed.

(** C6 (amended).  The two parsers number the events differently.  For a
    header whose event names are pairwise distinct and different from
    [f], the parser of [generate_automaton.py] maps [f] to 1, the i-th
    unobservable name to [i+1] and the j-th observable name to [u+1+j],
    [u] being the number of unobservable names.  The parser of
    [parsert.py], the one the encoder uses, keeps no entry for [f] (it
    gives 1 to a transition labelled [f]), maps every unobservable name
    to 2 and the j-th observable name to [j+2]. *)
Theorem header_event_numbering line hG hP :
  GenerateAutomaton._parse_header line = Ok hG ->
  Parsert._parse_header line = Ok hP ->
  distinct_events hG ->
  distinct_events hP ->
  numbered_consecutively hG /\ numbered_by_class hP.
Proof.
  intros HG HP HdG HdP. split.
  - apply GenerateAutomaton_header_dict in HG.
    unfold distinct_events in HdG.
    apply NoDup_cons in HdG as [Hf Hnd].
    apply NoDup_app in Hnd as (Hu & Hdisj & Ho).
    apply not_elem_of_app in Hf as [Hfu Hfo].
    unfold numbered_consecutively. rewrite HG. repeat split.
    + rewrite !assign_from_absent by assumption. apply lookup_insert_eq.
    + intros i name Hi.
      rewrite assign_from_absent
        by (apply Hdisj, (list_elem_of_lookup_2 _ i), Hi).
      rewrite (assign_from_present _ _ _ i name Hu Hi). f_equal. lia.
    + intros j name Hj.
      rewrite (assign_from_present _ _ _ j name Ho Hj). f_equal. lia.
  - apply Parsert_header_dict in HP.
    unfold distinct_events in HdP.
    apply NoDup_cons in HdP as [Hf Hnd].
    apply NoDup_app in Hnd as (Hu & Hdisj & Ho).
    apply not_elem_of_app in Hf as [Hfu Hfo].
    unfold numbered_by_class. rewrite HP. repeat split.
    + rewrite assign_all_absent, assign_from_absent by assumption.
      apply lookup_empty.
    + intros name Hin. apply assign_all_present, Hin.
    + intros j name Hj.
      rewrite assign_all_absent.
      * rewrite (assign_from_present _ _ _ j name Ho Hj). f_equal. lia.
      * intros Hin. apply (Hdisj name Hin), (list_elem_of_lookup_2 _ j), Hj.
Qed.

Lemma header_event_numbering_witness :
  numbered_consecutively
    (from_ok (mkHeader "" "" "" [] [] ∅ [])
       (GenerateAutomaton._parse_header example_header))
  /\ numbered_by_class
       (from_ok (mkHeader "" "" "" [] [] ∅ [])
          (Parsert._parse_header example_header)).
Proof.
  apply (header_event_numbering example_header).
  - vm_compute; reflexivity.
  - vm_compute; reflexivity.
  - apply (bool_decide_unpack _). vm_compute. exact I.
  - apply (bool_decide_unpack _). vm_compute. exact I.
Defined.

(** C6, as stated, fails for the parser of [parsert.py]: on a header with
    the unobservable names [u], [v] and the observable name [a] it
    numbers [v] 2 instead of 3 and [a] 3 instead of 4, and it has no
    entry for [f]. *)
Lemma parsert_numbering_counterexample :
  exists h,
    Parsert._parse_header example_header = Ok h
    /\ h_unobservable h = ["u"; "v"] /\ h_observable h = ["a"]
    /\ event_dict h !! "f" = None
    /\ event_dict h !! "v" = Some 2
    /\ event_dict h !! "a" = Some 3
    /\ ~ numbered_consecutively h.
Proof.
  eexists. split; [vm_compute; reflexivity|].
  repeat split; try (vm_compute; reflexivity).
  intros (Hf & _). vm_compute in Hf. discriminate.
Qed.

(* ===================================================================== *)
(** ** What the encoder asserts                                           *)
(* ===================================================================== *)

(** An inclusion between lists built by appending. *)
Ltac solve_incl :=
  unfold incl; intros ? ?; rewrite ?in_app_iff in *; tauto.

Lemma same_tables_refl st : same_tables st st.
Proof. unfold same_tables. auto 10. Qed.

Lemma same_tables_trans st1 st2 st3 :
  same_tables st1 st2 -> same_tables st2 st3 -> same_tables st1 st3.
Proof.
  unfold same_tables. intros H1 H2.
  destruct H1 as (?&?&?&?&?&?&?&?&?), H2 as (?&?&?&?&?&?&?&?&?).
  repeat split; congruence.
Qed.

Lemma for_each_In {A B} (f : A -> result (list B)) l ys x :
  for_each f l = Ok ys -> In x l -> exists zs, f x = Ok zs /\ incl zs ys.
Proof.
  revert ys. induction l as [|a l IH]; intros ys H Hin; [destruct Hin|].
  simpl in H. inv_ok H. inv_ok Hb. injection Hbb as <-.
  destruct Hin as [->|Hin].
  - exists x0. split; [exact Ha|]. apply incl_appl, incl_refl.
  - destruct (IH _ Hba Hin) as (zs & Hz & Hincl).
    exists zs. split; [exact Hz|]. apply incl_appr, Hincl.
Qed.

Lemma models_incl m fs gs : models m gs -> incl fs gs -> models m fs.
Proof.
  unfold models. rewrite !List.Forall_forall. intros H Hincl f Hf.
  apply H, Hincl, Hf.
Qed.

Lemma models_In m fs f : models m fs -> In f fs -> eval m f = true.
Proof. unfold models. rewrite List.Forall_forall. auto. Qed.

Lemma modelsb_models m fs : modelsb m fs = true -> models m fs.
Proof.
  unfold modelsb, models. rewrite forallb_forall, List.Forall_forall. auto.
Qed.

Lemma solver_of_model_sound m : sound (solver_of_model m).
Proof.
  intros assertions assumptions m'. unfold solver_of_model.
  destruct (modelsb m assertions) eqn:E1; simpl; [|discriminate].
  destruct (modelsb m assumptions) eqn:E2; [|discriminate].
  intros [= <-]. split; apply modelsb_models; assumption.
Qed.

Section EncoderFacts.

Variable float : string -> result Q.

Lemma addConstraintOnIdTransition_spec st pos st' :
  addConstraintOnIdTransition float st pos = Ok st' ->
  exists bindings observable,
    for_each (bind_transition float st pos)
      (range (getNbTransition (automaton st))) = Ok bindings
    /\ isObservableTransition st !! pos = Some observable
    /\ incl (s st) (s st')
    /\ incl bindings (s st')
    /\ incl (delay_rule (nsteps st) pos) (s st')
    /\ incl (length_rule pos) (s st')
    /\ incl (synchro_rule pos observable) (s st')
    /\ same_tables st st' /\ nsteps st' = nsteps st
    /\ idxAssum st' = idxAssum st.
Proof.
  unfold addConstraintOnIdTransition. intros H.
  inv_ok H. inv_ok Hb. injection Hbb as <-.
  apply or_raise_Ok in Hba. simpl in Hba.
  exists x, x0. simpl.
  repeat split; try assumption; try reflexivity; solve_incl.
Qed.

Lemma incBound_spec st st' :
  incBound float st = Ok st' ->
  let idx := nsteps st in
  (0 < idx)%nat
  /\ nsteps st' = S idx
  /\ idxAssum st' = idxAssum st
  /\ same_tables st st'
  /\ incl (s st) (s st')
  /\ incl (lastlyActive_rule Faulty idx ++ lastlyActive_rule Normal idx) (s st')
  /\ incl (length_rule idx) (s st')
  /\ incl (stutter_rule idx) (s st')
  /\ incl (fault_rule idx) (s st')
  /\ exists observable,
       isObservableTransition st !! idx = Some observable
       /\ incl (synchro_rule idx observable) (s st').
Proof.
  intros H. intros idx. unfold incBound in H.
  inv_ok H. inv_ok Hb. inv_ok Hbb. injection Hbbb as <-.
  unfold assert in Ha. destruct (0 <? nsteps st)%nat eqn:Hpos; [|discriminate].
  apply Nat.ltb_lt in Hpos.
  apply addConstraintOnIdTransition_spec in Hbba
    as (bindings & observable & _ & Hobs & Hs & _ & _ & Hlen & Hsyn
        & Htab & Hn & Hi).
  simpl in Hobs, Hs, Hn, Hi. fold idx in Hlen, Hsyn, Hobs.
  assert (Htab' : same_tables st x1).
  { unfold same_tables in *. simpl in Htab. exact Htab. }
  split; [exact Hpos|]. split; [unfold idx; simpl; congruence|].
  split; [simpl; congruence|]. split; [exact Htab'|].
  repeat split; simpl.
  1-5: intros f Hf; rewrite !in_app_iff;
    first [ tauto
          | left; left; apply Hlen, Hf
          | left; left; apply Hs; rewrite !in_app_iff in *; tauto ].
  exists observable. split; [exact Hobs|].
  intros f Hf. rewrite !in_app_iff. left; left. apply Hsyn, Hf.
Qed.

End EncoderFacts.

Lemma range_lookup (n i x : nat) : range n !! i = Some x -> x = i /\ (i < n)%nat.
Proof. unfold range. intros H. apply lookup_seq in H. lia. Qed.

Lemma range_In (n i : nat) : (i < n)%nat -> In i (range n).
Proof. unfold range. intros H. apply in_seq. lia. Qed.

Section DriverFacts.

Variable float : string -> result Q.

(** The label binding of transition [j] that a step asserts. *)
Lemma addConstraintOnIdTransition_binding st pos st' j label :
  addConstraintOnIdTransition float st pos = Ok st' ->
  (j < getNbTransition (automaton st))%nat ->
  labelTransition st !! j = Some label ->
  In (Implies (ICmp Ceq (fp pos) (int j))
        (ICmp Ceq (IVar (IdTransition Faulty pos)) (IVar label))) (s st')
  /\ In (Implies (ICmp Ceq (np pos) (int j))
           (ICmp Ceq (IVar (IdTransition Normal pos)) (IVar label))) (s st').
Proof.
  intros H Hj Hl.
  apply addConstraintOnIdTransition_spec in H
    as (bindings & o & Hb & _ & _ & Hincl & _).
  destruct (for_each_In _ _ _ j Hb (range_In _ _ Hj)) as (zs & Hz & Hzs).
  apply bind_transition_head in Hz
    as (label' & g & gF & gN & rest & Hl' & _ & _ & _ & ->).
  rewrite Hl in Hl'. injection Hl' as <-.
  split; apply Hincl, Hzs; simpl; auto.
Qed.

(** The state [Z3Model.__init__] leaves: a horizon of one step over the
    transitions of the automaton and the one [setup_transitions] adds. *)
Lemma Z3Model_init_spec a bound delta st :
  Z3Model_init float a bound delta = Ok st ->
  let nb := getNbTransition (automaton st) in
  nb = S (getNbTransition a)
  /\ (exists src tgt,
        transitionList (automaton st)
        = transitionList a
            ++ [mkTransition src tgt 2 (start_guard (clockNum a))
                  (map Z.of_nat (range (clockNum a)))])
  /\ nsteps st = 1%nat /\ idxAssum st = 0%nat
  /\ BOUND st = bound /\ DELTA st = delta
  /\ isObservableTransition st = map IsObservable (range nb)
  /\ labelTransition st = map LabelTransition (range nb)
  /\ incl initial_counters (s st)
  /\ In (ICmp Ceq (fp 0) (IConst (Z.of_nat nb - 1))) (s st)
  /\ In (Implies (ICmp Ceq (fp 0) (int (nb - 1)))
           (ICmp Ceq (IVar (IdTransition Faulty 0))
              (IVar (LabelTransition (nb - 1))))) (s st)
  /\ incl (synchro_rule 0 (IsObservable 0)) (s st).
Proof.
  intros H nb. unfold Z3Model_init in H.
  inv_ok H. rename x into st1.
  apply setup_transitions_spec in Ha
    as (src & tgt & Htl & Hcn & Hct & Hlt & Hs & Hn & HB & HD & Hi & Hio).
  simpl in Htl, Hcn, Hs, Hn, HB, HD, Hi, Hio.
  unfold add_initial_constraints in Hb. inv_ok Hb.
  pose proof Hbb as Hbind.
  apply addConstraintOnIdTransition_spec in Hbb
    as (bindings & o & _ & Hobs & Hincl & _ & _ & _ & Hsyn & Htab & Hn' & Hi').
  simpl in Hobs, Hincl, Hn', Hi'.
  assert (Hauto : automaton st = automaton st1).
  { unfold same_tables in Htab. simpl in Htab. tauto. }
  assert (Hnb : nb = S (getNbTransition a)).
  { unfold nb, getNbTransition. rewrite Hauto, Htl, length_app. simpl. lia. }
  assert (Hlab : labelTransition st = map LabelTransition (range nb)).
  { unfold same_tables in Htab. simpl in Htab.
    destruct Htab as (_&_&_&_&_&->&_). unfold nb. rewrite Hauto. exact Hlt. }
  assert (Hobs' : isObservableTransition st = map IsObservable (range nb)).
  { unfold same_tables in Htab. simpl in Htab.
    destruct Htab as (_&_&_&_&_&_&_&_&->). unfold nb. rewrite Hauto.
    reflexivity. }
  split; [exact Hnb|]. split; [exists src, tgt; rewrite Hauto; exact Htl|].
  split; [congruence|]. split; [congruence|].
  split; [unfold same_tables in Htab; simpl in Htab; intuition congruence|].
  split; [unfold same_tables in Htab; simpl in Htab; intuition congruence|].
  split; [exact Hobs'|]. split; [exact Hlab|].
  split; [intros f Hf; apply Hincl; rewrite !in_app_iff; auto|].
  split.
  { apply Hincl. rewrite !in_app_iff. left; left; right.
    unfold initial_paths. unfold nb. rewrite Hauto. simpl. auto. }
  split.
  { refine (proj1 (addConstraintOnIdTransition_binding _ 0 _ (nb - 1)
                     (LabelTransition (nb - 1)) Hbind _ _)).
    - simpl. fold (getNbTransition (automaton st1)).
      unfold nb. rewrite Hauto. rewrite Hnb in *.
      unfold nb in Hnb. rewrite Hauto in Hnb. lia.
    - simpl. rewrite Hlt, map_lookup.
      unfold nb. rewrite Hauto.
      replace (range (getNbTransition (automaton st1)) !! _)
        with (Some (getNbTransition (automaton st1) - 1)%nat); [reflexivity|].
      symmetry. unfold range. apply lookup_seq.
      unfold nb in Hnb. rewrite Hauto in Hnb. lia. }
  assert (o = IsObservable 0) as ->.
  { rewrite map_lookup in Hobs.
    destruct (range (getNbTransition (automaton st1)) !! 0%nat) eqn:E;
      [|discriminate].
    apply range_lookup in E as [-> _]. simpl in Hobs. congruence. }
  exact Hsyn.
Qed.

(** What [run] asserts before its loop. *)
Lemma run_prelude_spec st st' :
  run_prelude st = Ok st' ->
  incl (s st) (s st') /\ same_tables st st'
  /\ nsteps st' = nsteps st /\ idxAssum st' = idxAssum st
  /\ In (Implies (BVar (AssumD (idxAssum st)))
           (RCmp Ceq (RVar DeltaVar) (real (DELTA st)))) (s st')
  /\ (forall j label t,
        labelTransition st !! j = Some label ->
        transitionList (automaton st) !! j = Some t ->
        In (ICmp Ceq (IVar label) (IConst (getEventId t))) (s st')).
Proof.
  unfold run_prelude. intros H. inv_ok H. injection Hb as <-. simpl.
  split; [solve_incl|]. split; [unfold same_tables; simpl; auto 10|].
  split; [reflexivity|]. split; [reflexivity|].
  split; [rewrite !in_app_iff; simpl; auto|].
  intros j label t Hl Ht.
  assert (Hj : (j < getNbTransition (automaton st))%nat)
    by (apply lookup_lt_Some in Ht; exact Ht).
  destruct (for_each_In _ _ _ j Ha (range_In _ _ Hj)) as (zs & Hz & Hzs).
  simpl in Hz. rewrite Hl in Hz. simpl in Hz.
  unfold getTransitionAt in Hz. rewrite Ht in Hz. simpl in Hz.
  injection Hz as <-. rewrite in_app_iff. right. apply Hzs. simpl. auto.
Qed.

End DriverFacts.

Lemma unrolled_incl fs gs n nb :
  unrolled fs n nb -> incl fs gs -> unrolled gs n nb.
Proof.
  unfold unrolled. intros (H0 & H1 & H2 & H3 & H4 & H5 & H6) Hincl.
  split; [exact H0|]. split; [eapply incl_tran; eassumption|].
  split; [auto|]. split; [auto|]. split; [auto|]. split.
  - intros i Hi. destruct (H5 i Hi) as (Ha & Hb & Hc).
    repeat split; eapply incl_tran; eassumption.
  - intros i Hi. eapply incl_tran; [apply H6, Hi|exact Hincl].
Qed.

Section Rounds.

Variable float : string -> result Q.

Lemma round_spec st st' :
  round float st = Ok st' ->
  (0 < nsteps st)%nat
  /\ nsteps st' = S (nsteps st)
  /\ idxAssum st' = S (idxAssum st)
  /\ same_tables st st'
  /\ incl (s st) (s st')
  /\ incl (length_rule (nsteps st)) (s st')
  /\ incl (stutter_rule (nsteps st)) (s st')
  /\ incl (fault_rule (nsteps st)) (s st')
  /\ incl (assume_rule (idxAssum st') (nsteps st') (DELTA st')) (s st')
  /\ exists observable,
       isObservableTransition st !! nsteps st = Some observable
       /\ incl (synchro_rule (nsteps st) observable) (s st').
Proof.
  unfold round. intros H. inv_ok H. injection Hb as <-.
  apply incBound_spec in Ha
    as (Hpos & Hn & Hi & Htab & Hs & _ & Hlen & Hst & Hf & o & Ho & Hsyn).
  split; [exact Hpos|]. split; [exact Hn|]. split; [simpl; congruence|].
  split; [exact Htab|].
  unfold assume_round. simpl.
  repeat split; try (intros f Hf'; rewrite in_app_iff; left; auto; fail).
  - solve_incl.
  - exists o. split; [exact Ho|].
    intros f Hf'. rewrite in_app_iff. left. auto.
Qed.

Lemma unrolled_round st st' nb :
  isObservableTransition st = map IsObservable (range nb) ->
  unrolled (s st) (nsteps st) nb ->
  round float st = Ok st' ->
  unrolled (s st') (nsteps st') nb.
Proof.
  intros Hobs Hun H.
  apply round_spec in H
    as (Hpos & Hn & _ & _ & Hs & Hlen & Hst & Hf & _ & o & Ho & Hsyn).
  assert (o = IsObservable (nsteps st) /\ (nsteps st < nb)%nat) as [-> Hlt].
  { rewrite Hobs, map_lookup in Ho.
    destruct (range nb !! nsteps st) eqn:E; [|discriminate].
    apply range_lookup in E as [-> ?]. simpl in Ho. split; [congruence|lia]. }
  pose proof (unrolled_incl _ _ _ _ Hun Hs)
    as (H0 & H1 & H2 & H3 & H4 & H5 & H6).
  rewrite Hn. unfold unrolled.
  split; [lia|]. split; [exact H1|]. split; [exact H2|]. split; [exact H3|].
  split; [exact H4|]. split.
  - intros i Hi. destruct (decide (i = nsteps st)) as [->|Hne].
    + auto.
    + apply H5. lia.
  - intros i Hi. destruct (decide (i = nsteps st)) as [->|Hne].
    + exact Hsyn.
    + apply H6. lia.
Qed.

Lemma rounds_spec k : forall st st' nb,
  isObservableTransition st = map IsObservable (range nb) ->
  unrolled (s st) (nsteps st) nb ->
  rounds float k st = Ok st' ->
  unrolled (s st') (nsteps st') nb
  /\ nsteps st' = (nsteps st + k)%nat
  /\ idxAssum st' = (idxAssum st + k)%nat
  /\ same_tables st st'
  /\ incl (s st) (s st')
  /\ ((0 < k)%nat ->
      incl (assume_rule (idxAssum st') (nsteps st') (DELTA st')) (s st')).
Proof.
  induction k as [|k IH]; intros st st' nb Hobs Hun H; simpl in H.
  - injection H as <-.
    split; [exact Hun|]. split; [lia|]. split; [lia|].
    split; [apply same_tables_refl|]. split; [apply incl_refl|]. lia.
  - inv_ok H. rename x into st1.
    pose proof (unrolled_round _ _ _ Hobs Hun Ha) as Hun1.
    pose proof (round_spec _ _ Ha)
      as (_ & Hn1 & Hi1 & Htab1 & Hs1 & _ & _ & _ & Has1 & _).
    assert (Hobs1 : isObservableTransition st1 = map IsObservable (range nb)).
    { unfold same_tables in Htab1. intuition congruence. }
    destruct (IH _ _ _ Hobs1 Hun1 Hb) as (Hun' & Hn' & Hi' & Htab' & Hs' & Has').
    split; [exact Hun'|]. split; [lia|]. split; [lia|].
    split; [eapply same_tables_trans; eassumption|].
    split; [eapply incl_tran; eassumption|].
    intros _. destruct k as [|k].
    + simpl in Hb. injection Hb as <-. exact Has1.
    + apply Has'. lia.
Qed.

Lemma run_loop_S check fuel cpt assumD tmp st tr :
  run_loop float check (S fuel) cpt assumD tmp st tr
  = if cpt <=? BOUND st then
      match incBound float st with
      | Raise e => Some (mkRun tr (Raise e))
      | Ok st1 =>
          let st2 := assume_round st1 in
          let res := check (s st2) (assumptions assumD st2 tmp) in
          let tr' := tr ++ [Checked (nsteps st2) res] in
          match res with
          | sat m =>
              Some (mkRun (tr' ++ [Print_sat; Print_model m (cpt + 1)]) (Ok st2))
          | _ =>
              run_loop float check fuel (cpt + 1) assumD tmp st2
                (tr' ++ [Print_increase (nsteps st2)])
          end
      end
    else Some (mkRun (tr ++ [Print_unsat; Print_unsat_core]) (Ok st)).
Proof. reflexivity. Qed.

Lemma run_loop_O check cpt assumD tmp st tr :
  run_loop float check 0 cpt assumD tmp st tr
  = if cpt <=? BOUND st then None
    else Some (mkRun (tr ++ [Print_unsat; Print_unsat_core]) (Ok st)).
Proof. reflexivity. Qed.

(** A run prints a model only in a round whose query was answered [sat];
    the state of that round is reached by [rounds]. *)
Lemma run_loop_model check fuel : forall cpt assumD tmp st tr r m c,
  run_loop float check fuel cpt assumD tmp st tr = Some r ->
  (forall m' c', ~ In (Print_model m' c') tr) ->
  In (Print_model m c) (trace r) ->
  exists k st',
    rounds float (S k) st = Ok st'
    /\ check (s st') (assumptions assumD st' tmp) = sat m
    /\ c = cpt + Z.of_nat (S k)
    /\ final r = Ok st'.
Proof.
  induction fuel as [|fuel IH]; intros cpt assumD tmp st tr r m c H Htr Hin;
    [rewrite run_loop_O in H|rewrite run_loop_S in H];
    destruct (cpt <=? BOUND st) eqn:Hle.
  - discriminate.
  - injection H as <-. simpl in Hin. apply in_app_iff in Hin as [Hin|Hin].
    + destruct (Htr _ _ Hin).
    + simpl in Hin. intuition discriminate.
  - destruct (incBound float st) as [st1|e] eqn:Hinc.
    + cbv zeta in H.
      destruct (check (s (assume_round st1))
                  (assumptions assumD (assume_round st1) tmp)) as [m'| |] eqn:Hc.
      * injection H as <-. simpl in Hin.
        rewrite !in_app_iff in Hin. simpl in Hin.
        destruct Hin as [[Hin|[Hin|[]]]|[Hin|[Hin|[]]]];
          try discriminate; try (destruct (Htr _ _ Hin)).
        injection Hin as -> <-.
        exists 0%nat, (assume_round st1). simpl.
        unfold round. rewrite Hinc. simpl. repeat split; auto; lia.
      * destruct (IH _ _ _ _ _ _ m c H) as (k & st' & Hr & Hcheck & Hcpt & Hfin).
        -- intros m' c' Hin'. rewrite !in_app_iff in Hin'. simpl in Hin'.
           destruct Hin' as [[Hin'|[Hin'|[]]]|[Hin'|[]]];
             try discriminate. destruct (Htr _ _ Hin').
        -- exact Hin.
        -- exists (S k), st'. split; [|repeat split; auto; try lia].
           change (rounds float (S (S k)) st)
             with (round float st ≫= rounds float (S k)).
           unfold round at 1. rewrite Hinc. exact Hr.
      * destruct (IH _ _ _ _ _ _ m c H) as (k & st' & Hr & Hcheck & Hcpt & Hfin).
        -- intros m' c' Hin'. rewrite !in_app_iff in Hin'. simpl in Hin'.
           destruct Hin' as [[Hin'|[Hin'|[]]]|[Hin'|[]]];
             try discriminate. destruct (Htr _ _ Hin').
        -- exact Hin.
        -- exists (S k), st'. split; [|repeat split; auto; try lia].
           change (rounds float (S (S k)) st)
             with (round float st ≫= rounds float (S k)).
           unfold round at 1. rewrite Hinc. exact Hr.
    + injection H as <-. simpl in Hin. destruct (Htr _ _ Hin).
  - injection H as <-. simpl in Hin. apply in_app_iff in Hin as [Hin|Hin].
    + destruct (Htr _ _ Hin).
    + simpl in Hin. intuition discriminate.
Qed.

End Rounds.

(* ===================================================================== *)
(** ** Reported models                                                    *)
(* ===================================================================== *)

Section Reported.

Variable float : string -> result Q.

(** A model that [run] prints was returned for the query of some round;
    with a sound solver it satisfies what the encoder asserted up to that
    round and the assumptions of the query.  [n] is the horizon,
    [len(self.faultyPath)], of that round. *)
Lemma reported_model a bound delta st check r m c :
  Z3Model_init float a bound delta = Ok st ->
  sound check ->
  run float check st = Some r ->
  In (Print_model m c) (trace r) ->
  exists st' (n : nat),
    final r = Ok st'
    /\ c = Z.of_nat n /\ nsteps st' = n /\ (2 <= n)%nat
    /\ DELTA st' = delta
    /\ unrolled (s st') n (getNbTransition (automaton st))
    /\ incl (assume_rule (n - 1) n delta) (s st')
    /\ models m (s st')
    /\ models m (assumptions (AssumD 0) st' (isObservableTransition st))
    /\ idxAssum st' = (n - 1)%nat.
Proof.
  intros Hinit Hsound Hrun Hin.
  pose proof (Z3Model_init_spec float _ _ _ _ Hinit)
    as (Hnb & (src & tgt & Htl) & Hn & Hi & HB & HD & Hobs & Hlab
        & Hic & Hfp & Hbind & Hsyn).
  unfold run, run_fuel in Hrun.
  destruct (run_prelude st) as [st0|e] eqn:Hpre;
    [|injection Hrun as <-; destruct Hin].
  pose proof (run_prelude_spec _ _ Hpre)
    as (Hs0 & Htab0 & Hn0 & Hi0 & _ & Hpin).
  assert (Hobs0 : isObservableTransition st0 = isObservableTransition st)
    by (unfold same_tables in Htab0; tauto).
  rewrite Hobs0, Hi in Hrun.
  destruct (run_loop_model float check _ _ _ _ _ _ _ m c Hrun)
    as (k & st' & Hr & Hcheck & Hc & Hfin); [intros ? ? []|exact Hin|].
  set (nb := getNbTransition (automaton st)) in *.
  assert (Hun0 : unrolled (s st0) (nsteps st0) nb).
  { rewrite Hn0, Hn. unfold unrolled.
    split; [lia|]. split; [eapply incl_tran; eassumption|].
    split; [auto|]. split; [auto|]. split.
    - apply (Hpin (nb - 1)%nat _
               (mkTransition src tgt 2 (start_guard (clockNum a))
                  (map Z.of_nat (range (clockNum a))))).
      + rewrite Hlab, map_lookup.
        replace (range nb !! (nb - 1)%nat) with (Some (nb - 1)%nat);
          [reflexivity|].
        symmetry. unfold range. apply lookup_seq. lia.
      + unfold nb, getNbTransition. rewrite Htl. apply last_lookup_app.
    - split; [intros i Hi'; lia|].
      intros i Hi'. replace i with 0%nat by lia.
      eapply incl_tran; eassumption. }
  destruct (rounds_spec float (S k) st0 st' nb) as
      (Hun & Hn' & Hi' & Htab' & Hs' & Has); auto; [congruence|].
  apply Hsound in Hcheck as [Hm Hma].
  assert (Hlen : nsteps st' = (k + 2)%nat) by lia.
  assert (Hidx : idxAssum st' = (nsteps st' - 1)%nat) by lia.
  assert (HD' : DELTA st' = delta).
  { unfold same_tables in Htab0, Htab'.
    destruct Htab0 as (_&_&E0&_), Htab' as (_&_&E1&_). congruence. }
  exists st', (nsteps st').
  split; [exact Hfin|]. split; [lia|]. split; [reflexivity|].
  split; [lia|]. split; [exact HD'|]. split; [exact Hun|].
  split; [rewrite <- Hidx, <- HD'; apply Has; lia|].
  split; [exact Hm|]. split; [exact Hma|]. exact Hidx.
Qed.

End Reported.

(* ===================================================================== *)
(** ** Invariants of the models of an unrolling                           *)
(* ===================================================================== *)

Lemma rcmp_eq a b : rcmp Ceq a b = true -> (a == b)%Q.
Proof. apply Qeq_bool_iff. Qed.

(** The synchronisation rule in a model. *)
Lemma unrolled_synchro m fs n nb i :
  unrolled fs n nb -> models m fs -> (i < n)%nat ->
  bv m (CheckSynchro i)
  = (((NO_OBS <? iv m (IdTransition Faulty i))
      || (NO_OBS <? iv m (IdTransition Normal i)))
     && bv m (IsObservable i))
  /\ (bv m (CheckSynchro i) = true ->
      iv m (IdTransition Faulty i) = iv m (IdTransition Normal i)
      /\ (rv m (GlobalClock Faulty i) == rv m (GlobalClock Normal i))%Q).
Proof.
  intros (_ & _ & _ & _ & _ & _ & Hsyn) Hm Hi.
  pose proof (models_incl _ _ _ Hm (Hsyn i Hi)) as H.
  unfold models, synchro_rule in H.
  apply Forall_cons in H as [H1 H]. apply Forall_cons in H as [H2 _].
  simpl in H1, H2. split.
  - apply Bool.eqb_prop in H1. rewrite <- H1.
    rewrite orb_false_r, andb_true_r. reflexivity.
  - intros Hc. rewrite Hc in H2. simpl in H2.
    rewrite orb_false_r, andb_true_r in H2.
    apply andb_true_iff in H2 as [Hid Hg].
    split; [apply Z.eqb_eq, Hid|apply rcmp_eq, Hg].
Qed.

(** The fault flag at step 0 is false: step 0 takes the last transition,
    whose label is [NO_OBS]. *)
Lemma unrolled_no_fault_at_0 m fs n nb :
  unrolled fs n nb -> models m fs -> (0 < n)%nat ->
  bv m (FaultOccurs 0) = false.
Proof.
  intros (Hle & Hic & Hfp & Hbind & Hpin & _) Hm Hn.
  pose proof (models_In _ _ _ Hm Hfp) as H1.
  pose proof (models_In _ _ _ Hm Hbind) as H2.
  pose proof (models_In _ _ _ Hm Hpin) as H3.
  assert (H4 : eval m (BEq (BVar (FaultOccurs 0))
                         (ICmp Ceq (IVar (IdTransition Faulty 0))
                            (IConst FAULT))) = true).
  { apply (models_In _ _ _ Hm), Hic. simpl. auto 10. }
  simpl in H1, H2, H3, H4.
  apply Z.eqb_eq in H1. apply Z.eqb_eq in H3.
  apply Bool.eqb_prop in H4. rewrite H4.
  replace (Z.of_nat (nb - 1)) with (Z.of_nat nb - 1) in H2 by lia.
  rewrite H1, Z.eqb_refl in H2. simpl in H2. apply Z.eqb_eq in H2.
  rewrite H2, H3. reflexivity.
Qed.

(** The fault counter in a model. *)
Lemma unrolled_fault_counter m fs n nb :
  unrolled fs n nb -> models m fs ->
  (rv m (CptFault 0) == 0)%Q
  /\ forall i : nat, (i < n)%nat ->
       (bv m (FaultOccurs i) = false -> (rv m (CptFault i) == 0)%Q)
       /\ (bv m (FaultOccurs i) = true ->
           (rv m (CptFault (i + 1))
            == rv m (CptFault i) + rv m (DelayClock Faulty (i + 1)))%Q).
Proof.
  intros Hun Hm.
  pose proof (unrolled_no_fault_at_0 _ _ _ _ Hun Hm) as Hf0.
  destruct Hun as (_ & Hic & _ & _ & _ & Hstep & _).
  assert (H0 : (rv m (CptFault 0) == 0)%Q).
  { apply rcmp_eq.
    change (eval m (RCmp Ceq (RVar (CptFault 0)) (real 0)) = true).
    apply (models_In _ _ _ Hm), Hic. simpl. auto 10. }
  split; [exact H0|]. intros i Hi.
  destruct i as [|i].
  - split; [intros _; exact H0|]. rewrite Hf0 by lia. discriminate.
  - destruct (Hstep (S i)) as (_ & _ & Hfault); [lia|].
    pose proof (models_incl _ _ _ Hm Hfault) as H.
    unfold models, fault_rule in H.
    apply Forall_cons in H as [Hflag H]. apply Forall_cons in H as [Hprev H].
    apply Forall_cons in H as [Hzero H]. apply Forall_cons in H as [Hadv _].
    simpl in Hflag, Hprev, Hzero, Hadv.
    rewrite Nat.sub_0_r in Hflag, Hprev.
    apply Bool.eqb_prop in Hflag. rewrite orb_false_r in Hflag.
    split.
    + intros Hno. rewrite Hno in Hflag.
      apply orb_false_iff in Hflag as [Hp _]. rewrite Hp in Hprev.
      apply rcmp_eq, Hprev.
    + intros Hyes. rewrite Hyes in Hadv. apply rcmp_eq, Hadv.
Qed.

(** The length counter of a run in a model. *)
Lemma unrolled_length m fs n nb p :
  unrolled fs n nb -> models m fs ->
  forall i : nat, (i < n)%nat ->
    iv m (Length p i) = nonNOP_count m p i
    /\ 0 <= iv m (Length p i) <= Z.of_nat i.
Proof.
  intros (_ & Hic & _ & _ & _ & Hstep & _) Hm.
  assert (H0 : iv m (Length p 0) = 0).
  { apply Z.eqb_eq.
    change (eval m (ICmp Ceq (IVar (Length p 0)) (IConst 0)) = true).
    apply (models_In _ _ _ Hm), Hic. destruct p; simpl; auto 20. }
  induction i as [|i IH]; intros Hi.
  - simpl. rewrite H0. lia.
  - destruct IH as (IHc & IHb); [lia|].
    destruct (Hstep (S i)) as (Hlen & _); [lia|].
    pose proof (models_incl _ _ _ Hm Hlen) as H.
    unfold models, length_rule in H.
    apply Forall_cons in H as [HF H]. apply Forall_cons in H as [HN _].
    assert (Hp : if iv m (Path p (S i)) =? 0
                 then iv m (Length p (S i)) = iv m (Length p i)
                 else iv m (Length p (S i)) = iv m (Length p i) + 1).
    { destruct p; [clear HN|clear HF]; simpl in *;
        match goal with
        | H : (if ?c then _ else _) = true |- _ =>
            destruct c; apply Z.eqb_eq in H; exact H
        end. }
    simpl nonNOP_count. change (Z.of_nat NOP_TRANSITION) with 0.
    destruct (iv m (Path p (S i)) =? 0); rewrite Hp; lia.
Qed.

(* ===================================================================== *)
(** ** Properties of every reported model                                 *)
(* ===================================================================== *)

Section ReportedInvariants.

Variable float : string -> result Q.

(** C2.  In every model returned by a satisfiable query of [run], at
    every step [i] of the unrolled horizon: if [checkSynchro[i]] is true
    then the two runs carry the same event label,
    [idt_fp[i] = idt_np[i]], and their global clocks agree,
    [g_fp[i] = g_np[i]].  [checkSynchro[i]] is true exactly when one of
    the two labels is above [NO_OBS] and the assumption
    [isObservable[i]] holds; the query assumes every [isObservable], so
    whenever either run fires an observable event at step [i], both fire
    the same event at the same global time. *)
Theorem checkSynchro_synchronises a bound delta st check r m c (i : nat) :
  Z3Model_init float a bound delta = Ok st ->
  sound check ->
  run float check st = Some r ->
  In (Print_model m c) (trace r) ->
  Z.of_nat i < c ->
  (bv m (CheckSynchro i) = true ->
   iv m (IdTransition Faulty i) = iv m (IdTransition Normal i)
   /\ (rv m (GlobalClock Faulty i) == rv m (GlobalClock Normal i))%Q)
  /\ (NO_OBS < iv m (IdTransition Faulty i)
      \/ NO_OBS < iv m (IdTransition Normal i) ->
      iv m (IdTransition Faulty i) = iv m (IdTransition Normal i)
      /\ (rv m (GlobalClock Faulty i) == rv m (GlobalClock Normal i))%Q).
Proof.
  intros Hinit Hsound Hrun Hin Hi.
  destruct (reported_model float _ _ _ _ _ _ _ _ Hinit Hsound Hrun Hin)
    as (st' & n & _ & -> & _ & _ & _ & Hun & _ & Hm & Hma & _).
  assert (Hi' : (i < n)%nat) by lia.
  destruct (unrolled_synchro _ _ _ _ _ Hun Hm Hi') as [Hdef Hsync].
  split; [exact Hsync|].
  intros Hobs. apply Hsync. rewrite Hdef.
  assert (Hio : bv m (IsObservable i) = true).
  { pose proof (Z3Model_init_spec float _ _ _ _ Hinit)
      as (_ & _ & _ & _ & _ & _ & Hlist & _).
    change (eval m (BVar (IsObservable i)) = true).
    apply (models_In _ _ _ Hma). unfold assumptions.
    right; right; right. rewrite Hlist.
    apply in_map, in_map, range_In. destruct Hun as (Hle & _). lia. }
  rewrite Hio, andb_true_r. apply orb_true_iff.
  destruct Hobs as [H|H]; [left|right]; apply Z.ltb_lt, H.
Qed.

(** C3.  In every model returned by a satisfiable query of [run]:
    [cptFault[0] = 0]; at every step [i] of the unrolled horizon,
    [cptFault[i] = 0] whenever [faultOccurs[i]] is false, and whenever
    [faultOccurs[i]] is true the counter advances by the next delay of
    the faulty run, [cptFault[i+1] = cptFault[i] + delay_fp[i+1]]. *)
Theorem fault_counter_invariant a bound delta st check r m c :
  Z3Model_init float a bound delta = Ok st ->
  sound check ->
  run float check st = Some r ->
  In (Print_model m c) (trace r) ->
  (rv m (CptFault 0) == 0)%Q
  /\ forall i : nat, Z.of_nat i < c ->
       (bv m (FaultOccurs i) = false -> (rv m (CptFault i) == 0)%Q)
       /\ (bv m (FaultOccurs i) = true ->
           (rv m (CptFault (i + 1))
            == rv m (CptFault i) + rv m (DelayClock Faulty (i + 1)))%Q).
Proof.
  intros Hinit Hsound Hrun Hin.
  destruct (reported_model float _ _ _ _ _ _ _ _ Hinit Hsound Hrun Hin)
    as (st' & n & _ & -> & _ & _ & _ & Hun & _ & Hm & _).
  destruct (unrolled_fault_counter _ _ _ _ Hun Hm) as [H0 Hstep].
  split; [exact H0|]. intros i Hi. apply Hstep. lia.
Qed.

(** C7.  In every model returned by a satisfiable query of [run], at
    every step [i] of the unrolled horizon, [length_fp[i]] is at most [i]
    and equals the number of steps among [1..i] at which the faulty run
    does not take the stutter index; the same holds for [length_np[i]]
    and the normal run. *)
Theorem length_counts_nonNOP_steps a bound delta st check r m c
    (p : path_type) (i : nat) :
  Z3Model_init float a bound delta = Ok st ->
  sound check ->
  run float check st = Some r ->
  In (Print_model m c) (trace r) ->
  Z.of_nat i < c ->
  iv m (Length p i) = nonNOP_count m p i
  /\ 0 <= iv m (Length p i) <= Z.of_nat i.
Proof.
  intros Hinit Hsound Hrun Hin Hi.
  destruct (reported_model float _ _ _ _ _ _ _ _ Hinit Hsound Hrun Hin)
    as (st' & n & _ & -> & _ & _ & _ & Hun & _ & Hm & _).
  apply (unrolled_length _ _ _ _ _ Hun Hm). lia.
Qed.

End ReportedInvariants.

Lemma checkSynchro_synchronises_witness :
  iv critical_pair (IdTransition Faulty 2)
  = iv critical_pair (IdTransition Normal 2)
  /\ (rv critical_pair (GlobalClock Faulty 2)
      == rv critical_pair (GlobalClock Normal 2))%Q.
Proof.
  refine (proj1 (checkSynchro_synchronises float_of_numeral fault_automaton
                   2 3 fault_init (solver_of_model critical_pair) fault_run
                   critical_pair 3 2%nat _ _ _ _ _) _).
  - vm_compute. reflexivity.
  - apply solver_of_model_sound.
  - vm_compute. reflexivity.
  - vm_compute. do 4 right. left. reflexivity.
  - reflexivity.
  - reflexivity.
Defined.

Lemma fault_counter_invariant_witness :
  (rv critical_pair (CptFault 3)
   == rv critical_pair (CptFault 2) + rv critical_pair (DelayClock Faulty 3))%Q.
Proof.
  refine (proj2 (proj2 (fault_counter_invariant float_of_numeral
                          fault_automaton 2 3 fault_init
                          (solver_of_model critical_pair) fault_run
                          critical_pair 3 _ _ _ _) 2%nat _) _).
  - vm_compute. reflexivity.
  - apply solver_of_model_sound.
  - vm_compute. reflexivity.
  - vm_compute. do 4 right. left. reflexivity.
  - reflexivity.
  - reflexivity.
Defined.

Lemma length_counts_nonNOP_steps_witness :
  iv critical_pair (Length Normal 2) = nonNOP_count critical_pair Normal 2
  /\ 0 <= iv critical_pair (Length Normal 2) <= 2.
Proof.
  refine (length_counts_nonNOP_steps float_of_numeral fault_automaton 2 3
            fault_init (solver_of_model critical_pair) fault_run
            critical_pair 3 Normal 2%nat _ _ _ _ _).
  - vm_compute. reflexivity.
  - apply solver_of_model_sound.
  - vm_compute. reflexivity.
  - vm_compute. do 4 right. left. reflexivity.
  - reflexivity.
Defined.

(* ===================================================================== *)
(** ** Where the encoder raises                                           *)
(* ===================================================================== *)

Lemma same_outcome_refl {A} (r : result A) : same_outcome r r.
Proof. destruct r; simpl; auto. Qed.

Lemma same_outcome_bind {A A' B B'} (r : result A) (r' : result A')
    (f : A -> result B) (f' : A' -> result B') :
  same_outcome r r' ->
  (forall a a', r = Ok a -> r' = Ok a' -> same_outcome (f a) (f' a')) ->
  same_outcome (r ≫= f) (r' ≫= f').
Proof.
  destruct r as [a|e], r' as [a'|e']; simpl; intros H Hf;
    try contradiction; auto.
Qed.

Lemma same_outcome_for_each {A B B'} (f : A -> result (list B))
    (f' : A -> result (list B')) (l : list A) :
  (forall x, In x l -> same_outcome (f x) (f' x)) ->
  same_outcome (for_each f l) (for_each f' l).
Proof.
  induction l as [|x l IH]; intros H; simpl; [exact I|].
  apply same_outcome_bind; [apply H; simpl; auto|].
  intros ys ys' _ _. apply same_outcome_bind; [apply IH; intros; apply H; simpl; auto|].
  intros; exact I.
Qed.

Lemma for_each_total {A B} (f : A -> result (list B)) (l : list A) :
  (forall x, In x l -> exists ys, f x = Ok ys) ->
  exists fs, for_each f l = Ok fs.
Proof.
  induction l as [|x l IH]; intros H; [simpl; eauto|].
  destruct (H x) as (ys & Hys); [simpl; auto|].
  destruct IH as (zs & Hzs); [intros; apply H; simpl; auto|].
  exists (ys ++ zs). simpl. rewrite Hys. simpl. rewrite Hzs. reflexivity.
Qed.

Lemma same_outcome_Ok {A B} (r : result A) (r' : result B) a :
  same_outcome r r' -> r = Ok a -> exists b, r' = Ok b.
Proof.
  intros H ->. destruct r' as [b|e]; [eauto|destruct H].
Qed.

Section Outcomes.

Variable float : string -> result Q.

(** Whether and how the translation of a guard or an invariant raises
    depends on its text alone, not on the step or the run. *)
Lemma transConstraint_outcome n idx p idx' p' c :
  same_outcome (transConstraint float n idx p c)
    (transConstraint float n idx' p' c).
Proof.
  unfold transConstraint.
  apply same_outcome_bind; [apply same_outcome_refl|].
  intros p0 ? -> [= <-].
  apply same_outcome_bind; [apply same_outcome_refl|].
  intros c0 ? -> [= <-].
  apply same_outcome_bind; [apply same_outcome_refl|].
  intros [[flag number] clock] ? -> [= <-].
  apply same_outcome_bind; [apply same_outcome_refl|].
  intros q ? -> [= <-].
  destruct (clock_position _ _); exact I.
Qed.

Lemma transConstraints_outcome n cs idx p idx' p' :
  same_outcome (transConstraints float n cs idx p)
    (transConstraints float n cs idx' p').
Proof.
  unfold transConstraints. apply same_outcome_for_each.
  intros c _. apply transConstraint_outcome.
Qed.

Lemma parseInv_outcome inv k pos p pos' p' :
  same_outcome (parseInv float inv k pos p) (parseInv float inv k pos' p').
Proof.
  destruct inv as [z|text]; simpl; [exact I|].
  induction (split ";" text) as [|a l IH]; simpl; [exact I|].
  apply same_outcome_bind; [apply same_outcome_refl|].
  intros ci ? -> [= <-].
  destruct (String.eqb ci (str (k + 1))); [|exact IH].
  apply same_outcome_bind; [apply same_outcome_refl|].
  intros b ? -> [= <-].
  apply same_outcome_bind; [apply same_outcome_refl|].
  intros; exact I.
Qed.

End Outcomes.

Lemma setup_transitions_next st st' :
  setup_transitions st = Ok st' ->
  length (nextTransition st') = getNbTransition (automaton st').
Proof.
  intros H. pose proof (setup_transitions_spec _ _ H) as (src & tgt & Htl & _).
  unfold setup_transitions in H.
  inv_ok H. inv_ok Hb. inv_ok Hbb. injection Hbbb as <-. simpl.
  unfold getNbTransition.
  apply appendTransition_spec in Ha as (src' & tgt' & Htl' & _).
  simpl in Htl'. rewrite Htl'.
  rewrite !length_app, length_map. unfold range. rewrite length_seq.
  reflexivity.
Qed.

Section Totality.

Variable float : string -> result Q.

Lemma bind_clock_outcome st st' pos pos' j k :
  same_automaton st st' ->
  same_outcome (bind_clock float st pos j k) (bind_clock float st' pos' j k).
Proof.
  intros (Ha & _ & Hr & _). unfold bind_clock. rewrite Ha, Hr.
  apply same_outcome_bind; [apply same_outcome_refl|].
  intros row ? -> [= <-].
  apply same_outcome_bind; [apply same_outcome_refl|].
  intros r ? -> [= <-].
  apply same_outcome_bind; [apply same_outcome_refl|].
  intros t ? -> [= <-].
  apply same_outcome_bind; [apply parseInv_outcome|]. intros ? ? _ _.
  apply same_outcome_bind; [apply parseInv_outcome|]. intros ? ? _ _.
  apply same_outcome_bind; [apply parseInv_outcome|]. intros ? ? _ _.
  apply same_outcome_bind; [apply parseInv_outcome|]. intros ? ? _ _.
  exact I.
Qed.

Lemma bind_transition_outcome st st' pos pos' j :
  same_automaton st st' ->
  same_outcome (bind_transition float st pos j)
    (bind_transition float st' pos' j).
Proof.
  intros Hsame. pose proof Hsame as (Ha & Hl & _ & Hc).
  unfold bind_transition. rewrite Ha, Hl, Hc.
  apply same_outcome_bind; [apply same_outcome_refl|].
  intros label ? -> [= <-].
  apply same_outcome_bind; [apply same_outcome_refl|].
  intros g ? -> [= <-].
  apply same_outcome_bind.
  { apply same_outcome_bind; [apply same_outcome_refl|].
    intros cs ? -> [= <-]. apply transConstraints_outcome. }
  intros ? ? _ _.
  apply same_outcome_bind.
  { apply same_outcome_bind; [apply same_outcome_refl|].
    intros cs ? -> [= <-]. apply transConstraints_outcome. }
  intros ? ? _ _.
  apply same_outcome_bind; [|intros; exact I].
  apply same_outcome_for_each. intros k _.
  apply bind_clock_outcome, Hsame.
Qed.

Lemma ready_same st st' nb :
  ready float st nb -> same_tables st st' -> (0 < nsteps st')%nat ->
  ready float st' nb.
Proof.
  intros (_ & Hnb & Hnext & Hobs & b & Hb) Htab Hpos.
  pose proof Htab as (Ea & _ & _ & En & _ & El & Er & Ec & Eo).
  split; [exact Hpos|]. split; [congruence|]. split; [congruence|].
  split; [congruence|].
  eapply same_outcome_Ok; [|exact Hb].
  apply same_outcome_for_each. intros j _.
  apply bind_transition_outcome. unfold same_automaton. auto.
Qed.

(** The per-step encoder succeeds below the number of transitions and
    raises [IndexError] from there on. *)
Lemma addConstraintOnIdTransition_cases st nb pos :
  ready float st nb ->
  ((pos < nb)%nat -> exists st', addConstraintOnIdTransition float st pos = Ok st')
  /\ ((nb <= pos)%nat -> addConstraintOnIdTransition float st pos = Raise IndexError).
Proof.
  intros (_ & Hnb & _ & Hobs & b & Hb).
  assert (Hbind : exists b',
             for_each (bind_transition float st pos) (range nb) = Ok b').
  { eapply same_outcome_Ok; [|exact Hb].
    apply same_outcome_for_each. intros j _.
    apply bind_transition_outcome. unfold same_automaton. auto. }
  destruct Hbind as (b' & Hb').
  unfold addConstraintOnIdTransition. rewrite Hnb, Hb'. simpl. split.
  - intros Hlt.
    destruct (lookup_lt_is_Some_2 (isObservableTransition st) pos) as [o Ho];
      [lia|].
    rewrite Ho. simpl. eauto.
  - intros Hge. rewrite lookup_ge_None_2 by lia. reflexivity.
Qed.

End Totality.

Section Crash.

Variable float : string -> result Q.

Lemma Z3Model_init_ready a bound delta st :
  Z3Model_init float a bound delta = Ok st ->
  ready float st (getNbTransition (automaton st)).
Proof.
  intros H.
  pose proof (Z3Model_init_spec float _ _ _ _ H)
    as (_ & _ & Hn & _ & _ & _ & Hobs & _).
  unfold Z3Model_init in H. inv_ok H. rename x into st1.
  pose proof (setup_transitions_next _ _ Ha) as Hnext.
  unfold add_initial_constraints in Hb. inv_ok Hb.
  apply addConstraintOnIdTransition_spec in Hbb
    as (bindings & o & Hbind & _ & _ & _ & _ & _ & _ & Htab & _).
  pose proof Htab as (Ea & _ & _ & En & _ & El & Er & Ec & _).
  simpl in Ea, En, El, Er, Ec, Hbind.
  split; [lia|]. split; [reflexivity|].
  split; [rewrite En, Ea; exact Hnext|].
  split; [rewrite Hobs, length_map; unfold range; apply length_seq|].
  rewrite Ea. eapply same_outcome_Ok; [|exact Hbind].
  apply same_outcome_for_each. intros j _.
  apply bind_transition_outcome. unfold same_automaton. simpl. auto.
Qed.

Lemma successors_total st idx nb :
  length (nextTransition st) = nb ->
  exists fs, for_each (successor_rule st idx) (range nb) = Ok fs.
Proof.
  intros Hlen. apply for_each_total. intros j Hj.
  unfold range in Hj. apply in_seq in Hj.
  destruct (lookup_lt_is_Some_2 (nextTransition st) j) as [next Hnext];
    [lia|].
  unfold successor_rule. rewrite Hnext. simpl. eauto.
Qed.

(** [incBound] succeeds while the horizon is below the number of
    transitions, and raises [IndexError] once it has reached it. *)
Lemma incBound_cases st nb :
  ready float st nb ->
  ((nsteps st < nb)%nat ->
   exists st', incBound float st = Ok st' /\ ready float st' nb)
  /\ ((nb <= nsteps st)%nat -> incBound float st = Raise IndexError).
Proof.
  intros Hready. pose proof Hready as (Hpos & Hnb & Hnext & Hobs & b & Hb).
  unfold incBound. cbv zeta.
  apply Nat.ltb_lt in Hpos as Hpos'. rewrite Hpos'.
  cbn [assert mbind result_bind].
  change (automaton (incVariableList st)) with (automaton st).
  rewrite Hnb.
  match goal with
  | |- context [for_each (successor_rule ?mid ?i) (range nb)] =>
      destruct (successors_total mid i nb) as (succ & Hsucc);
        [exact Hnext|rewrite Hsucc]
  end.
  cbn [mbind result_bind].
  match goal with
  | |- context [addConstraintOnIdTransition float ?mid _] =>
      assert (Hmid : ready float mid nb)
  end.
  { apply (ready_same float st); [exact Hready| |simpl; lia].
    unfold same_tables. simpl. auto 10. }
  destruct (addConstraintOnIdTransition_cases float _ _ (nsteps st) Hmid)
    as [Hok Hraise].
  split.
  - intros Hlt. destruct (Hok Hlt) as (st1 & Hst1).
    rewrite Hst1. simpl. eexists. split; [reflexivity|].
    apply addConstraintOnIdTransition_spec in Hst1
      as (_ & _ & _ & _ & _ & _ & _ & _ & _ & Htab & Hn & _).
    apply (ready_same float _ _ _ Hmid); [|simpl in *; lia].
    unfold same_tables in *. simpl in *. exact Htab.
  - intros Hge. rewrite (Hraise Hge). reflexivity.
Qed.

End Crash.

Section CrashingRuns.

Variable float : string -> result Q.

Lemma ready_rounds k : forall st st' nb,
  ready float st nb -> rounds float k st = Ok st' -> ready float st' nb.
Proof.
  induction k as [|k IH]; intros st st' nb Hready H; simpl in H.
  - injection H as <-. exact Hready.
  - inv_ok H. apply (IH x _ _); [|exact Hb].
    apply round_spec in Ha as (_ & Hn & _ & Htab & _).
    apply (ready_same float st); [exact Hready|exact Htab|lia].
Qed.

(** With a solver that never answers [sat], the loop of [run] reaches
    the round in which the horizon equals the number of transitions, and
    [incBound] raises there. *)
Lemma run_loop_crash check nb :
  (forall fs assumed m, check fs assumed <> sat m) ->
  forall d fuel cpt assumD tmp st tr,
    ready float st nb ->
    (nsteps st + d = nb)%nat ->
    cpt = Z.of_nat (nsteps st) ->
    Z.of_nat nb <= BOUND st ->
    (d < fuel)%nat ->
    exists tr',
      run_loop float check fuel cpt assumD tmp st tr
      = Some (mkRun tr' (Raise IndexError))
      /\ length tr' = (length tr + 2 * d)%nat.
Proof.
  intros Hnever.
  induction d as [|d IH]; intros fuel cpt assumD tmp st tr Hready Hd Hcpt HB Hf;
    (destruct fuel as [|fuel]; [lia|]); rewrite run_loop_S;
    (replace (cpt <=? BOUND st) with true by (symmetry; apply Z.leb_le; lia));
    destruct (incBound_cases float st nb Hready) as [Hok Hraise].
  - rewrite Hraise by lia. exists tr. split; [reflexivity|lia].
  - destruct Hok as (st1 & Hst1 & Hready1); [lia|]. rewrite Hst1. cbv zeta.
    pose proof (incBound_spec float _ _ Hst1) as (_ & Hn1 & _ & Htab1 & _).
    assert (Hready2 : ready float (assume_round st1) nb).
    { apply (ready_same float st1); [exact Hready1| |simpl; lia].
      unfold same_tables. simpl. auto 10. }
    assert (HB2 : BOUND (assume_round st1) = BOUND st).
    { simpl. unfold same_tables in Htab1. tauto. }
    assert (Hn2 : nsteps (assume_round st1) = S (nsteps st)) by exact Hn1.
    destruct (check (s (assume_round st1))
                (assumptions assumD (assume_round st1) tmp)) as [m| |] eqn:Hc.
    + destruct (Hnever _ _ _ Hc).
    + destruct (IH fuel (cpt + 1) assumD tmp (assume_round st1)
                  ((tr ++ [Checked (nsteps (assume_round st1)) unsat])
                   ++ [Print_increase (nsteps (assume_round st1))]))
        as (tr' & Hrun & Hlen); try lia; [exact Hready2|].
      exists tr'. split; [exact Hrun|].
      rewrite Hlen, !length_app. simpl. lia.
    + destruct (IH fuel (cpt + 1) assumD tmp (assume_round st1)
                  ((tr ++ [Checked (nsteps (assume_round st1)) unknown])
                   ++ [Print_increase (nsteps (assume_round st1))]))
        as (tr' & Hrun & Hlen); try lia; [exact Hready2|].
      exists tr'. split; [exact Hrun|].
      rewrite Hlen, !length_app. simpl. lia.
Qed.

(** C5 (amended).  The list [isObservableTransition] is created once,
    with one entry per transition of the preprocessed automaton, and the
    synchronisation rule indexes it by the step position.  In every state
    the driver reaches, the per-step encoder therefore succeeds for the
    step indices below the number [nb] of transitions and raises
    [IndexError] for every step index from [nb] on.  A run whose [BOUND]
    is at least [nb] ends with that [IndexError], in round [nb] and after
    [nb - 1] completed rounds, when the solver answers [sat] in none of
    the earlier rounds; a [sat] answer ends the run before. *)
Theorem encoder_raises_from_transition_count a bound delta st check :
  Z3Model_init float a bound delta = Ok st ->
  let nb := getNbTransition (automaton st) in
  length (isObservableTransition st) = nb
  /\ (forall st0 k st_k pos,
        run_prelude st = Ok st0 ->
        rounds float k st0 = Ok st_k ->
        ((pos < nb)%nat ->
         exists st', addConstraintOnIdTransition float st_k pos = Ok st')
        /\ ((nb <= pos)%nat ->
            addConstraintOnIdTransition float st_k pos = Raise IndexError))
  /\ (Z.of_nat nb <= bound ->
      (forall fs assumed m, check fs assumed <> sat m) ->
      exists tr,
        run float check st = Some (mkRun tr (Raise IndexError))
        /\ length tr = (2 * (nb - 1))%nat).
Proof.
  intros Hinit nb.
  pose proof (Z3Model_init_ready float _ _ _ _ Hinit) as Hready.
  pose proof (Z3Model_init_spec float _ _ _ _ Hinit)
    as (Hnb & _ & Hn & _ & HB & _).
  fold nb in Hready, Hnb.
  assert (Hprelude : forall st0, run_prelude st = Ok st0 ->
            ready float st0 nb /\ nsteps st0 = 1%nat /\ BOUND st0 = bound
            /\ isObservableTransition st0 = isObservableTransition st).
  { intros st0 Hpre.
    apply run_prelude_spec in Hpre as (_ & Htab & Hn0 & _).
    split; [apply (ready_same float st); [exact Hready|exact Htab|lia]|].
    unfold same_tables in Htab. intuition congruence. }
  split; [destruct Hready as (_ & _ & _ & H & _); exact H|]. split.
  - intros st0 k st_k pos Hpre Hk.
    apply Hprelude in Hpre as (Hready0 & _).
    apply addConstraintOnIdTransition_cases.
    apply (ready_rounds k st0); assumption.
  - intros Hbound Hnever. unfold run, run_fuel.
    assert (Hpre : exists st0, run_prelude st = Ok st0).
    { unfold run_prelude.
      destruct (for_each_total
                  (fun i =>
                     label ← labelTransition
                               (add st [Implies (BVar (AssumD (idxAssum st)))
                                          (RCmp Ceq (RVar DeltaVar)
                                             (real (DELTA st)))]) !! i
                             ?! IndexError;
                     t ← getTransitionAt
                           (automaton
                              (add st [Implies (BVar (AssumD (idxAssum st)))
                                         (RCmp Ceq (RVar DeltaVar)
                                            (real (DELTA st)))])) i;
                     Ok [ICmp Ceq (IVar label) (IConst (getEventId t))])
                  (range (getNbTransition (automaton st)))) as (pins & Hpins).
      { intros j Hj. unfold range in Hj. apply in_seq in Hj. simpl.
        pose proof (Z3Model_init_spec float _ _ _ _ Hinit)
          as (_ & _ & _ & _ & _ & _ & _ & Hlab & _).
        destruct (lookup_lt_is_Some_2 (labelTransition st) j) as [l Hl].
        { rewrite Hlab, length_map. unfold range. rewrite length_seq. lia. }
        destruct (lookup_lt_is_Some_2 (transitionList (automaton st)) j)
          as [t Ht]; [unfold getNbTransition in Hj; lia|].
        unfold getTransitionAt. rewrite Hl, Ht. simpl. eauto. }
      simpl. simpl in Hpins. rewrite Hpins. simpl. eauto. }
    destruct Hpre as (st0 & Hpre). rewrite Hpre.
    destruct (Hprelude _ Hpre) as (Hready0 & Hn0 & HB0 & _).
    destruct (run_loop_crash check nb Hnever (nb - 1) (Z.to_nat (BOUND st)) 1
                (AssumD (idxAssum st)) (isObservableTransition st0) st0 [])
      as (tr & Hrun & Hlen); try (rewrite ?Hn0, ?HB0, ?HB; lia);
      [exact Hready0|].
    exists tr. split; [exact Hrun|]. simpl in Hlen. lia.
Qed.

End CrashingRuns.

Lemma encoder_raises_from_transition_count_witness :
  exists tr,
    run float_of_numeral solver_unsat (silent_init 3 0)
    = Some (mkRun tr (Raise IndexError))
    /\ length tr
       = (2 * (getNbTransition (automaton (silent_init 3 0)) - 1))%nat.
Proof.
  refine (proj2 (proj2 (encoder_raises_from_transition_count float_of_numeral
                          silent_automaton 3 0 (silent_init 3 0) solver_unsat
                          _)) _ _).
  - vm_compute. reflexivity.
  - vm_compute. discriminate.
  - intros fs assumed m. unfold solver_unsat. discriminate.
Defined.

(** C5, as stated, fails when the solver answers [sat] before the horizon
    reaches the number of transitions.  The small automaton has 3
    transitions after preprocessing; with [BOUND = 3] and [DELTA = 0] the
    query of round 1 has a model, and the run that finds it returns
    normally. *)
Lemma run_beyond_transition_count_counterexample :
  exists r st',
    Z3Model_init float_of_numeral silent_automaton 3 0 = Ok (silent_init 3 0)
    /\ Z.of_nat (getNbTransition (automaton (silent_init 3 0)))
       <= BOUND (silent_init 3 0)
    /\ sound (solver_of_model silent_witness)
    /\ run float_of_numeral (solver_of_model silent_witness) (silent_init 3 0)
       = Some r
    /\ final r = Ok st'
    /\ In (Print_model silent_witness 2) (trace r).
Proof.
  eexists. eexists.
  split; [vm_compute; reflexivity|].
  split; [vm_compute; discriminate|].
  split; [apply solver_of_model_sound|].
  split; [vm_compute; reflexivity|].
  split; [reflexivity|].
  simpl. auto.
Qed.

(* ===================================================================== *)
(** ** The driver                                                         *)
(* ===================================================================== *)

Lemma queries_app tr tr' : queries (tr ++ tr') = (queries tr + queries tr')%nat.
Proof.
  induction tr as [|a tr IH]; simpl; [reflexivity|].
  destruct a; simpl; rewrite IH; reflexivity.
Qed.

Section Driver.

Variable float : string -> result Q.

(** The loop of [run] never runs out of the fuel [run] gives it, and it
    queries the solver at most once per remaining value of [cpt]. *)
Lemma run_loop_total check fuel : forall cpt assumD tmp st tr,
  (Z.to_nat (BOUND st + 1 - cpt) <= fuel)%nat ->
  exists r,
    run_loop float check fuel cpt assumD tmp st tr = Some r
    /\ (queries (trace r) <= queries tr + Z.to_nat (BOUND st + 1 - cpt))%nat.
Proof.
  induction fuel as [|fuel IH]; intros cpt assumD tmp st tr Hfuel.
  - rewrite run_loop_O. destruct (cpt <=? BOUND st) eqn:Hle.
    + apply Z.leb_le in Hle. lia.
    + eexists. split; [reflexivity|]. simpl. rewrite queries_app. simpl. lia.
  - rewrite run_loop_S. destruct (cpt <=? BOUND st) eqn:Hle.
    + apply Z.leb_le in Hle.
      destruct (incBound float st) as [st1|e] eqn:Hinc.
      * cbv zeta.
        assert (HB : BOUND (assume_round st1) = BOUND st).
        { apply incBound_spec in Hinc as (_ & _ & _ & Htab & _).
          simpl. unfold same_tables in Htab. tauto. }
        destruct (check (s (assume_round st1))
                    (assumptions assumD (assume_round st1) tmp)) eqn:Hc.
        -- eexists. split; [reflexivity|]. simpl.
           rewrite !queries_app. simpl. lia.
        -- destruct (IH (cpt + 1) assumD tmp (assume_round st1)
                       ((tr ++ [Checked (nsteps (assume_round st1)) unsat])
                        ++ [Print_increase (nsteps (assume_round st1))]))
             as (r & Hr & Hq); [rewrite HB; lia|].
           exists r. split; [exact Hr|].
           rewrite !queries_app, HB in Hq. simpl in Hq. lia.
        -- destruct (IH (cpt + 1) assumD tmp (assume_round st1)
                       ((tr ++ [Checked (nsteps (assume_round st1)) unknown])
                        ++ [Print_increase (nsteps (assume_round st1))]))
             as (r & Hr & Hq); [rewrite HB; lia|].
           exists r. split; [exact Hr|].
           rewrite !queries_app, HB in Hq. simpl in Hq. lia.
      * eexists. split; [reflexivity|]. simpl. lia.
    + eexists. split; [reflexivity|]. simpl. rewrite queries_app. simpl. lia.
Qed.

(** [run] terminates, after at most [BOUND] solver queries. *)
Lemma run_fuel_enough check st :
  exists r,
    run float check st = Some r
    /\ (queries (trace r) <= Z.to_nat (BOUND st))%nat.
Proof.
  unfold run, run_fuel.
  destruct (run_prelude st) as [st0|e] eqn:Hpre.
  - apply run_prelude_spec in Hpre as (_ & Htab & _).
    assert (HB : BOUND st0 = BOUND st)
      by (unfold same_tables in Htab; tauto).
    destruct (run_loop_total check (Z.to_nat (BOUND st)) 1
                (AssumD (idxAssum st)) (isObservableTransition st0) st0 [])
      as (r & Hr & Hq); [rewrite HB; lia|].
    exists r. split; [exact Hr|]. rewrite HB in Hq. simpl in Hq. lia.
  - eexists. split; [reflexivity|]. simpl. lia.
Qed.

End Driver.

(** C9 (failing input).  The small automaton has 3 transitions after
    preprocessing.  With [BOUND = 3] and a solver that answers [unsat] in
    every round, [run] completes two rounds, each printing the
    increase-the-bound message, and in the third round [incBound] raises
    [IndexError]: the run does not continue until [BOUND] is exhausted
    and never prints that the problem is UNSAT. *)
Theorem run_raises_before_bound_exhausted :
  run float_of_numeral solver_unsat (silent_init 3 0)
  = Some (mkRun [ Checked 2 unsat; Print_increase 2;
                  Checked 3 unsat; Print_increase 3 ]
            (Raise IndexError)).
Proof. vm_compute. reflexivity. Qed.

Section BoundZero.

Variable float : string -> result Q.

(** Without a positive [BOUND] the loop of [run] is not entered. *)
Lemma run_without_rounds check st st0 :
  BOUND st <= 0 ->
  run_prelude st = Ok st0 ->
  run float check st
  = Some (mkRun [Print_unsat; Print_unsat_core] (Ok st0))
  /\ nsteps st0 = nsteps st.
Proof.
  intros HB Hpre. unfold run, run_fuel. rewrite Hpre.
  apply run_prelude_spec in Hpre as (_ & Htab & Hn & _).
  assert (HB0 : BOUND st0 = BOUND st) by (unfold same_tables in Htab; tauto).
  replace (Z.to_nat (BOUND st)) with 0%nat by lia.
  rewrite run_loop_O.
  replace (1 <=? BOUND st0) with false by (symmetry; apply Z.leb_gt; lia).
  auto.
Qed.

(** C8 (amended).  When [BOUND] is 0 (or negative) the loop of [run] is
    not entered: the driver performs no unrolling beyond the initial
    step, sends no query to the solver, and reports the problem UNSAT,
    whatever [DELTA] is. *)
Theorem bound_zero_reports_unsat check st st0 :
  BOUND st <= 0 ->
  run_prelude st = Ok st0 ->
  run float check st
  = Some (mkRun [Print_unsat; Print_unsat_core] (Ok st0))
  /\ nsteps st0 = nsteps st
  /\ queries [Print_unsat; Print_unsat_core] = 0%nat.
Proof.
  intros HB Hpre.
  destruct (run_without_rounds check st st0 HB Hpre) as [Hrun Hn].
  auto.
Qed.

End BoundZero.

Lemma bound_zero_reports_unsat_witness :
  run float_of_numeral (solver_of_model silent_witness) (silent_init 0 0)
  = Some (mkRun [Print_unsat; Print_unsat_core]
            (Ok (from_ok empty_model (run_prelude (silent_init 0 0))))).
Proof.
  refine (proj1 (bound_zero_reports_unsat float_of_numeral
                   (solver_of_model silent_witness) (silent_init 0 0)
                   (from_ok empty_model (run_prelude (silent_init 0 0)))
                   _ _)).
  - vm_compute. discriminate.
  - vm_compute. reflexivity.
Defined.

(** C8, as stated, fails: with [BOUND = 0] and [DELTA = 0] the
    assertions of the initial step together with the goal
    [cptFault[-1] = DELTA] and the observability assumptions are
    satisfiable, yet no solver is asked and the run prints that the
    problem is UNSAT. *)
Lemma bound_zero_counterexample :
  exists st0,
    run_prelude (silent_init 0 0) = Ok st0
    /\ BOUND st0 = 0 /\ DELTA st0 = 0
    /\ models silent_witness (s st0)
    /\ models silent_witness
         (BVar (AssumD 0)
          :: RCmp Ceq (RVar (CptFault (nsteps st0))) (real (DELTA st0))
          :: map BVar (isObservableTransition st0))
    /\ forall check, exists r,
         run float_of_numeral check (silent_init 0 0) = Some r
         /\ In Print_unsat (trace r)
         /\ ~ In Print_sat (trace r)
         /\ queries (trace r) = 0%nat.
Proof.
  eexists. split; [vm_compute; reflexivity|].
  split; [reflexivity|]. split; [reflexivity|].
  split; [apply modelsb_models; vm_compute; reflexivity|].
  split; [apply modelsb_models; vm_compute; reflexivity|].
  intros check. eexists.
  split.
  - apply (run_without_rounds float_of_numeral check (silent_init 0 0)).
    + vm_compute. discriminate.
    + vm_compute. reflexivity.
  - simpl. split; [auto|]. split; [|reflexivity].
    intros [H|[H|[]]]; discriminate.
Qed.

(* ===================================================================== *)
(** ** The fault goal of a query                                          *)
(* ===================================================================== *)

Section FaultGoal.

Variable float : string -> result Q.

(** The literal [assumFO] is not among the assumptions of a query: they
    are [assumD], [assumB], [assumF] and the observability flags. *)
Lemma assumptions_without_assumFO n k st nb :
  ~ In (BVar (AssumFO k))
      (assumptions (AssumD n) st (map IsObservable (range nb))).
Proof.
  unfold assumptions. simpl. intros [H|[H|[H|H]]]; try discriminate.
  apply in_map_iff in H as (x & Hx & Hin).
  apply in_map_iff in Hin as (j & <- & _). discriminate.
Qed.

(** What the goal does force: in a reported model the last fault counter
    equals [DELTA], and the fault has occurred at the last step as soon
    as [DELTA] is not 0. *)
Lemma reported_fault_goal a bound delta st check r m c :
  Z3Model_init float a bound delta = Ok st ->
  sound check ->
  run float check st = Some r ->
  In (Print_model m c) (trace r) ->
  exists n : nat,
    c = Z.of_nat n
    /\ (rv m (CptFault n) == inject_Z delta)%Q
    /\ (delta <> 0 -> bv m (FaultOccurs (n - 1)) = true).
Proof.
  intros Hinit Hsound Hrun Hin.
  destruct (reported_model float _ _ _ _ _ _ _ _ Hinit Hsound Hrun Hin)
    as (st' & n & _ & -> & _ & Hn & _ & Hun & Has & Hm & Hma & Hidx).
  assert (HF : bv m (AssumF (n - 1)) = true).
  { change (eval m (BVar (AssumF (n - 1))) = true).
    apply (models_In _ _ _ Hma). unfold assumptions. rewrite Hidx.
    simpl. auto. }
  assert (Hgoal : (rv m (CptFault n) == inject_Z delta)%Q).
  { apply rcmp_eq.
    assert (H : eval m (Implies (BVar (AssumF (n - 1)))
                          (RCmp Ceq (RVar (CptFault n)) (real delta))) = true).
    { apply (models_In _ _ _ Hm), Has. simpl. auto. }
    simpl in H. rewrite HF in H. exact H. }
  exists n. split; [reflexivity|]. split; [exact Hgoal|].
  intros Hdelta.
  destruct (bv m (FaultOccurs (n - 1))) eqn:Hfo; [reflexivity|exfalso].
  destruct (unrolled_fault_counter _ _ _ _ Hun Hm) as [_ Hstep].
  destruct Hun as (_ & _ & _ & _ & _ & Hrules & _).
  destruct (Hrules (n - 1)%nat) as (_ & _ & Hfault); [lia|].
  assert (H : eval m (Implies (BEq (BVar (FaultOccurs (n - 1))) (BConst false))
                        (RCmp Ceq (RVar (CptFault (n - 1 + 1))) (real 0)))
              = true).
  { apply (models_In _ _ _ Hm), Hfault. simpl. auto. }
  simpl in H. rewrite Hfo in H. simpl in H. apply rcmp_eq in H.
  replace (n - 1 + 1)%nat with n in H by lia.
  rewrite H in Hgoal. apply Hdelta.
  unfold Qeq, inject_Z in Hgoal. simpl in Hgoal. lia.
Qed.

End FaultGoal.

(* ===================================================================== *)
(** ** The stutter sentinel                                               *)
(* ===================================================================== *)

Section Sentinel.

Variable float : string -> result Q.

Lemma incBound_delay st st' :
  incBound float st = Ok st' ->
  incl (delay_rule (S (nsteps st)) (nsteps st)) (s st').
Proof.
  intros H. unfold incBound in H.
  inv_ok H. inv_ok Hb. inv_ok Hbb. injection Hbbb as <-.
  apply addConstraintOnIdTransition_spec in Hbba
    as (_ & _ & _ & _ & _ & _ & Hdelay & _).
  simpl in Hdelay. intros f Hf. simpl. rewrite !in_app_iff.
  left; left. apply Hdelay, Hf.
Qed.

(** Both runs are pinned to the last transition at step 0. *)
Lemma Z3Model_init_pinned a bound delta st :
  Z3Model_init float a bound delta = Ok st ->
  In (ICmp Ceq (fp 0) (IConst (Z.of_nat (getNbTransition (automaton st)) - 1)))
    (s st)
  /\ In (ICmp Ceq (np 0) (IConst (Z.of_nat (getNbTransition (automaton st)) - 1)))
       (s st).
Proof.
  intros H. unfold Z3Model_init in H. inv_ok H.
  unfold add_initial_constraints in Hb. inv_ok Hb.
  apply addConstraintOnIdTransition_spec in Hbb
    as (_ & _ & _ & _ & Hincl & _ & _ & _ & _ & Htab & _).
  assert (Hauto : automaton st = automaton x).
  { unfold same_tables in Htab. simpl in Htab. tauto. }
  simpl in Hincl. rewrite Hauto.
  split; apply Hincl; rewrite !in_app_iff; left; left; right;
    unfold initial_paths; simpl; auto 10.
Qed.

(** A step whose path variable is the index 0 is treated as a stutter
    step, and a step whose path variable is any other index is not. *)
Lemma stutter_rules_in_models st st' m p :
  incBound float st = Ok st' ->
  models m (s st') ->
  let idx := nsteps st in
  (iv m (Path p idx) = 0 ->
   bv m (Nop p idx) = true
   /\ (rv m (DelayClock p (idx + 1)) == 0)%Q
   /\ iv m (Length p idx) = iv m (Length p (idx - 1))
   /\ iv m (LastlyActive p idx) = iv m (LastlyActive p (idx - 1)))
  /\ (iv m (Path p idx) <> 0 ->
      bv m (Nop p idx) = false
      /\ iv m (Length p idx) = iv m (Length p (idx - 1)) + 1
      /\ iv m (LastlyActive p idx) = iv m (Path p idx)).
Proof.
  intros Hinc Hm idx.
  pose proof (incBound_delay _ _ Hinc) as Hdelay.
  apply incBound_spec in Hinc
    as (Hpos & _ & _ & _ & _ & Hlast & Hlen & Hst & _).
  fold idx in Hdelay, Hlast, Hlen, Hst, Hpos.
  assert (D : eval m (Implies (ICmp Ceq (IVar (Path p idx)) (IConst 0))
                        (RCmp Ceq (RVar (DelayClock p (idx + 1))) (real 0)))
              = true)
    by (apply (models_In _ _ _ Hm), Hdelay; destruct p; simpl; auto 12).
  assert (L1 : eval m (Implies (ICmp Ceq (IVar (Path p idx)) (int NOP_TRANSITION))
                         (ICmp Ceq (IVar (LastlyActive p idx))
                            (IVar (LastlyActive p (idx - 1))))) = true)
    by (apply (models_In _ _ _ Hm), Hlast; destruct p; simpl; auto 12).
  assert (L2 : eval m (Implies (ICmp Cne (IVar (Path p idx)) (int NOP_TRANSITION))
                         (ICmp Ceq (IVar (LastlyActive p idx))
                            (IVar (Path p idx)))) = true)
    by (apply (models_In _ _ _ Hm), Hlast; destruct p; simpl; auto 12).
  assert (N : eval m (If (ICmp Ceq (IVar (Path p idx)) (IConst 0))
                        (ICmp Ceq (IVar (Length p idx))
                           (IVar (Length p (idx - 1))))
                        (ICmp Ceq (IVar (Length p idx))
                           (IAdd (IVar (Length p (idx - 1))) (IConst 1))))
              = true).
  { apply (models_In _ _ _ Hm), Hlen.
    destruct idx as [|i]; [lia|]. simpl. rewrite Nat.sub_0_r.
    destruct p; auto. }
  assert (S1 : eval m (BEq (BVar (Nop p idx))
                         (ICmp Ceq (IVar (Path p idx)) (int NOP_TRANSITION)))
               = true)
    by (apply (models_In _ _ _ Hm), Hst; destruct p; simpl; auto 12).
  simpl in D, L1, L2, N, S1.
  change (Z.of_nat NOP_TRANSITION) with 0 in L1, L2, S1.
  apply Bool.eqb_prop in S1. rewrite S1.
  split; intros H.
  - rewrite H in *. simpl in *.
    repeat split; try reflexivity;
      [apply rcmp_eq, D|apply Z.eqb_eq, N|apply Z.eqb_eq, L1].
  - apply Z.eqb_neq in H. rewrite H in *. simpl in *.
    repeat split; try reflexivity; [apply Z.eqb_eq, N|apply Z.eqb_eq, L2].
Qed.

End Sentinel.

Section SentinelClaim.

Variable float : string -> result Q.

(** C4 (amended).  After preprocessing, the transition
    [setup_transitions] appends (event [NO_OBS], guards [c_i = 0], all
    clocks reset) occupies the last index of the transition list, and
    both runs are pinned to that index at step 0.  The sentinel by which
    the encoder recognises a stutter step is another index, the constant
    [NOP_TRANSITION] = 0, where the automaton keeps its first transition
    (the self-loop its constructor creates).  In every model of the
    assertions of a later step, a run whose path variable is 0 has its
    stutter flag set, its next delay 0, its length counter unchanged and
    its last active transition propagated; a run whose path variable is
    the last index is treated as an ordinary step. *)
Theorem stutter_sentinel_is_index_0 a bound delta st st0 k st1 st2 m p :
  Z3Model_init float a bound delta = Ok st ->
  (0 < getNbTransition a)%nat ->
  run_prelude st = Ok st0 ->
  rounds float k st0 = Ok st1 ->
  incBound float st1 = Ok st2 ->
  models m (s st2) ->
  let last := (getNbTransition (automaton st) - 1)%nat in
  let idx := nsteps st1 in
  (exists src tgt,
      transitionList (automaton st) !! last
      = Some (mkTransition src tgt NO_OBS (start_guard (clockNum a))
                (map Z.of_nat (range (clockNum a)))))
  /\ In (ICmp Ceq (fp 0) (IConst (Z.of_nat last))) (s st)
  /\ In (ICmp Ceq (np 0) (IConst (Z.of_nat last))) (s st)
  /\ (NOP_TRANSITION < last)%nat
  /\ transitionList (automaton st) !! NOP_TRANSITION = transitionList a !! 0%nat
  /\ (iv m (Path p idx) = Z.of_nat NOP_TRANSITION ->
      bv m (Nop p idx) = true
      /\ (rv m (DelayClock p (idx + 1)) == 0)%Q
      /\ iv m (Length p idx) = iv m (Length p (idx - 1))
      /\ iv m (LastlyActive p idx) = iv m (LastlyActive p (idx - 1)))
  /\ (iv m (Path p idx) = Z.of_nat last ->
      bv m (Nop p idx) = false
      /\ iv m (Length p idx) = iv m (Length p (idx - 1)) + 1
      /\ iv m (LastlyActive p idx) = iv m (Path p idx)).
Proof.
  intros Hinit Ha Hpre Hk Hinc Hm last idx.
  pose proof (Z3Model_init_spec float _ _ _ _ Hinit)
    as (Hnb & (src & tgt & Htl) & _).
  pose proof (Z3Model_init_pinned float _ _ _ _ Hinit) as [Hfp Hnp].
  assert (Hlast : Z.of_nat last = Z.of_nat (getNbTransition (automaton st)) - 1)
    by (unfold last; lia).
  destruct (stutter_rules_in_models float _ _ m p Hinc Hm) as [Hnop Hstep].
  fold idx in Hnop, Hstep.
  split.
  { exists src, tgt. unfold last, getNbTransition. rewrite Htl.
    apply last_lookup_app. }
  split; [rewrite Hlast; exact Hfp|]. split; [rewrite Hlast; exact Hnp|].
  split; [unfold NOP_TRANSITION, last; lia|].
  split.
  { rewrite Htl. unfold NOP_TRANSITION. apply lookup_app_l.
    unfold getNbTransition in Ha. exact Ha. }
  split; [exact Hnop|].
  intros Hp. apply Hstep. rewrite Hp. unfold last. lia.
Qed.

End SentinelClaim.

Lemma stutter_sentinel_is_index_0_witness :
  (NOP_TRANSITION < getNbTransition (automaton fault_init) - 1)%nat.
Proof.
  refine (proj1 (proj2 (proj2 (proj2
    (stutter_sentinel_is_index_0 float_of_numeral fault_automaton 2 3
       fault_init
       (from_ok empty_model (run_prelude fault_init))
       1%nat
       (from_ok empty_model
          (rounds float_of_numeral 1
             (from_ok empty_model (run_prelude fault_init))))
       (from_ok empty_model
          (incBound float_of_numeral
             (from_ok empty_model
                (rounds float_of_numeral 1
                   (from_ok empty_model (run_prelude fault_init))))))
       critical_pair Normal _ _ _ _ _ _))))).
  - vm_compute. reflexivity.
  - vm_compute. lia.
  - vm_compute. reflexivity.
  - vm_compute. reflexivity.
  - vm_compute. reflexivity.
  - apply modelsb_models. vm_compute. reflexivity.
Defined.

(** C4, as stated, fails: the last index is not the stutter sentinel.  In
    the critical pair of the automaton with a fault, a model of every
    assertion of a three-step horizon, the normal run takes the last
    index (4) at step 0 and the delay that follows is 3, although the
    delay after a stutter step is forced to 0. *)
Lemma last_index_is_not_the_sentinel :
  exists st',
    rounds float_of_numeral 2 (from_ok empty_model (run_prelude fault_init))
    = Ok st'
    /\ models critical_pair (s st')
    /\ iv critical_pair (Path Normal 0)
       = Z.of_nat (getNbTransition (automaton st') - 1)
    /\ ~ (rv critical_pair (DelayClock Normal 1) == 0)%Q
    /\ NOP_TRANSITION <> (getNbTransition (automaton st') - 1)%nat.
Proof.
  eexists. split; [vm_compute; reflexivity|].
  split; [apply modelsb_models; vm_compute; reflexivity|].
  split; [vm_compute; reflexivity|].
  split; [intros H; vm_compute in H; discriminate|].
  vm_compute. discriminate.
Qed.

(* ===================================================================== *)
(** ** The paths of a reported model                                      *)
(* ===================================================================== *)

Lemma leaving_bound ts q n x : In x (leaving ts q n) -> (x < n)%nat.
Proof.
  unfold leaving. intros H. apply filter_In in H as [H _].
  unfold range in H. apply in_seq in H. lia.
Qed.

(** The follower table only holds indices of transitions. *)
Lemma setup_transitions_followers st st' j next x :
  setup_transitions st = Ok st' ->
  nextTransition st' !! j = Some next ->
  In x next ->
  (x < getNbTransition (automaton st'))%nat.
Proof.
  intros H Hj Hx.
  pose proof (setup_transitions_spec _ _ H) as (src & tgt & Htl & _).
  assert (Hnb : getNbTransition (automaton st')
                = S (getNbTransition (automaton st))).
  { unfold getNbTransition. rewrite Htl, length_app. simpl. lia. }
  unfold setup_transitions in H.
  inv_ok H. inv_ok Hb. inv_ok Hbb. injection Hbbb as <-.
  simpl in Hj, Hnb. simpl.
  apply lookup_app_Some in Hj as [Hj|[_ Hj]].
  - rewrite map_lookup in Hj.
    destruct (range (getNbTransition (automaton st)) !! j) as [i|] eqn:Ei;
      [|discriminate].
    simpl in Hj. injection Hj as <-.
    destruct (getTransitionList (automaton st) !! i) as [ti|].
    + destruct Hx as [<-|Hx]; [unfold NOP_TRANSITION; lia|].
      apply leaving_bound in Hx. lia.
    + destruct Hx as [<-|[]]. unfold NOP_TRANSITION. lia.
  - match type of Hj with
    | [?l] !! ?i = Some _ =>
        destruct i as [|i']; simpl in Hj; [|discriminate]
    end.
    injection Hj as <-.
    destruct Hx as [<-|Hx]; [unfold NOP_TRANSITION; lia|].
    apply leaving_bound in Hx. exact Hx.
Qed.

Lemma chained_incl fs gs n nb evs nexts :
  chained fs n nb evs nexts -> incl fs gs -> chained gs n nb evs nexts.
Proof.
  unfold chained. intros (H1 & H2 & H3 & H4 & H5 & H6) Hincl.
  split; [auto|]. split; [auto|]. split; [auto|]. split; [auto|].
  split; [|auto].
  intros p i Hi. eapply incl_tran; [apply H5, Hi|exact Hincl].
Qed.

Section Chain.

Variable float : string -> result Q.

(** What [incBound] asserts about the paths at the step it adds. *)
Lemma incBound_chain st st' nb :
  incBound float st = Ok st' ->
  getNbTransition (automaton st) = nb ->
  labelTransition st = map LabelTransition (range nb) ->
  (forall p (j : nat), (j < nb)%nat ->
     In (label_binding p (nsteps st) j) (s st'))
  /\ (forall p (j : nat) next, (j < nb)%nat ->
        nextTransition st !! j = Some next ->
        In (successor_of p (nsteps st) j next) (s st'))
  /\ (forall p, incl (lastlyActive_rule p (nsteps st)) (s st')).
Proof.
  intros H Hnb Hlab.
  pose proof (incBound_spec float _ _ H)
    as (_ & _ & _ & _ & _ & Hlast & _).
  unfold incBound in H.
  inv_ok H. inv_ok Hb. inv_ok Hbb. injection Hbbb as <-.
  simpl in Hba. rewrite Hnb in Hba.
  split; [|split].
  - intros p j Hj.
    assert (Hl : labelTransition st !! j = Some (LabelTransition j)).
    { rewrite Hlab, map_lookup.
      replace (range nb !! j) with (Some j); [reflexivity|].
      symmetry. unfold range. apply lookup_seq. lia. }
    destruct (addConstraintOnIdTransition_binding float _ _ _ j
                (LabelTransition j) Hbba) as [HF HN].
    + simpl. rewrite Hnb. exact Hj.
    + simpl. exact Hl.
    + simpl. rewrite !in_app_iff. left; left.
      destruct p; [exact HF|exact HN].
  - intros p j next Hj Hnext.
    destruct (for_each_In _ _ _ j Hba (range_In _ _ Hj)) as (zs & Hz & Hzs).
    unfold successor_rule in Hz. simpl in Hz. rewrite Hnext in Hz.
    simpl in Hz. injection Hz as <-.
    apply addConstraintOnIdTransition_spec in Hbba
      as (bindings & o & _ & _ & Hincl & _).
    simpl. rewrite !in_app_iff. left; left. apply Hincl. simpl.
    rewrite !in_app_iff. left; right. apply Hzs.
    unfold successor_of. destruct p; simpl; auto.
  - intros p f Hf. apply Hlast. rewrite in_app_iff.
    destruct p; auto.
Qed.

End Chain.

Section ChainedRuns.

Variable float : string -> result Q.

(** The state after [Z3Model.__init__] and the prelude of [run] ties
    step 0 of both runs to the automaton. *)
Lemma run_prelude_chained a bound delta st st0 :
  Z3Model_init float a bound delta = Ok st ->
  run_prelude st = Ok st0 ->
  let nb := getNbTransition (automaton st) in
  chained (s st0) 1 nb (map getEventId (transitionList (automaton st)))
    (nextTransition st)
  /\ (forall j next x, nextTransition st !! j = Some next -> In x next ->
        (x < nb)%nat).
Proof.
  intros Hinit Hpre nb.
  pose proof (Z3Model_init_spec float _ _ _ _ Hinit)
    as (Hnb & _ & _ & _ & _ & _ & _ & Hlab & _).
  pose proof (Z3Model_init_pinned float _ _ _ _ Hinit) as [Hfp Hnp].
  pose proof (run_prelude_spec _ _ Hpre) as (Hs0 & _ & _ & _ & _ & Hpin).
  fold nb in Hnb, Hlab, Hfp, Hnp.
  unfold Z3Model_init in Hinit. inv_ok Hinit. rename x into st1.
  pose proof (fun j next x => setup_transitions_followers _ _ j next x Hinita)
    as Hfollow.
  unfold add_initial_constraints in Hinitb. inv_ok Hinitb.
  pose proof Hinitbb as Hbind.
  apply addConstraintOnIdTransition_spec in Hinitbb
    as (bindings & o & _ & _ & Hincl & _ & _ & _ & _ & Htab & _).
  pose proof Htab as (Ea & _ & _ & En & _ & El & _).
  simpl in Ea, En, El, Hincl.
  split; [unfold chained; split; [|split; [|split; [|split; [|split]]]]|].
  - intros p. apply Hs0. destruct p; assumption.
  - intros p. apply Hs0, Hincl. rewrite !in_app_iff. left; left; right.
    unfold initial_paths. destruct p; simpl; auto 10.
  - intros p i j Hi Hj. replace i with 0%nat by lia. apply Hs0.
    destruct (addConstraintOnIdTransition_binding float _ _ _ j
                (LabelTransition j) Hbind) as [HF HN].
    + simpl. unfold nb in Hj. rewrite Ea in Hj. exact Hj.
    + simpl. rewrite <- El, Hlab, map_lookup.
      replace (range nb !! j) with (Some j); [reflexivity|].
      symmetry. unfold range. apply lookup_seq. lia.
    + destruct p; [exact HF|exact HN].
  - intros j ev Hev. rewrite map_lookup in Hev.
    destruct (transitionList (automaton st) !! j) as [t|] eqn:Et;
      [|discriminate].
    simpl in Hev. injection Hev as <-.
    apply (Hpin j (LabelTransition j) t); [|exact Et].
    rewrite Hlab, map_lookup.
    replace (range nb !! j) with (Some j); [reflexivity|].
    symmetry. unfold range. apply lookup_seq.
    apply lookup_lt_Some in Et. unfold nb, getNbTransition. lia.
  - intros p i Hi. lia.
  - intros p i j next Hi. lia.
  - intros j next y Hj Hy. unfold nb. rewrite Ea.
    apply (Hfollow j next y); [rewrite <- En; exact Hj|exact Hy].
Qed.

Lemma chained_round st st' nb evs :
  ready float st nb ->
  labelTransition st = map LabelTransition (range nb) ->
  chained (s st) (nsteps st) nb evs (nextTransition st) ->
  round float st = Ok st' ->
  chained (s st') (nsteps st') nb evs (nextTransition st').
Proof.
  intros Hready Hlab Hch H.
  pose proof (round_spec float _ _ H) as (Hpos & Hn & _ & Htab & Hs & _).
  pose proof Htab as (_ & _ & _ & En & _).
  unfold round in H. inv_ok H. injection Hb as <-.
  destruct Hready as (_ & Hnb & Hnext & _).
  pose proof (incBound_chain float _ _ nb Ha Hnb Hlab) as (Hbind & Hsucc & Hlast).
  assert (Hsub : incl (s x) (s (assume_round x)))
    by (unfold assume_round; simpl; solve_incl).
  pose proof (chained_incl _ _ _ _ _ _ Hch Hs) as (H1 & H2 & H3 & H4 & H5 & H6).
  rewrite Hn, En. unfold chained.
  split; [exact H1|]. split; [exact H2|]. split; [|split; [exact H4|split]].
  - intros p i j Hi Hj. destruct (decide (i = nsteps st)) as [->|Hne].
    + apply Hsub, Hbind, Hj.
    + apply H3; lia.
  - intros p i Hi. destruct (decide (i = nsteps st)) as [->|Hne].
    + eapply incl_tran; [apply Hlast|exact Hsub].
    + apply H5. lia.
  - intros p i j next Hi Hj. destruct (decide (i = nsteps st)) as [->|Hne].
    + apply Hsub, Hsucc; [|exact Hj].
      apply lookup_lt_Some in Hj. lia.
    + apply H6; [lia|exact Hj].
Qed.

Lemma chained_rounds k : forall st st' nb evs,
  ready float st nb ->
  labelTransition st = map LabelTransition (range nb) ->
  chained (s st) (nsteps st) nb evs (nextTransition st) ->
  rounds float k st = Ok st' ->
  chained (s st') (nsteps st') nb evs (nextTransition st')
  /\ nextTransition st' = nextTransition st.
Proof.
  induction k as [|k IH]; intros st st' nb evs Hready Hlab Hch H; simpl in H.
  - injection H as <-. auto.
  - inv_ok H. rename x into st1.
    pose proof (chained_round _ _ _ _ Hready Hlab Hch Ha) as Hch1.
    pose proof (round_spec float _ _ Ha) as (_ & Hn & _ & Htab & _).
    pose proof Htab as (_ & _ & _ & En & _ & El & _).
    destruct (IH st1 st' nb evs) as [Hch' En']; try assumption.
    + apply (ready_same float st); [exact Hready|exact Htab|lia].
    + congruence.
    + split; [exact Hch'|congruence].
Qed.

Lemma rounds_nsteps k : forall st st',
  rounds float k st = Ok st' -> nsteps st' = (nsteps st + k)%nat.
Proof.
  induction k as [|k IH]; intros st st' H; simpl in H.
  - injection H as <-. lia.
  - inv_ok H. apply IH in Hb.
    apply round_spec in Ha as (_ & Hn & _). lia.
Qed.

(** The round in which a printed model was found. *)
Lemma reported_round a bound delta st check r m c :
  Z3Model_init float a bound delta = Ok st ->
  run float check st = Some r ->
  In (Print_model m c) (trace r) ->
  exists st0 k st',
    run_prelude st = Ok st0
    /\ rounds float (S k) st0 = Ok st'
    /\ check (s st')
         (assumptions (AssumD 0) st' (isObservableTransition st)) = sat m
    /\ c = Z.of_nat (nsteps st')
    /\ final r = Ok st'.
Proof.
  intros Hinit Hrun Hin.
  pose proof (Z3Model_init_spec float _ _ _ _ Hinit)
    as (_ & _ & Hn & Hi & _).
  pose proof (Z3Model_init_ready float _ _ _ _ Hinit) as Hready.
  unfold run, run_fuel in Hrun.
  destruct (run_prelude st) as [st0|e] eqn:Hpre;
    [|injection Hrun as <-; destruct Hin].
  pose proof (run_prelude_spec _ _ Hpre) as (_ & Htab0 & Hn0 & _).
  assert (Hobs0 : isObservableTransition st0 = isObservableTransition st)
    by (unfold same_tables in Htab0; tauto).
  rewrite Hobs0, Hi in Hrun.
  destruct (run_loop_model float check _ _ _ _ _ _ _ m c Hrun)
    as (k & st' & Hr & Hcheck & Hc & Hfin); [intros ? ? []|exact Hin|].
  exists st0, k, st'.
  split; [reflexivity|]. split; [exact Hr|]. split; [exact Hcheck|].
  split; [|exact Hfin].
  apply rounds_nsteps in Hr. lia.
Qed.

End ChainedRuns.

(** In a model of a chained unrolling the path variables and the last
    active transitions are indices of transitions. *)
Lemma chained_valid m fs n nb evs nexts :
  chained fs n nb evs nexts ->
  (0 < nb)%nat ->
  length nexts = nb ->
  (forall j next x, nexts !! j = Some next -> In x next -> (x < nb)%nat) ->
  models m fs ->
  forall (i : nat) p, (i < n)%nat ->
    (exists j : nat, (j < nb)%nat /\ iv m (Path p i) = Z.of_nat j)
    /\ (exists j : nat, (j < nb)%nat /\ iv m (LastlyActive p i) = Z.of_nat j).
Proof.
  intros (Hpin & Hlast0 & _ & _ & Hlast & Hsucc) Hnb Hlen Hfollow Hm.
  induction i as [|i IH]; intros p Hi.
  - pose proof (models_In _ _ _ Hm (Hpin p)) as H1.
    pose proof (models_In _ _ _ Hm (Hlast0 p)) as H2.
    simpl in H1, H2. apply Z.eqb_eq in H1. apply Z.eqb_eq in H2.
    split; exists (nb - 1)%nat; (split; [lia|]); [|rewrite <- H2]; lia.
  - destruct (IH p) as [_ (j & Hj & Hl)]; [lia|].
    destruct (lookup_lt_is_Some_2 nexts j) as [next Hnext]; [lia|].
    pose proof (models_In _ _ _ Hm (Hsucc p (S i) j next ltac:(lia) Hnext))
      as H.
    unfold successor_of in H. simpl in H. rewrite Nat.sub_0_r in H.
    rewrite Hl, Z.eqb_refl in H. simpl in H.
    apply existsb_exists in H as (f & Hf & Hev).
    apply in_map_iff in Hf as (x & <- & Hx).
    simpl in Hev. apply Z.eqb_eq in Hev.
    assert (Hxb : (x < nb)%nat) by (apply (Hfollow j next x); assumption).
    split; [exists x; auto|].
    assert (L1 : eval m (Implies (ICmp Ceq (IVar (Path p (S i)))
                                    (int NOP_TRANSITION))
                           (ICmp Ceq (IVar (LastlyActive p (S i)))
                              (IVar (LastlyActive p (S i - 1))))) = true)
      by (apply (models_In _ _ _ Hm), (Hlast p (S i)); [lia|simpl; auto]).
    assert (L2 : eval m (Implies (ICmp Cne (IVar (Path p (S i)))
                                    (int NOP_TRANSITION))
                           (ICmp Ceq (IVar (LastlyActive p (S i)))
                              (IVar (Path p (S i))))) = true)
      by (apply (models_In _ _ _ Hm), (Hlast p (S i)); [lia|simpl; auto]).
    simpl in L1, L2. rewrite Nat.sub_0_r in L1.
    destruct (iv m (Path p (S i)) =? Z.of_nat NOP_TRANSITION); simpl in *.
    + apply Z.eqb_eq in L1. exists j. split; [exact Hj|congruence].
    + apply Z.eqb_eq in L2. exists x. split; [exact Hxb|congruence].
Qed.

(** In a model of a chained unrolling the label of a run at a step is
    the event of the transition the run takes there. *)
Lemma chained_event m fs n nb evs nexts :
  chained fs n nb evs nexts ->
  (0 < nb)%nat ->
  length nexts = nb ->
  length evs = nb ->
  (forall j next x, nexts !! j = Some next -> In x next -> (x < nb)%nat) ->
  models m fs ->
  forall (i : nat) p, (i < n)%nat ->
    exists (j : nat) (ev : Z),
      evs !! j = Some ev
      /\ iv m (Path p i) = Z.of_nat j
      /\ iv m (IdTransition p i) = ev.
Proof.
  intros Hch Hnb Hlen Hevs Hfollow Hm i p Hi.
  destruct (chained_valid _ _ _ _ _ _ Hch Hnb Hlen Hfollow Hm i p Hi)
    as [(j & Hj & Hp) _].
  destruct Hch as (_ & _ & Hbind & Hpins & _).
  destruct (lookup_lt_is_Some_2 evs j) as [ev Hev]; [lia|].
  pose proof (models_In _ _ _ Hm (Hbind p i j Hi Hj)) as H1.
  pose proof (models_In _ _ _ Hm (Hpins j ev Hev)) as H2.
  unfold label_binding in H1. simpl in H1, H2.
  rewrite Hp, Z.eqb_refl in H1. simpl in H1.
  apply Z.eqb_eq in H1. apply Z.eqb_eq in H2.
  exists j, ev. split; [exact Hev|]. split; [exact Hp|congruence].
Qed.

Section ReportedPaths.

Variable float : string -> result Q.

(** In every model [run] prints, each run takes at every step of the
    horizon a transition of the preprocessed automaton, and the label of
    the step is the event of that transition. *)
Lemma reported_paths a bound delta st check r m c p (i : nat) :
  Z3Model_init float a bound delta = Ok st ->
  sound check ->
  run float check st = Some r ->
  In (Print_model m c) (trace r) ->
  Z.of_nat i < c ->
  exists (j : nat) t,
    transitionList (automaton st) !! j = Some t
    /\ iv m (Path p i) = Z.of_nat j
    /\ iv m (IdTransition p i) = getEventId t.
Proof.
  intros Hinit Hsound Hrun Hin Hi.
  destruct (reported_round float _ _ _ _ _ _ _ _ Hinit Hrun Hin)
    as (st0 & k & st' & Hpre & Hr & Hcheck & -> & _).
  apply Hsound in Hcheck as [Hm _].
  pose proof (Z3Model_init_ready float _ _ _ _ Hinit) as Hready.
  pose proof (Z3Model_init_spec float _ _ _ _ Hinit)
    as (Hnb & _ & _ & _ & _ & _ & _ & Hlab & _).
  destruct (run_prelude_chained float _ _ _ _ _ Hinit Hpre) as [Hch Hfollow].
  pose proof (run_prelude_spec _ _ Hpre) as (_ & Htab & Hn0 & _).
  pose proof Htab as (_ & _ & _ & En & _ & El & _).
  set (nb := getNbTransition (automaton st)) in *.
  assert (Hready0 : ready float st0 nb).
  { apply (ready_same float st); [exact Hready|exact Htab|].
    destruct Hready as (Hpos & _). lia. }
  assert (Hn1 : nsteps st0 = 1%nat).
  { pose proof (Z3Model_init_spec float _ _ _ _ Hinit) as (_ & _ & Hn & _).
    lia. }
  destruct (chained_rounds float (S k) st0 st' nb
              (map getEventId (transitionList (automaton st))))
    as [Hch' En']; try assumption.
  { congruence. }
  { rewrite Hn1, En. exact Hch. }
  rewrite En', En in Hch'.
  destruct (chained_event m _ _ _ _ _ Hch') with (i := i) (p := p)
    as (j & ev & Hev & Hp & Hid); try assumption.
  - lia.
  - destruct Hready as (_ & _ & Hlen & _). exact Hlen.
  - rewrite length_map. reflexivity.
  - lia.
  - rewrite map_lookup in Hev.
    destruct (transitionList (automaton st) !! j) as [t|] eqn:Et;
      [|discriminate].
    simpl in Hev. injection Hev as <-.
    exists j, t. auto.
Qed.

(** For an automaton without a fault transition, the fault flag is false
    at every step of every model [run] prints. *)
Lemma no_fault_edge_never_flagged a bound delta st check r m c :
  Z3Model_init float a bound delta = Ok st ->
  (forall t, In t (transitionList a) -> getEventId t <> FAULT) ->
  sound check ->
  run float check st = Some r ->
  In (Print_model m c) (trace r) ->
  forall i : nat, Z.of_nat i < c -> bv m (FaultOccurs i) = false.
Proof.
  intros Hinit Hnofault Hsound Hrun Hin.
  destruct (reported_model float _ _ _ _ _ _ _ _ Hinit Hsound Hrun Hin)
    as (st' & n & _ & Hc & _ & Hn & _ & Hun & _ & Hm & _).
  pose proof (Z3Model_init_spec float _ _ _ _ Hinit)
    as (_ & (src & tgt & Htl) & _).
  induction i as [|i IH]; intros Hi.
  - apply (unrolled_no_fault_at_0 _ _ _ _ Hun Hm). lia.
  - destruct (reported_paths _ _ _ _ _ _ _ _ Faulty (S i)
                Hinit Hsound Hrun Hin Hi) as (j & t & Ht & _ & Hid).
    assert (Hev : getEventId t <> FAULT).
    { rewrite Htl in Ht. apply lookup_app_Some in Ht as [Ht|[_ Ht]].
      - apply Hnofault. apply list_elem_of_In. eapply list_elem_of_lookup_2, Ht.
      - match type of Ht with
        | [?x] !! ?k = Some _ =>
            destruct k; simpl in Ht; [|discriminate]
        end.
        injection Ht as <-. discriminate. }
    destruct Hun as (_ & _ & _ & _ & _ & Hrules & _).
    destruct (Hrules (S i)) as (_ & _ & Hfault); [lia|].
    assert (H : eval m (BEq (Or [ BVar (FaultOccurs (S i - 1));
                                  ICmp Ceq (IVar (IdTransition Faulty (S i)))
                                    (IConst FAULT) ])
                          (BVar (FaultOccurs (S i)))) = true)
      by (apply (models_In _ _ _ Hm), Hfault; simpl; auto).
    simpl in H. rewrite Nat.sub_0_r in H.
    rewrite IH in H by lia. rewrite Hid in H.
    apply Z.eqb_neq in Hev. rewrite Hev in H. simpl in H.
    destruct (bv m (FaultOccurs (S i))); [discriminate|reflexivity].
Qed.

End ReportedPaths.

(** C1 (failing input).  For the small automaton, which has no fault
    transition, with [BOUND = 1] and [DELTA = 0], the query of round 1 is
    satisfiable and [run] reports [sat] at a horizon of two steps; in the
    model it prints the fault counter equals [DELTA] but the flag
    [faultOccurs] is false at the last step.  No solver can do better on
    this input: whatever model a sound solver returns, the flag is false
    at every step. *)
Theorem sat_reported_without_fault :
  (exists r st',
      sound (solver_of_model silent_witness)
      /\ run float_of_numeral (solver_of_model silent_witness)
           (silent_init 1 0) = Some r
      /\ final r = Ok st'
      /\ trace r = [ Checked 2 (sat silent_witness); Print_sat;
                     Print_model silent_witness 2 ]
      /\ models silent_witness (s st')
      /\ (rv silent_witness (CptFault 2) == inject_Z (DELTA st'))%Q
      /\ bv silent_witness (FaultOccurs 1) = false)
  /\ (forall check r m c,
        sound check ->
        run float_of_numeral check (silent_init 1 0) = Some r ->
        In (Print_model m c) (trace r) ->
        forall i : nat, Z.of_nat i < c -> bv m (FaultOccurs i) = false).
Proof.
  split.
  - eexists. eexists.
    split; [apply solver_of_model_sound|].
    split; [vm_compute; reflexivity|].
    split; [reflexivity|]. split; [reflexivity|].
    split; [apply modelsb_models; vm_compute; reflexivity|].
    split; reflexivity.
  - intros check r m c Hsound Hrun Hin.
    apply (no_fault_edge_never_flagged float_of_numeral silent_automaton 1 0
             (silent_init 1 0) check r m c); try assumption.
    + vm_compute. reflexivity.
    + intros t Ht. vm_compute in Ht.
      destruct Ht as [<-|[<-|[]]]; discriminate.
Qed.

(* ===================================================================== *)
(** ** Further properties of the encoder                                  *)
(* ===================================================================== *)

Section Encoded.

Variable float : string -> result Q.

(** The bindings only read the automaton and the tables. *)
Lemma bind_clock_ext st st' pos j k :
  same_automaton st st' ->
  bind_clock float st' pos j k = bind_clock float st pos j k.
Proof.
  intros (Ha & _ & Hr & _). unfold bind_clock. rewrite Ha, Hr. reflexivity.
Qed.

Lemma for_each_ext {A B} (f g : A -> result (list B)) l :
  (forall x, f x = g x) -> for_each f l = for_each g l.
Proof.
  intros H. induction l as [|x l IH]; simpl; [reflexivity|].
  rewrite H, IH. reflexivity.
Qed.

Lemma bind_transition_ext st st' pos j :
  same_automaton st st' ->
  bind_transition float st' pos j = bind_transition float st pos j.
Proof.
  intros Hsame. pose proof Hsame as (Ha & Hl & _ & Hc).
  unfold bind_transition. rewrite Ha, Hl, Hc.
  rewrite (for_each_ext (bind_clock float st' pos j)
             (bind_clock float st pos j)); [reflexivity|].
  intros k. apply bind_clock_ext, Hsame.
Qed.

Lemma same_tables_automaton st st' :
  same_tables st st' -> same_automaton st st'.
Proof.
  unfold same_tables, same_automaton. tauto.
Qed.

Lemma same_automaton_sym st st' :
  same_automaton st st' -> same_automaton st' st.
Proof. unfold same_automaton. intuition congruence. Qed.

(** Everything a step asserts that the further properties use. *)
Lemma addConstraintOnIdTransition_full st pos st' :
  addConstraintOnIdTransition float st pos = Ok st' ->
  (forall j : nat, (j < getNbTransition (automaton st))%nat ->
     exists zs, bind_transition float st pos j = Ok zs /\ incl zs (s st'))
  /\ incl ([ BEq (BVar (ClockConstraint Faulty pos)) (BConst true);
             BEq (BVar (ClockConstraint Normal pos)) (BConst true) ]
           ++ flat_map (update_clock pos) (range (clockNum (automaton st)))
           ++ delay_rule (nsteps st) pos) (s st').
Proof.
  intros H. pose proof H as H'.
  apply addConstraintOnIdTransition_spec in H
    as (bindings & o & Hb & _ & _ & Hincl & _).
  split.
  - intros j Hj.
    destruct (for_each_In _ _ _ j Hb (range_In _ _ Hj)) as (zs & Hz & Hzs).
    exists zs. split; [exact Hz|]. eapply incl_tran; eassumption.
  - unfold addConstraintOnIdTransition in H'.
    inv_ok H'. inv_ok H'b. injection H'bb as <-.
    intros f Hf. cbn [s add]. rewrite !in_app_iff in *.
    destruct Hf as [Hf|[Hf|Hf]]; auto 10.
Qed.

Lemma encoded_incl st fs gs n :
  encoded float st fs n -> incl fs gs -> encoded float st gs n.
Proof.
  intros (H1 & H2 & H3 & H4) Hincl. split; [|split; [|split]].
  - intros i j Hi Hj. destruct (H1 i j Hi Hj) as (zs & Hz & Hzs).
    exists zs. split; [exact Hz|]. eapply incl_tran; eassumption.
  - intros i Hi. eapply incl_tran; [apply H2, Hi|exact Hincl].
  - intros i Hi. apply Hincl, H3, Hi.
  - eapply incl_tran; eassumption.
Qed.

Lemma encoded_same st st' fs n :
  same_automaton st st' -> encoded float st fs n -> encoded float st' fs n.
Proof.
  intros Hsame (H1 & H2 & H3 & H4). pose proof Hsame as (Ha & _).
  split; [|split; [|split]].
  - intros i j Hi Hj. rewrite Ha in Hj.
    destruct (H1 i j Hi Hj) as (zs & Hz & Hzs).
    exists zs. split; [|exact Hzs].
    rewrite (bind_transition_ext st st'); assumption.
  - rewrite Ha. exact H2.
  - exact H3.
  - rewrite Ha. exact H4.
Qed.

Lemma encoded_incBound st st' :
  encoded float st (s st) (nsteps st) ->
  incBound float st = Ok st' ->
  encoded float st' (s st') (nsteps st').
Proof.
  intros Henc H.
  pose proof (incBound_spec float _ _ H)
    as (_ & Hn & _ & Htab & Hs & _).
  apply (encoded_same st st'); [apply same_tables_automaton, Htab|].
  pose proof (encoded_incl _ _ _ _ Henc Hs) as (H1 & H2 & H3 & H4).
  unfold incBound in H.
  inv_ok H. inv_ok Hb. inv_ok Hbb. injection Hbbb as <-.
  pose proof (addConstraintOnIdTransition_full _ _ _ Hbba) as [Hbind Hcore].
  apply addConstraintOnIdTransition_spec in Hbba
    as (bindings & o & _ & _ & Hincl & _).
  simpl in Hbind, Hcore, Hincl, Hn. simpl. rewrite Hn in *. clear Hn.
  assert (Hsub : forall f, In f (s x1) ->
                   In f ((s x1 ++ stutter_rule (nsteps st))
                         ++ fault_rule (nsteps st)))
    by (intros f Hf; rewrite !in_app_iff; auto).
  split; [|split; [|split]]; [| | |exact H4].
  - intros i j Hi Hj. destruct (decide (i = nsteps st)) as [->|Hne].
    + destruct (Hbind j Hj) as (zs & Hz & Hzs).
      exists zs. split.
      * rewrite <- Hz. symmetry. apply bind_transition_ext.
        unfold same_automaton. simpl. auto.
      * intros f Hf. apply Hsub, Hzs, Hf.
    + apply H1; [lia|exact Hj].
  - intros i Hi. destruct (decide (i = nsteps st)) as [->|Hne].
    + intros f Hf. apply Hsub, Hcore. exact Hf.
    + apply H2. lia.
  - intros i Hi. destruct (decide (i = nsteps st)) as [->|Hne].
    + apply Hsub, Hincl. simpl. rewrite !in_app_iff. right. simpl. auto.
    + apply H3. lia.
Qed.

End Encoded.

Section EncodedRuns.

Variable float : string -> result Q.

Lemma Z3Model_init_encoded a bound delta st :
  Z3Model_init float a bound delta = Ok st ->
  encoded float st (s st) 1.
Proof.
  intros Hinit.
  pose proof (Z3Model_init_spec float _ _ _ _ Hinit)
    as (_ & _ & _ & _ & _ & _ & _ & _ & Hic & _).
  unfold Z3Model_init in Hinit. inv_ok Hinit. rename x into st1.
  unfold add_initial_constraints in Hinitb. inv_ok Hinitb.
  pose proof (addConstraintOnIdTransition_full float _ _ _ Hinitbb)
    as [Hbind Hcore].
  apply addConstraintOnIdTransition_spec in Hinitbb
    as (bindings & o & _ & _ & Hsub & _ & _ & _ & _ & Htab & Hn & _).
  pose proof (same_tables_automaton _ _ Htab) as Hsame.
  pose proof Hsame as (Ea & _). simpl in Hbind, Hcore, Hn, Ea.
  assert (Hn1 : nsteps st1 = 1%nat).
  { apply setup_transitions_spec in Hinita as (_ & _ & _ & _ & _ & _ & _ & H & _).
    exact H. }
  split; [|split; [|split]].
  - intros i j Hi Hj. replace i with 0%nat by lia.
    rewrite Ea in Hj. destruct (Hbind j Hj) as (zs & Hz & Hzs).
    exists zs. split; [|exact Hzs].
    rewrite (bind_transition_ext float _ _ 0 j Hsame). exact Hz.
  - intros i Hi. replace i with 0%nat by lia.
    rewrite Ea. unfold step_core. rewrite <- Hn1. exact Hcore.
  - intros i Hi. replace i with 0%nat by lia.
    apply Hic. simpl. auto.
  - rewrite Ea. simpl in Hsub. intros f Hf. apply Hsub.
    rewrite !in_app_iff. auto.
Qed.

Lemma encoded_rounds k : forall st st',
  encoded float st (s st) (nsteps st) ->
  rounds float k st = Ok st' ->
  encoded float st' (s st') (nsteps st').
Proof.
  induction k as [|k IH]; intros st st' Henc H; simpl in H.
  - injection H as <-. exact Henc.
  - inv_ok H. apply (IH x); [|exact Hb].
    unfold round in Ha. inv_ok Ha. injection Hab as <-.
    pose proof (encoded_incBound float _ _ Henc Haa) as Henc1.
    unfold assume_round. simpl.
    apply (encoded_same float x0); [unfold same_automaton; simpl; auto|].
    eapply encoded_incl; [exact Henc1|]. solve_incl.
Qed.

(** The state in which a printed model was found, with everything the
    encoder has asserted by then. *)
Lemma reported_state a bound delta st check r m c :
  Z3Model_init float a bound delta = Ok st ->
  sound check ->
  run float check st = Some r ->
  In (Print_model m c) (trace r) ->
  exists st' (n : nat),
    c = Z.of_nat n /\ nsteps st' = n /\ (2 <= n)%nat
    /\ models m (s st')
    /\ models m (assumptions (AssumD 0) st' (isObservableTransition st))
    /\ unrolled (s st') n (getNbTransition (automaton st))
    /\ chained (s st') n (getNbTransition (automaton st))
         (map getEventId (transitionList (automaton st))) (nextTransition st)
    /\ encoded float st (s st') n.
Proof.
  intros Hinit Hsound Hrun Hin.
  destruct (reported_model float _ _ _ _ _ _ _ _ Hinit Hsound Hrun Hin)
    as (st' & n & Hfin & Hc & Hn & Hn2 & _ & Hun & _ & Hm & Hma & _).
  destruct (reported_round float _ _ _ _ _ _ _ _ Hinit Hrun Hin)
    as (st0 & k & st'' & Hpre & Hr & _ & _ & Hfin').
  assert (st'' = st') as -> by congruence.
  exists st', n. repeat (split; [assumption|]).
  pose proof (Z3Model_init_ready float _ _ _ _ Hinit) as Hready.
  pose proof (Z3Model_init_spec float _ _ _ _ Hinit)
    as (_ & _ & Hn1 & _ & _ & _ & _ & Hlab & _).
  destruct (run_prelude_chained float _ _ _ _ _ Hinit Hpre) as [Hch _].
  pose proof (run_prelude_spec _ _ Hpre) as (Hs0 & Htab & Hn0 & _).
  pose proof Htab as (_ & _ & _ & En & _ & El & _).
  pose proof (rounds_spec float (S k) st0 st')
    as Hrs.
  assert (Hready0 : ready float st0 (getNbTransition (automaton st))).
  { apply (ready_same float st); [exact Hready|exact Htab|lia]. }
  destruct (chained_rounds float (S k) st0 st'
              (getNbTransition (automaton st))
              (map getEventId (transitionList (automaton st))))
    as [Hch' En']; try assumption; [congruence|rewrite Hn0, Hn1, En; exact Hch|].
  rewrite En', En, Hn in Hch'. split; [exact Hch'|].
  assert (Henc0 : encoded float st0 (s st0) (nsteps st0)).
  { rewrite Hn0, Hn1.
    apply (encoded_same float st); [apply same_tables_automaton, Htab|].
    eapply encoded_incl; [apply (Z3Model_init_encoded _ _ _ _ Hinit)|exact Hs0]. }
  pose proof (encoded_rounds (S k) _ _ Henc0 Hr) as Henc'.
  rewrite Hn in Henc'.
  apply (encoded_same float st'); [|exact Henc'].
  apply same_automaton_sym.
  assert (Hrt : same_tables st0 st').
  { clear -Hr. revert st0 Hr. generalize (S k) as q.
    induction q as [|q IH]; intros st0 Hr; simpl in Hr.
    - injection Hr as <-. apply same_tables_refl.
    - inv_ok Hr. apply round_spec in Hra as (_ & _ & _ & Ht & _).
      eapply same_tables_trans; [exact Ht|apply IH, Hrb]. }
  apply same_tables_automaton. eapply same_tables_trans; eassumption.
Qed.

End EncodedRuns.

Section StepSemantics.

Variable float : string -> result Q.

Lemma setup_transitions_tables st st' :
  setup_transitions st = Ok st' ->
  clockTransition st' = map getGuard (transitionList (automaton st'))
  /\ resetTransition st'
     = map (reset_row (clockNum (automaton st')) (transitionList (automaton st')))
         (range (clockNum (automaton st'))).
Proof.
  intros H. unfold setup_transitions in H.
  inv_ok H. inv_ok Hb. inv_ok Hbb. injection Hbbb as <-. simpl. auto.
Qed.

Lemma Z3Model_init_tables a bound delta st :
  Z3Model_init float a bound delta = Ok st ->
  clockTransition st = map getGuard (transitionList (automaton st))
  /\ resetTransition st
     = map (reset_row (clockNum (automaton st)) (transitionList (automaton st)))
         (range (clockNum (automaton st)))
  /\ clockNum (automaton st) = clockNum a.
Proof.
  intros Hinit. unfold Z3Model_init in Hinit. inv_ok Hinit.
  pose proof (setup_transitions_tables _ _ Hinita) as [Hc Hr].
  apply setup_transitions_spec in Hinita as (_ & _ & _ & Hcn & _).
  unfold add_initial_constraints in Hinitb. inv_ok Hinitb.
  apply addConstraintOnIdTransition_spec in Hinitbb
    as (_ & _ & _ & _ & _ & _ & _ & _ & _ & Htab & _).
  pose proof Htab as (Ea & _ & _ & _ & _ & _ & Er & Ec & _).
  simpl in Ea, Er, Ec, Hcn. rewrite Ea, Er, Ec. auto.
Qed.

Lemma bind_transition_inv st pos j zs :
  bind_transition float st pos j = Ok zs ->
  exists label g gF gN per_clock,
    labelTransition st !! j = Some label
    /\ clockTransition st !! j = Some g
    /\ (parseConstraints g ≫= fun cs =>
          transConstraints float (clockNum (automaton st)) cs pos Faulty) = Ok gF
    /\ (parseConstraints g ≫= fun cs =>
          transConstraints float (clockNum (automaton st)) cs pos Normal) = Ok gN
    /\ for_each (bind_clock float st pos j)
         (range (clockNum (automaton st))) = Ok per_clock
    /\ In (Implies (ICmp Ceq (fp pos) (int j))
             (BEq (BVar (ClockConstraint Faulty pos)) (And gF))) zs
    /\ In (Implies (ICmp Ceq (np pos) (int j))
             (BEq (BVar (ClockConstraint Normal pos)) (And gN))) zs
    /\ incl per_clock zs.
Proof.
  unfold bind_transition. intros H.
  inv_ok H. inv_ok Hb. inv_ok Hbb. inv_ok Hbbb. inv_ok Hbbbb.
  injection Hbbbbb as <-.
  apply or_raise_Ok in Ha, Hba.
  exists x, x0, x1, x2, x3.
  repeat (split; [assumption|]).
  split; [simpl; auto|]. split; [simpl; auto 6|].
  intros f Hf. simpl. auto 6.
Qed.

Lemma bind_clock_inv st pos j k ck :
  bind_clock float st pos j k = Ok ck ->
  exists row r t,
    resetTransition st !! k = Some row
    /\ row !! j = Some r
    /\ transitionList (automaton st) !! j = Some t
    /\ forall p, exists srcI finI,
         parseInv float (getInvariant (getSourceState t)) k pos p = Ok srcI
         /\ parseInv float (getInvariant (getFinalState t)) k (pos + 1) p
            = Ok finI
         /\ In (Implies (ICmp Ceq (IVar (Path p pos)) (int j))
                  (reset_is p k pos r)) ck
         /\ In (Implies (ICmp Ceq (IVar (Path p pos)) (int j))
                  (BEq (BVar (SourceInv p k pos)) (And [srcI]))) ck
         /\ In (Implies (ICmp Ceq (IVar (Path p pos)) (int j))
                  (BEq (BVar (FinalInv p k pos)) (And [finI]))) ck.
Proof.
  unfold bind_clock. intros H.
  inv_ok H. inv_ok Hb. inv_ok Hbb. inv_ok Hbbb. inv_ok Hbbbb.
  inv_ok Hbbbbb. inv_ok Hbbbbbb. injection Hbbbbbbb as <-.
  apply or_raise_Ok in Ha, Hba. unfold getTransitionAt in Hbba.
  apply or_raise_Ok in Hbba.
  exists x, x0, x1. repeat (split; [assumption|]).
  intros [|].
  - exists x2, x3. repeat (split; [assumption|]). simpl. auto 10.
  - exists x4, x5. repeat (split; [assumption|]). simpl. auto 10.
Qed.

(** The flag of a reset constraint has the value the binding gives it. *)
Lemma reset_is_value m p k pos r b :
  eval m (reset_is p k pos r) = true ->
  eval m (reset_is p k pos b) = Bool.eqb r b.
Proof.
  unfold reset_is. destruct pos; simpl.
  - intros H. apply Bool.eqb_prop in H. rewrite H. reflexivity.
  - intros H. apply Z.eqb_eq in H. rewrite H.
    destruct r, b; reflexivity.
Qed.

(** What the assertions of a step force on a run that takes transition
    [t], of index [j], at step [i]: the translated guard of [t] holds on
    the clocks of the step; for every clock the invariant of the source
    state holds at the step and that of the target state at the next
    one, and the clock is reset or advanced as [t] says. *)
Lemma encoded_step st fs n m p (i j : nat) t :
  encoded float st fs n ->
  clockTransition st = map getGuard (transitionList (automaton st)) ->
  resetTransition st
  = map (reset_row (clockNum (automaton st)) (transitionList (automaton st)))
      (range (clockNum (automaton st))) ->
  models m fs ->
  (i < n)%nat ->
  transitionList (automaton st) !! j = Some t ->
  iv m (Path p i) = Z.of_nat j ->
  let nclocks := clockNum (automaton st) in
  (exists gs,
      (parseConstraints (getGuard t) ≫= fun cs =>
         transConstraints float nclocks cs i p) = Ok gs
      /\ forall f, In f gs -> eval m f = true)
  /\ (forall k : nat, (k < nclocks)%nat ->
        (exists srcI finI,
            parseInv float (getInvariant (getSourceState t)) k i p = Ok srcI
            /\ eval m srcI = true
            /\ parseInv float (getInvariant (getFinalState t)) k (i + 1) p
               = Ok finI
            /\ eval m finI = true)
        /\ (rv m (ClockValue p k (i + 1))
            == (if resets_clock nclocks t k then 0
                else rv m (ClockValue p k i))
               + rv m (DelayClock p (i + 1)))%Q).
Proof.
  intros (Hbind & Hcore & _) Hguards Hresets Hm Hi Ht Hp nclocks.
  assert (Hj : (j < getNbTransition (automaton st))%nat)
    by (apply lookup_lt_Some in Ht; exact Ht).
  destruct (Hbind i j Hi Hj) as (zs & Hz & Hzs).
  apply bind_transition_inv in Hz
    as (label & g & gF & gN & per_clock & _ & Hg & HF & HN & Hpc & HbF & HbN
        & Hincl).
  rewrite Hguards, map_lookup, Ht in Hg. simpl in Hg. injection Hg as <-.
  pose proof (Hcore i Hi) as Hc. unfold step_core in Hc.
  split.
  - assert (Hcc : eval m (BEq (BVar (ClockConstraint p i)) (BConst true)) = true).
    { apply (models_In _ _ _ Hm), Hc. destruct p; simpl; auto. }
    simpl in Hcc. apply Bool.eqb_prop in Hcc.
    destruct p.
    + exists gF. split; [exact HF|].
      pose proof (models_In _ _ _ Hm (Hzs _ HbF)) as H.
      simpl in H. unfold fp in H. simpl in H.
      rewrite Hp, Z.eqb_refl, Hcc in H. simpl in H.
      intros f Hf. destruct (forallb (eval m) _) eqn:E in H; [|discriminate].
      eapply forallb_forall in E; eassumption.
    + exists gN. split; [exact HN|].
      pose proof (models_In _ _ _ Hm (Hzs _ HbN)) as H.
      simpl in H. unfold np in H. simpl in H.
      rewrite Hp, Z.eqb_refl, Hcc in H. simpl in H.
      intros f Hf. destruct (forallb (eval m) _) eqn:E in H; [|discriminate].
      eapply forallb_forall in E; eassumption.
  - intros k Hk.
    destruct (for_each_In _ _ _ k Hpc (range_In _ _ Hk)) as (ck & Hck & Hcki).
    apply bind_clock_inv in Hck as (row & r & t' & Hrow & Hr & Ht' & Hpaths).
    rewrite Ht in Ht'. injection Ht' as <-.
    assert (Hrv : r = resets_clock nclocks t k).
    { rewrite Hresets, map_lookup in Hrow.
      replace (range (clockNum (automaton st)) !! k) with (Some k) in Hrow
        by (symmetry; unfold range; apply lookup_seq; fold nclocks; lia).
      simpl in Hrow. injection Hrow as <-.
      unfold reset_row in Hr. rewrite map_lookup, Ht in Hr.
      simpl in Hr. injection Hr as <-. reflexivity. }
    destruct (Hpaths p) as (srcI & finI & HsI & HfI & Hb1 & Hb2 & Hb3).
    assert (Hin : forall f, In f ck -> eval m f = true)
      by (intros f Hf; apply (models_In _ _ _ Hm), Hzs, Hincl, Hcki, Hf).
    pose proof (Hin _ Hb1) as E1. pose proof (Hin _ Hb2) as E2.
    pose proof (Hin _ Hb3) as E3.
    simpl in E1, E2, E3. rewrite Hp, Z.eqb_refl in E1, E2, E3.
    simpl in E1, E2, E3. rewrite andb_true_r in E2, E3.
    assert (Hupd : incl (update_clock i k) fs).
    { intros f Hf. apply Hc. rewrite !in_app_iff. right; left.
      apply in_flat_map. exists k. split; [apply range_In, Hk|exact Hf]. }
    assert (Hinv : eval m (And [ BEq (BVar (SourceInv p k i)) (BConst true);
                                 BEq (BVar (FinalInv p k i)) (BConst true) ])
                   = true)
      by (apply (models_In _ _ _ Hm), Hupd; destruct p; simpl; auto 10).
    simpl in Hinv. rewrite andb_true_r in Hinv.
    apply andb_true_iff in Hinv as [Hs1 Hs2].
    apply Bool.eqb_prop in Hs1, Hs2. rewrite Hs1 in E2. rewrite Hs2 in E3.
    split.
    + exists srcI, finI. repeat split; try assumption.
      * destruct (eval m srcI); [reflexivity|discriminate].
      * destruct (eval m finI); [reflexivity|discriminate].
    + assert (U1 : eval m (Implies (reset_is p k i true)
                             (RCmp Ceq (clockValue p k (i + 1))
                                (RAdd (real 0) (RVar (DelayClock p (i + 1))))))
                   = true)
        by (apply (models_In _ _ _ Hm), Hupd; destruct p; simpl; auto 10).
      assert (U2 : eval m (Implies (reset_is p k i false)
                             (RCmp Ceq (clockValue p k (i + 1))
                                (RAdd (clockValue p k i)
                                   (RVar (DelayClock p (i + 1))))))
                   = true)
        by (apply (models_In _ _ _ Hm), Hupd; destruct p; simpl; auto 10).
      cbn [eval] in U1, U2.
      rewrite (reset_is_value _ _ _ _ _ _ E1) in U1.
      rewrite (reset_is_value _ _ _ _ _ _ E1) in U2.
      rewrite <- Hrv. destruct r; simpl in U1, U2.
      * apply rcmp_eq in U1. exact U1.
      * apply rcmp_eq in U2. exact U2.
Qed.

End StepSemantics.

(* ===================================================================== *)
(** ** What a reported model says about the two runs                      *)
(* ===================================================================== *)




(** The follower table [setup_transitions] builds: a transition of the
    input is followed by the stutter index and the transitions of the
    input that leave its target; the start transition by the stutter
    index and the transitions that leave the initial state. *)
Lemma setup_transitions_next_rows st st' :
  setup_transitions st = Ok st' ->
  let tl0 := transitionList (automaton st) in
  (forall (j : nat) t, tl0 !! j = Some t ->
     nextTransition st' !! j
     = Some (NOP_TRANSITION :: leaving tl0 (getFinalState t) (length tl0)))
  /\ exists q,
       getInitialState (automaton st') = Ok q
       /\ nextTransition st' !! length tl0
          = Some (NOP_TRANSITION
                  :: leaving (transitionList (automaton st')) q
                       (S (length tl0))).
Proof.
  intros H tl0.
  pose proof (setup_transitions_spec _ _ H) as (src & tgt & Htl & _).
  unfold setup_transitions in H.
  inv_ok H. inv_ok Hb. inv_ok Hbb. injection Hbbb as <-.
  simpl in Htl. simpl.
  assert (Hlen : length (map (fun i : nat =>
                    match getTransitionList (automaton st) !! i with
                    | Some ti =>
                        NOP_TRANSITION
                        :: leaving (getTransitionList (automaton st))
                             (getFinalState ti)
                             (getNbTransition (automaton st))
                    | None => [NOP_TRANSITION]
                    end) (range (getNbTransition (automaton st))))
                 = length tl0)
    by (rewrite length_map; unfold range; rewrite length_seq; reflexivity).
  split.
  - intros j t Ht.
    rewrite lookup_app_l by (rewrite Hlen; apply lookup_lt_Some in Ht; exact Ht).
    rewrite map_lookup.
    replace (range (getNbTransition (automaton st)) !! j) with (Some j)
      by (symmetry; unfold range; apply lookup_seq;
          apply lookup_lt_Some in Ht; unfold getNbTransition; fold tl0; lia).
    simpl. unfold getTransitionList. fold tl0. rewrite Ht. reflexivity.
  - exists x0. split; [exact Hba|].
    rewrite lookup_app_r by (rewrite Hlen; lia).
    rewrite Hlen, Nat.sub_diag. simpl.
    unfold getTransitionList, getNbTransition. rewrite Htl, length_app.
    fold tl0. simpl. replace (length tl0 + 1)%nat with (S (length tl0)) by lia.
    reflexivity.
Qed.

Section ReportedRuns.

Variable float : string -> result Q.

Lemma Z3Model_init_next_rows a bound delta st :
  Z3Model_init float a bound delta = Ok st ->
  (forall (j : nat) t, transitionList a !! j = Some t ->
     nextTransition st !! j
     = Some (NOP_TRANSITION
             :: leaving (transitionList a) (getFinalState t)
                  (getNbTransition a)))
  /\ exists q,
       getInitialState (automaton st) = Ok q
       /\ nextTransition st !! getNbTransition a
          = Some (NOP_TRANSITION
                  :: leaving (transitionList (automaton st)) q
                       (S (getNbTransition a))).
Proof.
  intros Hinit. unfold Z3Model_init in Hinit. inv_ok Hinit.
  pose proof (setup_transitions_next_rows _ _ Hinita) as [Hrows Hstart].
  unfold add_initial_constraints in Hinitb. inv_ok Hinitb.
  apply addConstraintOnIdTransition_spec in Hinitbb
    as (_ & _ & _ & _ & _ & _ & _ & _ & _ & Htab & _).
  pose proof Htab as (Ea & _ & _ & En & _).
  simpl in Ea, En, Hrows, Hstart. rewrite Ea, En. split; assumption.
Qed.

End ReportedRuns.

(** In a model of an unrolling the fault flag of a step records whether
    the faulty run carried the label [FAULT] up to that step. *)
Lemma unrolled_fault_flag m fs n nb :
  unrolled fs n nb -> models m fs ->
  forall i : nat, (i < n)%nat -> bv m (FaultOccurs i) = fault_fired m i.
Proof.
  intros Hun Hm.
  destruct Hun as (_ & Hic & _ & _ & _ & Hrules & _).
  unfold fault_fired. induction i as [|i IH]; intros Hi'.
  - assert (H : eval m (BEq (BVar (FaultOccurs 0))
                          (ICmp Ceq (IVar (IdTransition Faulty 0))
                             (IConst FAULT))) = true)
      by (apply (models_In _ _ _ Hm), Hic; simpl; auto 10).
    simpl in H. apply Bool.eqb_prop in H. simpl.
    rewrite orb_false_r. exact H.
  - destruct (Hrules (S i)) as (_ & _ & Hfault); [lia|].
    assert (H : eval m (BEq (Or [ BVar (FaultOccurs (S i - 1));
                                  ICmp Ceq (IVar (IdTransition Faulty (S i)))
                                    (IConst FAULT) ])
                          (BVar (FaultOccurs (S i)))) = true)
      by (apply (models_In _ _ _ Hm), Hfault; simpl; auto).
    simpl in H. rewrite Nat.sub_0_r in H. apply Bool.eqb_prop in H.
    rewrite <- H, IH by lia. unfold range.
    rewrite (seq_S (S i)), existsb_app. simpl.
    rewrite !orb_false_r. reflexivity.
Qed.

Section ReportedRunTheorems.

Variable float : string -> result Q.

(** X1.  In every model [run] prints, both runs start at step 0 on the
    transition [setup_transitions] appended, whose index is the number
    of transitions of the input automaton and whose label is [NO_OBS];
    at every step of the horizon a run takes a transition of the
    preprocessed automaton and its label is the event of that
    transition. *)
Theorem reported_steps_are_transitions a bound delta st check r m c p :
  Z3Model_init float a bound delta = Ok st ->
  sound check ->
  run float check st = Some r ->
  In (Print_model m c) (trace r) ->
  iv m (Path p 0) = Z.of_nat (getNbTransition a)
  /\ iv m (IdTransition p 0) = NO_OBS
  /\ forall i : nat, Z.of_nat i < c ->
       exists (j : nat) t,
         transitionList (automaton st) !! j = Some t
         /\ iv m (Path p i) = Z.of_nat j
         /\ iv m (IdTransition p i) = getEventId t.
Proof.
  intros Hinit Hsound Hrun Hin.
  destruct (reported_state float _ _ _ _ _ _ _ _ Hinit Hsound Hrun Hin)
    as (st' & n & Hc & _ & Hn & Hm & _ & _ & Hch & _).
  pose proof (Z3Model_init_spec float _ _ _ _ Hinit)
    as (Hnb & (src & tgt & Htl) & _).
  assert (H0 : iv m (Path p 0) = Z.of_nat (getNbTransition a)).
  { destruct Hch as (Hpin & _).
    pose proof (models_In _ _ _ Hm (Hpin p)) as H. simpl in H.
    apply Z.eqb_eq in H. rewrite H, Hnb. lia. }
  split; [exact H0|]. split.
  - destruct (reported_paths float _ _ _ _ _ _ _ _ p 0%nat
                Hinit Hsound Hrun Hin) as (j & t & Ht & Hp & Hid); [lia|].
    assert (j = getNbTransition a) by lia. subst j.
    rewrite Htl in Ht. unfold getNbTransition in Ht.
    rewrite lookup_app_r in Ht by lia. rewrite Nat.sub_diag in Ht.
    simpl in Ht. injection Ht as <-. exact Hid.
  - intros i Hi.
    apply (reported_paths float _ _ _ _ _ _ _ _ p i Hinit Hsound Hrun Hin Hi).
Qed.

(** X2.  In every model [run] prints, the guard of the transition a
    run takes at a step translates, and every comparison of the
    translation holds on the clock values of the run at that step. *)
Theorem reported_step_satisfies_guard a bound delta st check r m c p
    (i j : nat) t :
  Z3Model_init float a bound delta = Ok st ->
  sound check ->
  run float check st = Some r ->
  In (Print_model m c) (trace r) ->
  Z.of_nat i < c ->
  transitionList (automaton st) !! j = Some t ->
  iv m (Path p i) = Z.of_nat j ->
  exists gs,
    (parseConstraints (getGuard t) ≫= fun cs =>
       transConstraints float (clockNum a) cs i p) = Ok gs
    /\ forall f, In f gs -> eval m f = true.
Proof.
  intros Hinit Hsound Hrun Hin Hi Ht Hp.
  destruct (reported_state float _ _ _ _ _ _ _ _ Hinit Hsound Hrun Hin)
    as (st' & n & Hc & _ & Hn & Hm & _ & _ & _ & Henc).
  destruct (Z3Model_init_tables float _ _ _ _ Hinit) as (Hg & Hr & Hcn).
  rewrite <- Hcn.
  assert (Hi' : (i < n)%nat) by lia.
  apply (encoded_step float _ _ _ _ _ _ _ _ Henc Hg Hr Hm Hi' Ht Hp).
Qed.


(** X4.  In every model [run] prints, every clock of a run is 0 at
    step 0, and its value at step [i + 1] is the delay of step [i + 1]
    added to 0 when the reset list of the transition taken at step [i]
    names the clock, and to its value at step [i] otherwise. *)
Theorem reported_clock_dynamics a bound delta st check r m c p (k : nat) :
  Z3Model_init float a bound delta = Ok st ->
  sound check ->
  run float check st = Some r ->
  In (Print_model m c) (trace r) ->
  (k < clockNum a)%nat ->
  (rv m (ClockValue p k 0) == 0)%Q
  /\ forall (i j : nat) t,
       Z.of_nat i < c ->
       transitionList (automaton st) !! j = Some t ->
       iv m (Path p i) = Z.of_nat j ->
       (rv m (ClockValue p k (i + 1))
        == (if resets_clock (clockNum a) t k then 0
            else rv m (ClockValue p k i))
           + rv m (DelayClock p (i + 1)))%Q.
Proof.
  intros Hinit Hsound Hrun Hin Hk.
  destruct (reported_state float _ _ _ _ _ _ _ _ Hinit Hsound Hrun Hin)
    as (st' & n & Hc & _ & Hn & Hm & _ & _ & _ & Henc).
  destruct (Z3Model_init_tables float _ _ _ _ Hinit) as (Hg & Hr & Hcn).
  split.
  - destruct Henc as (_ & _ & _ & Hclk).
    apply rcmp_eq.
    change (eval m (RCmp Ceq (clockValue p k 0) (real 0)) = true).
    apply (models_In _ _ _ Hm), Hclk. unfold initial_clocks.
    apply in_flat_map. exists k. rewrite Hcn.
    split; [apply range_In, Hk|]. destruct p; simpl; auto.
  - intros i j t Hi Ht Hp. rewrite <- Hcn in *.
    assert (Hi' : (i < n)%nat) by lia.
  apply (encoded_step float _ _ _ _ _ _ _ _ Henc Hg Hr Hm Hi' Ht Hp).
    exact Hk.
Qed.

(** X5.  In every model [run] prints, no delay of a run is negative
    and the global clock of the run at a step is the sum of its delays
    up to that step; so the global clock never decreases. *)
Theorem reported_global_clock_is_elapsed_time a bound delta st check r m c p
    (i : nat) :
  Z3Model_init float a bound delta = Ok st ->
  sound check ->
  run float check st = Some r ->
  In (Print_model m c) (trace r) ->
  Z.of_nat i < c ->
  (0 <= rv m (DelayClock p i))%Q
  /\ (rv m (GlobalClock p i) == elapsed m p i)%Q
  /\ (elapsed m p (i - 1) <= elapsed m p i)%Q.
Proof.
  intros Hinit Hsound Hrun Hin Hi.
  destruct (reported_state float _ _ _ _ _ _ _ _ Hinit Hsound Hrun Hin)
    as (st' & n & Hc & _ & Hn & Hm & _ & Hun & _ & Henc).
  assert (Hi' : (i < n)%nat) by lia. clear Hi Hc.
  destruct Henc as (_ & Hcore & _).
  assert (Hd : forall k : nat, (k < n)%nat -> (0 <= rv m (DelayClock p k))%Q).
  { intros k Hk. pose proof (Hcore k Hk) as Hc. unfold step_core in Hc.
    assert (H : eval m (RCmp Cge (RVar (DelayClock p k)) (real 0)) = true)
      by (apply (models_In _ _ _ Hm), Hc; rewrite !in_app_iff; right; right;
          destruct p; simpl; auto).
    simpl in H. unfold Qle_bool in H. apply Qle_bool_iff. exact H. }
  assert (Hg : forall k : nat, (k < n)%nat ->
                 (rv m (GlobalClock p k) == elapsed m p k)%Q).
  { induction k as [|k IH]; intros Hk.
    - destruct Hun as (_ & Hic & _). apply rcmp_eq.
      change (eval m (RCmp Ceq (RVar (GlobalClock p 0)) (real 0)) = true).
      apply (models_In _ _ _ Hm), Hic. destruct p; simpl; auto.
    - pose proof (Hcore (S k) Hk) as Hc. unfold step_core in Hc.
      assert (H : eval m (RCmp Ceq (RVar (GlobalClock p (S k)))
                            (RAdd (RVar (GlobalClock p (before (S (S k)) (S k))))
                               (RVar (DelayClock p (S k))))) = true)
        by (apply (models_In _ _ _ Hm), Hc; rewrite !in_app_iff; right; right;
            destruct p; simpl; auto 10).
      apply rcmp_eq in H. simpl in H. simpl. rewrite H, IH by lia.
      reflexivity. }
  split; [apply Hd, Hi'|]. split; [apply Hg, Hi'|].
  destruct i as [|i]; simpl; [apply Qle_refl|].
  rewrite Nat.sub_0_r. pose proof (Hd (S i) Hi') as H.
  rewrite <- (Qplus_0_r (elapsed m p i)) at 1.
  apply Qplus_le_r. exact H.
Qed.


(** X7.  In every model [run] prints, the flag [faultOccurs] of a step
    is true exactly when the faulty run carries the label [FAULT] at
    that step or an earlier one, and the normal run carries [FAULT] at
    no step. *)
Theorem reported_fault_flag_records_fault a bound delta st check r m c
    (i : nat) :
  Z3Model_init float a bound delta = Ok st ->
  sound check ->
  run float check st = Some r ->
  In (Print_model m c) (trace r) ->
  Z.of_nat i < c ->
  bv m (FaultOccurs i) = fault_fired m i
  /\ iv m (IdTransition Normal i) <> FAULT.
Proof.
  intros Hinit Hsound Hrun Hin Hi.
  destruct (reported_state float _ _ _ _ _ _ _ _ Hinit Hsound Hrun Hin)
    as (st' & n & Hc & _ & Hn & Hm & _ & Hun & _ & Henc).
  assert (Hi' : (i < n)%nat) by lia. clear Hi Hc.
  split.
  - apply (unrolled_fault_flag _ _ _ _ Hun Hm i Hi').
  - destruct Henc as (_ & _ & Hne & _).
    pose proof (models_In _ _ _ Hm (Hne i Hi')) as H.
    simpl in H. apply negb_true_iff, Z.eqb_neq in H. exact H.
Qed.

(** X8.  In every model [run] prints, at a later step the two runs
    never both take the stutter index, and a run that took it at the
    step before takes it again or carries the label of an observable
    event. *)
Theorem reported_stutter_discipline a bound delta st check r m c (i : nat) :
  Z3Model_init float a bound delta = Ok st ->
  sound check ->
  run float check st = Some r ->
  In (Print_model m c) (trace r) ->
  (2 <= i)%nat ->
  Z.of_nat i < c ->
  ~ (iv m (Path Faulty i) = Z.of_nat NOP_TRANSITION
     /\ iv m (Path Normal i) = Z.of_nat NOP_TRANSITION)
  /\ forall p, iv m (Path p (i - 1)) = Z.of_nat NOP_TRANSITION ->
       iv m (Path p i) = Z.of_nat NOP_TRANSITION
       \/ NO_OBS < iv m (IdTransition p i).
Proof.
  intros Hinit Hsound Hrun Hin H2 Hi.
  destruct (reported_state float _ _ _ _ _ _ _ _ Hinit Hsound Hrun Hin)
    as (st' & n & Hc & _ & Hn & Hm & _ & Hun & _ & _).
  destruct Hun as (_ & _ & _ & _ & _ & Hrules & _).
  assert (Hflag : forall (k : nat) p, (1 <= k < n)%nat ->
            bv m (Nop p k)
            = (iv m (Path p k) =? Z.of_nat NOP_TRANSITION)).
  { intros k p Hk. destruct (Hrules k Hk) as (_ & Hst & _).
    assert (H : eval m (BEq (BVar (Nop p k))
                          (ICmp Ceq (IVar (Path p k)) (int NOP_TRANSITION)))
                = true)
      by (apply (models_In _ _ _ Hm), Hst; destruct p; simpl; auto).
    simpl in H. apply Bool.eqb_prop in H. exact H. }
  destruct (Hrules i) as (_ & Hst & _); [lia|].
  split.
  - intros [HF HN].
    assert (H : eval m (Or [ Not (BVar (Nop Faulty i));
                             Not (BVar (Nop Normal i)) ]) = true)
      by (apply (models_In _ _ _ Hm), Hst; simpl; auto).
    simpl in H. rewrite !Hflag in H by lia.
    rewrite HF, HN in H. simpl in H. discriminate.
  - intros p Hprev.
    assert (H : eval m (Implies (BVar (Nop p (i - 1)))
                          (Or [ BVar (Nop p i);
                                ICmp Cgt (IVar (IdTransition p i))
                                  (IConst NO_OBS) ])) = true)
      by (apply (models_In _ _ _ Hm), Hst; destruct p; simpl; auto 10).
    simpl in H. rewrite !Hflag in H by lia.
    rewrite Hprev, Z.eqb_refl in H. simpl in H. rewrite orb_false_r in H.
    apply orb_true_iff in H as [H|H].
    + left. apply Z.eqb_eq in H. exact H.
    + right. apply Z.ltb_lt in H. exact H.
Qed.

(** X9.  For an automaton none of whose transitions carries the event
    [FAULT], the flag [faultOccurs] is false at every step of every
    model [run] prints: a reported pair of runs then holds no fault. *)
Theorem fault_free_automaton_never_flags a bound delta st check r m c
    (i : nat) :
  Z3Model_init float a bound delta = Ok st ->
  (forall t, In t (transitionList a) -> getEventId t <> FAULT) ->
  sound check ->
  run float check st = Some r ->
  In (Print_model m c) (trace r) ->
  Z.of_nat i < c ->
  bv m (FaultOccurs i) = false.
Proof.
  intros Hinit Hnofault Hsound Hrun Hin Hi.
  apply (no_fault_edge_never_flagged float _ _ _ _ _ _ _ _
           Hinit Hnofault Hsound Hrun Hin i Hi).
Qed.

End ReportedRunTheorems.

Lemma reported_steps_are_transitions_witness :
  iv critical_pair (Path Normal 0) = 4
  /\ iv critical_pair (IdTransition Normal 0) = NO_OBS.
Proof.
  pose proof (reported_steps_are_transitions float_of_numeral fault_automaton
                2 3 fault_init (solver_of_model critical_pair) fault_run
                critical_pair 3 Normal) as H.
  refine (let '(conj H1 (conj H2 _)) := H _ _ _ _ in conj H1 H2).
  - vm_compute. reflexivity.
  - apply solver_of_model_sound.
  - vm_compute. reflexivity.
  - vm_compute. do 4 right. left. reflexivity.
Defined.

Lemma reported_step_satisfies_guard_witness :
  exists gs,
    (parseConstraints ["c1>=0"] ≫= fun cs =>
       transConstraints float_of_numeral 1 cs 2 Faulty) = Ok gs
    /\ forall f, In f gs -> eval critical_pair f = true.
Proof.
  refine (reported_step_satisfies_guard float_of_numeral fault_automaton
            2 3 fault_init (solver_of_model critical_pair) fault_run
            critical_pair 3 Faulty 2%nat 2%nat
            (mkTransition (mkState 1 (InvInt 1)) (mkState 2 (InvInt 1)) 3
               ["c1>=0"] [])
            _ _ _ _ _ _ _).
  - vm_compute. reflexivity.
  - apply solver_of_model_sound.
  - vm_compute. reflexivity.
  - vm_compute. do 4 right. left. reflexivity.
  - reflexivity.
  - vm_compute. reflexivity.
  - reflexivity.
Defined.


Lemma reported_clock_dynamics_witness :
  (rv critical_pair (ClockValue Faulty 0 0) == 0)%Q
  /\ (rv critical_pair (ClockValue Faulty 0 2)
      == rv critical_pair (ClockValue Faulty 0 1)
         + rv critical_pair (DelayClock Faulty 2))%Q.
Proof.
  pose proof (reported_clock_dynamics float_of_numeral fault_automaton
                2 3 fault_init (solver_of_model critical_pair) fault_run
                critical_pair 3 Faulty 0%nat) as H.
  refine (let '(conj H1 H2) := H _ _ _ _ _ in
          conj H1 (H2 1%nat 1%nat
                     (mkTransition (mkState 0 (InvInt 1))
                        (mkState 1 (InvInt 1)) 1 ["c1>=0"] []) _ _ _)).
  - vm_compute. reflexivity.
  - apply solver_of_model_sound.
  - vm_compute. reflexivity.
  - vm_compute. do 4 right. left. reflexivity.
  - vm_compute. lia.
  - reflexivity.
  - vm_compute. reflexivity.
  - reflexivity.
Defined.

Lemma reported_global_clock_is_elapsed_time_witness :
  (0 <= rv critical_pair (DelayClock Faulty 2))%Q
  /\ (rv critical_pair (GlobalClock Faulty 2) == elapsed critical_pair Faulty 2)%Q
  /\ (elapsed critical_pair Faulty (2 - 1) <= elapsed critical_pair Faulty 2)%Q.
Proof.
  refine (reported_global_clock_is_elapsed_time float_of_numeral
            fault_automaton 2 3 fault_init (solver_of_model critical_pair)
            fault_run critical_pair 3 Faulty 2%nat _ _ _ _ _).
  - vm_compute. reflexivity.
  - apply solver_of_model_sound.
  - vm_compute. reflexivity.
  - vm_compute. do 4 right. left. reflexivity.
  - reflexivity.
Defined.


Lemma reported_fault_flag_records_fault_witness :
  bv critical_pair (FaultOccurs 2) = fault_fired critical_pair 2
  /\ iv critical_pair (IdTransition Normal 2) <> FAULT.
Proof.
  refine (reported_fault_flag_records_fault float_of_numeral
            fault_automaton 2 3 fault_init (solver_of_model critical_pair)
            fault_run critical_pair 3 2%nat _ _ _ _ _).
  - vm_compute. reflexivity.
  - apply solver_of_model_sound.
  - vm_compute. reflexivity.
  - vm_compute. do 4 right. left. reflexivity.
  - reflexivity.
Defined.

Lemma reported_stutter_discipline_witness :
  ~ (iv critical_pair (Path Faulty 2) = Z.of_nat NOP_TRANSITION
     /\ iv critical_pair (Path Normal 2) = Z.of_nat NOP_TRANSITION)
  /\ forall p, iv critical_pair (Path p (2 - 1)) = Z.of_nat NOP_TRANSITION ->
       iv critical_pair (Path p 2) = Z.of_nat NOP_TRANSITION
       \/ NO_OBS < iv critical_pair (IdTransition p 2).
Proof.
  refine (reported_stutter_discipline float_of_numeral
            fault_automaton 2 3 fault_init (solver_of_model critical_pair)
            fault_run critical_pair 3 2%nat _ _ _ _ _ _).
  - vm_compute. reflexivity.
  - apply solver_of_model_sound.
  - vm_compute. reflexivity.
  - vm_compute. do 4 right. left. reflexivity.
  - lia.
  - reflexivity.
Defined.

Lemma fault_free_automaton_never_flags_witness :
  bv silent_witness (FaultOccurs 1) = false.
Proof.
  refine (fault_free_automaton_never_flags float_of_numeral silent_automaton
            1 0 (silent_init 1 0) (solver_of_model silent_witness)
            (mkRun [ Checked 2 (sat silent_witness); Print_sat;
                     Print_model silent_witness 2 ] _)
            silent_witness 2 1%nat _ _ _ _ _ _).
  - vm_compute. reflexivity.
  - intros t Ht. vm_compute in Ht.
    destruct Ht as [<-|[<-|[]]]; discriminate.
  - apply solver_of_model_sound.
  - vm_compute. reflexivity.
  - simpl. auto.
  - reflexivity.
Defined.


(* ===================================================================== *)
(** ** The goal of a reported model and the outcomes of a run             *)
(* ===================================================================== *)

Section Outcomes.

Variable float : string -> result Q.

Lemma rounds_grow k : forall st st',
  rounds float k st = Ok st' -> incl (s st) (s st').
Proof.
  induction k as [|k IH]; intros st st' H; simpl in H.
  - injection H as <-. apply incl_refl.
  - inv_ok H. apply round_spec in Ha as (_ & _ & _ & _ & Hs & _).
    apply IH in Hb. eapply incl_tran; eassumption.
Qed.

(** X10.  What the query of a round asks for.  In every model [run]
    prints at a horizon of [n] steps, the constant [bound] is [n], the
    constant [delta] is [DELTA], the fault counter after the last step
    equals [DELTA], and the fault has occurred at the last step as soon
    as [DELTA] is not 0. *)
Theorem reported_model_meets_goal a bound delta st check r m c :
  Z3Model_init float a bound delta = Ok st ->
  sound check ->
  run float check st = Some r ->
  In (Print_model m c) (trace r) ->
  exists n : nat,
    c = Z.of_nat n /\ (2 <= n)%nat
    /\ iv m BoundVar = Z.of_nat n
    /\ (rv m DeltaVar == inject_Z delta)%Q
    /\ (rv m (CptFault n) == inject_Z delta)%Q
    /\ (delta <> 0 -> bv m (FaultOccurs (n - 1)) = true).
Proof.
  intros Hinit Hsound Hrun Hin.
  destruct (reported_fault_goal float _ _ _ _ _ _ _ _ Hinit Hsound Hrun Hin)
    as (n & Hc & Hcpt & Hflag).
  destruct (reported_model float _ _ _ _ _ _ _ _ Hinit Hsound Hrun Hin)
    as (st' & n' & Hfin & Hc' & _ & Hn & HD & _ & Has & Hm & Hma & Hidx).
  assert (n' = n) by lia. subst n'.
  exists n. split; [exact Hc|]. split; [exact Hn|].
  split; [|split; [|split; [exact Hcpt|exact Hflag]]].
  - assert (HB : bv m (AssumB (n - 1)) = true).
    { change (eval m (BVar (AssumB (n - 1))) = true).
      apply (models_In _ _ _ Hma). unfold assumptions. rewrite Hidx.
      simpl. auto. }
    assert (H : eval m (Implies (BVar (AssumB (n - 1)))
                          (ICmp Ceq (IVar BoundVar) (int n))) = true)
      by (apply (models_In _ _ _ Hm), Has; simpl; auto).
    simpl in H. rewrite HB in H. simpl in H. apply Z.eqb_eq in H. exact H.
  - destruct (reported_round float _ _ _ _ _ _ _ _ Hinit Hrun Hin)
      as (st0 & k & st'' & Hpre & Hr & _ & _ & Hfin').
    rewrite Hfin in Hfin'. injection Hfin' as <-.
    pose proof (run_prelude_spec _ _ Hpre) as (_ & _ & _ & _ & Hd & _).
    pose proof (Z3Model_init_spec float _ _ _ _ Hinit)
      as (_ & _ & _ & Hi & _ & HD0 & _).
    rewrite Hi, HD0 in Hd.
    assert (HA : bv m (AssumD 0) = true).
    { change (eval m (BVar (AssumD 0)) = true).
      apply (models_In _ _ _ Hma). unfold assumptions. simpl. auto. }
    pose proof (models_In _ _ _ Hm (rounds_grow _ _ _ Hr _ Hd)) as H.
    simpl in H. rewrite HA in H. simpl in H.
    apply Qeq_bool_iff in H. exact H.
Qed.

(** The loop of [run] ends in one of three ways. *)
Lemma run_loop_outcomes check fuel : forall cpt assumD tmp st tr,
  1 <= cpt ->
  (Z.to_nat (BOUND st + 1 - cpt) <= fuel)%nat ->
  queries tr = Z.to_nat (cpt - 1) ->
  ~ In Print_sat tr -> ~ In Print_unsat tr ->
  exists r,
    run_loop float check fuel cpt assumD tmp st tr = Some r
    /\ ((exists e, final r = Raise e
                   /\ ~ In Print_sat (trace r) /\ ~ In Print_unsat (trace r))
        \/ (exists tr' m c,
              trace r = tr' ++ [Print_sat; Print_model m c]
              /\ cpt < c <= BOUND st + 1
              /\ queries (trace r) = Z.to_nat (c - 1)
              /\ ~ In Print_unsat (trace r))
        \/ (exists tr',
              trace r = tr' ++ [Print_unsat; Print_unsat_core]
              /\ queries (trace r) = Z.to_nat (Z.max (cpt - 1) (BOUND st))
              /\ ~ In Print_sat (trace r))).
Proof.
  induction fuel as [|fuel IH]; intros cpt assumD tmp st tr H1 Hfuel Hq Hs Hu.
  - rewrite run_loop_O. destruct (cpt <=? BOUND st) eqn:Hle.
    + apply Z.leb_le in Hle. lia.
    + apply Z.leb_gt in Hle. eexists. split; [reflexivity|].
      right; right. exists tr. split; [reflexivity|]. simpl.
      rewrite queries_app. simpl. split; [lia|].
      rewrite in_app_iff. simpl. intuition discriminate.
  - rewrite run_loop_S. destruct (cpt <=? BOUND st) eqn:Hle.
    + apply Z.leb_le in Hle.
      destruct (incBound float st) as [st1|e] eqn:Hinc.
      * cbv zeta.
        assert (HB : BOUND (assume_round st1) = BOUND st).
        { apply incBound_spec in Hinc as (_ & _ & _ & Htab & _).
          simpl. unfold same_tables in Htab. tauto. }
        assert (Hnext : forall res,
                  (forall m, res <> sat m) ->
                  exists r,
                    run_loop float check fuel (cpt + 1) assumD tmp
                      (assume_round st1)
                      ((tr ++ [Checked (nsteps (assume_round st1)) res])
                       ++ [Print_increase (nsteps (assume_round st1))])
                    = Some r
                    /\ ((exists e, final r = Raise e
                                   /\ ~ In Print_sat (trace r)
                                   /\ ~ In Print_unsat (trace r))
                        \/ (exists tr' m c,
                              trace r = tr' ++ [Print_sat; Print_model m c]
                              /\ cpt < c <= BOUND st + 1
                              /\ queries (trace r) = Z.to_nat (c - 1)
                              /\ ~ In Print_unsat (trace r))
                        \/ (exists tr',
                              trace r = tr' ++ [Print_unsat; Print_unsat_core]
                              /\ queries (trace r)
                                 = Z.to_nat (Z.max (cpt - 1) (BOUND st))
                              /\ ~ In Print_sat (trace r)))).
        { intros res Hres.
          destruct (IH (cpt + 1) assumD tmp (assume_round st1)
                      ((tr ++ [Checked (nsteps (assume_round st1)) res])
                       ++ [Print_increase (nsteps (assume_round st1))]))
            as (r & Hr & Hcases).
          - lia.
          - rewrite HB. lia.
          - rewrite !queries_app. simpl. lia.
          - rewrite !in_app_iff. simpl. intuition discriminate.
          - rewrite !in_app_iff. simpl. intuition discriminate.
          - exists r. split; [exact Hr|]. rewrite HB in Hcases.
            destruct Hcases as [Hc|[(tr' & m & c & Ht & Hc & Hqc & Hnu)
                                   |(tr' & Ht & Hqc & Hns)]].
            + left. exact Hc.
            + right; left. exists tr', m, c. repeat split; try assumption; lia.
            + right; right. exists tr'. repeat split; try assumption.
              rewrite Hqc. f_equal. lia. }
        destruct (check (s (assume_round st1))
                    (assumptions assumD (assume_round st1) tmp)) eqn:Hc.
        -- eexists. split; [reflexivity|]. right; left.
           eexists. exists m, (cpt + 1). split; [reflexivity|].
           split; [lia|]. simpl. rewrite !queries_app. simpl.
           split; [lia|]. rewrite !in_app_iff. simpl. intuition discriminate.
        -- apply Hnext. discriminate.
        -- apply Hnext. discriminate.
      * eexists. split; [reflexivity|]. left. exists e. simpl. auto.
    + apply Z.leb_gt in Hle. eexists. split; [reflexivity|].
      right; right. exists tr. split; [reflexivity|]. simpl.
      rewrite queries_app. simpl. split; [lia|].
      rewrite in_app_iff. simpl. intuition discriminate.
Qed.

(** X11.  The outcomes of [run].  For every solver and every state of
    the encoder, [run] terminates after at most [BOUND] queries, and it
    ends in exactly one of three ways: an exception escapes, and neither
    [sat] nor the UNSAT message was printed; or the last two lines
    printed are [sat] and the model, found at a horizon [c] between 2
    and [BOUND + 1] after [c - 1] queries, and the UNSAT message was not
    printed; or the last lines are the UNSAT message and the unsat core,
    after exactly [BOUND] queries (none when [BOUND] is negative), and
    [sat] was never printed. *)
Theorem run_outcomes check st :
  exists r,
    run float check st = Some r
    /\ (queries (trace r) <= Z.to_nat (BOUND st))%nat
    /\ ((exists e, final r = Raise e
                   /\ ~ In Print_sat (trace r) /\ ~ In Print_unsat (trace r))
        \/ (exists tr' m c,
              trace r = tr' ++ [Print_sat; Print_model m c]
              /\ 2 <= c <= BOUND st + 1
              /\ queries (trace r) = Z.to_nat (c - 1)
              /\ ~ In Print_unsat (trace r))
        \/ (exists tr',
              trace r = tr' ++ [Print_unsat; Print_unsat_core]
              /\ queries (trace r) = Z.to_nat (BOUND st)
              /\ ~ In Print_sat (trace r))).
Proof.
  unfold run, run_fuel.
  destruct (run_prelude st) as [st0|e] eqn:Hpre.
  - apply run_prelude_spec in Hpre as (_ & Htab & _).
    assert (HB : BOUND st0 = BOUND st)
      by (unfold same_tables in Htab; tauto).
    destruct (run_loop_outcomes check (Z.to_nat (BOUND st)) 1
                (AssumD (idxAssum st)) (isObservableTransition st0) st0 [])
      as (r & Hr & Hcases); try (simpl; tauto); try lia.
    exists r. split; [exact Hr|]. rewrite HB in Hcases.
    destruct Hcases as [Hc|[(tr' & m & c & Ht & Hc & Hqc & Hnu)
                           |(tr' & Ht & Hqc & Hns)]].
    + split; [|left; exact Hc].
      destruct (run_loop_total float check (Z.to_nat (BOUND st)) 1
                  (AssumD (idxAssum st)) (isObservableTransition st0) st0 [])
        as (r' & Hr' & Hq); [rewrite HB; lia|].
      rewrite Hr in Hr'. injection Hr' as <-.
      rewrite HB in Hq. simpl in Hq. lia.
    + split; [lia|]. right; left. exists tr', m, c.
      repeat split; try assumption; lia.
    + split; [lia|]. right; right. exists tr'.
      repeat split; try assumption. rewrite Hqc. lia.
  - eexists. split; [reflexivity|]. simpl. split; [lia|].
    left. exists e. auto.
Qed.

End Outcomes.

Lemma reported_model_meets_goal_witness :
  exists n : nat,
    3 = Z.of_nat n /\ (2 <= n)%nat
    /\ iv critical_pair BoundVar = Z.of_nat n
    /\ (rv critical_pair DeltaVar == inject_Z 3)%Q
    /\ (rv critical_pair (CptFault n) == inject_Z 3)%Q
    /\ (3 <> 0 -> bv critical_pair (FaultOccurs (n - 1)) = true).
Proof.
  refine (reported_model_meets_goal float_of_numeral
            fault_automaton 2 3 fault_init (solver_of_model critical_pair)
            fault_run critical_pair 3 _ _ _ _).
  - vm_compute. reflexivity.
  - apply solver_of_model_sound.
  - vm_compute. reflexivity.
  - vm_compute. do 4 right. left. reflexivity.
Defined.

(* ===================================================================== *)
(** ** The critical pair                                                  *)
(* ===================================================================== *)

Section CriticalPair.

Variable float : string -> result Q.

(** X12.  The two runs of a reported model look the same to an
    observer: over the whole horizon they carry the same observable
    events (labels above [NO_OBS]), in the same order and at the same
    global times. *)
Theorem reported_runs_have_the_same_observation a bound delta st check r m c
    (n : nat) :
  Z3Model_init float a bound delta = Ok st ->
  sound check ->
  run float check st = Some r ->
  In (Print_model m c) (trace r) ->
  Z.of_nat n <= c ->
  same_observation (observation m Faulty n) (observation m Normal n).
Proof.
  intros Hinit Hsound Hrun Hin Hn.
  destruct (reported_model float _ _ _ _ _ _ _ _ Hinit Hsound Hrun Hin)
    as (st' & n' & _ & -> & _ & _ & _ & Hun & _ & Hm & Hma & _).
  assert (Hio : forall i : nat, (i < n')%nat -> bv m (IsObservable i) = true).
  { intros i Hi.
    pose proof (Z3Model_init_spec float _ _ _ _ Hinit)
      as (_ & _ & _ & _ & _ & _ & Hlist & _).
    change (eval m (BVar (IsObservable i)) = true).
    apply (models_In _ _ _ Hma). unfold assumptions.
    right; right; right. rewrite Hlist.
    apply in_map, in_map, range_In. destruct Hun as (Hle & _). lia. }
  unfold same_observation.
  induction n as [|i IH]; [constructor|].
  cbn [observation]. apply Forall2_app; [apply IH; lia|].
  destruct (unrolled_synchro _ _ _ _ i Hun Hm ltac:(lia)) as [Hdef Hsync].
  rewrite Hio, andb_true_r in Hdef by lia.
  destruct (bv m (CheckSynchro i)) eqn:Hcs.
  - destruct (Hsync eq_refl) as [Hid Hg].
    rewrite <- Hid. symmetry in Hdef. rewrite <- Hid, orb_diag in Hdef.
    rewrite Hdef. constructor; [|constructor]. simpl. split; [reflexivity|].
    exact Hg.
  - symmetry in Hdef. apply orb_false_iff in Hdef as [-> ->]. constructor.
Qed.

(** X13.  The fault counter measures the time since the fault.  In a
    reported model in which the faulty run carries [FAULT] first at step
    [k], the counter [cptFault[i]] of every later index [i], up to the
    last one, is the time the faulty run lets pass after step [k]: the
    sum of its delays at the steps [k + 1 .. i].  With the goal of the
    query this makes [DELTA] the time between the fault and the end of
    the faulty run. *)
Theorem fault_counter_is_time_since_fault a bound delta st check r m c
    (k i : nat) :
  Z3Model_init float a bound delta = Ok st ->
  sound check ->
  run float check st = Some r ->
  In (Print_model m c) (trace r) ->
  iv m (IdTransition Faulty k) = FAULT ->
  (forall j : nat, (j < k)%nat -> iv m (IdTransition Faulty j) <> FAULT) ->
  (k <= i)%nat -> Z.of_nat k < c -> Z.of_nat i <= c ->
  (rv m (CptFault i) == elapsed m Faulty i - elapsed m Faulty k)%Q
  /\ (inject_Z delta == elapsed m Faulty (Z.to_nat c) - elapsed m Faulty k)%Q.
Proof.
  intros Hinit Hsound Hrun Hin Hk Hfirst Hki Hkc Hic.
  destruct (reported_fault_goal float _ _ _ _ _ _ _ _ Hinit Hsound Hrun Hin)
    as (n0 & Hc0 & Hgoal & _).
  destruct (reported_model float _ _ _ _ _ _ _ _ Hinit Hsound Hrun Hin)
    as (st' & n & _ & Hc & _ & Hn & _ & Hun & _ & Hm & _).
  assert (n0 = n) by lia. subst n0.
  pose proof (unrolled_fault_flag _ _ _ _ Hun Hm) as Hflag.
  destruct (unrolled_fault_counter _ _ _ _ Hun Hm) as [_ Hstep].
  assert (Hon : forall j : nat, (k <= j < n)%nat ->
                  bv m (FaultOccurs j) = true).
  { intros j Hj. rewrite Hflag by lia. unfold fault_fired.
    apply existsb_exists. exists k. split; [apply range_In; lia|].
    rewrite Hk. reflexivity. }
  assert (Hoff : forall j : nat, (j < k)%nat -> bv m (FaultOccurs j) = false).
  { intros j Hj. rewrite Hflag by lia. unfold fault_fired.
    apply not_true_is_false. intros H.
    apply existsb_exists in H as (x & Hx & E).
    unfold range in Hx. apply in_seq in Hx. apply Z.eqb_eq in E.
    apply (Hfirst x); [lia|exact E]. }
  assert (Hk0 : (rv m (CptFault k) == 0)%Q).
  { destruct k as [|k'].
    - apply (proj1 (unrolled_fault_counter _ _ _ _ Hun Hm)).
    - destruct Hun as (_ & _ & _ & _ & _ & Hrules & _).
      destruct (Hrules (S k')) as (_ & _ & Hfault); [lia|].
      assert (H : eval m (Implies (BEq (BVar (FaultOccurs (S k' - 1)))
                                     (BConst false))
                            (RCmp Ceq (RVar (CptFault (S k'))) (real 0)))
                  = true)
        by (apply (models_In _ _ _ Hm), Hfault; simpl; auto).
      simpl in H. rewrite Nat.sub_0_r, Hoff in H by lia. simpl in H.
      apply Qeq_bool_iff in H. exact H. }
  assert (Hall : forall d : nat, (k + d <= n)%nat ->
            (rv m (CptFault (k + d))
             == elapsed m Faulty (k + d) - elapsed m Faulty k)%Q).
  { induction d as [|d IH]; intros Hd.
    - rewrite Nat.add_0_r, Hk0. ring.
    - destruct (Hstep (k + d)%nat) as [_ Hadv]; [lia|].
      specialize (Hadv (Hon (k + d)%nat ltac:(lia))).
      replace (k + d + 1)%nat with (k + S d)%nat in Hadv by lia.
      rewrite Hadv, IH by lia.
      replace (k + S d)%nat with (S (k + d)) by lia.
      cbn [elapsed]. ring. }
  split.
  - replace i with (k + (i - k))%nat by lia. apply Hall. lia.
  - rewrite <- Hgoal, Hc, Nat2Z.id.
    replace n with (k + (n - k))%nat at 1 2 by lia. apply Hall. lia.
Qed.

End CriticalPair.

Lemma reported_runs_have_the_same_observation_witness :
  same_observation (observation critical_pair Faulty 3)
    (observation critical_pair Normal 3).
Proof.
  refine (reported_runs_have_the_same_observation float_of_numeral
            fault_automaton 2 3 fault_init (solver_of_model critical_pair)
            fault_run critical_pair 3 3%nat _ _ _ _ _).
  - vm_compute. reflexivity.
  - apply solver_of_model_sound.
  - vm_compute. reflexivity.
  - vm_compute. do 4 right. left. reflexivity.
  - reflexivity.
Defined.

Lemma fault_counter_is_time_since_fault_witness :
  (rv critical_pair (CptFault 3)
   == elapsed critical_pair Faulty 3 - elapsed critical_pair Faulty 1)%Q
  /\ (inject_Z 3
      == elapsed critical_pair Faulty (Z.to_nat 3)
         - elapsed critical_pair Faulty 1)%Q.
Proof.
  refine (fault_counter_is_time_since_fault float_of_numeral
            fault_automaton 2 3 fault_init (solver_of_model critical_pair)
            fault_run critical_pair 3 1%nat 3%nat _ _ _ _ _ _ _ _ _).
  - vm_compute. reflexivity.
  - apply solver_of_model_sound.
  - vm_compute. reflexivity.
  - vm_compute. do 4 right. left. reflexivity.
  - reflexivity.
  - intros j Hj. assert (j = 0%nat) by lia. subst j. vm_compute. discriminate.
  - lia.
  - reflexivity.
  - vm_compute. discriminate.
Defined.

(* ===================================================================== *)
(** ** The guard and invariant syntax                                     *)
(* ===================================================================== *)

Lemma startswith_app s t : startswith s (s +:+ t) = true.
Proof. induction s as [|a s IH]; simpl; [|rewrite Ascii.eqb_refl]; auto. Qed.

Lemma split_go_skip sep x s :
  split_go sep (String.length x) (x +:+ s) = split_go sep 0 s.
Proof.
  induction x as [|a x IH]; simpl; [|exact IH].
  destruct s; reflexivity.
Qed.

Lemma split_go_0 sep c s :
  split_go sep 0 (String c s)
  = if startswith sep (String c s)
    then EmptyString :: split_go sep (String.length sep - 1) s
    else match split_go sep 0 s with
         | piece :: pieces => String c piece :: pieces
         | [] => [String c EmptyString]
         end.
Proof. reflexivity. Qed.

(** Splitting at the first occurrence of a separator whose first
    character does not occur before it. *)
Lemma split_first a sep s1 s2 :
  occurs a s1 = false ->
  split (String a sep) (s1 +:+ String a sep +:+ s2)
  = s1 :: split (String a sep) s2.
Proof.
  unfold split. intros H. induction s1 as [|b s1 IH].
  - change (EmptyString +:+ String a sep +:+ s2)
      with (String a (sep +:+ s2)).
    rewrite split_go_0.
    change (String a (sep +:+ s2)) with (String a sep +:+ s2).
    rewrite startswith_app.
    replace (String.length (String a sep) - 1)%nat with (String.length sep)
      by (simpl; lia).
    rewrite split_go_skip. reflexivity.
  - simpl in H. apply orb_false_iff in H as [Hab Hs].
    change (String b s1 +:+ String a sep +:+ s2)
      with (String b (s1 +:+ String a sep +:+ s2)).
    rewrite split_go_0.
    change (startswith (String a sep) (String b (s1 +:+ String a sep +:+ s2)))
      with (if Ascii.eqb a b
            then startswith sep (s1 +:+ String a sep +:+ s2) else false).
    rewrite Hab, (IH Hs). reflexivity.
Qed.

(** A separator whose first character does not occur splits nothing. *)
Lemma split_absent a sep s :
  occurs a s = false -> split (String a sep) s = [s].
Proof.
  unfold split. induction s as [|b s IH]; [reflexivity|].
  intros H. simpl in H. apply orb_false_iff in H as [Hab Hs].
  rewrite split_go_0.
  change (startswith (String a sep) (String b s))
    with (if Ascii.eqb a b then startswith sep s else false).
  rewrite Hab, (IH Hs). reflexivity.
Qed.

Lemma app_empty_r (s : string) : s +:+ "" = s.
Proof.
  induction s as [|a s IH]; [reflexivity|].
  change (String a (s +:+ "") = String a s). f_equal. exact IH.
Qed.

Lemma app_assoc_string (s t u : string) : (s +:+ t) +:+ u = s +:+ t +:+ u.
Proof.
  induction s as [|a s IH]; [reflexivity|].
  change (String a ((s +:+ t) +:+ u) = String a (s +:+ t +:+ u)).
  f_equal. exact IH.
Qed.

Lemma split_last a sep s1 :
  occurs a s1 = false ->
  split (String a sep) (s1 +:+ String a sep) = [s1; EmptyString].
Proof.
  intros H. pose proof (split_first a sep s1 "" H) as E.
  rewrite app_empty_r in E. exact E.
Qed.

Lemma to_uint_not_Nil n : Nat.to_uint n <> Decimal.Nil.
Proof.
  intros E. pose proof (Unsigned.of_to n) as H. rewrite E in H.
  destruct n; [discriminate|]. simpl in H. discriminate.
Qed.

(** [str] is injective: distinct numbers have distinct numerals. *)
Lemma str_inj n n' : str n = str n' -> n = n'.
Proof.
  unfold str. intros E.
  apply Unsigned.to_uint_inj.
  pose proof (NilZero.usu _ (to_uint_not_Nil n)) as H.
  pose proof (NilZero.usu _ (to_uint_not_Nil n')) as H'.
  rewrite E in H. congruence.
Qed.

Lemma str_not_empty n : str n <> "".
Proof.
  unfold str. intros E.
  pose proof (NilZero.usu _ (to_uint_not_Nil n)) as H.
  rewrite E in H. simpl in H. discriminate.
Qed.

(** The position of a declared clock in the list of clock names. *)
Lemma clock_position_declared (k n : nat) :
  (k < n)%nat ->
  clock_position ("c" +:+ str (k + 1))
    (map (fun i => "c" +:+ str (i + 1)) (range n)) = Some k.
Proof.
  unfold range. intros Hk.
  assert (G : forall len start : nat, (start <= k < start + len)%nat ->
            clock_position ("c" +:+ str (k + 1))
              (map (fun i => "c" +:+ str (i + 1)) (seq start len))
            = Some (k - start)%nat).
  { induction len as [|len IH]; intros start Hs; [lia|].
    cbn [seq map clock_position].
    destruct (String.eqb ("c" +:+ str (k + 1)) ("c" +:+ str (start + 1)))
      eqn:E.
    - apply String.eqb_eq in E. injection E as E. apply str_inj in E.
      f_equal. lia.
    - assert (start <> k) by (intros ->; rewrite String.eqb_refl in E;
                              discriminate).
      rewrite IH by lia. simpl. f_equal. lia. }
  rewrite G by lia. f_equal. lia.
Qed.

(** A clock name that is not declared has no position. *)
Lemma clock_position_undeclared (clock : string) (n : nat) :
  (forall i : nat, (i < n)%nat -> clock <> "c" +:+ str (i + 1)) ->
  clock_position clock (map (fun i => "c" +:+ str (i + 1)) (range n)) = None.
Proof.
  unfold range. intros H.
  assert (G : forall len start : nat, (start + len <= n)%nat ->
            clock_position clock
              (map (fun i => "c" +:+ str (i + 1)) (seq start len)) = None).
  { induction len as [|len IH]; intros start Hs; [reflexivity|].
    cbn [seq map clock_position].
    destruct (String.eqb clock ("c" +:+ str (start + 1))) eqn:E.
    - apply String.eqb_eq in E. exfalso. apply (H start); [lia|exact E].
    - rewrite IH by lia. reflexivity. }
  apply G. lia.
Qed.

Lemma plain_spec text :
  plain text = true ->
  occurs "c" text = false /\ occurs ">" text = false
  /\ occurs "=" text = false /\ occurs ";" text = false.
Proof.
  unfold plain. intros H.
  repeat (apply andb_true_iff in H as [H ?]).
  repeat split; apply negb_true_iff; assumption.
Qed.

Section GuardSyntax.

Variable float : string -> result Q.

(** [parseConstraints] keeps an atom that compares a clock with a number
    on its right. *)
Lemma parseConstraint_clock_first (k : nat) (strict : bool) (num : string) :
  plain num = true ->
  parseConstraint ("c" +:+ str (k + 1) +:+ gt_text strict +:+ num)
  = Ok ["c" +:+ str (k + 1) +:+ gt_text strict +:+ num].
Proof.
  intros Hp. apply plain_spec in Hp as (Hc & Hg & He & _).
  set (d := str (k + 1)).
  assert (Hdc : occurs "c" d = false) by (apply str_digits; reflexivity).
  assert (Hdg : occurs ">" d = false) by (apply str_digits; reflexivity).
  assert (Hrest : occurs "c" (d +:+ gt_text strict +:+ num) = false)
    by (rewrite !occurs_app, Hdc, Hc; destruct strict; reflexivity).
  assert (Htail : occurs "c" (gt_text strict +:+ num) = false)
    by (rewrite occurs_app, Hc; destruct strict; reflexivity).
  unfold parseConstraint.
  change ("c" +:+ d +:+ gt_text strict +:+ num)
    with (String "c" (d +:+ gt_text strict +:+ num)).
  rewrite (split_char_first _ _ Hrest). cbn [lookup list_lookup or_raise].
  cbn [mbind result_bind].
  assert (E1 : exists tl, split ">" (d +:+ gt_text strict +:+ num) = d :: tl).
  { destruct strict; eexists; exact (split_first ">" "" d _ Hdg). }
  destruct E1 as (tl & ->). cbn [lookup list_lookup or_raise mbind result_bind].
  change (String "c" (d +:+ gt_text strict +:+ num))
    with ("" +:+ String "c" d +:+ (gt_text strict +:+ num)).
  rewrite (split_first "c" d "" _ eq_refl), (split_absent "c" d _ Htail).
  destruct strict; reflexivity.
Qed.

(** [parseConstraints] keeps an atom that compares a number with a clock
    on its right. *)
Lemma parseConstraint_number_first (k : nat) (strict : bool) (num : string) :
  plain num = true -> num <> "" ->
  parseConstraint (num +:+ gt_text strict +:+ "c" +:+ str (k + 1))
  = Ok [num +:+ gt_text strict +:+ "c" +:+ str (k + 1)].
Proof.
  intros Hp Hne. pose proof (plain_spec _ Hp) as (Hc & Hg & He & _).
  set (d := str (k + 1)).
  assert (Hdc : occurs "c" d = false) by (apply str_digits; reflexivity).
  assert (Hdg : occurs ">" d = false) by (apply str_digits; reflexivity).
  assert (Hhead : occurs "c" (num +:+ gt_text strict) = false)
    by (rewrite occurs_app, Hc; destruct strict; reflexivity).
  unfold parseConstraint.
  assert (E0 : num +:+ gt_text strict +:+ "c" +:+ d
               = (num +:+ gt_text strict) +:+ String "c" d)
    by (rewrite app_assoc_string; reflexivity).
  assert (E1 : split "c" (num +:+ gt_text strict +:+ "c" +:+ d)
               = [num +:+ gt_text strict; d]).
  { rewrite E0.
    change ((num +:+ gt_text strict) +:+ String "c" d)
      with ((num +:+ gt_text strict) +:+ String "c" "" +:+ d).
    rewrite (split_first "c" "" _ d Hhead), (split_char_absent _ _ Hdc).
    reflexivity. }
  rewrite E1. cbn [lookup list_lookup or_raise mbind result_bind].
  rewrite (split_char_absent _ _ Hdg).
  cbn [lookup list_lookup or_raise mbind result_bind].
  change ("c" +:+ d) with (String "c" d).
  rewrite E0 at 1. rewrite (split_last "c" d _ Hhead).
  destruct num as [|h num]; [contradiction|].
  change (occurs ">" (String h num))
    with (Ascii.eqb ">" h || occurs ">" num) in Hg.
  apply orb_false_iff in Hg as [Hh _].
  change ((String h num +:+ gt_text strict))
    with (String h (num +:+ gt_text strict)).
  cbn [flat_map]. rewrite Ascii.eqb_sym, Hh. rewrite app_nil_r.
  change (String h (num +:+ gt_text strict))
    with (String h num +:+ gt_text strict).
  rewrite app_assoc_string. reflexivity.
Qed.

(** [transConstraints] on an atom with the clock on the left. *)
Lemma transConstraint_clock_first nclocks idx p (k : nat) (strict : bool)
    (num : string) (q : Q) :
  plain num = true -> float num = Ok q -> (k < nclocks)%nat ->
  transConstraint float nclocks idx p
    ("c" +:+ str (k + 1) +:+ gt_text strict +:+ num)
  = Ok [RCmp (if strict then Cgt else Cge) (clockValue p k idx) (RConst q)].
Proof.
  intros Hp Hq Hk. apply plain_spec in Hp as (Hc & Hg & He & _).
  set (d := str (k + 1)).
  assert (Hdg : occurs ">" ("c" +:+ d) = false)
    by (change ("c" +:+ d) with (String "c" d); simpl;
        apply str_digits; reflexivity).
  assert (Hde : occurs "=" ("c" +:+ d) = false)
    by (change ("c" +:+ d) with (String "c" d); simpl;
        apply str_digits; reflexivity).
  unfold transConstraint.
  rewrite <- (app_assoc_string "c" d).
  destruct strict; unfold gt_text.
  - assert (E : split "=" (("c" +:+ d) +:+ ">" +:+ num)
                = [("c" +:+ d) +:+ ">" +:+ num]).
    { apply split_char_absent.
      rewrite occurs_app, Hde, occurs_app, He. reflexivity. }
    rewrite E. cbn [lookup list_lookup or_raise mbind result_bind].
    change (head_char (("c" +:+ d) +:+ ">" +:+ num)) with (Ok "c"%char).
    cbn [mbind result_bind length Nat.eqb]. rewrite Ascii.eqb_refl.
    assert (E2 : split ">" (("c" +:+ d) +:+ ">" +:+ num) = ["c" +:+ d; num]).
    { change (("c" +:+ d) +:+ ">" +:+ num)
        with (("c" +:+ d) +:+ String ">" "" +:+ num).
      rewrite (split_first ">" "" _ num Hdg), (split_char_absent _ _ Hg).
      reflexivity. }
    rewrite E2. cbn [lookup list_lookup or_raise mbind result_bind].
    rewrite Hq. cbn [mbind result_bind].
    unfold d. rewrite (clock_position_declared k nclocks Hk). reflexivity.
  - assert (E : split "=" (("c" +:+ d) +:+ ">=" +:+ num)
                = [("c" +:+ d) +:+ ">"; num]).
    { change (("c" +:+ d) +:+ ">=" +:+ num)
        with (("c" +:+ d) +:+ ">" +:+ String "=" "" +:+ num).
      rewrite <- app_assoc_string.
      rewrite (split_first "=" "" _ num), (split_char_absent _ _ He);
        [reflexivity|].
      rewrite occurs_app, Hde. reflexivity. }
    rewrite E. cbn [lookup list_lookup or_raise mbind result_bind].
    change (head_char (("c" +:+ d) +:+ ">")) with (Ok "c"%char).
    cbn [mbind result_bind length Nat.eqb]. rewrite Ascii.eqb_refl.
    rewrite (split_last ">" "" _ Hdg).
    cbn [lookup list_lookup or_raise mbind result_bind].
    rewrite Hq. cbn [mbind result_bind].
    unfold d. rewrite (clock_position_declared k nclocks Hk). reflexivity.
Qed.

(** [transConstraints] on an atom with the clock on the right. *)
Lemma transConstraint_number_first nclocks idx p (k : nat) (strict : bool)
    (num : string) (q : Q) :
  plain num = true -> num <> "" -> float num = Ok q -> (k < nclocks)%nat ->
  transConstraint float nclocks idx p
    (num +:+ gt_text strict +:+ "c" +:+ str (k + 1))
  = Ok [RCmp (if strict then Clt else Cle) (clockValue p k idx) (RConst q)].
Proof.
  intros Hp Hne Hq Hk. apply plain_spec in Hp as (Hc & Hg & He & _).
  set (d := str (k + 1)).
  assert (Hdg : occurs ">" ("c" +:+ d) = false)
    by (change ("c" +:+ d) with (String "c" d); simpl;
        apply str_digits; reflexivity).
  assert (Hde : occurs "=" ("c" +:+ d) = false)
    by (change ("c" +:+ d) with (String "c" d); simpl;
        apply str_digits; reflexivity).
  destruct num as [|h num]; [contradiction|].
  assert (Hh : Ascii.eqb h "c" = false).
  { change (occurs "c" (String h num))
      with (Ascii.eqb "c" h || occurs "c" num) in Hc.
    apply orb_false_iff in Hc as [Hc _]. rewrite Ascii.eqb_sym. exact Hc. }
  unfold transConstraint.
  destruct strict; unfold gt_text.
  - assert (E : split "=" (String h num +:+ ">" +:+ "c" +:+ d)
                = [String h num +:+ ">" +:+ "c" +:+ d]).
    { apply split_char_absent.
      rewrite occurs_app, He, occurs_app, Hde. reflexivity. }
    rewrite E. cbn [lookup list_lookup or_raise mbind result_bind].
    change (head_char (String h num +:+ ">" +:+ "c" +:+ d)) with (Ok h).
    cbn [mbind result_bind length Nat.eqb]. rewrite Hh.
    assert (E2 : split ">" (String h num +:+ ">" +:+ "c" +:+ d)
                 = [String h num; "c" +:+ d]).
    { change (String h num +:+ ">" +:+ "c" +:+ d)
        with (String h num +:+ String ">" "" +:+ ("c" +:+ d)).
      rewrite (split_first ">" "" _ _ Hg), (split_char_absent _ _ Hdg).
      reflexivity. }
    rewrite E2. cbn [lookup list_lookup or_raise mbind result_bind].
    rewrite Hq. cbn [mbind result_bind].
    unfold d. rewrite (clock_position_declared k nclocks Hk). reflexivity.
  - assert (E : split "=" (String h num +:+ ">=" +:+ "c" +:+ d)
                = [String h num +:+ ">"; "c" +:+ d]).
    { change (String h num +:+ ">=" +:+ "c" +:+ d)
        with (String h num +:+ ">" +:+ String "=" "" +:+ ("c" +:+ d)).
      rewrite <- app_assoc_string.
      rewrite (split_first "=" "" _ _), (split_char_absent _ _ Hde);
        [reflexivity|].
      rewrite occurs_app, He. reflexivity. }
    rewrite E. cbn [lookup list_lookup or_raise mbind result_bind].
    change (head_char (String h num +:+ ">")) with (Ok h).
    cbn [mbind result_bind length Nat.eqb]. rewrite Hh.
    rewrite (split_last ">" "" _ Hg).
    cbn [lookup list_lookup or_raise mbind result_bind].
    rewrite Hq. cbn [mbind result_bind].
    unfold d. rewrite (clock_position_declared k nclocks Hk). reflexivity.
Qed.

(** An atom that starts with [c] and holds no [>] is dropped by
    [parseConstraints]. *)
Lemma parseConstraint_without_gt (rest : string) :
  occurs "c" rest = false -> occurs ">" rest = false ->
  parseConstraint ("c" +:+ rest) = Ok [].
Proof.
  intros Hc Hg. unfold parseConstraint.
  change ("c" +:+ rest) with (String "c" rest).
  rewrite (split_char_first _ _ Hc).
  cbn [lookup list_lookup or_raise mbind result_bind].
  rewrite (split_char_absent _ _ Hg).
  cbn [lookup list_lookup or_raise mbind result_bind].
  change ("c" +:+ rest) with (String "c" rest).
  rewrite split_self. reflexivity.
Qed.

(** X14.  The four comparisons of the guard syntax.  For a declared
    clock [c<k+1>] and a number text that [float] reads as [q], the atom
    [c<k+1> > num] is translated to [clock > q], [c<k+1> >= num] to
    [clock >= q], [num > c<k+1>] to [clock < q] and [num >= c<k+1>] to
    [clock <= q], on the value of the clock at the step. *)
Theorem guard_atom_translation nclocks idx p (k : nat) (strict : bool)
    (num : string) (q : Q) :
  plain num = true -> num <> "" -> float num = Ok q -> (k < nclocks)%nat ->
  translate_guard float nclocks
    ["c" +:+ str (k + 1) +:+ gt_text strict +:+ num] idx p
  = Ok [RCmp (if strict then Cgt else Cge) (clockValue p k idx) (RConst q)]
  /\ translate_guard float nclocks
       [num +:+ gt_text strict +:+ "c" +:+ str (k + 1)] idx p
     = Ok [RCmp (if strict then Clt else Cle) (clockValue p k idx) (RConst q)].
Proof.
  intros Hp Hne Hq Hk. unfold translate_guard, parseConstraints. split.
  - cbn [for_each]. rewrite (parseConstraint_clock_first k strict num Hp).
    cbn [mbind result_bind app]. unfold transConstraints. cbn [for_each].
    rewrite (transConstraint_clock_first nclocks idx p k strict num q Hp Hq Hk).
    reflexivity.
  - cbn [for_each].
    rewrite (parseConstraint_number_first k strict num Hp Hne).
    cbn [mbind result_bind app]. unfold transConstraints. cbn [for_each].
    rewrite (transConstraint_number_first nclocks idx p k strict num q
               Hp Hne Hq Hk).
    reflexivity.
Qed.

(** X15.  A two-sided atom [hi >= c<k+1> >= lo] (either comparison may
    be strict) is split by [parseConstraints] into its two halves and
    translated to the upper and the lower bound of the clock. *)
Theorem guard_two_sided_atom nclocks idx p (k : nat) (s1 s2 : bool)
    (hi lo : string) (qhi qlo : Q) :
  plain hi = true -> hi <> "" -> float hi = Ok qhi ->
  plain lo = true -> float lo = Ok qlo ->
  (k < nclocks)%nat ->
  translate_guard float nclocks
    [hi +:+ gt_text s1 +:+ "c" +:+ str (k + 1) +:+ gt_text s2 +:+ lo] idx p
  = Ok [ RCmp (if s1 then Clt else Cle) (clockValue p k idx) (RConst qhi);
         RCmp (if s2 then Cgt else Cge) (clockValue p k idx) (RConst qlo) ].
Proof.
  intros Hph Hne Hqh Hpl Hql Hk.
  pose proof (plain_spec _ Hph) as (Hc & Hg & He & _).
  pose proof (plain_spec _ Hpl) as (Hc' & Hg' & He' & _).
  set (d := str (k + 1)).
  assert (Hdc : occurs "c" d = false) by (apply str_digits; reflexivity).
  assert (Hdg : occurs ">" d = false) by (apply str_digits; reflexivity).
  assert (Hhead : occurs "c" (hi +:+ gt_text s1) = false)
    by (rewrite occurs_app, Hc; destruct s1; reflexivity).
  assert (Htail : occurs "c" (gt_text s2 +:+ lo) = false)
    by (rewrite occurs_app, Hc'; destruct s2; reflexivity).
  assert (Hrest : occurs "c" (d +:+ gt_text s2 +:+ lo) = false)
    by (rewrite occurs_app, Hdc; exact Htail).
  assert (Hparse :
    parseConstraint (hi +:+ gt_text s1 +:+ "c" +:+ d +:+ gt_text s2 +:+ lo)
    = Ok [ hi +:+ gt_text s1 +:+ "c" +:+ d;
           "c" +:+ d +:+ gt_text s2 +:+ lo ]).
  { unfold parseConstraint.
    assert (E0 : hi +:+ gt_text s1 +:+ "c" +:+ d +:+ gt_text s2 +:+ lo
                 = (hi +:+ gt_text s1) +:+ String "c" d
                   +:+ (gt_text s2 +:+ lo)).
    { rewrite app_assoc_string. reflexivity. }
    assert (E1 : split "c" (hi +:+ gt_text s1 +:+ "c" +:+ d
                            +:+ gt_text s2 +:+ lo)
                 = [hi +:+ gt_text s1; d +:+ gt_text s2 +:+ lo]).
    { rewrite E0.
      change ((hi +:+ gt_text s1) +:+ String "c" d +:+ (gt_text s2 +:+ lo))
        with ((hi +:+ gt_text s1) +:+ String "c" ""
              +:+ (d +:+ gt_text s2 +:+ lo)).
      rewrite (split_first "c" "" _ _ Hhead), (split_char_absent _ _ Hrest).
      reflexivity. }
    rewrite E1. cbn [lookup list_lookup or_raise mbind result_bind].
    assert (E2 : exists tl,
               split ">" (d +:+ gt_text s2 +:+ lo) = d :: tl).
    { destruct s2; eexists; exact (split_first ">" "" d _ Hdg). }
    destruct E2 as (tl & ->).
    cbn [lookup list_lookup or_raise mbind result_bind].
    change ("c" +:+ d) with (String "c" d).
    rewrite E0 at 1.
    rewrite (split_first "c" d _ _ Hhead), (split_absent "c" d _ Htail).
    destruct hi as [|h hi]; [contradiction|].
    change (occurs ">" (String h hi))
      with (Ascii.eqb ">" h || occurs ">" hi) in Hg.
    apply orb_false_iff in Hg as [Hh _].
    change ((String h hi +:+ gt_text s1))
      with (String h (hi +:+ gt_text s1)).
    cbn [flat_map]. rewrite Ascii.eqb_sym, Hh.
    change (String h (hi +:+ gt_text s1))
      with (String h hi +:+ gt_text s1).
    rewrite app_assoc_string.
    destruct s2; reflexivity. }
  unfold translate_guard, parseConstraints. cbn [for_each].
  rewrite Hparse. cbn [mbind result_bind app].
  unfold transConstraints. cbn [for_each].
  unfold d.
  rewrite (transConstraint_number_first nclocks idx p k s1 hi qhi
             Hph Hne Hqh Hk).
  cbn [mbind result_bind].
  rewrite (transConstraint_clock_first nclocks idx p k s2 lo qlo Hpl Hql Hk).
  reflexivity.
Qed.

(** X16.  A guard atom that starts with [c] and holds no [>], such as
    [c1<=5], [c1<5], [c1=5] or [c1==5], is dropped by
    [parseConstraints]: a guard made of such atoms is translated to the
    empty list of comparisons, whatever the numbers are, and constrains
    no step. *)
Theorem guard_without_gt_is_dropped nclocks idx p (g : list string) :
  Forall (fun atom => exists rest,
            atom = "c" +:+ rest
            /\ occurs "c" rest = false /\ occurs ">" rest = false) g ->
  parseConstraints g = Ok []
  /\ translate_guard float nclocks g idx p = Ok [].
Proof.
  intros Hg.
  assert (H : parseConstraints g = Ok []).
  { unfold parseConstraints. induction Hg as [|atom g Ha _ IH];
      [reflexivity|].
    destruct Ha as (rest & -> & Hc & Hgt). cbn [for_each].
    rewrite (parseConstraint_without_gt rest Hc Hgt), IH. reflexivity. }
  split; [exact H|]. unfold translate_guard. rewrite H. reflexivity.
Qed.

(** X17.  A guard atom on a clock that is not declared, [c<k+1>] with
    [k] not below the number of clocks, is accepted and dropped: its
    translation is the empty list. *)
Theorem guard_on_undeclared_clock_is_dropped nclocks idx p (k : nat)
    (strict : bool) (num : string) (q : Q) :
  plain num = true -> float num = Ok q -> (nclocks <= k)%nat ->
  translate_guard float nclocks
    ["c" +:+ str (k + 1) +:+ gt_text strict +:+ num] idx p = Ok [].
Proof.
  intros Hp Hq Hk. unfold translate_guard, parseConstraints.
  cbn [for_each]. rewrite (parseConstraint_clock_first k strict num Hp).
  cbn [mbind result_bind app]. unfold transConstraints. cbn [for_each].
  pose proof (plain_spec _ Hp) as (Hc & Hg & He & _).
  set (d := str (k + 1)).
  assert (Hdg : occurs ">" ("c" +:+ d) = false)
    by (change ("c" +:+ d) with (String "c" d); simpl;
        apply str_digits; reflexivity).
  assert (Hde : occurs "=" ("c" +:+ d) = false)
    by (change ("c" +:+ d) with (String "c" d); simpl;
        apply str_digits; reflexivity).
  assert (Hpos : clock_position ("c" +:+ d)
                   (map (fun i => "c" +:+ str (i + 1)) (range nclocks))
                 = None).
  { apply clock_position_undeclared. intros i Hi E.
    injection E as E. apply str_inj in E. lia. }
  unfold transConstraint.
  rewrite <- (app_assoc_string "c" d).
  destruct strict; unfold gt_text.
  - assert (E : split "=" (("c" +:+ d) +:+ ">" +:+ num)
                = [("c" +:+ d) +:+ ">" +:+ num]).
    { apply split_char_absent.
      rewrite occurs_app, Hde, occurs_app, He. reflexivity. }
    rewrite E. cbn [lookup list_lookup or_raise mbind result_bind].
    change (head_char (("c" +:+ d) +:+ ">" +:+ num)) with (Ok "c"%char).
    cbn [mbind result_bind length Nat.eqb]. rewrite Ascii.eqb_refl.
    assert (E2 : split ">" (("c" +:+ d) +:+ ">" +:+ num) = ["c" +:+ d; num]).
    { change (("c" +:+ d) +:+ ">" +:+ num)
        with (("c" +:+ d) +:+ String ">" "" +:+ num).
      rewrite (split_first ">" "" _ num Hdg), (split_char_absent _ _ Hg).
      reflexivity. }
    rewrite E2. cbn [lookup list_lookup or_raise mbind result_bind].
    rewrite Hq. cbn [mbind result_bind]. rewrite Hpos. reflexivity.
  - assert (E : split "=" (("c" +:+ d) +:+ ">=" +:+ num)
                = [("c" +:+ d) +:+ ">"; num]).
    { change (("c" +:+ d) +:+ ">=" +:+ num)
        with (("c" +:+ d) +:+ ">" +:+ String "=" "" +:+ num).
      rewrite <- app_assoc_string.
      rewrite (split_first "=" "" _ num), (split_char_absent _ _ He);
        [reflexivity|].
      rewrite occurs_app, Hde. reflexivity. }
    rewrite E. cbn [lookup list_lookup or_raise mbind result_bind].
    change (head_char (("c" +:+ d) +:+ ">")) with (Ok "c"%char).
    cbn [mbind result_bind length Nat.eqb]. rewrite Ascii.eqb_refl.
    rewrite (split_last ">" "" _ Hdg).
    cbn [lookup list_lookup or_raise mbind result_bind].
    rewrite Hq. cbn [mbind result_bind]. rewrite Hpos. reflexivity.
Qed.

(** No piece of a split holds a character the text does not hold. *)
Lemma split_go_occurs c sep s : forall skip piece,
  occurs c s = false -> In piece (split_go sep skip s) ->
  occurs c piece = false.
Proof.
  induction s as [|a s IH]; intros skip piece Hc Hin.
  - destruct Hin as [<-|[]]. reflexivity.
  - change (occurs c (String a s)) with (Ascii.eqb c a || occurs c s) in Hc.
    apply orb_false_iff in Hc as [Ha Hs].
    destruct skip as [|skip].
    + rewrite split_go_0 in Hin.
      destruct (startswith sep (String a s)).
      * destruct Hin as [<-|Hin]; [reflexivity|]. apply (IH _ _ Hs Hin).
      * destruct (split_go sep 0 s) as [|x xs] eqn:E.
        -- destruct Hin as [<-|[]].
           change (Ascii.eqb c a || false = false). rewrite Ha. reflexivity.
        -- destruct Hin as [<-|Hin].
           ++ change (Ascii.eqb c a || occurs c x = false). rewrite Ha.
              apply (IH 0%nat x Hs). rewrite E. left. reflexivity.
           ++ apply (IH 0%nat piece Hs). rewrite E. right. exact Hin.
    + apply (IH skip piece Hs). exact Hin.
Qed.

Lemma split_go_not_nil sep s : forall skip, split_go sep skip s <> [].
Proof.
  induction s as [|a s IH]; intros skip; [discriminate|].
  destruct skip as [|skip]; [|apply IH].
  rewrite split_go_0. destruct (startswith sep (String a s)); [discriminate|].
  destruct (split_go sep 0 s); discriminate.
Qed.

(** X18.  The invariant syntax.  The textual invariant [num >= c<k+1>]
    of a state, strict or not, is translated for clock [k] to the
    non-strict bound [clock <= q] on the value of the clock at the step,
    and for every other clock to [True]; the parser's default invariant,
    the integer 1, is [True] for every clock. *)
Theorem invariant_atom_translation pos p (k k' : nat) (strict : bool)
    (num : string) (q : Q) :
  plain num = true -> float num = Ok q ->
  parseInv float (InvStr (num +:+ gt_text strict +:+ "c" +:+ str (k + 1)))
    k' pos p
  = Ok (if (k =? k')%nat then RCmp Cle (clockValue p k pos) (RConst q)
        else BConst true)
  /\ parseInv float (InvInt 1) k' pos p = Ok (BConst true).
Proof.
  intros Hp Hq. split; [|reflexivity].
  pose proof (plain_spec _ Hp) as (Hc & Hg & He & Hs).
  set (d := str (k + 1)).
  assert (Hdc : occurs "c" d = false) by (apply str_digits; reflexivity).
  assert (Hdg : occurs ">" d = false) by (apply str_digits; reflexivity).
  assert (Hds : occurs ";" d = false) by (apply str_digits; reflexivity).
  assert (Hhead : occurs "c" (num +:+ gt_text strict) = false)
    by (rewrite occurs_app, Hc; destruct strict; reflexivity).
  set (text := num +:+ gt_text strict +:+ "c" +:+ d).
  assert (Hsemi : occurs ";" text = false).
  { unfold text. rewrite occurs_app, Hs, occurs_app.
    replace (occurs ";" (gt_text strict)) with false
      by (destruct strict; reflexivity).
    change ("c" +:+ d) with (String "c" d).
    change (occurs ";" (String "c" d)) with (false || occurs ";" d).
    rewrite Hds. reflexivity. }
  unfold parseInv. rewrite (split_char_absent _ _ Hsemi).
  cbn [parseInv_atoms].
  assert (E1 : split "c" text = [num +:+ gt_text strict; d]).
  { unfold text. rewrite <- app_assoc_string.
    change ((num +:+ gt_text strict) +:+ "c" +:+ d)
      with ((num +:+ gt_text strict) +:+ String "c" "" +:+ d).
    rewrite (split_first "c" "" _ d Hhead), (split_char_absent _ _ Hdc).
    reflexivity. }
  rewrite E1. cbn [lookup list_lookup or_raise mbind result_bind].
  destruct (k =? k')%nat eqn:Ek.
  - apply Nat.eqb_eq in Ek. subst k'. fold d. rewrite String.eqb_refl.
    assert (E2 : exists tl, split ">" text = num :: tl).
    { unfold text. destruct strict; eexists;
        exact (split_first ">" "" num _ Hg). }
    destruct E2 as (tl & ->).
    cbn [lookup list_lookup or_raise mbind result_bind].
    rewrite Hq. reflexivity.
  - apply Nat.eqb_neq in Ek.
    destruct (String.eqb d (str (k' + 1))) eqn:E.
    + apply String.eqb_eq in E. apply str_inj in E. lia.
    + reflexivity.
Qed.

(** X19.  A textual invariant in which the letter [c] does not occur,
    such as the text [1], makes [parseInv] raise [IndexError], for every
    clock and step. *)
Theorem invariant_without_clock_raises pos p (k : nat) (text : string) :
  occurs "c" text = false ->
  parseInv float (InvStr text) k pos p = Raise IndexError.
Proof.
  intros Hc. unfold parseInv.
  destruct (split ";" text) as [|inv rest] eqn:E.
  - exfalso. apply (split_go_not_nil ";" text 0%nat). exact E.
  - assert (Hinv : occurs "c" inv = false).
    { apply (split_go_occurs "c" ";" text 0%nat inv Hc).
      unfold split in E. rewrite E. left. reflexivity. }
    cbn [parseInv_atoms]. rewrite (split_char_absent _ _ Hinv). reflexivity.
Qed.

End GuardSyntax.

Lemma guard_atom_translation_witness :
  translate_guard float_of_numeral 1 ["c1>=5"] 2 Faulty
  = Ok [RCmp Cge (clockValue Faulty 0 2) (RConst 5)]
  /\ translate_guard float_of_numeral 1 ["5>=c1"] 2 Faulty
     = Ok [RCmp Cle (clockValue Faulty 0 2) (RConst 5)].
Proof.
  refine (guard_atom_translation float_of_numeral 1 2 Faulty 0 false "5" 5
            _ _ _ _).
  - reflexivity.
  - discriminate.
  - reflexivity.
  - lia.
Defined.

Lemma guard_two_sided_atom_witness :
  translate_guard float_of_numeral 2 ["7>c2>=3"] 1 Normal
  = Ok [ RCmp Clt (clockValue Normal 1 1) (RConst 7);
         RCmp Cge (clockValue Normal 1 1) (RConst 3) ].
Proof.
  refine (guard_two_sided_atom float_of_numeral 2 1 Normal 1 true false
            "7" "3" 7 3 _ _ _ _ _ _).
  - reflexivity.
  - discriminate.
  - reflexivity.
  - reflexivity.
  - reflexivity.
  - lia.
Defined.

Lemma guard_without_gt_is_dropped_witness :
  parseConstraints ["c1<=5"; "c1=2"] = Ok []
  /\ translate_guard float_of_numeral 1 ["c1<=5"; "c1=2"] 0 Faulty = Ok [].
Proof.
  refine (guard_without_gt_is_dropped float_of_numeral 1 0 Faulty
            ["c1<=5"; "c1=2"] _).
  repeat constructor.
  - exists "1<=5". repeat split; reflexivity.
  - exists "1=2". repeat split; reflexivity.
Defined.

Lemma guard_on_undeclared_clock_is_dropped_witness :
  translate_guard float_of_numeral 1 ["c2>=5"] 0 Faulty = Ok [].
Proof.
  refine (guard_on_undeclared_clock_is_dropped float_of_numeral 1 0 Faulty 1
            false "5" 5 _ _ _).
  - reflexivity.
  - reflexivity.
  - lia.
Defined.

Lemma invariant_atom_translation_witness :
  parseInv float_of_numeral (InvStr "5>=c1") 0 3 Normal
  = Ok (RCmp Cle (clockValue Normal 0 3) (RConst 5))
  /\ parseInv float_of_numeral (InvInt 1) 0 3 Normal = Ok (BConst true).
Proof.
  refine (invariant_atom_translation float_of_numeral 3 Normal 0 0 false
            "5" 5 _ _).
  - reflexivity.
  - reflexivity.
Defined.

Lemma invariant_without_clock_raises_witness :
  parseInv float_of_numeral (InvStr "1") 0 0 Faulty = Raise IndexError.
Proof.
  refine (invariant_without_clock_raises float_of_numeral 0 Faulty 0 "1" _).
  reflexivity.
Defined.

(* ===================================================================== *)
(** ** The automaton                                                      *)
(* ===================================================================== *)

Lemma addState_well_formed a k inv :
  well_formed a -> well_formed (addState a k inv).
Proof.
  intros (Hid & Htr & Hmax). unfold well_formed, addState. simpl.
  destruct (mapState a !! k) as [q0|] eqn:Ek.
  - split; [exact Hid|]. split; [exact Htr|].
    intros k' q Hq. apply Hmax in Hq.
    destruct (maxLabel a <? k) eqn:E; [apply Z.ltb_lt in E|]; lia.
  - split; [|split].
    + intros k' q Hq. destruct (decide (k' = k)) as [->|Hne].
      * rewrite lookup_insert_eq in Hq. injection Hq as <-. reflexivity.
      * rewrite lookup_insert_ne in Hq by congruence. apply (Hid _ _ Hq).
    + intros t Ht. destruct (Htr t Ht) as [H1 H2].
      split; (rewrite lookup_insert_ne; [assumption|]);
        intros E; rewrite <- E in *; congruence.
    + intros k' q Hq. destruct (decide (k' = k)) as [->|Hne].
      * destruct (maxLabel a <? k) eqn:E; [lia|apply Z.ltb_ge in E; lia].
      * rewrite lookup_insert_ne in Hq by congruence. apply Hmax in Hq.
        destruct (maxLabel a <? k) eqn:E; [apply Z.ltb_lt in E|]; lia.
Qed.

Lemma appendTransition_well_formed a sourceId finalId ev g resetList a' :
  well_formed a ->
  appendTransition a sourceId finalId ev g resetList = Ok a' ->
  well_formed a'.
Proof.
  intros (Hid & Htr & Hmax) H. unfold appendTransition in H.
  inv_ok H. inv_ok Hb. injection Hbb as <-.
  apply or_raise_Ok in Ha, Hba.
  unfold well_formed. simpl. split; [exact Hid|]. split; [|exact Hmax].
  intros t Ht. apply in_app_iff in Ht as [Ht|[<-|[]]]; [apply Htr, Ht|].
  simpl. rewrite (Hid _ _ Ha), (Hid _ _ Hba). auto.
Qed.

(** The states after [addState]: an id already present keeps its state,
    and with it its invariant. *)
Lemma addState_lookup a k inv k' :
  mapState (addState a k inv) !! k'
  = match mapState a !! k' with
    | Some q => Some q
    | None => if decide (k' = k) then Some (mkState k inv) else None
    end.
Proof.
  unfold addState. cbn [mapState].
  destruct (mapState a !! k) as [q0|] eqn:Ek.
  - destruct (mapState a !! k') as [q|] eqn:Ek'; [reflexivity|].
    destruct (decide (k' = k)) as [->|Hne]; [congruence|reflexivity].
  - destruct (decide (k' = k)) as [->|Hne].
    + rewrite lookup_insert_eq, Ek. reflexivity.
    + rewrite lookup_insert_ne by congruence.
      destruct (mapState a !! k'); reflexivity.
Qed.

(** [appendTransition] right after the two states were added cannot
    fail. *)
Lemma appendTransition_after_addState a sourceId finalId i1 i2 ev g rs :
  exists a',
    appendTransition (addState (addState a sourceId i1) finalId i2)
      sourceId finalId ev g rs = Ok a'.
Proof.
  unfold appendTransition.
  assert (H2 : is_Some (mapState (addState (addState a sourceId i1) finalId i2)
                          !! sourceId)).
  { rewrite !addState_lookup. destruct (mapState a !! sourceId); [eauto|].
    rewrite decide_True by reflexivity. eauto. }
  assert (H3 : is_Some (mapState (addState (addState a sourceId i1) finalId i2)
                          !! finalId)).
  { rewrite !addState_lookup. destruct (mapState a !! finalId); [eauto|].
    destruct (decide (finalId = sourceId)); [eauto|].
    rewrite decide_True by reflexivity. eauto. }
  destruct H2 as [q1 ->]. destruct H3 as [q2 ->]. simpl. eauto.
Qed.

(** [Automaton.__init__] never raises; it leaves the state [-1] and the
    self-loop on it. *)
Lemma Automaton_init_spec i n u o d :
  exists a,
    Automaton_init i n u o d = Ok a
    /\ well_formed a
    /\ mapState a = {[ (-1) := mkState (-1) (InvInt 1) ]}
    /\ transitionList a
       = [mkTransition (mkState (-1) (InvInt 1)) (mkState (-1) (InvInt 1)) 0
            (map (fun i => "c" +:+ str (i + 1) +:+ ">=0") (range n)) []]
    /\ initialStateId a = i /\ clockNum a = n /\ maxLabel a = -1
    /\ invariantDict a = d.
Proof.
  unfold Automaton_init, appendTransition, addState. simpl.
  rewrite lookup_empty. simpl. rewrite lookup_insert_eq. simpl.
  eexists. split; [reflexivity|]. simpl.
  split; [|repeat split; reflexivity].
  unfold well_formed. simpl. split; [|split].
  - intros k q Hq. destruct (decide (k = -1)) as [->|Hne].
    + rewrite lookup_insert_eq in Hq. injection Hq as <-. reflexivity.
    + rewrite lookup_insert_ne in Hq by congruence.
      rewrite lookup_empty in Hq. discriminate.
  - intros t [<-|[]]. simpl. rewrite lookup_insert_eq. auto.
  - intros k q Hq. destruct (decide (k = -1)) as [->|Hne]; [lia|].
    rewrite lookup_insert_ne in Hq by congruence.
    rewrite lookup_empty in Hq. discriminate.
Qed.

(* ===================================================================== *)
(** ** The parser                                                         *)
(* ===================================================================== *)

Section ParserFacts.

Variable int_of_str : string -> result Z.

Lemma invariant_at_Ok il k inv :
  Parser.invariant_at il k = Ok inv -> In inv il.
Proof.
  unfold Parser.invariant_at. intros H. inv_ok H.
  apply or_raise_Ok in Hb.
  apply list_elem_of_In. eapply list_elem_of_lookup_2, Hb.
Qed.

(** What [_add_transitions_to_automaton] builds. *)
Lemma add_transitions_spec il : forall ts a a',
  well_formed a ->
  Parser._add_transitions_to_automaton a ts il = Ok a' ->
  well_formed a'
  /\ initialStateId a' = initialStateId a
  /\ clockNum a' = clockNum a
  /\ (exists new,
        transitionList a' = transitionList a ++ new
        /\ Forall2 built_from ts new)
  /\ (forall k, is_Some (mapState a' !! k)
                <-> is_Some (mapState a !! k) \/ mentioned ts k)
  /\ (forall k q, mapState a !! k = Some q -> mapState a' !! k = Some q)
  /\ (forall k q, mapState a' !! k = Some q ->
        mapState a !! k = Some q
        \/ Parser.invariant_at il k = Ok (invariant q)).
Proof.
  induction ts as [|t ts IH]; intros a a' Hwf H; simpl in H.
  - injection H as <-. split; [exact Hwf|]. split; [reflexivity|].
    split; [reflexivity|]. split.
    + exists []. rewrite app_nil_r. split; [reflexivity|constructor].
    + split; [|split; [auto|auto]].
      intros k. split; [auto|]. intros [Hk|(t & [] & _)]. exact Hk.
  - inv_ok H. inv_ok Hb. inv_ok Hbb. rename x into si, x0 into ti, x1 into a1.
    set (a0 := addState (addState a (p_source t) si) (p_target t) ti) in *.
    assert (Hwf0 : well_formed a0)
      by (apply addState_well_formed, addState_well_formed, Hwf).
    pose proof (appendTransition_well_formed _ _ _ _ _ _ _ Hwf0 Hbba) as Hwf1.
    pose proof Hbba as Happ.
    apply appendTransition_spec in Happ
      as (src & tgt & Htl & Hms & Hcn & Hinit & Hml).
    assert (Hsrc : mapState a0 !! p_source t = Some src
                   /\ mapState a0 !! p_target t = Some tgt).
    { unfold appendTransition in Hbba. inv_ok Hbba. inv_ok Hbbab.
      injection Hbbabb as E. apply or_raise_Ok in Hbbaa, Hbbaba.
      rewrite <- E in Htl. simpl in Htl.
      apply app_inv_head in Htl. injection Htl as <- <-. auto. }
    destruct Hsrc as [Hsrc Htgt].
    destruct (IH a1 a' Hwf1 Hbbb)
      as (Hwf' & Hi' & Hc' & (new & Hnew & Hall) & Hdom & Hmono & Hinv).
    split; [exact Hwf'|]. split; [rewrite Hi', Hinit; reflexivity|].
    split; [rewrite Hc', Hcn; reflexivity|].
    assert (Hlook : forall k,
              mapState a1 !! k
              = match mapState a !! k with
                | Some q => Some q
                | None =>
                    if decide (k = p_source t)
                    then Some (mkState (p_source t) si)
                    else if decide (k = p_target t)
                         then Some (mkState (p_target t) ti)
                         else None
                end).
    { intros k. rewrite Hms. unfold a0. rewrite !addState_lookup.
      destruct (mapState a !! k); [reflexivity|].
      destruct (decide (k = p_source t)); reflexivity. }
    split; [|split; [|split]].
    + exists (mkTransition src tgt (p_event t) (p_guard t) (p_reset t) :: new).
      split.
      * rewrite Hnew, Htl, <- app_assoc. reflexivity.
      * constructor; [|exact Hall].
        destruct Hwf0 as (Hid & _).
        unfold built_from. simpl.
        rewrite (Hid _ _ Hsrc), (Hid _ _ Htgt). auto.
    + intros k. rewrite Hdom, Hlook. split.
      * intros [Hk|(t' & Ht' & Hk)].
        -- destruct (mapState a !! k) eqn:E; [left; eauto|].
           right. exists t. split; [left; reflexivity|].
           destruct (decide (k = p_source t)); [auto|].
           destruct (decide (k = p_target t)); [auto|].
           destruct Hk as [? Hk]. discriminate.
        -- right. exists t'. split; [right; exact Ht'|exact Hk].
      * intros [Hk|(t' & [<-|Ht'] & Hk)].
        -- left. destruct Hk as [q ->]. eauto.
        -- left. destruct (mapState a !! k); [eauto|].
           destruct Hk as [->| ->].
           ++ rewrite decide_True by reflexivity. eauto.
           ++ destruct (decide (p_target t = p_source t)); [eauto|].
              rewrite decide_True by reflexivity. eauto.
        -- right. exists t'. auto.
    + intros k q Hq. apply Hmono. rewrite Hlook, Hq. reflexivity.
    + intros k q Hq. destruct (Hinv k q Hq) as [H1|H1]; [|right; exact H1].
      rewrite Hlook in H1. destruct (mapState a !! k) as [q0|] eqn:E.
      * left. exact H1.
      * right. destruct (decide (k = p_source t)) as [->|].
        -- injection H1 as <-. exact Ha.
        -- destruct (decide (k = p_target t)) as [->|]; [|discriminate].
           injection H1 as <-. exact Hba.
Qed.

(** [_add_transitions_to_automaton] never fails an assertion: it
    succeeds as soon as the invariants of the mentioned states can be
    read. *)
Lemma add_transitions_total il : forall ts a,
  (forall t, In t ts ->
     is_Some (index (length il) (p_source t))
     /\ is_Some (index (length il) (p_target t))) ->
  exists a', Parser._add_transitions_to_automaton a ts il = Ok a'.
Proof.
  assert (Hat : forall k, is_Some (index (length il) k) ->
                  exists inv, Parser.invariant_at il k = Ok inv).
  { intros k [i Hi]. unfold Parser.invariant_at. rewrite Hi. simpl.
    assert (Hlt : (i < length il)%nat).
    { unfold index in Hi.
      destruct ((0 <=? k) && (k <? Z.of_nat (length il))) eqn:E1.
      - injection Hi as <-. apply andb_true_iff in E1 as [E1 E2].
        apply Z.leb_le in E1. apply Z.ltb_lt in E2. lia.
      - destruct ((- Z.of_nat (length il) <=? k) && (k <? 0)) eqn:E2;
          [|discriminate].
        injection Hi as <-. apply andb_true_iff in E2 as [E2 E3].
        apply Z.leb_le in E2. apply Z.ltb_lt in E3. lia. }
    destruct (lookup_lt_is_Some_2 il i Hlt) as [inv ->]. simpl. eauto. }
  induction ts as [|t ts IH]; intros a Hts; simpl; [eauto|].
  destruct (Hts t (or_introl eq_refl)) as [Hs Ht].
  destruct (Hat _ Hs) as (si & ->). destruct (Hat _ Ht) as (ti & ->).
  simpl.
  destruct (appendTransition_after_addState a (p_source t) (p_target t)
              si ti (p_event t) (p_guard t) (p_reset t)) as (a1 & ->).
  simpl. apply IH. intros t' Ht'. apply Hts. right. exact Ht'.
Qed.

End ParserFacts.

Section ParseFacts.

Variable int_of_str : string -> result Z.

(** The self-loop [Automaton.__init__] creates. *)
Lemma parse_inv context a bound delta :
  Parser.parse int_of_str context = Ok (a, bound, delta) ->
  exists header_line i evd clocks ts evd' maxstate il idict a0,
    context !! 0%nat = Some header_line
    /\ Parser._parse_header int_of_str header_line
       = Ok (i, bound, delta, evd, clocks)
    /\ Parser._parse_transitions int_of_str (drop 1 context) i evd
       = Ok (ts, evd')
    /\ Parser._get_max_state ts = Ok maxstate
    /\ Parser._parse_invariants int_of_str context maxstate = Ok (il, idict)
    /\ Automaton_init i (length clocks) (Z.of_nat (size evd') - 3)
         (Z.of_nat (size evd') - 2) idict = Ok a0
    /\ Parser._add_transitions_to_automaton a0 ts il = Ok a.
Proof.
  unfold Parser.parse. intros H.
  inv_ok H. apply or_raise_Ok in Ha. inv_ok Hb.
  destruct x0 as [[[[i b] d] evd] clocks]. inv_ok Hbb.
  destruct x0 as [ts evd']. inv_ok Hbbb. inv_ok Hbbbb.
  destruct x1 as [il idict]. inv_ok Hbbbbb. inv_ok Hbbbbbb.
  injection Hbbbbbbb as <- <- <-.
  exists x, i, evd, clocks, ts, evd', x0, il, idict, x1. auto 10.
Qed.

(** X20.  What [parse] builds.  When [parse] returns, the automaton is
    well formed; its [initialStateId] is the number the header gives
    (while the state ids of the transition lines were shifted by it), its
    number of clocks is the length of the header's clock list; its
    transition list is the self-loop of the constructor followed by one
    transition per parsed line, in the order of the file, with the ids,
    event, guard and reset list of the line; its states are [-1] and the
    states the lines mention; and the invariant of a mentioned state is
    the entry of [invariantsList] at its (shifted) id. *)
Theorem parse_builds_automaton context a bound delta :
  Parser.parse int_of_str context = Ok (a, bound, delta) ->
  exists header_line i evd clocks ts evd' maxstate il idict,
    context !! 0%nat = Some header_line
    /\ Parser._parse_header int_of_str header_line
       = Ok (i, bound, delta, evd, clocks)
    /\ Parser._parse_transitions int_of_str (drop 1 context) i evd
       = Ok (ts, evd')
    /\ Parser._get_max_state ts = Ok maxstate
    /\ Parser._parse_invariants int_of_str context maxstate = Ok (il, idict)
    /\ well_formed a
    /\ initialStateId a = i
    /\ clockNum a = length clocks
    /\ (exists new,
          transitionList a
          = mkTransition (mkState (-1) (InvInt 1)) (mkState (-1) (InvInt 1)) 0
              (map (fun i => "c" +:+ str (i + 1) +:+ ">=0")
                 (range (length clocks))) []
            :: new
          /\ Forall2 built_from ts new)
    /\ (forall k, is_Some (mapState a !! k) <-> k = -1 \/ mentioned ts k)
    /\ (forall k q, mapState a !! k = Some q ->
          q = mkState (-1) (InvInt 1)
          \/ Parser.invariant_at il k = Ok (invariant q)).
Proof.
  intros H. apply parse_inv in H
    as (header_line & i & evd & clocks & ts & evd' & maxstate & il & idict
        & a0 & H0 & Hh & Hts & Hmax & Hinv & Ha0 & Hadd).
  destruct (Automaton_init_spec i (length clocks) (Z.of_nat (size evd') - 3)
              (Z.of_nat (size evd') - 2) idict)
    as (a0' & Ha0' & Hwf0 & Hms0 & Htl0 & Hi0 & Hc0 & _).
  rewrite Ha0 in Ha0'. injection Ha0' as <-.
  destruct (add_transitions_spec il ts a0 a Hwf0 Hadd)
    as (Hwf & Hi & Hc & (new & Hnew & Hall) & Hdom & Hmono & Hinvs).
  exists header_line, i, evd, clocks, ts, evd', maxstate, il, idict.
  do 5 (split; [assumption|]).
  split; [exact Hwf|]. split; [congruence|]. split; [congruence|].
  split; [|split].
  - exists new. rewrite Hnew, Htl0. split; [reflexivity|exact Hall].
  - intros k. rewrite Hdom, Hms0. split.
    + intros [[q Hq]|Hk]; [left|right; exact Hk].
      destruct (decide (k = -1)) as [->|Hne]; [reflexivity|].
      rewrite lookup_singleton_ne in Hq by congruence. discriminate.
    + intros [->|Hk]; [left|right; exact Hk].
      rewrite lookup_singleton_eq. eauto.
  - intros k q Hq. destruct (Hinvs k q Hq) as [H1|H1]; [left|right; exact H1].
    rewrite Hms0 in H1. destruct (decide (k = -1)) as [->|Hne].
    + rewrite lookup_singleton_eq in H1. congruence.
    + rewrite lookup_singleton_ne in H1 by congruence. discriminate.
Qed.

(** X21.  A file without transitions is rejected.  When the header
    parses and the transition section is empty (the file ends after the
    header, or the header is followed by an empty line), [parse] raises
    the [ValueError] of [max] on an empty sequence. *)
Theorem parse_rejects_empty_transition_section context header_line hd :
  context !! 0%nat = Some header_line ->
  Parser._parse_header int_of_str header_line = Ok hd ->
  drop 1 context = [] \/ (exists rest, drop 1 context = newline :: rest) ->
  Parser.parse int_of_str context = Raise ValueError.
Proof.
  intros H0 Hh Hlines. unfold Parser.parse. rewrite H0. simpl.
  rewrite Hh. simpl. destruct hd as [[[[i b] d] evd] clocks].
  destruct Hlines as [->|(rest & ->)]; reflexivity.
Qed.

End ParseFacts.

Lemma parse_builds_automaton_witness :
  exists header_line i evd clocks ts evd' maxstate il idict,
    fault_file !! 0%nat = Some header_line
    /\ Parser._parse_header int_of_numeral header_line
       = Ok (i, 2, 3, evd, clocks)
    /\ Parser._parse_transitions int_of_numeral (drop 1 fault_file) i evd
       = Ok (ts, evd')
    /\ Parser._get_max_state ts = Ok maxstate
    /\ Parser._parse_invariants int_of_numeral fault_file maxstate
       = Ok (il, idict)
    /\ well_formed fault_automaton
    /\ initialStateId fault_automaton = i
    /\ clockNum fault_automaton = length clocks
    /\ (exists new,
          transitionList fault_automaton
          = mkTransition (mkState (-1) (InvInt 1)) (mkState (-1) (InvInt 1)) 0
              (map (fun i => "c" +:+ str (i + 1) +:+ ">=0")
                 (range (length clocks))) []
            :: new
          /\ Forall2 built_from ts new)
    /\ (forall k, is_Some (mapState fault_automaton !! k)
                  <-> k = -1 \/ mentioned ts k)
    /\ (forall k q, mapState fault_automaton !! k = Some q ->
          q = mkState (-1) (InvInt 1)
          \/ Parser.invariant_at il k = Ok (invariant q)).
Proof.
  refine (parse_builds_automaton int_of_numeral fault_file fault_automaton
            2 3 _).
  vm_compute. reflexivity.
Defined.

Lemma parse_rejects_empty_transition_section_witness :
  Parser.parse int_of_numeral
    [ "Initial_state 0 BOUND 2 DELTA 3 {a} {u} Clocks {c1}" +:+ newline;
      newline; "invariant:" +:+ newline ]
  = Raise ValueError.
Proof.
  refine (parse_rejects_empty_transition_section int_of_numeral _ _ _ _ _ _).
  - reflexivity.
  - vm_compute. reflexivity.
  - right. eexists. reflexivity.
Defined.

(* ===================================================================== *)
(** ** From the automaton to the encoder                                  *)
(* ===================================================================== *)

Section InitFacts.

Variable float : string -> result Q.

(** The start transition [setup_transitions] appends leaves a fresh
    state and enters the state of id 0; the state [getInitialState]
    returns afterwards is the one of id [initialStateId]. *)
Lemma setup_transitions_start st st' :
  well_formed (automaton st) ->
  initState st = 0 ->
  setup_transitions st = Ok st' ->
  exists start q,
    transitionList (automaton st')
    = transitionList (automaton st) ++ [start]
    /\ id_state (getSourceState start) = maxLabel (automaton st) + 1
    /\ mapState (automaton st) !! (maxLabel (automaton st) + 1) = None
    /\ id_state (getFinalState start) = 0
    /\ getEventId start = NO_OBS
    /\ getInitialState (automaton st') = Ok q
    /\ id_state q = initialStateId (automaton st)
    /\ well_formed (automaton st').
Proof.
  intros Hwf Hinit H. unfold setup_transitions in H.
  inv_ok H. inv_ok Hb. inv_ok Hbb. injection Hbbb as <-. simpl.
  rename x into a2, x0 into q.
  set (a := automaton st) in *.
  set (a1 := addState a (getMaxStateLabel a + 1) (InvInt 1)) in *.
  assert (Hwf1 : well_formed a1) by (apply addState_well_formed, Hwf).
  pose proof (appendTransition_well_formed _ _ _ _ _ _ _ Hwf1 Ha) as Hwf2.
  assert (Hfresh : mapState a !! (maxLabel a + 1) = None).
  { destruct (mapState a !! (maxLabel a + 1)) as [q0|] eqn:E; [|reflexivity].
    destruct Hwf as (_ & _ & Hmax). apply Hmax in E. lia. }
  pose proof Ha as Happ. unfold appendTransition in Happ.
  inv_ok Happ. inv_ok Happb. injection Happbb as E.
  apply or_raise_Ok in Happa, Happba.
  rename x into src, x0 into tgt.
  exists (mkTransition src tgt 2
            (map (fun i => "c" +:+ str (i + 1) +:+ "=0") (range (clockNum a1)))
            (map Z.of_nat (range (clockNum a1)))), q.
  destruct Hwf1 as (Hid1 & _).
  split; [rewrite <- E; reflexivity|].
  split; [apply (Hid1 _ _ Happa)|]. split; [exact Hfresh|].
  split; [rewrite <- Hinit; apply (Hid1 _ _ Happba)|].
  split; [reflexivity|]. split; [exact Hba|].
  split; [|exact Hwf2].
  unfold getInitialState in Hba. apply or_raise_Ok in Hba.
  destruct Hwf2 as (Hid2 & _). rewrite (Hid2 _ _ Hba).
  rewrite <- E. reflexivity.
Qed.

Lemma Z3Model_init_automaton a bound delta st :
  Z3Model_init float a bound delta = Ok st ->
  exists st1,
    setup_transitions (blank_model a bound delta) = Ok st1
    /\ automaton st = automaton st1.
Proof.
  intros Hinit. unfold Z3Model_init in Hinit. inv_ok Hinit.
  exists x. split; [exact Hinita|].
  unfold add_initial_constraints in Hinitb. inv_ok Hinitb.
  apply addConstraintOnIdTransition_spec in Hinitbb
    as (_ & _ & _ & _ & _ & _ & _ & _ & _ & Htab & _).
  pose proof Htab as (Ea & _). exact Ea.
Qed.

(** X22.  What [Z3Model.__init__] rejects before it encodes anything.
    With [a1] the automaton after the fresh start state was added:
    [AssertionError] when there is no state of id 0, the target of the
    start transition; otherwise [KeyError] when there is no state of id
    [initialStateId]; otherwise [IndexError] when the reset list of some
    transition holds a number that is no index of the [clockNum] clocks
    (Python's negative indices included). *)
Theorem Z3Model_init_rejects a bound delta :
  let a1 := addState a (maxLabel a + 1) (InvInt 1) in
  (mapState a1 !! 0 = None ->
   Z3Model_init float a bound delta = Raise AssertionError)
  /\ (is_Some (mapState a1 !! 0) ->
      mapState a1 !! initialStateId a = None ->
      Z3Model_init float a bound delta = Raise KeyError)
  /\ (is_Some (mapState a1 !! 0) ->
      is_Some (mapState a1 !! initialStateId a) ->
      (exists t z, In t (transitionList a) /\ In z (getResetList t)
                   /\ index (clockNum a) z = None) ->
      Z3Model_init float a bound delta = Raise IndexError).
Proof.
  intros a1.
  assert (Hnew : is_Some (mapState a1 !! (maxLabel a + 1))).
  { unfold a1. rewrite addState_lookup.
    destruct (mapState a !! (maxLabel a + 1)); [eauto|].
    rewrite decide_True by reflexivity. eauto. }
  destruct Hnew as [src Hsrc].
  unfold Z3Model_init, setup_transitions. cbn [automaton initState].
  unfold getMaxStateLabel. fold a1. unfold appendTransition.
  rewrite Hsrc. cbn [or_raise mbind result_bind].
  split; [|split].
  - intros ->. reflexivity.
  - intros [tgt ->] Hi. cbn [or_raise mbind result_bind].
    unfold getInitialState. cbn [mapState initialStateId].
    replace (initialStateId a1) with (initialStateId a) by reflexivity.
    rewrite Hi. reflexivity.
  - intros [tgt ->] [q Hq] (t & z & Ht & Hz & Hbad).
    cbn [or_raise mbind result_bind].
    unfold getInitialState. cbn [mapState initialStateId].
    replace (initialStateId a1) with (initialStateId a) by reflexivity.
    rewrite Hq. cbn [or_raise mbind result_bind].
    unfold reset_indices_ok, getTransitionList. cbn [transitionList clockNum].
    replace (transitionList a1) with (transitionList a) by reflexivity.
    replace (clockNum a1) with (clockNum a) by reflexivity.
    rewrite forallb_app.
    assert (Hf : forallb (fun t0 =>
                   forallb (fun c => bool_decide (is_Some (index (clockNum a) c)))
                     (getResetList t0)) (transitionList a) = false).
    { apply not_true_is_false. intros Hall.
      rewrite forallb_forall in Hall. specialize (Hall t Ht).
      rewrite forallb_forall in Hall. specialize (Hall z Hz).
      apply bool_decide_eq_true in Hall. rewrite Hbad in Hall.
      destruct Hall as [? Hall]. discriminate. }
    rewrite Hf. reflexivity.
Qed.

End InitFacts.

(* ===================================================================== *)
(** ** The lines of the file                                              *)
(* ===================================================================== *)

Lemma is_space_not_digit c : is_space c = true -> digit c = false.
Proof.
  destruct c as [[] [] [] [] [] [] [] []]; vm_compute; congruence.
Qed.

Lemma rstrip_app_newline x : rstrip (x +:+ newline) = rstrip x.
Proof.
  induction x as [|c x IH]; [reflexivity|].
  change (String c x +:+ newline) with (String c (x +:+ newline)).
  cbn [rstrip]. rewrite IH. reflexivity.
Qed.

Lemma rstrip_no_space x :
  (forall c, is_space c = true -> occurs c x = false) -> rstrip x = x.
Proof.
  induction x as [|a x IH]; intros H; [reflexivity|].
  cbn [rstrip]. rewrite IH.
  - destruct x; [|reflexivity].
    destruct (is_space a) eqn:E; [|reflexivity].
    specialize (H a E). cbn [occurs] in H. rewrite Ascii.eqb_refl in H.
    discriminate.
  - intros c Hc. specialize (H c Hc). cbn [occurs] in H.
    apply orb_false_iff in H as [_ H]. exact H.
Qed.

Lemma lstrip_no_space x :
  (forall c, is_space c = true -> occurs c x = false) -> lstrip x = x.
Proof.
  destruct x as [|a x]; intros H; [reflexivity|].
  cbn [lstrip]. destruct (is_space a) eqn:E; [|reflexivity].
  specialize (H a E). cbn [occurs] in H. rewrite Ascii.eqb_refl in H.
  discriminate.
Qed.

(** [strip] removes the line feed that ends a line. *)
Lemma strip_line x :
  (forall c, is_space c = true -> occurs c x = false) ->
  strip (x +:+ newline) = x.
Proof.
  intros H. unfold strip.
  rewrite rstrip_app_newline, (rstrip_no_space x H). apply lstrip_no_space, H.
Qed.

Lemma join_cons sep x y rest :
  join sep (x :: y :: rest) = x +:+ sep +:+ join sep (y :: rest).
Proof. reflexivity. Qed.

(** Splitting what was joined gives the items back. *)
Lemma split_join c items :
  items <> [] ->
  (forall x, In x items -> occurs c x = false) ->
  split (String c EmptyString) (join (String c EmptyString) items) = items.
Proof.
  induction items as [|x items IH]; intros Hne Hc; [contradiction|].
  destruct items as [|y items].
  - simpl. apply split_char_absent, Hc. left. reflexivity.
  - rewrite join_cons.
    rewrite (split_first c "" x _ (Hc x (or_introl eq_refl))).
    rewrite IH; [reflexivity|discriminate|].
    intros z Hz. apply Hc. right. exact Hz.
Qed.

Lemma occurs_join c sep items :
  occurs c sep = false ->
  (forall x, In x items -> occurs c x = false) ->
  occurs c (join sep items) = false.
Proof.
  intros Hsep. induction items as [|x items IH]; intros Hc; [reflexivity|].
  destruct items as [|y items].
  - apply Hc. left. reflexivity.
  - rewrite join_cons, !occurs_app, Hsep, (Hc x (or_introl eq_refl)).
    rewrite IH; [reflexivity|]. intros z Hz. apply Hc. right. exact Hz.
Qed.

(** No character other than [c], [;] and the digits occurs in the reset
    field. *)
Lemma occurs_reset_text c ns :
  digit c = false -> Ascii.eqb c "c" = false -> Ascii.eqb c ";" = false ->
  occurs c (reset_text ns) = false.
Proof.
  intros Hd Hc Hs. destruct ns as [|n ns].
  - simpl. unfold digit in Hd.
    repeat (apply orb_false_iff in Hd as [Hd ?]). rewrite Hd. reflexivity.
  - unfold reset_text. apply occurs_join.
    + cbn [occurs]. rewrite Hs. reflexivity.
    + intros x Hx. apply in_map_iff in Hx as (k & <- & _).
      change ("c" +:+ str k) with (String "c" (str k)).
      cbn [occurs]. rewrite Hc. apply str_digits, Hd.
Qed.

Section LineFacts.

Variable int_of_str : string -> result Z.

(** The reset field read back. *)
Lemma reset_list_text ns :
  (forall n : nat, int_of_str (str n) = Ok (Z.of_nat n)) ->
  Parser.reset_list int_of_str (reset_text ns)
  = Ok (map (fun n => Z.of_nat n - 1) ns).
Proof.
  intros Hint. destruct ns as [|n ns]; [reflexivity|].
  unfold Parser.reset_list.
  assert (E : String.eqb (reset_text (n :: ns)) "0" = false).
  { unfold reset_text. destruct ns as [|n' ns]; reflexivity. }
  rewrite E. unfold reset_text.
  rewrite split_join.
  - generalize (n :: ns). intros l. induction l as [|k l IH]; [reflexivity|].
    cbn [map for_each tail_string].
    change (tail_string ("c" +:+ str k)) with (str k).
    rewrite Hint. cbn [mbind result_bind]. rewrite IH. reflexivity.
  - discriminate.
  - intros x Hx. apply in_map_iff in Hx as (k & <- & _).
    change ("c" +:+ str k) with (String "c" (str k)).
    cbn [occurs]. apply str_digits. reflexivity.
Qed.

(** X23.  How a transition line is read.  On the line
    [s e t g r] that ends with a line feed, where [int] reads the texts
    [s] and [t] as [zs] and [zt] and the reset field [r] is [0] or the
    clocks [c<n>] joined by [;], [_parse_transition] returns the source
    [zs - initState] and the target [zt - initState], the event of [e]
    (1 for [f], the entry of the event dictionary for a declared name,
    and 0 for any other name, which thereby becomes a key), the guard
    atoms [g.split(";")] and the reset list of the numbers [n - 1]. *)
Theorem parse_transition_line (s e t g : string) (ns : list nat)
    (zs zt initState : Z) (event_dict : gmap string Z) :
  (forall n : nat, int_of_str (str n) = Ok (Z.of_nat n)) ->
  occurs " " s = false -> occurs "," s = false -> int_of_str s = Ok zs ->
  occurs " " t = false -> occurs "," t = false -> int_of_str t = Ok zt ->
  occurs " " e = false -> occurs " " g = false ->
  Parser._parse_transition int_of_str
    (s +:+ " " +:+ e +:+ " " +:+ t +:+ " " +:+ g +:+ " "
     +:+ reset_text ns +:+ newline) initState event_dict
  = Ok (mkParsed (zs - initState) (zt - initState)
          (if String.eqb e "f" then 1 else default 0 (event_dict !! e))
          (split ";" g) (map (fun n => Z.of_nat n - 1) ns),
        if String.eqb e "f" then event_dict
        else match event_dict !! e with
             | Some _ => event_dict
             | None => <[e := 0]> event_dict
             end).
Proof.
  intros Hint Hs Hsc Hzs Ht Htc Hzt He Hg.
  assert (Hr : occurs " " (reset_text ns +:+ newline) = false).
  { rewrite occurs_app, occurs_reset_text by reflexivity. reflexivity. }
  assert (Hparts :
    split " " (s +:+ " " +:+ e +:+ " " +:+ t +:+ " " +:+ g +:+ " "
               +:+ reset_text ns +:+ newline)
    = [s; e; t; g; reset_text ns +:+ newline]).
  { rewrite (split_first " " "" s _ Hs), (split_first " " "" e _ He),
      (split_first " " "" t _ Ht), (split_first " " "" g _ Hg),
      (split_char_absent _ _ Hr). reflexivity. }
  unfold Parser._parse_transition. rewrite Hparts.
  cbn [lookup list_lookup or_raise mbind result_bind].
  rewrite (split_char_absent _ _ Hsc).
  cbn [lookup list_lookup or_raise mbind result_bind]. rewrite Hzs.
  cbn [mbind result_bind].
  rewrite (split_char_absent _ _ Htc).
  cbn [lookup list_lookup or_raise mbind result_bind]. rewrite Hzt.
  cbn [mbind result_bind].
  rewrite strip_line.
  2:{ intros c Hc. apply occurs_reset_text.
      - apply is_space_not_digit, Hc.
      - destruct (Ascii.eqb c "c") eqn:E; [|reflexivity].
        apply Ascii.eqb_eq in E. subst c. discriminate.
      - destruct (Ascii.eqb c ";") eqn:E; [|reflexivity].
        apply Ascii.eqb_eq in E. subst c. discriminate. }
  rewrite (reset_list_text ns Hint).
  unfold Parser.event_of.
  destruct (String.eqb e "f"); [reflexivity|].
  destruct (event_dict !! e); reflexivity.
Qed.

End LineFacts.

Lemma parse_transition_line_witness :
  Parser._parse_transition int_of_numeral
    ("3" +:+ " " +:+ "f" +:+ " " +:+ "4" +:+ " " +:+ "c1>=2;5>=c2" +:+ " "
     +:+ reset_text [1%nat; 2%nat] +:+ newline) 3 ∅
  = Ok (mkParsed (3 - 3) (4 - 3) 1 ["c1>=2"; "5>=c2"] [1 - 1; 2 - 1], ∅).
Proof.
  refine (parse_transition_line int_of_numeral "3" "f" "4" "c1>=2;5>=c2"
            [1%nat; 2%nat] 3 4 3 ∅ _ _ _ _ _ _ _ _ _).
  - intros n. unfold int_of_numeral, str.
    rewrite (NilZero.usu _ (to_uint_not_Nil n)), Unsigned.of_to. reflexivity.
  - reflexivity.
  - reflexivity.
  - reflexivity.
  - reflexivity.
  - reflexivity.
  - reflexivity.
  - reflexivity.
  - reflexivity.
Defined.

Section FileFacts.

Variable int_of_str : string -> result Z.
Variable float : string -> result Q.

(** X24.  The initial state is not shifted.  [_parse_transition]
    subtracts the header's [Initial_state] from every state id of the
    file, so the file's initial state becomes the state 0, which the
    start transition of the encoder enters; but the automaton keeps the
    unshifted number as its [initialStateId], and the transitions that
    may follow the start transition are those that leave the state of
    that id.  When [Z3Model.__init__] succeeds on a file whose header
    gives [Initial_state i], the start transition (at the index after the
    transitions of the parsed automaton) leaves a fresh state and enters
    the state of id 0, while [getInitialState] returns the state of id
    [i]. *)
Theorem initial_state_is_not_shifted context st :
  Z3Model_of_file int_of_str float context = Ok st ->
  exists a bound delta header_line i evd clocks start q,
    Parser.parse int_of_str context = Ok (a, bound, delta)
    /\ context !! 0%nat = Some header_line
    /\ Parser._parse_header int_of_str header_line
       = Ok (i, bound, delta, evd, clocks)
    /\ transitionList (automaton st) !! getNbTransition a = Some start
    /\ id_state (getSourceState start) = maxLabel a + 1
    /\ mapState a !! (maxLabel a + 1) = None
    /\ id_state (getFinalState start) = 0
    /\ getInitialState (automaton st) = Ok q
    /\ id_state q = i.
Proof.
  unfold Z3Model_of_file. intros H. inv_ok H.
  destruct x as [[a bound] delta].
  destruct (parse_builds_automaton int_of_str _ _ _ _ Ha)
    as (header_line & i & evd & clocks & ts & evd' & maxstate & il & idict
        & H0 & Hh & _ & _ & _ & Hwf & Hi & _).
  destruct (Z3Model_init_automaton float _ _ _ _ Hb) as (st1 & Hsetup & Hauto).
  destruct (setup_transitions_start (blank_model a bound delta) st1)
    as (start & q & Htl & Hsrc & Hfresh & Htgt & _ & Hq & Hqid & _);
    [exact Hwf|reflexivity|exact Hsetup|].
  simpl in Htl, Hsrc, Hfresh, Hqid.
  exists a, bound, delta, header_line, i, evd, clocks, start, q.
  do 3 (split; [assumption|]).
  split.
  { rewrite Hauto, Htl. unfold getNbTransition.
    rewrite lookup_app_r by lia. rewrite Nat.sub_diag. reflexivity. }
  do 3 (split; [assumption|]).
  split; [rewrite Hauto; exact Hq|congruence].
Qed.

End FileFacts.

Lemma initial_state_is_not_shifted_witness :
  exists start q,
    transitionList (automaton shifted_init) !! 3%nat = Some start
    /\ id_state (getFinalState start) = 0
    /\ getInitialState (automaton shifted_init) = Ok q
    /\ id_state q = 1.
Proof.
  destruct (initial_state_is_not_shifted int_of_numeral float_of_numeral
              shifted_file shifted_init)
    as (a & bound & delta & header_line & i & evd & clocks & start & q
        & Hparse & H0 & Hh & Hstart & _ & _ & Htgt & Hq & Hi).
  - vm_compute. reflexivity.
  - injection H0 as <-.
    assert (Ei : i = 1).
    { vm_compute in Hh. injection Hh as <- _ _ _ _. reflexivity. }
    assert (En : getNbTransition a = 3%nat).
    { vm_compute in Hparse. injection Hparse as <- _ _. reflexivity. }
    rewrite En in Hstart. rewrite Ei in Hi.
    exists start, q. auto.
Defined.

Lemma Z3Model_init_rejects_witness :
  Z3Model_init float_of_numeral (automaton_of_file file_without_state_0) 2 3
  = Raise AssertionError
  /\ Z3Model_init float_of_numeral (automaton_of_file file_from_state_5) 2 3
     = Raise KeyError
  /\ Z3Model_init float_of_numeral (automaton_of_file file_with_bad_reset) 2 3
     = Raise IndexError.
Proof.
  split; [|split].
  - refine (proj1 (Z3Model_init_rejects float_of_numeral
                     (automaton_of_file file_without_state_0) 2 3) _).
    vm_compute. reflexivity.
  - refine (proj1 (proj2 (Z3Model_init_rejects float_of_numeral
                            (automaton_of_file file_from_state_5) 2 3)) _ _).
    + vm_compute. eauto.
    + vm_compute. reflexivity.
  - refine (proj2 (proj2 (Z3Model_init_rejects float_of_numeral
                            (automaton_of_file file_with_bad_reset) 2 3))
              _ _ _).
    + vm_compute. eauto.
    + vm_compute. eauto.
    + eexists. exists 2. split; [|split; [|reflexivity]].
      * right. left. reflexivity.
      * left. reflexivity.
Defined.

Section SuccessorTable.

Variable float : string -> result Q.

(** X25.  The successor table of the encoder.  For every transition of
    the input automaton, the row [setup_transitions] builds is the row
    [getnextTransition] computes for the automaton, with the stutter
    index 0 put in front; the row of the start transition it appends is
    0 followed by the transitions that leave the initial state. *)
Theorem encoder_successor_table a bound delta st :
  Z3Model_init float a bound delta = Ok st ->
  (forall j : nat, (j < getNbTransition a)%nat ->
     nextTransition st !! j
     = (fun row => NOP_TRANSITION :: row) <$> getnextTransition a !! j)
  /\ length (nextTransition st) = S (getNbTransition a)
  /\ exists q,
       getInitialState (automaton st) = Ok q
       /\ nextTransition st !! getNbTransition a
          = Some (NOP_TRANSITION
                  :: leaving (transitionList (automaton st)) q
                       (S (getNbTransition a))).
Proof.
  intros Hinit.
  destruct (Z3Model_init_next_rows float _ _ _ _ Hinit) as (Hrows & Hstart).
  pose proof (Z3Model_init_ready float _ _ _ _ Hinit) as (_ & Hnb & Hlen & _).
  pose proof (Z3Model_init_spec float _ _ _ _ Hinit) as (Hnb' & _).
  split; [|split; [lia|exact Hstart]].
  intros j Hj.
  destruct (lookup_lt_is_Some_2 (transitionList a) j Hj) as [t Ht].
  rewrite (Hrows j t Ht). unfold getnextTransition.
  rewrite map_lookup, Ht. reflexivity.
Qed.

End SuccessorTable.

Lemma encoder_successor_table_witness :
  (forall j : nat, (j < getNbTransition fault_automaton)%nat ->
     nextTransition fault_init !! j
     = (fun row => NOP_TRANSITION :: row)
         <$> getnextTransition fault_automaton !! j)
  /\ length (nextTransition fault_init) = S (getNbTransition fault_automaton)
  /\ exists q,
       getInitialState (automaton fault_init) = Ok q
       /\ nextTransition fault_init !! getNbTransition fault_automaton
          = Some (NOP_TRANSITION
                  :: leaving (transitionList (automaton fault_init)) q
                       (S (getNbTransition fault_automaton))).
Proof.
  refine (encoder_successor_table float_of_numeral fault_automaton 2 3
            fault_init _).
  vm_compute. reflexivity.
Defined.

(* ===================================================================== *)
(** ** The suggestions after UNSAT                                        *)
(* ===================================================================== *)

Lemma startswith_occurs c sub s :
  startswith sub s = true -> occurs c sub = true -> occurs c s = true.
Proof.
  revert s. induction sub as [|a sub IH]; intros s Hs Hc; [discriminate|].
  destruct s as [|b s]; [discriminate|].
  cbn [startswith] in Hs. destruct (Ascii.eqb a b) eqn:E; [|discriminate].
  apply Ascii.eqb_eq in E. subst b.
  cbn [occurs] in *. destruct (Ascii.eqb c a); [reflexivity|].
  simpl in *. apply (IH _ Hs Hc).
Qed.

(** A text contains another only if it holds every character of it. *)
Lemma contains_occurs c sub s :
  contains sub s = true -> occurs c sub = true -> occurs c s = true.
Proof.
  induction s as [|b s IH]; intros Hs Hc.
  - cbn [contains] in Hs. rewrite orb_false_r in Hs.
    apply (startswith_occurs c sub _ Hs Hc).
  - cbn [contains] in Hs. apply orb_true_iff in Hs as [Hs|Hs].
    + apply (startswith_occurs c sub _ Hs Hc).
    + cbn [occurs]. rewrite (IH Hs Hc). apply orb_true_r.
Qed.

Lemma not_contains c sub s :
  occurs c sub = true -> occurs c s = false -> contains sub s = false.
Proof.
  intros Hc Hs. destruct (contains sub s) eqn:E; [|reflexivity].
  rewrite (contains_occurs c sub s E Hc) in Hs. discriminate.
Qed.

(** The names of the assumption literals hold none of the letters [g],
    [y], [c], [u] and [t]. *)
Lemma assumption_name_letters st n tmp_len x c :
  In (BVar x) (assumptions (AssumD n) st (map IsObservable (range tmp_len))) ->
  digit c = false ->
  negb (Ascii.eqb c "g" || Ascii.eqb c "y" || Ascii.eqb c "c"
        || Ascii.eqb c "u" || Ascii.eqb c "t")%char = false ->
  occurs c (z3_name x) = false.
Proof.
  intros Hx Hd Hc. apply negb_false_iff in Hc.
  assert (Hname : (exists k, z3_name x = "d" +:+ str k)
                  \/ (exists k, z3_name x = "b" +:+ str k)
                  \/ (exists k, z3_name x = "f" +:+ str k)
                  \/ (exists k, z3_name x = "isObservable_" +:+ str k)).
  { unfold assumptions in Hx.
    destruct Hx as [E|[E|[E|Hx]]]; try (injection E as <-; simpl; eauto 6).
    apply in_map_iff in Hx as (y & E & Hy).
    apply in_map_iff in Hy as (j & <- & _). injection E as <-.
    simpl. eauto 6. }
  repeat (apply orb_true_iff in Hc as [Hc|Hc]);
    apply Ascii.eqb_eq in Hc; subst c;
    destruct Hname as [(k & ->)|[(k & ->)|[(k & ->)|(k & ->)]]];
    rewrite occurs_app, str_digits by reflexivity; reflexivity.
Qed.

(** X26.  The suggestions [run] can print after UNSAT.  The unsat core
    of a query is a part of its assumptions, the literals [d0], [b<n>],
    [f<n>] and [isObservable_<j>]; none of their names contains one of
    the texts [suggestions_based_on_unsat_core] looks for, so for every
    such core each suggestion is the fallback [Review the constraint:]
    followed by the name: the six specific hints are never printed. *)
Theorem suggestions_are_the_fallback st n tmp_len (unsat_core : list bvar) :
  (forall x, In x unsat_core ->
     In (BVar x)
       (assumptions (AssumD n) st (map IsObservable (range tmp_len)))) ->
  suggestions_based_on_unsat_core unsat_core
  = list_to_set
      (map (fun x => "Review the constraint: " +:+ z3_name x) unsat_core).
Proof.
  intros Hcore. unfold suggestions_based_on_unsat_core. f_equal.
  apply map_ext_in. intros x Hx. specialize (Hcore x Hx).
  assert (Hg : occurs "g" (z3_name x) = false)
    by (apply (assumption_name_letters _ _ _ _ _ Hcore); reflexivity).
  assert (Hy : occurs "y" (z3_name x) = false)
    by (apply (assumption_name_letters _ _ _ _ _ Hcore); reflexivity).
  assert (Hc : occurs "c" (z3_name x) = false)
    by (apply (assumption_name_letters _ _ _ _ _ Hcore); reflexivity).
  assert (Hu : occurs "u" (z3_name x) = false)
    by (apply (assumption_name_letters _ _ _ _ _ Hcore); reflexivity).
  assert (Ht : occurs "t" (z3_name x) = false)
    by (apply (assumption_name_letters _ _ _ _ _ Hcore); reflexivity).
  unfold suggestion_of.
  rewrite (not_contains "g" "length_fp" _ eq_refl Hg),
    (not_contains "g" "length_np" _ eq_refl Hg),
    (not_contains "y" "delay_fp" _ eq_refl Hy),
    (not_contains "y" "delay_np" _ eq_refl Hy),
    (not_contains "c" "constraint_fp" _ eq_refl Hc),
    (not_contains "c" "constraint_np" _ eq_refl Hc),
    (not_contains "c" "cptFaultOccurs" _ eq_refl Hc),
    (not_contains "u" "bound" _ eq_refl Hu),
    (not_contains "t" "delta" _ eq_refl Ht).
  reflexivity.
Qed.

Lemma suggestions_are_the_fallback_witness :
  suggestions_based_on_unsat_core [AssumD 0; AssumB 0; IsObservable 1]
  = list_to_set
      (map (fun x => "Review the constraint: " +:+ z3_name x)
         [AssumD 0; AssumB 0; IsObservable 1]).
Proof.
  refine (suggestions_are_the_fallback fault_init 0 4
            [AssumD 0; AssumB 0; IsObservable 1] _).
  intros x [<-|[<-|[<-|[]]]]; simpl; auto 10.
Defined.

(* ===================================================================== *)
(** ** The checker of a model                                             *)
(* ===================================================================== *)

Section CheckModel.

Variable float : string -> result Q.

Lemma rounds_same_tables k : forall st st',
  rounds float k st = Ok st' -> same_tables st st'.
Proof.
  induction k as [|k IH]; intros st st' H; simpl in H.
  - injection H as <-. apply same_tables_refl.
  - inv_ok H. apply round_spec in Ha as (_ & _ & _ & Htab & _).
    apply IH in Hb. eapply same_tables_trans; eassumption.
Qed.

(** X27.  [checkModel] rejects every model [run] reports.  Its first
    assertion compares the label of a step, an event, with the id of the
    target state of the transition taken; at step 0 the label is
    [NO_OBS] = 2 and the transition is the start transition, whose
    target is the state of id 0.  So on every model printed for a
    well-formed automaton, [checkModel] raises [AssertionError] at step
    0 of the faulty run. *)
Theorem checkModel_rejects_reported_models a bound delta st check r m c st' :
  well_formed a ->
  Z3Model_init float a bound delta = Ok st ->
  sound check ->
  run float check st = Some r ->
  In (Print_model m c) (trace r) ->
  final r = Ok st' ->
  checkModel st' m = Raise AssertionError.
Proof.
  intros Hwf Hinit Hsound Hrun Hin Hfin.
  destruct (reported_model float _ _ _ _ _ _ _ _ Hinit Hsound Hrun Hin)
    as (st'' & n & Hfin' & Hc & Hns & Hn & _).
  rewrite Hfin in Hfin'. injection Hfin' as <-.
  destruct (reported_round float _ _ _ _ _ _ _ _ Hinit Hrun Hin)
    as (st0 & k & st2 & Hpre & Hr & _ & _ & Hfin2).
  rewrite Hfin in Hfin2. injection Hfin2 as <-.
  assert (Hauto : automaton st' = automaton st).
  { pose proof (run_prelude_spec _ _ Hpre) as (_ & (E0 & _) & _).
    pose proof (rounds_same_tables _ _ _ Hr) as (E1 & _). congruence. }
  destruct (Z3Model_init_automaton float _ _ _ _ Hinit)
    as (st1 & Hsetup & Hauto1).
  destruct (setup_transitions_start (blank_model a bound delta) st1)
    as (start & q & Htl & _ & _ & Htgt & Hev & _);
    [exact Hwf|reflexivity|exact Hsetup|].
  simpl in Htl.
  destruct (reported_state float _ _ _ _ _ _ _ _ Hinit Hsound Hrun Hin)
    as (st3 & n3 & _ & _ & _ & Hm & _ & _ & Hch & _).
  pose proof (Z3Model_init_spec float _ _ _ _ Hinit) as (Hnb & _).
  assert (Hp0 : iv m (Path Faulty 0) = Z.of_nat (getNbTransition a)).
  { destruct Hch as (Hpin & _).
    pose proof (models_In _ _ _ Hm (Hpin Faulty)) as H. simpl in H.
    apply Z.eqb_eq in H. rewrite H, Hnb. lia. }
  destruct (reported_paths float _ _ _ _ _ _ _ _ Faulty 0%nat
              Hinit Hsound Hrun Hin) as (j & t & Ht & Hp & Hid); [lia|].
  assert (j = getNbTransition a) by lia. subst j.
  assert (t = start).
  { rewrite Hauto1, Htl in Ht. unfold getNbTransition in Ht.
    rewrite lookup_app_r in Ht by lia. rewrite Nat.sub_diag in Ht.
    simpl in Ht. congruence. }
  subst t.
  unfold checkModel. rewrite Hns.
  destruct n as [|n]; [lia|].
  unfold range. cbn [seq checkModel_loop].
  rewrite Hid, Hev. cbn [Z.eqb NO_OBS].
  unfold getTransitionAt_int. rewrite Hauto, Hp.
  assert (Hlen : length (transitionList (automaton st))
                 = S (getNbTransition a))
    by (unfold getNbTransition in Hnb; exact Hnb).
  rewrite Hlen.
  replace ((0 <=? Z.of_nat (getNbTransition a))
           && (Z.of_nat (getNbTransition a)
               <? Z.of_nat (S (getNbTransition a)))) with true
    by (symmetry; apply andb_true_iff; split;
        [apply Z.leb_le|apply Z.ltb_lt]; lia).
  cbn [assert mbind result_bind]. rewrite Nat2Z.id.
  rewrite Hauto1, Htl. unfold getNbTransition.
  rewrite (lookup_app_r (transitionList a) [start]
             (length (transitionList a))) by lia.
  rewrite Nat.sub_diag.
  cbn [lookup list_lookup or_raise mbind result_bind].
  unfold getId. rewrite Htgt. reflexivity.
Qed.

End CheckModel.

Lemma parse_well_formed int_of_str context a bound delta :
  Parser.parse int_of_str context = Ok (a, bound, delta) -> well_formed a.
Proof.
  intros H. apply parse_inv in H
    as (header_line & i & evd & clocks & ts & evd' & maxstate & il & idict
        & a0 & _ & _ & _ & _ & _ & Ha0 & Hadd).
  destruct (Automaton_init_spec i (length clocks) (Z.of_nat (size evd') - 3)
              (Z.of_nat (size evd') - 2) idict)
    as (a0' & Ha0' & Hwf0 & _).
  rewrite Ha0 in Ha0'. injection Ha0' as <-.
  apply (add_transitions_spec il ts a0 a Hwf0 Hadd).
Qed.

Lemma checkModel_rejects_reported_models_witness :
  checkModel (from_ok empty_model (final fault_run)) critical_pair
  = Raise AssertionError.
Proof.
  refine (checkModel_rejects_reported_models float_of_numeral fault_automaton
            2 3 fault_init (solver_of_model critical_pair) fault_run
            critical_pair 3 _ _ _ _ _ _ _).
  - apply (parse_well_formed int_of_numeral fault_file _ 2 3).
    vm_compute. reflexivity.
  - vm_compute. reflexivity.
  - apply solver_of_model_sound.
  - vm_compute. reflexivity.
  - vm_compute. do 4 right. left. reflexivity.
  - vm_compute. reflexivity.
Defined.

(* ===================================================================== *)
(** ** The invariant section                                              *)
(* ===================================================================== *)

Section InvariantFacts.

Variable int_of_str : string -> result Z.

Hypothesis int_of_str_numeral :
  forall n : nat, int_of_str (str n) = Ok (Z.of_nat n).

Lemma no_space_str n c : is_space c = true -> occurs c (str n) = false.
Proof. intros Hc. apply str_digits, is_space_not_digit, Hc. Qed.

Lemma index_in_range (len k : nat) :
  (k < len)%nat -> index len (Z.of_nat k) = Some k.
Proof.
  intros Hk. unfold index.
  replace ((0 <=? Z.of_nat k) && (Z.of_nat k <? Z.of_nat len)) with true
    by (symmetry; apply andb_true_iff; split;
        [apply Z.leb_le|apply Z.ltb_lt]; lia).
  rewrite Nat2Z.id. reflexivity.
Qed.

Lemma invariant_line_not_header entry :
  (forall c, is_space c = true -> occurs c (snd entry) = false) ->
  String.eqb (strip (invariant_line entry)) "invariant:" = false.
Proof.
  intros Hs. unfold invariant_line, strip.
  rewrite <- !app_assoc_string, rstrip_app_newline.
  destruct (rstrip ((str (fst entry) +:+ " ") +:+ entry.2)) as [|h r] eqn:E.
  - reflexivity.
  - destruct (str (fst entry)) as [|d ds] eqn:Ed;
      [exfalso; apply (str_not_empty _ Ed)|].
    assert (Hd : digit d = true).
    { destruct (digit d) eqn:Hdd; [reflexivity|].
      pose proof (str_digits d (fst entry) Hdd) as H. rewrite Ed in H.
      cbn [occurs] in H. rewrite Ascii.eqb_refl in H. discriminate. }
    assert (Hh : h = d).
    { change ((String d ds +:+ " ") +:+ entry.2)
        with (String d ((ds +:+ " ") +:+ entry.2)) in E.
      cbn [rstrip] in E.
      destruct (rstrip ((ds +:+ " ") +:+ entry.2)).
      - destruct (is_space d); [discriminate|]. congruence.
      - congruence. }
    subst h.
    assert (Hns : is_space d = false).
    { destruct (is_space d) eqn:Hsd; [|reflexivity].
      apply is_space_not_digit in Hsd. congruence. }
    cbn [lstrip]. rewrite Hns.
    destruct (String.eqb (String d r) "invariant:") eqn:Eq; [|reflexivity].
    apply String.eqb_eq in Eq. injection Eq as -> _. discriminate.
Qed.

(** The lines of the invariant section, read one by one. *)
Lemma parse_invariants_entries : forall entries il d,
  Forall (fun entry =>
            (fst entry < length il)%nat
            /\ forall c, is_space c = true -> occurs c (snd entry) = false)
    entries ->
  Parser._parse_invariants_loop int_of_str (map invariant_line entries)
    true il d
  = Ok (with_invariants entries il, with_invariant_dict entries d).
Proof.
  induction entries as [|entry entries IH]; intros il d Hall; [reflexivity|].
  apply Forall_cons in Hall as [[Hk Hs] Hall].
  cbn [map Parser._parse_invariants_loop].
  rewrite (invariant_line_not_header entry Hs).
  assert (Hsp : occurs " " (snd entry +:+ newline) = false)
    by (rewrite occurs_app, (Hs " "%char eq_refl); reflexivity).
  assert (Hparts : split " " (invariant_line entry)
                   = [str (fst entry); snd entry +:+ newline]).
  { unfold invariant_line.
    rewrite (split_first " " "" _ _ (str_digits " " _ eq_refl)),
      (split_char_absent _ _ Hsp). reflexivity. }
  rewrite Hparts. cbn [length Nat.ltb Nat.leb].
  cbn [lookup list_lookup or_raise mbind result_bind].
  assert (E1 : strip (str (fst entry)) = str (fst entry)).
  { unfold strip. rewrite rstrip_no_space by (intros c; apply no_space_str).
    apply lstrip_no_space. intros c. apply no_space_str. }
  rewrite E1, int_of_str_numeral. cbn [mbind result_bind].
  rewrite (index_in_range _ _ Hk). cbn [or_raise mbind result_bind].
  rewrite (strip_line _ Hs).
  rewrite IH; [reflexivity|].
  eapply Forall_impl; [exact Hall|]. intros e [He1 He2].
  split; [rewrite length_insert; exact He1|exact He2].
Qed.

Lemma parse_invariants_skip : forall lines il d,
  Forall (fun line => String.eqb (strip line) "invariant:" = false) lines ->
  forall rest,
    Parser._parse_invariants_loop int_of_str (lines ++ rest) false il d
    = Parser._parse_invariants_loop int_of_str rest false il d.
Proof.
  induction lines as [|line lines IH]; intros il d Hall rest; [reflexivity|].
  apply Forall_cons in Hall as [Hl Hall].
  cbn [app Parser._parse_invariants_loop]. rewrite Hl. apply IH, Hall.
Qed.

(** X28.  How the invariant section is read.  For a file whose lines
    before the line [invariant:] do not strip to that text, and whose
    lines after it are [<state> <invariant>], each ended by a line
    feed, with states below [maxstate + 1] and invariants without white
    space: [_parse_invariants] returns the list of [maxstate + 1]
    invariants that holds, at the index of each state of the section,
    the text of its last line, and the integer 1 elsewhere, and the
    dictionary of those texts.  The state of such a line is used as it
    is written: it is not shifted by [Initial_state] as the states of
    the transition lines are. *)
Theorem parse_invariants_section (lines : list string)
    (entries : list (nat * string)) (maxstate : Z) :
  Forall (fun line => String.eqb (strip line) "invariant:" = false) lines ->
  Forall (fun entry =>
            Z.of_nat (fst entry) <= maxstate
            /\ forall c, is_space c = true -> occurs c (snd entry) = false)
    entries ->
  Parser._parse_invariants int_of_str
    (lines ++ ("invariant:" +:+ newline) :: map invariant_line entries)
    maxstate
  = Ok (with_invariants entries (repeat (InvInt 1) (Z.to_nat (maxstate + 1))),
        with_invariant_dict entries ∅).
Proof.
  intros Hlines Hentries. unfold Parser._parse_invariants.
  rewrite (parse_invariants_skip lines _ _ Hlines).
  cbn [Parser._parse_invariants_loop].
  replace (String.eqb (strip ("invariant:" +:+ newline)) "invariant:")
    with true by reflexivity.
  apply parse_invariants_entries.
  eapply Forall_impl; [exact Hentries|]. intros e [He1 He2].
  split; [rewrite repeat_length; lia|exact He2].
Qed.

End InvariantFacts.

Lemma parse_invariants_section_witness :
  Parser._parse_invariants int_of_numeral
    ([ "Initial_state 1 BOUND 2 DELTA 3 {a} {u} Clocks {c1}" +:+ newline;
       "1 f 2 c1>=0 c1" +:+ newline; newline ]
     ++ ("invariant:" +:+ newline) :: map invariant_line [(1%nat, "5>=c1")])
    1
  = Ok ([InvInt 1; InvStr "5>=c1"], {[ 1 := "5>=c1" ]}).
Proof.
  refine (parse_invariants_section int_of_numeral _ _ [(1%nat, "5>=c1")] 1
            _ _).
  - intros n. unfold int_of_numeral, str.
    rewrite (NilZero.usu _ (to_uint_not_Nil n)), Unsigned.of_to. reflexivity.
  - repeat constructor.
  - constructor; [|constructor]. split; [simpl; lia|]. simpl.
    intros c Hc. destruct c as [[] [] [] [] [] [] [] []];
      first [discriminate Hc | reflexivity].
Defined.

(* ===================================================================== *)
(** ** The diagnosers                                                     *)
(* ===================================================================== *)

Lemma reaches_left succ x y z :
  row_step succ x y -> reaches succ y z -> reaches succ x z.
Proof.
  intros Hxy Hyz. induction Hyz as [y z Hyz|y z w Hyz IH Hzw].
  - eapply reaches_more; [apply reaches_step, Hxy|exact Hyz].
  - eapply reaches_more; [apply IH, Hxy|exact Hzw].
Qed.

Lemma visit_spec : forall row seen seen' added,
  visit row seen = (seen', added) ->
  seen' = seen ∪ list_to_set row
  /\ seen' = seen ∪ list_to_set added
  /\ (forall y, In y added -> In y row /\ y ∉ seen)
  /\ NoDup added.
Proof.
  induction row as [|x row IH]; intros seen seen' added H; simpl in H.
  - injection H as <- <-.
    split; [rewrite list_to_set_nil, union_empty_r_L; reflexivity|].
    split; [rewrite list_to_set_nil, union_empty_r_L; reflexivity|].
    split; [intros y []|constructor].
  - destruct (decide (x ∈ seen)) as [Hx|Hx].
    + destruct (IH _ _ _ H) as (E1 & E2 & Hin & Hnd).
      split.
      { rewrite list_to_set_cons, E1. apply set_eq. intros y.
        rewrite !elem_of_union, elem_of_singleton.
        split; [intros [?|?]; auto|intros [?|[->|?]]; auto]. }
      split; [exact E2|].
      split; [|exact Hnd]. intros y Hy. destruct (Hin y Hy).
      split; [right; assumption|assumption].
    + destruct (visit row (seen ∪ {[x]})) as [s' ad] eqn:E.
      injection H as <- <-.
      destruct (IH _ _ _ E) as (E1 & E2 & Hin & Hnd).
      split; [rewrite list_to_set_cons, E1, (assoc_L (∪)); reflexivity|].
      split; [rewrite list_to_set_cons, E2, (assoc_L (∪)); reflexivity|].
      split.
      * intros y [<-|Hy]; [split; [left; reflexivity|exact Hx]|].
        destruct (Hin y Hy) as [H1 H2]. split; [right; exact H1|].
        intros Hs. apply H2. apply elem_of_union_l, Hs.
      * constructor; [|exact Hnd].
        intros Hxin. apply list_elem_of_In in Hxin.
        destruct (Hin x Hxin) as [_ H2]. apply H2.
        apply elem_of_union_r, elem_of_singleton. reflexivity.
Qed.

Lemma visit_length (U : gset nat) : forall row seen seen' added,
  (forall y, In y row -> y ∈ U) ->
  visit row seen = (seen', added) ->
  (length added + size (U ∖ seen') = size (U ∖ seen))%nat.
Proof.
  induction row as [|x row IH]; intros seen seen' added HU H; simpl in H.
  - injection H as <- <-. reflexivity.
  - destruct (decide (x ∈ seen)) as [Hx|Hx].
    + apply (IH _ _ _ (fun y Hy => HU y (or_intror Hy)) H).
    + destruct (visit row (seen ∪ {[x]})) as [s' ad] eqn:E.
      injection H as <- <-.
      pose proof (IH _ _ _ (fun y Hy => HU y (or_intror Hy)) E) as Hlen.
      assert (Hsz : size (U ∖ seen) = S (size (U ∖ (seen ∪ {[x]})))).
      { assert (Heq : U ∖ seen = {[x]} ∪ U ∖ (seen ∪ {[x]})).
        { apply set_eq. intros y. rewrite elem_of_union, !elem_of_difference,
            elem_of_union, elem_of_singleton.
          split.
          - intros [Hy Hn]. destruct (decide (y = x)); [left; auto|].
            right. split; [auto|]. intros [?|?]; auto.
          - intros [->|[Hy Hn]]; [split; [apply HU; left; reflexivity|exact Hx]|].
            split; [auto|]. intros ?. apply Hn. auto. }
        rewrite Heq, size_union, size_singleton; [reflexivity|].
        apply disjoint_singleton_l. intros Hd.
        apply elem_of_difference in Hd as [_ Hd]. apply Hd.
        apply elem_of_union_r, elem_of_singleton. reflexivity. }
      simpl. lia.
Qed.

Lemma visit_idle : forall row seen,
  (forall y, In y row -> y ∈ seen) -> visit row seen = (seen, []).
Proof.
  induction row as [|x row IH]; intros seen H; simpl; [reflexivity|].
  rewrite decide_True by (apply H; left; reflexivity).
  apply IH. intros y Hy. apply H. right. exact Hy.
Qed.

Section Closure.

Variable succ : nat -> result (list nat).
Variable U : gset nat.
Hypothesis rows_in_U :
  forall x row y, succ x = Ok row -> In y row -> y ∈ U.

Lemma reaches_in_U x y : reaches succ x y -> y ∈ U.
Proof.
  intros H. destruct H as [x y (row & Hr & Hy)|x y z _ (row & Hr & Hz)];
    eapply rows_in_U; eassumption.
Qed.

(** One pass of the loop. *)
Lemma scan_spec : forall fuel queue seen new_level,
  (length queue + size (U ∖ seen) < fuel)%nat ->
  exists res,
    scan fuel succ queue seen new_level = Some res
    /\ match res with
       | Raise e => exists x, met succ queue x /\ succ x = Raise e
       | Ok (seen', new') =>
           exists added,
             new' = new_level ++ added
             /\ seen' = seen ∪ list_to_set added
             /\ (forall y, In y added -> y ∉ seen)
             /\ NoDup added
             /\ (forall x, In x (queue ++ added) ->
                   exists row, succ x = Ok row
                               /\ forall y, In y row -> y ∈ seen')
             /\ (forall y, In y added ->
                   exists x, In x queue /\ reaches succ x y)
       end.
Proof.
  induction fuel as [|fuel IH]; intros queue seen new_level Hfuel; [lia|].
  destruct queue as [|item rest].
  - eexists. split; [reflexivity|]. exists [].
    rewrite !app_nil_r. split; [reflexivity|].
    split; [rewrite list_to_set_nil, union_empty_r_L; reflexivity|].
    split; [intros y []|]. split; [constructor|].
    split; intros ? [].
  - cbn [scan]. destruct (succ item) as [row|e] eqn:Hrow.
    + destruct (visit row seen) as [seen1 added1] eqn:Hvisit.
      destruct (visit_spec _ _ _ _ Hvisit) as (E1 & E2 & Hin1 & Hnd1).
      pose proof (visit_length U _ _ _ _
                    (fun y Hy => rows_in_U _ _ _ Hrow Hy) Hvisit) as Hlen.
      destruct (IH (rest ++ added1) seen1 (new_level ++ added1))
        as (res & Hres & Hspec).
      { rewrite length_app. simpl in Hfuel. lia. }
      exists res. split; [exact Hres|].
      destruct res as [[seen' new']|e].
      * destruct Hspec as (added2 & En & Es & Hnot & Hnd2 & Hclosed & Hreach).
        exists (added1 ++ added2).
        split; [rewrite En, <- app_assoc; reflexivity|].
        split; [rewrite Es, E2, list_to_set_app_L, (assoc_L (∪));
                reflexivity|].
        split.
        { intros y Hy. apply in_app_iff in Hy as [Hy|Hy].
          - apply (Hin1 y Hy).
          - intros Hs. apply (Hnot y Hy). rewrite E2.
            apply elem_of_union_l, Hs. }
        split.
        { apply NoDup_app. split; [exact Hnd1|]. split; [|exact Hnd2].
          intros y Hy1 Hy2. apply list_elem_of_In in Hy1, Hy2.
          apply (Hnot y Hy2). rewrite E2.
          apply elem_of_union_r, elem_of_list_to_set, list_elem_of_In, Hy1. }
        split.
        { intros x Hx. cbn [app] in Hx. destruct Hx as [<-|Hx].
          - exists row. split; [exact Hrow|]. intros y Hy.
            rewrite Es, E1. apply elem_of_union_l, elem_of_union_r.
            apply elem_of_list_to_set, list_elem_of_In, Hy.
          - apply Hclosed. rewrite <- app_assoc. exact Hx. }
        { intros y Hy. apply in_app_iff in Hy as [Hy|Hy].
          - exists item. split; [left; reflexivity|].
            apply reaches_step. exists row. split; [exact Hrow|].
            apply (Hin1 y Hy).
          - destruct (Hreach y Hy) as (x & Hx & Hxy).
            apply in_app_iff in Hx as [Hx|Hx].
            + exists x. split; [right; exact Hx|exact Hxy].
            + exists item. split; [left; reflexivity|].
              apply (reaches_left succ item x y); [|exact Hxy].
              exists row. split; [exact Hrow|apply (Hin1 x Hx)]. }
      * destruct Hspec as (x & Hmet & Hx). exists x. split; [|exact Hx].
        assert (Hstep : forall w, In w added1 -> row_step succ item w)
          by (intros w Hw; exists row; split;
              [exact Hrow|apply (Hin1 w Hw)]).
        destruct Hmet as [Hin|(w & Hw & Hwx)].
        -- apply in_app_iff in Hin as [Hin|Hin].
           ++ left. right. exact Hin.
           ++ right. exists item. split; [left; reflexivity|].
              apply reaches_step, Hstep, Hin.
        -- apply in_app_iff in Hw as [Hw|Hw].
           ++ right. exists w. split; [right; exact Hw|exact Hwx].
           ++ right. exists item. split; [left; reflexivity|].
              apply (reaches_left succ item w x); [apply Hstep, Hw|exact Hwx].
    + eexists. split; [reflexivity|]. exists item.
      split; [left; left; reflexivity|exact Hrow].
Qed.

(** A pass over items whose rows are already in the set changes
    nothing. *)
Lemma scan_idle : forall fuel queue seen new_level,
  (length queue < fuel)%nat ->
  (forall x, In x queue ->
     exists row, succ x = Ok row /\ forall y, In y row -> y ∈ seen) ->
  scan fuel succ queue seen new_level = Some (Ok (seen, new_level)).
Proof.
  induction fuel as [|fuel IH]; intros queue seen new_level Hfuel Hq; [lia|].
  destruct queue as [|item rest]; [reflexivity|].
  cbn [scan]. destruct (Hq item (or_introl eq_refl)) as (row & -> & Hrow).
  rewrite (visit_idle row seen Hrow), !app_nil_r.
  apply IH; [simpl in Hfuel; lia|].
  intros x Hx. apply Hq. right. exact Hx.
Qed.

(** The loops of the diagnosers close the work list: they end, and
    unless a row cannot be read, the set holds exactly the items reached
    from the work list, and the work list those and its own. *)
Lemma closure_spec (bound : nat) (work : list nat) :
  (size U <= bound)%nat ->
  exists res,
    closure bound succ work = Some res
    /\ match res with
       | Raise e => exists x, met succ work x /\ succ x = Raise e
       | Ok (seen, work') =>
           (forall y, y ∈ seen <-> exists x, In x work /\ reaches succ x y)
           /\ (forall y, In y work' <-> In y work \/ y ∈ seen)
           /\ (forall x, met succ work x -> exists row, succ x = Ok row)
       end.
Proof.
  intros Hbound. unfold closure.
  destruct work as [|w0 work0] eqn:Ework.
  - eexists. split; [reflexivity|]. split; [|split].
    + intros y. split; [intros Hy; apply elem_of_empty in Hy; destruct Hy|].
      intros (x & [] & _).
    + intros y. split; [intros []|].
      intros [[]|Hy]. apply elem_of_empty in Hy. destruct Hy.
    + intros x [[]|(w & [] & _)].
  - rewrite <- Ework. set (fuel := S (length work + bound)).
    assert (Hne : work <> []) by (rewrite Ework; discriminate).
    destruct (scan_spec fuel work ∅ []) as (res & Hres & Hspec).
    { unfold fuel. assert (size (U ∖ ∅) <= size U)%nat
        by (apply subseteq_size; intros y Hy;
            apply elem_of_difference in Hy as [Hy _]; exact Hy).
      lia. }
    assert (Hw : while_scan 2 fuel succ work ∅ true
                 = match scan fuel succ work ∅ [] with
                   | None => None
                   | Some (Raise e) => Some (Raise e)
                   | Some (Ok (seen', new_level)) =>
                       while_scan 1 fuel succ (work ++ new_level) seen'
                         (match new_level with [] => false | _ => true end)
                   end)
      by (rewrite Ework; reflexivity).
    rewrite Hw, Hres. clear Hw.
    destruct res as [[seen1 new1]|e]; [|eexists; split; [reflexivity|exact Hspec]].
    destruct Hspec as (added & En & Es & _ & Hnd & Hclosed & Hreach).
    simpl in En. subst new1.
    assert (Hseen : forall y, y ∈ seen1 <-> In y added).
    { intros y. rewrite Es, elem_of_union, elem_of_list_to_set,
        list_elem_of_In.
      split; [intros [Hy|Hy]; [apply elem_of_empty in Hy; destruct Hy|exact Hy]
             |auto]. }
    assert (Hchar : forall y,
              y ∈ seen1 <-> exists x, In x work /\ reaches succ x y).
    { intros y. split.
      - intros Hy. apply Hreach, Hseen, Hy.
      - intros (x & Hx & Hxy).
        induction Hxy as [x y (row & Hr & Hy)|x y z Hxy IH (row & Hr & Hz)].
        + destruct (Hclosed x) as (row' & Hr' & Hin);
            [apply in_app_iff; left; exact Hx|].
          rewrite Hr in Hr'. injection Hr' as <-. apply Hin, Hy.
        + specialize (IH Hx).
          destruct (Hclosed y) as (row' & Hr' & Hin);
            [apply in_app_iff; right; apply Hseen, IH|].
          rewrite Hr in Hr'. injection Hr' as <-. apply Hin, Hz. }
    assert (Hmet : forall x, met succ work x -> exists row, succ x = Ok row).
    { intros x [Hx|(w & Hw & Hwx)].
      - destruct (Hclosed x) as (row & Hr & _);
          [apply in_app_iff; left; exact Hx|]. eauto.
      - destruct (Hclosed x) as (row & Hr & _); [|eauto].
        apply in_app_iff. right. apply Hseen, Hchar. eauto. }
    assert (Hfinal : forall y, In y (work ++ added) <-> In y work \/ y ∈ seen1)
      by (intros y; rewrite in_app_iff, Hseen; reflexivity).
    assert (Hfalse : forall passes l,
              while_scan passes fuel succ l seen1 false = Some (Ok (seen1, l)))
      by (intros [|?] [|? ?]; reflexivity).
    exists (Ok (seen1, work ++ added)).
    split; [|split; [exact Hchar|split; [exact Hfinal|exact Hmet]]].
    destruct (decide (added = [])) as [->|Hadded].
    + rewrite Hfalse. reflexivity.
    + replace (match added with [] => false | _ :: _ => true end) with true
        by (destruct added; [contradiction|reflexivity]).
      assert (Hlen : (length added <= bound)%nat).
      { rewrite <- (size_list_to_set (C := gset nat) added Hnd).
        etransitivity; [|exact Hbound]. apply subseteq_size.
        intros y Hy. apply elem_of_list_to_set, list_elem_of_In in Hy.
        destruct (Hreach y Hy) as (x & _ & Hxy).
        apply (reaches_in_U _ _ Hxy). }
      assert (Hidle : scan fuel succ (work ++ added) seen1 []
                      = Some (Ok (seen1, []))).
      { apply scan_idle; [unfold fuel; rewrite length_app; lia|].
        exact Hclosed. }
      assert (Hw1 : forall l, l <> [] ->
                while_scan 1 fuel succ l seen1 true
                = match scan fuel succ l seen1 [] with
                  | None => None
                  | Some (Raise e) => Some (Raise e)
                  | Some (Ok (seen', new_level)) =>
                      while_scan 0 fuel succ (l ++ new_level) seen'
                        (match new_level with [] => false | _ => true end)
                  end)
        by (intros [|? ?] Hl; [contradiction|reflexivity]).
      rewrite Hw1 by (rewrite Ework; discriminate).
      rewrite Hidle, Hfalse, app_nil_r. reflexivity.
Qed.

End Closure.

Lemma size_list_to_set_le (l : list nat) :
  (size (list_to_set l : gset nat) <= length l)%nat.
Proof.
  induction l as [|x l IH]; [rewrite list_to_set_nil, size_empty; lia|].
  rewrite list_to_set_cons, size_union_alt, size_singleton.
  assert (size (list_to_set l ∖ ({[x]} : gset nat))
          <= size (list_to_set l : gset nat))%nat
    by (apply subseteq_size; intros y Hy;
        apply elem_of_difference in Hy as [Hy _]; exact Hy).
  simpl. lia.
Qed.

Lemma reaches_reverse succ succ' :
  (forall x y, row_step succ x y -> row_step succ' y x) ->
  forall x y, reaches succ x y -> reaches succ' y x.
Proof.
  intros Hrev x y H. induction H as [x y Hxy|x y z Hxy IH Hyz].
  - apply reaches_step, Hrev, Hxy.
  - apply (reaches_left succ' z y x); [apply Hrev, Hyz|exact IH].
Qed.

Lemma faultTransitions_spec a f :
  In f (faultTransitions a)
  <-> exists t, transitionList a !! f = Some t /\ getEventId t = 1.
Proof.
  unfold faultTransitions. rewrite filter_In. split.
  - intros [_ H]. destruct (transitionList a !! f) as [t|]; [|discriminate].
    exists t. split; [reflexivity|]. apply Z.eqb_eq, H.
  - intros (t & Ht & He). split.
    + apply range_In. apply lookup_lt_Some in Ht. exact Ht.
    + rewrite Ht. apply Z.eqb_eq, He.
Qed.

Lemma next_row_step N x y :
  row_step (next_row N) x y <-> exists row, N !! x = Some row /\ In y row.
Proof.
  unfold row_step, next_row. split.
  - intros (row & Hr & Hy). apply or_raise_Ok in Hr. eauto.
  - intros (row & Hr & Hy). exists row. rewrite Hr. auto.
Qed.

Lemma previous_row_step N x y :
  row_step (previous_row N) y x <-> row_step (next_row N) x y.
Proof.
  rewrite next_row_step. unfold row_step, previous_row. split.
  - intros (row & Hr & Hx). injection Hr as <-.
    apply filter_In in Hx as [_ Hx].
    destruct (N !! x) as [row|]; [|discriminate].
    exists row. split; [reflexivity|].
    apply bool_decide_eq_true in Hx. apply list_elem_of_In, Hx.
  - intros (row & Hr & Hy). eexists. split; [reflexivity|].
    apply filter_In. split.
    + apply range_In. apply lookup_lt_Some in Hr. exact Hr.
    + rewrite Hr. apply bool_decide_eq_true, list_elem_of_In, Hy.
Qed.

(** The table [getnextTransition] computes has one row per transition,
    and its rows hold indices of transitions. *)
Lemma getnextTransition_rows a :
  length (getnextTransition a) = length (transitionList a)
  /\ forall i row y,
       getnextTransition a !! i = Some row -> In y row ->
       (y < length (transitionList a))%nat.
Proof.
  unfold getnextTransition. split; [apply length_map|].
  intros i row y Hr Hy. rewrite map_lookup in Hr.
  destruct (transitionList a !! i) as [t|]; [|discriminate].
  injection Hr as <-. apply leaving_bound in Hy. exact Hy.
Qed.

(** X29.  The fault diagnoser.  On a table [self.nextTransition] with a
    row for every transition and rows that hold indices of rows (as
    [getnextTransition] fills it), [getFaultDiagnoser] terminates
    without an exception; when the automaton has a fault transition it
    returns exactly the fault transitions, the transitions reached from
    one of them along the table, and the transitions from which one of
    them is reached; when it has none it returns the cached value. *)
Theorem getFaultDiagnoser_spec a N cached :
  (length (transitionList a) <= length N)%nat ->
  (forall i row y, N !! i = Some row -> In y row -> (y < length N)%nat) ->
  exists S,
    getFaultDiagnoser a N cached = Some (Ok S)
    /\ (faultTransitions a = [] -> S = cached)
    /\ (faultTransitions a <> [] ->
        forall j, j ∈ S
          <-> In j (faultTransitions a)
              \/ (exists f, In f (faultTransitions a)
                            /\ reaches (next_row N) f j)
              \/ (exists f, In f (faultTransitions a)
                            /\ reaches (next_row N) j f)).
Proof.
  intros Hlen Hok. unfold getFaultDiagnoser.
  destruct (faultTransitions a) as [|f0 faults0] eqn:Efaults.
  - exists cached. split; [reflexivity|]. split; [reflexivity|].
    intros H. contradiction.
  - rewrite <- Efaults. set (faults := faultTransitions a) in *.
    assert (Hfaults : forall f, In f faults -> (f < length N)%nat).
    { intros f Hf. apply faultTransitions_spec in Hf as (t & Ht & _).
      apply lookup_lt_Some in Ht. lia. }
    (* the forward closure *)
    destruct (closure_spec (next_row N) (list_to_set (concat N))) with
      (bound := length (concat N)) (work := faults)
      as (res & Hres & Hspec).
    { intros x row y Hr Hy. unfold next_row in Hr. apply or_raise_Ok in Hr.
      apply elem_of_list_to_set, list_elem_of_In, in_concat.
      exists row. split; [|exact Hy].
      apply list_elem_of_In. eapply list_elem_of_lookup_2, Hr. }
    { apply size_list_to_set_le. }
    rewrite Hres.
    destruct res as [[fd work1]|e].
    2:{ exfalso. destruct Hspec as (x & Hmet & Hx).
        assert (Hlt : (x < length N)%nat).
        { destruct Hmet as [Hin|(w & Hw & Hwx)]; [apply Hfaults, Hin|].
          destruct Hwx as [w x Hs|w y x _ Hs];
            apply next_row_step in Hs as (row & Hr & Hy);
            apply (Hok _ _ _ Hr Hy). }
        unfold next_row in Hx.
        destruct (lookup_lt_is_Some_2 N x Hlt) as [row Hr].
        rewrite Hr in Hx. discriminate. }
    destruct Hspec as (Hfd & _ & _).
    (* the backward closure *)
    destruct (closure_spec (previous_row N)
                (list_to_set (range (length N)))) with
      (bound := length N) (work := faults)
      as (res & Hres' & Hspec').
    { intros x row y Hr Hy. unfold previous_row in Hr. injection Hr as <-.
      apply filter_In in Hy as [Hy _].
      apply elem_of_list_to_set, list_elem_of_In, Hy. }
    { etransitivity; [apply size_list_to_set_le|].
      unfold range. rewrite length_seq. lia. }
    rewrite Hres'.
    destruct res as [[ffd work2]|e].
    2:{ exfalso. destruct Hspec' as (x & _ & Hx). discriminate. }
    destruct Hspec' as (Hffd & _ & _).
    eexists. split; [reflexivity|]. split.
    { intros E. subst faults. congruence. }
    intros _ j.
    rewrite !elem_of_union, elem_of_list_to_set, list_elem_of_In, Hfd, Hffd.
    split.
    + intros [[(f & Hf & Hr)|(f & Hf & Hr)]|Hj].
      * right; left. eauto.
      * right; right. exists f. split; [exact Hf|].
        apply (reaches_reverse (previous_row N) (next_row N)); [|exact Hr].
        intros x y. apply previous_row_step.
      * left. exact Hj.
    + intros [Hj|[(f & Hf & Hr)|(f & Hf & Hr)]].
      * right. exact Hj.
      * left; left. eauto.
      * left; right. exists f. split; [exact Hf|].
        apply (reaches_reverse (next_row N) (previous_row N)); [|exact Hr].
        intros x y. apply previous_row_step.
Qed.

Lemma getFaultDiagnoser_spec_witness :
  exists S,
    getFaultDiagnoser fault_automaton (getnextTransition fault_automaton) ∅
    = Some (Ok S)
    /\ (faultTransitions fault_automaton = [] -> S = ∅)
    /\ (faultTransitions fault_automaton <> [] ->
        forall j, j ∈ S
          <-> In j (faultTransitions fault_automaton)
              \/ (exists f, In f (faultTransitions fault_automaton)
                            /\ reaches
                                 (next_row (getnextTransition fault_automaton))
                                 f j)
              \/ (exists f, In f (faultTransitions fault_automaton)
                            /\ reaches
                                 (next_row (getnextTransition fault_automaton))
                                 j f)).
Proof.
  refine (getFaultDiagnoser_spec fault_automaton
            (getnextTransition fault_automaton) ∅ _ _).
  - vm_compute. lia.
  - apply (proj2 (getnextTransition_rows fault_automaton)).
Defined.

Lemma for_each_filter {A} (f : A -> bool) (g : A -> result (list A))
    (l : list A) :
  (forall x, In x l -> g x = Ok (if f x then [x] else [])) ->
  for_each g l = Ok (List.filter f l).
Proof.
  induction l as [|x l IH]; intros H; [reflexivity|].
  cbn [for_each List.filter]. rewrite (H x (or_introl eq_refl)).
  cbn [mbind result_bind]. rewrite IH by (intros y Hy; apply H; right; exact Hy).
  cbn [mbind result_bind]. destruct (f x); reflexivity.
Qed.

(** The items [getNormalDiagnoser] starts from. *)
Lemma mother_spec a init :
  getInitialState a = Ok init ->
  mother a
  = Ok (List.filter (fun i =>
          match transitionList a !! i with
          | Some t => state_eq (getSourceState t) init
                      && negb (getEventId t =? 1)
          | None => false
          end) (range (length (transitionList a)))).
Proof.
  intros Hinit. unfold mother. apply for_each_filter.
  intros i Hi. unfold range in Hi. apply in_seq in Hi.
  destruct (lookup_lt_is_Some_2 (transitionList a) i) as [t Ht]; [lia|].
  rewrite Ht, Hinit. reflexivity.
Qed.

(** The rows [getNormalDiagnoser] visits. *)
Lemma normal_row_spec a N item row :
  N !! item = Some row ->
  (forall y, In y row -> (y < length (transitionList a))%nat) ->
  normal_row a N item
  = Ok (List.filter (fun node =>
          match transitionList a !! node with
          | Some t => negb (getEventId t =? 1)
          | None => false
          end) row).
Proof.
  intros Hr Hrow. unfold normal_row. rewrite Hr.
  cbn [or_raise mbind result_bind]. apply for_each_filter.
  intros y Hy.
  destruct (lookup_lt_is_Some_2 (transitionList a) y (Hrow y Hy)) as [t Ht].
  rewrite Ht. reflexivity.
Qed.

(** X30.  The normal diagnoser.  On a table [self.nextTransition] with a
    row for every transition and rows that hold indices of transitions
    (as [getnextTransition] fills it), and when the initial state
    exists, [getNormalDiagnoser] terminates without an exception and
    returns exactly the transitions that leave the initial state with an
    event other than the fault, and the transitions reached from one of
    them along the table through transitions that are not faults; the
    set holds no fault transition. *)
Theorem getNormalDiagnoser_spec a N init :
  getInitialState a = Ok init ->
  length N = length (transitionList a) ->
  (forall i row y, N !! i = Some row -> In y row ->
     (y < length (transitionList a))%nat) ->
  exists S starts,
    getNormalDiagnoser a N = Some (Ok S)
    /\ mother a = Ok starts
    /\ (forall i, In i starts
          <-> exists t, transitionList a !! i = Some t
                        /\ state_eq (getSourceState t) init = true
                        /\ getEventId t <> 1)
    /\ (forall j, j ∈ S
          <-> exists i, In i starts
                        /\ (i = j \/ reaches (normal_row a N) i j))
    /\ (forall j, j ∈ S ->
          exists t, transitionList a !! j = Some t /\ getEventId t <> 1).
Proof.
  intros Hinit Hlen Hok. unfold getNormalDiagnoser.
  rewrite (mother_spec a init Hinit).
  set (starts := List.filter _ (range (length (transitionList a)))).
  assert (Hstarts : forall i, In i starts
            <-> exists t, transitionList a !! i = Some t
                          /\ state_eq (getSourceState t) init = true
                          /\ getEventId t <> 1).
  { intros i. unfold starts. rewrite filter_In. split.
    - intros [_ H]. destruct (transitionList a !! i) as [t|]; [|discriminate].
      apply andb_true_iff in H as [H1 H2].
      exists t. split; [reflexivity|]. split; [exact H1|].
      apply negb_true_iff, Z.eqb_neq in H2. exact H2.
    - intros (t & Ht & H1 & H2). split.
      + apply range_In. apply lookup_lt_Some in Ht. exact Ht.
      + rewrite Ht, H1. apply negb_true_iff, Z.eqb_neq, H2. }
  assert (Hrow : forall x, (x < length N)%nat ->
            exists row, N !! x = Some row
              /\ normal_row a N x
                 = Ok (List.filter (fun node =>
                         match transitionList a !! node with
                         | Some t => negb (getEventId t =? 1)
                         | None => false
                         end) row)).
  { intros x Hx. destruct (lookup_lt_is_Some_2 N x Hx) as [row Hr].
    exists row. split; [exact Hr|].
    apply (normal_row_spec a N x row Hr). intros y Hy. apply (Hok _ _ _ Hr Hy). }
  assert (Hstep : forall x y, row_step (normal_row a N) x y ->
            (y < length N)%nat
            /\ exists t, transitionList a !! y = Some t /\ getEventId t <> 1).
  { intros x y (row & Hr & Hy).
    assert (Hx : (x < length N)%nat).
    { unfold normal_row in Hr.
      destruct (N !! x) as [r0|] eqn:E; [|discriminate].
      apply lookup_lt_Some in E. exact E. }
    destruct (Hrow x Hx) as (row0 & Hr0 & Hn). rewrite Hn in Hr.
    injection Hr as <-. apply filter_In in Hy as [Hy Hf].
    split; [rewrite Hlen; apply (Hok _ _ _ Hr0 Hy)|].
    destruct (transitionList a !! y) as [t|]; [|discriminate].
    exists t. split; [reflexivity|].
    apply negb_true_iff, Z.eqb_neq in Hf. exact Hf. }
  destruct (closure_spec (normal_row a N) (list_to_set (concat N))) with
    (bound := length (concat N)) (work := starts)
    as (res & Hres & Hspec).
  { intros x row y Hr Hy. destruct (Hstep x y) as [Hlt _];
      [exists row; auto|].
    assert (Hx : (x < length N)%nat).
    { unfold normal_row in Hr.
      destruct (N !! x) as [r0|] eqn:E; [|discriminate].
      apply lookup_lt_Some in E. exact E. }
    destruct (Hrow x Hx) as (row0 & Hr0 & Hn). rewrite Hn in Hr.
    injection Hr as <-. apply filter_In in Hy as [Hy _].
    apply elem_of_list_to_set, list_elem_of_In, in_concat.
    exists row0. split; [|exact Hy].
    apply list_elem_of_In. eapply list_elem_of_lookup_2, Hr0. }
  { apply size_list_to_set_le. }
  rewrite Hres.
  destruct res as [[nd work']|e].
  2:{ exfalso. destruct Hspec as (x & Hmet & Hx).
      assert (Hlt : (x < length N)%nat).
      { destruct Hmet as [Hin|(w & Hw & Hwx)].
        - apply Hstarts in Hin as (t & Ht & _).
          apply lookup_lt_Some in Ht. lia.
        - destruct Hwx as [w x Hs|w y x _ Hs]; apply (Hstep _ _ Hs). }
      destruct (Hrow x Hlt) as (row & _ & Hn). rewrite Hn in Hx.
      discriminate. }
  destruct Hspec as (Hnd & Hwork & _).
  exists (nd ∪ list_to_set work'), starts.
  split; [reflexivity|]. split; [reflexivity|]. split; [exact Hstarts|].
  assert (Hchar : forall j, j ∈ nd ∪ list_to_set work'
            <-> exists i, In i starts
                          /\ (i = j \/ reaches (normal_row a N) i j)).
  { intros j.
    rewrite elem_of_union, elem_of_list_to_set, list_elem_of_In, Hwork, Hnd.
    split.
    - intros [(i & Hi & Hr)|[Hj|(i & Hi & Hr)]]; eauto.
    - intros (i & Hi & [->|Hr]); [right; left; exact Hi|left; eauto]. }
  split; [exact Hchar|].
  intros j Hj. apply Hchar in Hj as (i & Hi & [->|Hr]).
  - apply Hstarts in Hi as (t & Ht & _ & He). eauto.
  - destruct Hr as [w x Hs|w y x _ Hs]; apply (Hstep _ _ Hs).
Qed.

Lemma getNormalDiagnoser_spec_witness :
  exists S starts,
    getNormalDiagnoser fault_automaton (getnextTransition fault_automaton)
    = Some (Ok S)
    /\ mother fault_automaton = Ok starts
    /\ (forall i, In i starts
          <-> exists t, transitionList fault_automaton !! i = Some t
                        /\ state_eq (getSourceState t)
                             (mkState 0 (InvInt 1)) = true
                        /\ getEventId t <> 1)
    /\ (forall j, j ∈ S
          <-> exists i, In i starts
                        /\ (i = j
                            \/ reaches
                                 (normal_row fault_automaton
                                    (getnextTransition fault_automaton)) i j))
    /\ (forall j, j ∈ S ->
          exists t, transitionList fault_automaton !! j = Some t
                    /\ getEventId t <> 1).
Proof.
  refine (getNormalDiagnoser_spec fault_automaton
            (getnextTransition fault_automaton) (mkState 0 (InvInt 1))
            _ _ _).
  - vm_compute. reflexivity.
  - apply (proj1 (getnextTransition_rows fault_automaton)).
  - apply (proj2 (getnextTransition_rows fault_automaton)).
Defined.
